(** * Job-Busters: admission control, job cache, snapshots, cadence and scoring

    A shallow embedding of the analysis pipeline of the repository:

    - [utils/supabase/action.ts]   (request lock, job tables, snapshots),
    - [app/db/jobSnapshots.ts]     (exact hashes, simhash, change detection),
    - [app/scoring/score.ts]       (per-signal features and the aggregator),
    - [app/orchestrator/analyzeJob.ts] (the cache / re-ingest decision).

    Conventions of the embedding.
    - A JavaScript [string] is a Rocq [string]: the sequence of its UTF-8
      bytes.  The word characters ([\w]) are the ASCII ones; lower-casing
      maps the ASCII capitals, KELVIN SIGN (to [k]) and I WITH DOT ABOVE
      (to [i] and a combining dot), the only code points whose lower case
      holds a word character.
    - A [bigint] is a [Z].
    - A finite JavaScript [number] is a rational [Q].  The aggregator
      [finalizeScore] and the buzzword penalty compute as the code does, in
      binary64: every number read and every sum, product and quotient is
      rounded to the nearest double ([Float64.round]).  The other signals
      are computed over the rationals.  [Math.sqrt] and [Date] parsing are
      taken as parameters.
    - The storage collaborator is an explicit [World]: tables, a write log
      and the list of faults it will answer the next calls with. *)

From Stdlib Require Import ZArith List String Ascii QArith Qround Qabs Qpower.
From Stdlib Require Import Lia Lqa Bool.
From Stdlib Require Import DecimalString DecimalZ DecimalN.
From stdpp Require Import gmap strings list sorting.
From Equations Require Import Equations.

Open Scope Z_scope.

(** ** SHA-256 (FIPS 180-4), the digest behind [crypto.createHash("sha256")] *)

Module SHA256.

Definition w32 (x : Z) : Z := Z.land x 4294967295.

Definition add32 (x y : Z) : Z := w32 (x + y).

Definition rotr (n x : Z) : Z :=
  Z.lor (Z.shiftr x n) (w32 (Z.shiftl x (32 - n))).

Definition not32 (x : Z) : Z := Z.lxor x 4294967295.

Definition Ch (x y z : Z) : Z := Z.lxor (Z.land x y) (Z.land (not32 x) z).

Definition Maj (x y z : Z) : Z :=
  Z.lxor (Z.lxor (Z.land x y) (Z.land x z)) (Z.land y z).

Definition Sigma0 (x : Z) : Z := Z.lxor (Z.lxor (rotr 2 x) (rotr 13 x)) (rotr 22 x).
Definition Sigma1 (x : Z) : Z := Z.lxor (Z.lxor (rotr 6 x) (rotr 11 x)) (rotr 25 x).
Definition sigma0 (x : Z) : Z := Z.lxor (Z.lxor (rotr 7 x) (rotr 18 x)) (Z.shiftr x 3).
Definition sigma1 (x : Z) : Z := Z.lxor (Z.lxor (rotr 17 x) (rotr 19 x)) (Z.shiftr x 10).

Definition is_prime (n : nat) : bool :=
  forallb (fun d => negb (Nat.eqb (Nat.modulo n d) 0)) (seq 2 (n - 2)).

Definition primes (count : nat) : list Z :=
  map Z.of_nat (firstn count (filter is_prime (seq 2 310))).

(** Largest [r] below [2 ^ bits] with [power r <= n], found bit by bit from
    the top. *)
Fixpoint iroot (power : Z -> Z) (n : Z) (bits : nat) (r : Z) : Z :=
  match bits with
  | O => r
  | S bits' =>
      let candidate := r + 2 ^ Z.of_nat bits' in
      iroot power n bits' (if power candidate <=? n then candidate else r)
  end.

(** The first 32 bits of the fractional part of the root of [p]. *)
Definition frac32 (power : Z -> Z) (scale : Z) (p : Z) : Z :=
  w32 (iroot power (p * 2 ^ scale) 36 0).

(** Round constants: from the cube roots of the first 64 primes. *)
Definition K : list Z :=
  Eval vm_compute in map (frac32 (fun r => r * r * r) 96) (primes 64).

(** Initial hash value: from the square roots of the first 8 primes. *)
Definition H0 : list Z :=
  Eval vm_compute in map (frac32 (fun r => r * r) 64) (primes 8).

(** Big-endian encoding of [x] on [n] bytes. *)
Fixpoint be_bytes (n : nat) (x : Z) : list Z :=
  match n with
  | O => []
  | S n' => Z.land (Z.shiftr x (8 * Z.of_nat n')) 255 :: be_bytes n' x
  end.

(** Padding: a 1 bit, zeros up to 56 mod 64 bytes, the bit length on 8 bytes. *)
Definition pad (msg : list Z) : list Z :=
  let len := Z.of_nat (length msg) in
  let zeros := Z.to_nat ((55 - len) mod 64) in
  msg ++ 128 :: repeat 0 zeros ++ be_bytes 8 (8 * len).

Fixpoint words_of (fuel : nat) (bs : list Z) : list Z :=
  match fuel, bs with
  | S f, b0 :: b1 :: b2 :: b3 :: rest =>
      (Z.shiftl b0 24 + Z.shiftl b1 16 + Z.shiftl b2 8 + b3) :: words_of f rest
  | _, _ => []
  end.

(** The message schedule, newest word first: [W t] from [W (t-2)], [W (t-7)],
    [W (t-15)] and [W (t-16)]. *)
Fixpoint schedule (n : nat) (rev_w : list Z) : list Z :=
  match n with
  | O => rev_w
  | S n' =>
      let w := add32 (add32 (sigma1 (nth 1 rev_w 0)) (nth 6 rev_w 0))
                     (add32 (sigma0 (nth 14 rev_w 0)) (nth 15 rev_w 0)) in
      schedule n' (w :: rev_w)
  end.

Record regs := Regs { ra : Z; rb : Z; rc : Z; rd : Z; re : Z; rf : Z; rg : Z; rh : Z }.

Definition round (s : regs) (kw : Z * Z) : regs :=
  let t1 := add32 (add32 (add32 (rh s) (Sigma1 (re s))) (Ch (re s) (rf s) (rg s)))
                  (add32 (fst kw) (snd kw)) in
  let t2 := add32 (Sigma0 (ra s)) (Maj (ra s) (rb s) (rc s)) in
  Regs (add32 t1 t2) (ra s) (rb s) (rc s) (add32 (rd s) t1) (re s) (rf s) (rg s).

Definition regs_of (h : list Z) : regs :=
  Regs (nth 0 h 0) (nth 1 h 0) (nth 2 h 0) (nth 3 h 0)
       (nth 4 h 0) (nth 5 h 0) (nth 6 h 0) (nth 7 h 0).

Definition compress (h : list Z) (block : list Z) : list Z :=
  let w := rev (schedule 48 (rev (words_of 16 block))) in
  let s0 := regs_of h in
  let s := fold_left round (combine K w) s0 in
  [ add32 (ra s0) (ra s); add32 (rb s0) (rb s); add32 (rc s0) (rc s);
    add32 (rd s0) (rd s); add32 (re s0) (re s); add32 (rf s0) (rf s);
    add32 (rg s0) (rg s); add32 (rh s0) (rh s) ].

Fixpoint blocks (fuel : nat) (h : list Z) (bs : list Z) : list Z :=
  match fuel with
  | O => h
  | S f =>
      match bs with
      | [] => h
      | _ => blocks f (compress h (firstn 64 bs)) (skipn 64 bs)
      end
  end.

(** The 32 bytes of the digest of a byte sequence. *)
Definition digest_bytes (msg : list Z) : list Z :=
  let p := pad msg in
  flat_map (be_bytes 4) (blocks (length p) H0 p).

Definition bytes_of_string (s : string) : list Z :=
  map (fun c => Z.of_N (N_of_ascii c)) (list_ascii_of_string s).

(** [createHash("sha256").update(s).digest()]: the raw 32-byte buffer. *)
Definition digest (s : string) : list Z := digest_bytes (bytes_of_string s).

Definition hex_digit (d : Z) : ascii :=
  ascii_of_N (Z.to_N (if d <? 10 then 48 + d else 87 + d)).

Definition hex_of_bytes (bs : list Z) : string :=
  string_of_list_ascii
    (flat_map (fun b => [hex_digit (Z.shiftr b 4); hex_digit (Z.land b 15)]) bs).

(** [createHash("sha256").update(s).digest("hex")]. *)
Definition hexdigest (s : string) : string := hex_of_bytes (digest s).

End SHA256.

(** ** Shared types ([app/api/data-ingestion/adapters/types], declarations only) *)

Module Types.

(** The scraper's result.  Its declaration is not part of the sources; the
    fields are the ones the code reads, the nullable ones as [option]. *)
Record AdapterJob := {
  ats_provider : string;
  tenant_slug : string;
  external_job_id : string;
  title : option string;
  company_name : option string;
  location : option string;
  absolute_url : string;
  first_published : option string;
  updated_at : option string;
  requisition_id : option string;
  content : option string;
  raw_json : string
}.

(** Job ids are opaque keys handed out by the store. *)
Definition JobId := nat.

(** A row of [job_snapshots] ([dbJobSnapshot]); [snapshot_at] is kept as a
    time value (the code stores its ISO rendering). *)
Record dbJobSnapshot := {
  job_id : JobId;
  snapshot_at : option Z;
  ats_updated_at : option string;
  snap_raw_json : string;
  content_hash : string;
  metadata_hash : string;
  content_simhash : string;
  metadata_simhash : string
}.

(** JavaScript truthiness of a nullable string: [null] and the empty string
    are falsy. *)
Definition truthy (s : option string) : bool :=
  match s with
  | None => false
  | Some v => negb (String.eqb v "")
  end.

(** [s || ""]. *)
Definition or_empty (s : option string) : string :=
  if truthy s then default EmptyString s else EmptyString.

End Types.

(** ** JavaScript string and [BigInt] builtins used by the code *)

Module JS.

Definition code (c : ascii) : N := N_of_ascii c.

(** [\s] (and what [trim] strips), on ASCII: tab, line feed, vertical tab,
    form feed, carriage return, space. *)
Definition is_space (c : ascii) : bool :=
  ((code c =? 32) || ((9 <=? code c) && (code c <=? 13)))%N.

Definition is_digit (c : ascii) : bool := ((48 <=? code c) && (code c <=? 57))%N.
Definition is_upper (c : ascii) : bool := ((65 <=? code c) && (code c <=? 90))%N.
Definition is_lower (c : ascii) : bool := ((97 <=? code c) && (code c <=? 122))%N.

(** [\w]: letters, digits and the underscore. *)
Definition is_word (c : ascii) : bool :=
  is_digit c || is_upper c || is_lower c || (code c =? 95)%N.

Definition lower_char (c : ascii) : ascii :=
  if is_upper c then ascii_of_N (code c + 32) else c.

Fixpoint map_chars (f : ascii -> ascii) (s : string) : string :=
  match s with
  | EmptyString => EmptyString
  | String c s' => String (f c) (map_chars f s')
  end.

(** The first bytes of a text are I WITH DOT ABOVE (U+0130, in UTF-8
    [C4 B0]), or KELVIN SIGN (U+212A, [E2 84 AA]). *)
Definition is_dotted_I (c1 c2 : ascii) : bool :=
  ((code c1 =? 196) && (code c2 =? 176))%N.

Definition is_kelvin (c1 c2 c3 : ascii) : bool :=
  ((code c1 =? 226) && (code c2 =? 132) && (code c3 =? 170))%N.

(** COMBINING DOT ABOVE (U+0307, [CC 87]). *)
Definition dot_above : string :=
  String (ascii_of_N 204) (String (ascii_of_N 135) EmptyString).

(** [toLowerCase] on a text in UTF-8: the letters A-Z; KELVIN SIGN, whose
    lower case is [k]; I WITH DOT ABOVE, whose lower case is [i] followed by
    COMBINING DOT ABOVE.  No other character has a lower case that holds a
    character of ASCII; the characters outside ASCII are kept as they
    are. *)
Fixpoint toLowerCase (s : string) : string :=
  match s with
  | EmptyString => EmptyString
  | String c1 r1 =>
      match r1 with
      | String c2 r2 =>
          if is_dotted_I c1 c2 then String "i" (dot_above +:+ toLowerCase r2)
          else
            match r2 with
            | String c3 r3 =>
                if is_kelvin c1 c2 c3 then String "k" (toLowerCase r3)
                else String (lower_char c1) (toLowerCase r1)
            | EmptyString => String (lower_char c1) (toLowerCase r1)
            end
      | EmptyString => String (lower_char c1) EmptyString
      end
  end.

Fixpoint trimStart (s : string) : string :=
  match s with
  | EmptyString => EmptyString
  | String c s' => if is_space c then trimStart s' else s
  end.

Fixpoint trimEnd (s : string) : string :=
  match s with
  | EmptyString => EmptyString
  | String c s' =>
      match trimEnd s' with
      | EmptyString => if is_space c then EmptyString else String c EmptyString
      | r => String c r
      end
  end.

Definition trim (s : string) : string := trimEnd (trimStart s).

(** [s.split(/\s+/)]: the pieces between maximal runs of spaces; a run at
    either end leaves an empty piece there.  [cur] is the piece being read,
    last character first. *)
Fixpoint split_spaces_from (s : string) (cur : list ascii) (in_run : bool)
  : list string :=
  match s with
  | EmptyString => [string_of_list_ascii (rev cur)]
  | String c s' =>
      if is_space c then
        if in_run then split_spaces_from s' cur true
        else string_of_list_ascii (rev cur) :: split_spaces_from s' [] true
      else split_spaces_from s' (c :: cur) false
  end.

Definition split_spaces (s : string) : list string := split_spaces_from s [] false.

(** Default [Array.prototype.sort] on strings: ascending code-unit order. *)
Fixpoint insert_sorted (x : string) (l : list string) : list string :=
  match l with
  | [] => [x]
  | y :: l' => if String.leb x y then x :: l else y :: insert_sorted x l'
  end.

Definition sort_strings (l : list string) : list string :=
  fold_right insert_sorted [] l.

Definition dquote : ascii := ascii_of_N 34.
Definition backslash : ascii := ascii_of_N 92.

Definition hex_char (d : N) : ascii :=
  ascii_of_N (if (d <? 10)%N then 48 + d else 87 + d).

(** One character inside a JSON string literal ([QuoteJSONString]). *)
Definition json_char (c : ascii) : string :=
  let n := code c in
  if (n =? 34)%N then String backslash (String dquote EmptyString)
  else if (n =? 92)%N then String backslash (String backslash EmptyString)
  else if (n =? 8)%N then String backslash "b"
  else if (n =? 9)%N then String backslash "t"
  else if (n =? 10)%N then String backslash "n"
  else if (n =? 12)%N then String backslash "f"
  else if (n =? 13)%N then String backslash "r"
  else if (n <? 32)%N then
    String backslash
      (String "u" (String "0" (String "0"
        (String (hex_char (n / 16)) (String (hex_char (n mod 16)) EmptyString)))))
  else String c EmptyString.

Fixpoint json_chars (s : string) : string :=
  match s with
  | EmptyString => EmptyString
  | String c s' => json_char c +:+ json_chars s'
  end.

Definition json_string (s : string) : string :=
  String dquote (json_chars s +:+ String dquote EmptyString).

(** A nullable string as a JSON value. *)
Definition json_value (v : option string) : string :=
  match v with
  | None => "null"
  | Some s => json_string s
  end.

Fixpoint join (sep : string) (l : list string) : string :=
  match l with
  | [] => EmptyString
  | [x] => x
  | x :: l' => x +:+ sep +:+ join sep l'
  end.

Fixpoint assoc (k : string) (obj : list (string * option string))
  : option (option string) :=
  match obj with
  | [] => None
  | (k', v) :: obj' => if String.eqb k k' then Some v else assoc k obj'
  end.

(** [JSON.stringify(obj, keys)] for an object of nullable strings: the
    members named by [keys], in that order, without white space. *)
Definition JSON_stringify (obj : list (string * option string)) (keys : list string)
  : string :=
  let member k :=
    match assoc k obj with
    | Some v => [json_string k +:+ ":" +:+ json_value v]
    | None => []
    end in
  "{" +:+ join "," (flat_map member keys) +:+ "}".

(** [JSON.stringify(obj)]: every member, in insertion order. *)
Definition JSON_stringify_all (obj : list (string * option string)) : string :=
  JSON_stringify obj (map fst obj).

Definition digit_value (c : ascii) : option Z :=
  if is_digit c then Some (Z.of_N (code c) - 48)
  else if ((97 <=? code c) && (code c <=? 102))%N then Some (Z.of_N (code c) - 87)
  else if ((65 <=? code c) && (code c <=? 70))%N then Some (Z.of_N (code c) - 55)
  else None.

(** The value of a non-empty run of digits in [base]; [None] on any other
    character. *)
Fixpoint digits_from (base : Z) (s : string) (acc : Z) : option Z :=
  match s with
  | EmptyString => Some acc
  | String c s' =>
      match digit_value c with
      | Some d => if d <? base then digits_from base s' (acc * base + d) else None
      | None => None
      end
  end.

Definition digits (base : Z) (s : string) : option Z :=
  match s with
  | EmptyString => None
  | _ => digits_from base s 0
  end.

(** [BigInt(s)] ([StringToBigInt]): white space is trimmed, the empty string
    is 0, a literal is decimal with an optional sign or has a [0x], [0o] or
    [0b] prefix.  [None] stands for the [SyntaxError] it throws. *)
Definition BigInt (s : string) : option Z :=
  match trim s with
  | EmptyString => Some 0
  | String "0" (String "x" r) | String "0" (String "X" r) => digits 16 r
  | String "0" (String "o" r) | String "0" (String "O" r) => digits 8 r
  | String "0" (String "b" r) | String "0" (String "B" r) => digits 2 r
  | String "-" r => option_map Z.opp (digits 10 r)
  | String "+" r => digits 10 r
  | t => digits 10 t
  end.

(** [BigInt.prototype.toString()]: decimal, with a minus sign when negative. *)
Definition BigInt_toString (z : Z) : string := NilZero.string_of_int (Z.to_int z).

End JS.

(** ** [app/db/jobSnapshots.ts]: exact hashes, simhash, change detection *)

Module JobSnapshots.
Import Types JS.

(** [generateContentHash]: SHA-256 of the content, hex. *)
Definition generateContentHash (content : option string) : string :=
  let text := or_empty content in
  SHA256.hexdigest text.

(** The object literal [metadata] of [generateMetadataHash], in the order
    its keys are written. *)
Definition metadata_of (jobData : AdapterJob) : list (string * option string) :=
  [ ("title", title jobData);
    ("company_name", company_name jobData);
    ("location", location jobData);
    ("first_published", first_published jobData);
    ("updated_at", updated_at jobData);
    ("requisition_id", requisition_id jobData) ]%string.

(** [JSON.stringify(metadata, Object.keys(metadata).sort())]. *)
Definition metadataString (jobData : AdapterJob) : string :=
  let metadata := metadata_of jobData in
  JSON_stringify metadata (sort_strings (map fst metadata)).

(** [generateMetadataHash]: SHA-256 of the sorted-key JSON of the metadata. *)
Definition generateMetadataHash (jobData : AdapterJob) : string :=
  SHA256.hexdigest (metadataString jobData).

Definition HASH_BITS : nat := 64.

(** [text.toLowerCase().replace(/[^\w\s]/g, " ").split(/\s+/)
      .filter(token => token.length > 0)]. *)
Definition tokenize (text : string) : list string :=
  let lowered := toLowerCase text in
  let replaced :=
    map_chars (fun c => if is_word c || is_space c then c else " "%char) lowered in
  List.filter (fun token => (0 <? String.length token)%nat) (split_spaces replaced).

(** [(hash[Math.floor(i / 8)] >> (i % 8)) & 1]. *)
Definition hash_bit (hash : list Z) (i : nat) : Z :=
  let byteIndex := (i / 8)%nat in
  let bitIndex := (i mod 8)%nat in
  Z.land (Z.shiftr (nth byteIndex hash 0) (Z.of_nat bitIndex)) 1.

(** The inner loop: one token's digest added to the 64 weights. *)
Definition add_token (weights : list Z) (token : string) : list Z :=
  let hash := SHA256.digest token in
  fold_left
    (fun w i =>
       let bit := hash_bit hash i in
       alter (fun weight => weight + (if bit =? 0 then -1 else 1)) i w)
    (seq 0 HASH_BITS) weights.

(** The last loop: bit [i] is set when [weights[i] > 0]. *)
Definition bits_of_weights (weights : list Z) : Z :=
  fold_left
    (fun simhash i =>
       if 0 <? nth i weights 0
       then Z.lor simhash (Z.shiftl 1 (Z.of_nat i))
       else simhash)
    (seq 0 HASH_BITS) 0.

(** [generateSimhash]: the 64-bit fingerprint of a text.  [trim] strips the
    ASCII white space here; a text of other white space only has no token
    and is answered 0 by the second guard, as it is by the first in the
    code. *)
Definition generateSimhash (text : string) : Z :=
  let weights := repeat 0 HASH_BITS in
  if String.eqb text "" || (String.length (trim text) =? 0)%nat then 0
  else
    let tokens := tokenize text in
    if (length tokens =? 0)%nat then 0
    else bits_of_weights (fold_left add_token tokens weights).

(** [createSnapshotData]: the snapshot row of a job, all hashes computed. *)
Definition createSnapshotData (jobId : JobId) (jobData : AdapterJob) : dbJobSnapshot :=
  let content := or_empty (content jobData) in
  let contentHash := generateContentHash (Some content) in
  let metadataHash := generateMetadataHash jobData in
  let contentSimhash := generateSimhash content in
  let metadataString :=
    JSON_stringify_all
      [ ("title", title jobData);
        ("company_name", company_name jobData);
        ("location", location jobData) ]%string in
  let metadataSimhash := generateSimhash metadataString in
  {| job_id := jobId;
     snapshot_at := None;
     ats_updated_at := updated_at jobData;
     snap_raw_json := raw_json jobData;
     content_hash := contentHash;
     metadata_hash := metadataHash;
     content_simhash := BigInt_toString contentSimhash;
     metadata_simhash := BigInt_toString metadataSimhash |}.

(** [hasContentChanged]: some exact hash differs. *)
Definition hasContentChanged (oldSnapshot newSnapshot : dbJobSnapshot) : bool :=
  negb (String.eqb (content_hash oldSnapshot) (content_hash newSnapshot))
  || negb (String.eqb (metadata_hash oldSnapshot) (metadata_hash newSnapshot)).

(** [hasAtsUpdatedAtChanged]. *)
Definition hasAtsUpdatedAtChanged
  (oldSnapshot : option dbJobSnapshot) (newAtsUpdatedAt : option string) : bool :=
  match oldSnapshot with
  | None => true
  | Some old =>
      if negb (truthy (ats_updated_at old)) && negb (truthy newAtsUpdatedAt) then false
      else if negb (truthy (ats_updated_at old)) || negb (truthy newAtsUpdatedAt) then true
      else negb (String.eqb (default EmptyString (ats_updated_at old))
                            (default EmptyString newAtsUpdatedAt))
  end.

(** The loop of [simhashHammingDistance]:
    [while (temp > 0n) { if (temp & 1n) distance++; temp = temp >> 1n }]. *)
Equations? count_set_bits (temp : Z) (distance : Z) : Z
  by wf (Z.to_nat (Z.log2 (2 * temp))) lt :=
  count_set_bits temp distance with Z_gt_dec temp 0 => {
    | left _ =>
        count_set_bits (Z.shiftr temp 1)
          (if Z.land temp 1 =? 0 then distance else distance + 1)
    | right _ => distance }.
Proof.
  rewrite Z.shiftr_div_pow2 by lia. change (2 ^ 1) with 2.
  pose proof (Z.log2_le_mono (2 * (temp / 2)) temp (Z.mul_div_le temp 2 eq_refl)).
  pose proof (Z.log2_double temp ltac:(lia)).
  pose proof (Z.log2_nonneg (2 * (temp / 2))).
  lia.
Qed.

(** [simhashHammingDistance]: the number of set bits of the XOR of the two
    fingerprints; 64 when a fingerprint does not parse. *)
Definition simhashHammingDistance (simhash1 simhash2 : string) : Z :=
  match BigInt simhash1, BigInt simhash2 with
  | Some hash1, Some hash2 =>
      let xor := Z.lxor hash1 hash2 in
      count_set_bits xor 0
  | _, _ => 64
  end.

(** [isSimhashChangeSignificant]; [threshold] defaults to 10. *)
Definition isSimhashChangeSignificant
  (oldSimhash newSimhash : string) (threshold : option Z) : bool :=
  let threshold := default 10 threshold in
  let distance := simhashHammingDistance oldSimhash newSimhash in
  threshold <? distance.

End JobSnapshots.

(** ** Binary64 arithmetic: the numbers of the scoring code *)

Module Float64.

Open Scope Q_scope.

(** [floor (log2 q)] of a positive [q]. *)
Definition ilog2 (q : Q) : Z :=
  let k := (Z.log2 (Qnum q) - Z.log2 (Z.pos (Qden q)))%Z in
  if Qle_bool (2 ^ k) q then k else (k - 1)%Z.

(** The nearest integer, a tie going to the even one. *)
Definition rne (x : Q) : Z :=
  let f := Qfloor x in
  match Qcompare (x - inject_Z f) (1 # 2) with
  | Lt => f
  | Gt => (f + 1)%Z
  | Eq => if Z.even f then f else (f + 1)%Z
  end.

(** The exponent of the last place of the double nearest a positive [q]:
    52 below that of [q], and never below -1074. *)
Definition ulp_exponent (q : Q) : Z := Z.max (ilog2 q - 52) (-1074).

(** The double nearest a positive [q]. *)
Definition round_positive (q : Q) : Q :=
  let e := ulp_exponent q in Qred (inject_Z (rne (q / 2 ^ e)) * 2 ^ e).

(** The double nearest [q], ties to even, the range left unbounded above. *)
Definition round (q : Q) : Q :=
  match Qcompare q 0 with
  | Eq => 0
  | Gt => round_positive q
  | Lt => - round_positive (- q)
  end.

(** A rounded value is a finite double when its magnitude is below
    [2^1024]; from there on the double is [Infinity]. *)
Definition finite (q : Q) : bool := negb (Qle_bool (2 ^ 1024) (Qabs q)).

Definition add (x y : Q) : Q := round (x + y).
Definition sub (x y : Q) : Q := round (x - y).
Definition mul (x y : Q) : Q := round (x * y).
Definition div (x y : Q) : Q := round (x / y).

End Float64.

(** ** [app/scoring/score.ts]: cadence signal and the aggregator *)

Module Score.

Open Scope Q_scope.

Definition Qltb (x y : Q) : bool := negb (Qle_bool y x).

(** The ten signals of [ScoreWeights], in the order of the interface.  An
    entry is a number, or [None] when the object holds [undefined] (or
    anything that is not a number) under that name, which the types do not
    exclude at run time. *)
Record ScoreWeights := {
  freshness : option Q;
  link_integrity : option Q;
  salary_disclosure : option Q;
  salary_min_present : option Q;
  source_credibility : option Q;
  skills_present : option Q;
  buzzword_penalty : option Q;
  comp_period_clarity : option Q;
  update_cadence : option Q;
  content_change_quality : option Q
}.

(** [Partial<ScoreWeights>]: any of the ten may be missing ([None]); an
    entry that is there is a number or [undefined] ([Some None]). *)
Record PartialScoreWeights := {
  p_freshness : option (option Q);
  p_link_integrity : option (option Q);
  p_salary_disclosure : option (option Q);
  p_salary_min_present : option (option Q);
  p_source_credibility : option (option Q);
  p_skills_present : option (option Q);
  p_buzzword_penalty : option (option Q);
  p_comp_period_clarity : option (option Q);
  p_update_cadence : option (option Q);
  p_content_change_quality : option (option Q)
}.

Definition DEFAULT_WEIGHTS : ScoreWeights := {|
  freshness := Some 0.16;
  link_integrity := Some 0.09;
  salary_disclosure := Some 0.21;
  salary_min_present := Some 0.13;
  source_credibility := Some 0.09;
  skills_present := Some 0.09;
  buzzword_penalty := Some 0.04;
  comp_period_clarity := Some 0.04;
  update_cadence := Some 0.05;
  content_change_quality := Some 0.05
|}.

(** A complete table seen as a partial one. *)
Definition all_given (t : ScoreWeights) : PartialScoreWeights := {|
  p_freshness := Some (freshness t);
  p_link_integrity := Some (link_integrity t);
  p_salary_disclosure := Some (salary_disclosure t);
  p_salary_min_present := Some (salary_min_present t);
  p_source_credibility := Some (source_credibility t);
  p_skills_present := Some (skills_present t);
  p_buzzword_penalty := Some (buzzword_penalty t);
  p_comp_period_clarity := Some (comp_period_clarity t);
  p_update_cadence := Some (update_cadence t);
  p_content_change_quality := Some (content_change_quality t)
|}.

(** [{ ...d, ...weights }]: an entry of [weights] overrides the default, also
    when it is [undefined]. *)
Definition spread (d : ScoreWeights) (weights : PartialScoreWeights) : ScoreWeights := {|
  freshness := default (freshness d) (p_freshness weights);
  link_integrity := default (link_integrity d) (p_link_integrity weights);
  salary_disclosure := default (salary_disclosure d) (p_salary_disclosure weights);
  salary_min_present := default (salary_min_present d) (p_salary_min_present weights);
  source_credibility := default (source_credibility d) (p_source_credibility weights);
  skills_present := default (skills_present d) (p_skills_present weights);
  buzzword_penalty := default (buzzword_penalty d) (p_buzzword_penalty weights);
  comp_period_clarity := default (comp_period_clarity d) (p_comp_period_clarity weights);
  update_cadence := default (update_cadence d) (p_update_cadence weights);
  content_change_quality :=
    default (content_change_quality d) (p_content_change_quality weights)
|}.

(** [(w as any)[k]]: the weight stored under the name [k]; [None] is
    [undefined]. *)
Definition weight_of (w : ScoreWeights) (k : string) : option Q :=
  if String.eqb k "freshness" then freshness w
  else if String.eqb k "link_integrity" then link_integrity w
  else if String.eqb k "salary_disclosure" then salary_disclosure w
  else if String.eqb k "salary_min_present" then salary_min_present w
  else if String.eqb k "source_credibility" then source_credibility w
  else if String.eqb k "skills_present" then skills_present w
  else if String.eqb k "buzzword_penalty" then buzzword_penalty w
  else if String.eqb k "comp_period_clarity" then comp_period_clarity w
  else if String.eqb k "update_cadence" then update_cadence w
  else if String.eqb k "content_change_quality" then content_change_quality w
  else None.

(** The names of the ten signals. *)
Definition SIGNALS : list string :=
  [ "freshness"; "link_integrity"; "salary_disclosure"; "salary_min_present";
    "source_credibility"; "skills_present"; "buzzword_penalty";
    "comp_period_clarity"; "update_cadence"; "content_change_quality" ]%string.

(** [clamp01] of a finite number; where a number may be infinite or NaN the
    caller says so (see [finalizeScore]). *)
Definition clamp01 (x : Q) : Q :=
  if Qltb x 0 then 0
  else if Qltb 1 x then 1
  else x.

(** A breakdown [Record<string, number>]: its entries in insertion order. *)
Definition Breakdown := list (string * Q).

(** [breakdown[k]] for a key of the breakdown. *)
Fixpoint lookup_signal (breakdown : Breakdown) (k : string) : Q :=
  match breakdown with
  | [] => 0
  | (k', v) :: rest => if String.eqb k k' then v else lookup_signal rest k
  end.

(** [Object.keys(breakdown)]; every value is a number, so the [typeof]
    filter keeps them all. *)
Definition keys_of (breakdown : Breakdown) : list string := map fst breakdown.

(** The body of the [for (const k of keys)] loop, on the pair [(sumW, sum)].
    [number] is the way a number is held: [Float64.round] in the program,
    where every value read and every result is a double. *)
Definition accumulate_as (number : Q -> Q) (w : ScoreWeights) (breakdown : Breakdown)
  (acc : Q * Q) (k : string) : Q * Q :=
  let weight := weight_of w k in
  let value := clamp01 (number (lookup_signal breakdown k)) in
  match weight with
  | Some weight =>
      let weight := number weight in
      if Qltb 0 weight
      then (number (fst acc + weight), number (snd acc + number (weight * value)))
      else acc
  | None => acc
  end.


(** [finalizeScore].  When [sumW] has overflowed to [Infinity] the quotient
    is 0 or NaN, and [clamp01] returns 0 for both; [sum] never exceeds
    [sumW], so the quotient is finite otherwise. *)
Definition finalizeScore (breakdown : Breakdown) (weights : PartialScoreWeights) : Q :=
  let w := spread DEFAULT_WEIGHTS weights in
  let keys := keys_of breakdown in
  let '(sumW, sum) :=
    fold_left (accumulate_as Float64.round w breakdown) keys (0, 0) in
  if Qltb 0 sumW then
    if Float64.finite sumW then clamp01 (Float64.div sum sumW) else 0
  else if (length keys =? 0)%nat then 0
  else
    let avg :=
      Float64.div
        (fold_left
           (fun acc k =>
              Float64.add acc (clamp01 (Float64.round (lookup_signal breakdown k))))
           keys 0)
        (inject_Z (Z.of_nat (length keys))) in
    clamp01 avg.

(** [sorted = [...].sort((a, b) => a - b)] on time values. *)
Definition sort_numbers (l : list Z) : list Z := merge_sort Z.le l.

(** The [for] loop computing the gaps between consecutive updates, in days. *)
Fixpoint intervals_of (sorted : list Z) : list Q :=
  match sorted with
  | a :: (b :: _) as rest =>
      (inject_Z (b - a) / inject_Z (1000 * 60 * 60 * 24)) :: intervals_of rest
  | _ => []
  end.

Section Cadence.

(** [Math.sqrt], and [new Date(ts).getTime()] with [None] for [NaN]. *)
Variable Math_sqrt : Q -> Q.
Variable Date_getTime : string -> option Z.

(** [updateTimestamps.map(ts => new Date(ts).getTime())
      .filter(ts => Number.isFinite(ts))]. *)
Definition valid_times (updateTimestamps : list string) : list Z :=
  omap Date_getTime updateTimestamps.

(** [featureUpdateCadence]. *)
Definition featureUpdateCadence (updateTimestamps : option (list string)) : Q :=
  match updateTimestamps with
  | None => 0.5
  | Some updateTimestamps =>
      if (length updateTimestamps <? 4)%nat then 0.5
      else
        let sorted := sort_numbers (valid_times updateTimestamps) in
        if (length sorted <? 4)%nat then 0.5
        else
          let intervals := intervals_of sorted in
          if (length intervals =? 0)%nat then 0.5
          else
            let n := inject_Z (Z.of_nat (length intervals)) in
            let mean := fold_left (fun sum val => sum + val) intervals 0 / n in
            let variance :=
              fold_left (fun sum val => sum + (val - mean) ^ 2) intervals 0 / n in
            let stdDev := Math_sqrt variance in
            let coefficientOfVariation :=
              if Qltb 0 mean then stdDev / mean else 0 in
            if Qltb coefficientOfVariation 0.2 then 0.0
            else if Qltb 0.5 coefficientOfVariation then 1.0
            else
              let normalized := (coefficientOfVariation - 0.2) / (0.5 - 0.2) in
              clamp01 normalized
  end.

End Cadence.

End Score.

(** ** [utils/supabase/action.ts]: the storage collaborator and its callers *)

Module Action.
Import Types.

Open Scope Z_scope.

(** A row of [request_lock] (keyed by user id). *)
Record RequestLock := { is_available : bool; tokens_remaining : Z }.

(** A row of [job_features] ([dbJobFeatures], keyed by job id). *)
Record dbJobFeatures := {
  time_type : option string;
  salary_min : option Q;
  salary_mid : option Q;
  salary_max : option Q;
  currency : option string;
  department : option string;
  salary_source : option string
}.

(** A row of [jobs]: the columns the upsert writes are the scraped job's
    ([ats] is its [ats_provider]); [last_seen] is kept as a time value. *)
Record JobRow := {
  id : JobId;
  job : AdapterJob;
  is_active : bool;
  last_seen : option Z
}.

(** A row of [job_updates]. *)
Record JobUpdateRow := { update_job_id : JobId; update_ats_updated_at : string }.

(** The writes the store has accepted, oldest first. *)
Inductive Write :=
| W_request_lock (user_id : string) (row : RequestLock)
| W_jobs_upsert (row : JobRow)
| W_jobs_last_seen (job_Id : JobId) (at_time : Z)
| W_job_updates_insert (row : JobUpdateRow)
| W_job_features_upsert (job_Id : JobId)
| W_job_snapshots_insert (row : dbJobSnapshot).

(** The store: its tables, the ids it has handed out, the clock, the
    outcome of the calls to come ([true]: the call answers with an error and
    changes nothing; none left: no error) and the writes so far. *)
Record World := {
  request_lock : gmap string RequestLock;
  jobs : list JobRow;
  job_updates : list JobUpdateRow;
  job_features : gmap JobId dbJobFeatures;
  job_snapshots : list dbJobSnapshot;
  next_id : JobId;
  now : Z;
  faults : list bool;
  writes : list Write
}.

Definition with_request_lock (t : gmap string RequestLock) (w : World) : World :=
  {| request_lock := t; jobs := jobs w; job_updates := job_updates w;
     job_features := job_features w; job_snapshots := job_snapshots w;
     next_id := next_id w; now := now w; faults := faults w; writes := writes w |}.

Definition with_jobs (t : list JobRow) (n : JobId) (w : World) : World :=
  {| request_lock := request_lock w; jobs := t; job_updates := job_updates w;
     job_features := job_features w; job_snapshots := job_snapshots w;
     next_id := n; now := now w; faults := faults w; writes := writes w |}.

Definition with_job_updates (t : list JobUpdateRow) (w : World) : World :=
  {| request_lock := request_lock w; jobs := jobs w; job_updates := t;
     job_features := job_features w; job_snapshots := job_snapshots w;
     next_id := next_id w; now := now w; faults := faults w; writes := writes w |}.

Definition with_job_features (t : gmap JobId dbJobFeatures) (w : World) : World :=
  {| request_lock := request_lock w; jobs := jobs w; job_updates := job_updates w;
     job_features := t; job_snapshots := job_snapshots w;
     next_id := next_id w; now := now w; faults := faults w; writes := writes w |}.

Definition with_job_snapshots (t : list dbJobSnapshot) (w : World) : World :=
  {| request_lock := request_lock w; jobs := jobs w; job_updates := job_updates w;
     job_features := job_features w; job_snapshots := t;
     next_id := next_id w; now := now w; faults := faults w; writes := writes w |}.

Definition with_faults (f : list bool) (w : World) : World :=
  {| request_lock := request_lock w; jobs := jobs w; job_updates := job_updates w;
     job_features := job_features w; job_snapshots := job_snapshots w;
     next_id := next_id w; now := now w; faults := f; writes := writes w |}.

Definition logged (e : Write) (w : World) : World :=
  {| request_lock := request_lock w; jobs := jobs w; job_updates := job_updates w;
     job_features := job_features w; job_snapshots := job_snapshots w;
     next_id := next_id w; now := now w; faults := faults w;
     writes := writes w ++ [e] |}.

(** Code that talks to the store threads the world through its calls. *)
Definition M (A : Type) : Type := World -> A * World.

Definition ret {A : Type} (a : A) : M A := fun w => (a, w).

Definition bind {A B : Type} (m : M A) (k : A -> M B) : M B :=
  fun w => let (a, w') := m w in k a w'.

Notation "'let!' x ':=' m 'in' k" := (bind m (fun x => k))
  (at level 10, x name, m at level 100, k at level 200).

(** What a function that may [throw] hands back. *)
Inductive result (A : Type) : Type :=
| Returned (a : A)
| Thrown.
Arguments Returned {A} a.
Arguments Thrown {A}.

(** One round trip to the store: [true] when it answers with an error. *)
Definition call : M bool := fun w =>
  match faults w with
  | [] => (false, w)
  | f :: rest => (f, with_faults rest w)
  end.

(** [update(row).eq("user_id", userId)] on [request_lock]. *)
Definition write_lock (userId : string) (row : RequestLock) : M unit := fun w =>
  (tt, logged (W_request_lock userId row)
         (with_request_lock (<[userId := row]> (request_lock w)) w)).

(** [request_lock_and_tokens]: the user's lock row, created with three
    tokens when there is none. *)
Definition request_lock_and_tokens (userId : string) : M (result (bool * Z)) :=
  let! error := call in
  if error then ret Thrown
  else fun w =>
    match request_lock w !! userId with
    | None =>
        (let! insertErr := call in
         if insertErr then ret Thrown
         else
           let created := {| is_available := true; tokens_remaining := 3 |} in
           let! _ := write_lock userId created in
           ret (Returned (is_available created, tokens_remaining created))) w
    | Some row => (Returned (is_available row, tokens_remaining row), w)
    end.

(** [set_request_lock]: closes the lock when it is open, then takes a token. *)
Definition set_request_lock (userId : string) : M (result bool) :=
  let! error := call in
  if error then ret Thrown
  else fun w =>
    match request_lock w !! userId with
    | Some row =>
        if is_available row then
          (let closed :=
             {| is_available := false; tokens_remaining := tokens_remaining row |} in
           let! _ := write_lock userId closed in
           let data := tokens_remaining closed in
           let! decErr := call in
           if decErr then
             let! releaseErr := call in
             let! _ := (if releaseErr then ret tt
                   else write_lock userId
                          {| is_available := true; tokens_remaining := data |}) in
             ret Thrown
           else
             let! _ := write_lock userId
                    {| is_available := false; tokens_remaining := data - 1 |} in
             ret (Returned true)) w
        else (Returned false, w)
    | None => (Returned false, w)
    end.

(** [release_request_lock]: opens the lock; an error is only logged. *)
Definition release_request_lock (userId : string) : M unit :=
  let! error := call in
  if error then ret tt
  else fun w =>
    match request_lock w !! userId with
    | Some row =>
        write_lock userId
          {| is_available := true; tokens_remaining := tokens_remaining row |} w
    | None => (tt, w)
    end.

Definition same_key (jobDetails : AdapterJob) (r : JobRow) : bool :=
  String.eqb (ats_provider (job r)) (ats_provider jobDetails)
  && String.eqb (tenant_slug (job r)) (tenant_slug jobDetails)
  && String.eqb (external_job_id (job r)) (external_job_id jobDetails).

Definition find_by_key (jobDetails : AdapterJob) (w : World) : option JobRow :=
  List.find (same_key jobDetails) (jobs w).

Definition find_by_id (job_Id : JobId) (w : World) : option JobRow :=
  List.find (fun r => Nat.eqb (id r) job_Id) (jobs w).

Definition replace_row (r' : JobRow) (rows : list JobRow) : list JobRow :=
  map (fun r => if Nat.eqb (id r) (id r') then r' else r) rows.

(** [insertIntoJobTable]: upsert on the composite key; the id of the row
    written, [None] on an error. *)
Definition insertIntoJobTable (jobDetails : AdapterJob) : M (option JobId) :=
  let! error := call in
  if error then ret None
  else fun w =>
    match find_by_key jobDetails w with
    | Some r =>
        let r' := {| id := id r; job := jobDetails; is_active := true;
                     last_seen := last_seen r |} in
        (Some (id r),
         logged (W_jobs_upsert r') (with_jobs (replace_row r' (jobs w)) (next_id w) w))
    | None =>
        let r' := {| id := next_id w; job := jobDetails; is_active := true;
                     last_seen := None |} in
        (Some (next_id w),
         logged (W_jobs_upsert r') (with_jobs (jobs w ++ [r']) (S (next_id w)) w))
    end.

(** [from("job_updates").insert(row)]: [true] when the store refuses. *)
Definition insert_job_update (row : JobUpdateRow) : M bool :=
  let! updateError := call in
  if updateError then ret true
  else fun w =>
    (false, logged (W_job_updates_insert row)
              (with_job_updates (job_updates w ++ [row]) w)).

(** [from("jobs").update({ last_seen: now }).eq("id", job_Id)]. *)
Definition touch_last_seen (job_Id : JobId) : M bool :=
  let! seenError := call in
  if seenError then ret true
  else fun w =>
    match find_by_id job_Id w with
    | Some r =>
        let r' := {| id := id r; job := job r; is_active := is_active r;
                     last_seen := Some (now w) |} in
        (false, logged (W_jobs_last_seen job_Id (now w))
                  (with_jobs (replace_row r' (jobs w)) (next_id w) w))
    | None => (false, w)
    end.

(** [incomingTime > existingTime] on parsed dates; [None] is [NaN]. *)
Definition time_gt (a b : option Z) : bool :=
  match a, b with
  | Some x, Some y => y <? x
  | _, _ => false
  end.

Section Timeline.

(** [new Date(s).getTime()], [None] for [NaN]. *)
Variable Date_getTime : string -> option Z.

(** [InsertToJobUpdatesTable]: records the incoming [updated_at] when it is
    newer than the one the job row holds; [true] when a row was inserted. *)
Definition InsertToJobUpdatesTable (job_Id : JobId) (jobDetails : AdapterJob)
  : M bool :=
  let incomingAtsUpdatedAt := updated_at jobDetails in
  let! fetchError := call in
  fun w =>
    match (if fetchError then None else find_by_id job_Id w) with
    | None => (false, w)
    | Some jobRow =>
        let existingUpdatedAt := updated_at (job jobRow) in
        if negb (truthy incomingAtsUpdatedAt) then (false, w)
        else if negb (truthy existingUpdatedAt) then
          (let! updateError :=
             insert_job_update
               {| update_job_id := job_Id;
                  update_ats_updated_at := default EmptyString incomingAtsUpdatedAt |} in
           let! _ := touch_last_seen job_Id in
           ret (negb updateError)) w
        else
          let incomingTime := Date_getTime (default EmptyString incomingAtsUpdatedAt) in
          let existingTime := Date_getTime (default EmptyString existingUpdatedAt) in
          (let! inserted :=
             (if time_gt incomingTime existingTime then
                let! updateError :=
                  insert_job_update
                    {| update_job_id := job_Id;
                       update_ats_updated_at :=
                         default EmptyString incomingAtsUpdatedAt |} in
                ret (negb updateError)
              else ret false) in
           let! _ := touch_last_seen job_Id in
           ret inserted) w
    end.

End Timeline.

(** [InsertIntoJobFeaturesTable]: upsert keyed by the job id. *)
Definition InsertIntoJobFeaturesTable (job_Id : JobId) (jobFeatures : dbJobFeatures)
  : M unit :=
  let! error := call in
  if error then ret tt
  else fun w =>
    (tt, logged (W_job_features_upsert job_Id)
           (with_job_features (<[job_Id := jobFeatures]> (job_features w)) w)).

(** [getJobByCompositeKey]: the job row with its features, [None] when
    there is none or the store answers with an error. *)
Definition getJobByCompositeKey (jobDetails : AdapterJob)
  : M (option (JobRow * option dbJobFeatures)) :=
  let! error := call in
  if error then ret None
  else fun w =>
    (option_map (fun r => (r, job_features w !! id r)) (find_by_key jobDetails w), w).

(** [createJobSnapshot]: appends the snapshot, stamped with the clock. *)
Definition createJobSnapshot (snapshot : dbJobSnapshot) : M bool :=
  let! error := call in
  if error then ret false
  else fun w =>
    let snapshotInsert :=
      {| job_id := job_id snapshot;
         snapshot_at := Some (now w);
         ats_updated_at := ats_updated_at snapshot;
         snap_raw_json := snap_raw_json snapshot;
         content_hash := content_hash snapshot;
         metadata_hash := metadata_hash snapshot;
         content_simhash := content_simhash snapshot;
         metadata_simhash := metadata_simhash snapshot |} in
    (true, logged (W_job_snapshots_insert snapshotInsert)
             (with_job_snapshots (job_snapshots w ++ [snapshotInsert]) w)).

(** The order of the store on [snapshot_at]: times ascending, NULL after
    every time. *)
Definition stamp_leb (a b : option Z) : bool :=
  match a, b with
  | Some x, Some y => x <=? y
  | _, None => true
  | None, Some _ => false
  end.

(** A row put in its place among rows in ascending order, after the rows
    that are not newer. *)
Fixpoint insert_by_stamp (s : dbJobSnapshot) (sorted : list dbJobSnapshot)
  : list dbJobSnapshot :=
  match sorted with
  | [] => [s]
  | x :: rest =>
      if stamp_leb (snapshot_at x) (snapshot_at s) then x :: insert_by_stamp s rest
      else s :: sorted
  end.

(** [.order("snapshot_at", { ascending: true })]: rows with the same
    [snapshot_at], among which the store promises no order, stay in their
    order of insertion. *)
Definition order_by_snapshot_at (rows : list dbJobSnapshot) : list dbJobSnapshot :=
  fold_left (fun sorted s => insert_by_stamp s sorted) rows [].

(** [getAllSnapshotsForJob]: the job's snapshots ordered by [snapshot_at],
    oldest first; none on an error. *)
Definition getAllSnapshotsForJob (jobId : JobId) : M (list dbJobSnapshot) :=
  let! error := call in
  if error then ret []
  else fun w =>
    (order_by_snapshot_at
       (List.filter (fun s => Nat.eqb (job_id s) jobId) (job_snapshots w)), w).

(** [getLatestSnapshotForJob]: the first of the job's snapshots in descending
    order of [snapshot_at] ([.order(..., { ascending: false }).limit(1)]),
    [None] when there is none or on an error. *)
Definition getLatestSnapshotForJob (jobId : JobId) : M (option dbJobSnapshot) :=
  let! error := call in
  if error then ret None
  else fun w =>
    (last (order_by_snapshot_at
             (List.filter (fun s => Nat.eqb (job_id s) jobId) (job_snapshots w))), w).

End Action.

(** ** [app/orchestrator/analyzeJob.ts]: cache hit or re-ingest *)

Module Orchestrator.
Import Types JobSnapshots Action.

Open Scope Z_scope.

(** [isJobFresh]: seen less than 24 hours ago. *)
Definition isJobFresh (now_ms : Z) (r : JobRow) : bool :=
  match last_seen r with
  | None => false
  | Some lastSeen =>
      let hoursSinceSeen := (inject_Z (now_ms - lastSeen) / inject_Z (1000 * 60 * 60))%Q in
      Score.Qltb hoursSinceSeen 24
  end.

(** How the persistence part of [analyzeJob] ends. *)
Inductive Persisted :=
| UsedCache (jobId : JobId)
| Saved (jobId : JobId)
| SaveFailed
| Ephemeral.

Section AnalyzeJob.

Variable Date_getTime : string -> option Z.

(** The NLP collaborator [analyzeAdapterJob]. *)
Variable analyzeAdapterJob : AdapterJob -> dbJobFeatures.

(** [InsertStructuredJobFeatures]. *)
Definition InsertStructuredJobFeatures (job_Id : JobId) (jobDetails : AdapterJob)
  : M unit :=
  let featuresNormalized := analyzeAdapterJob jobDetails in
  InsertIntoJobFeaturesTable job_Id featuresNormalized.

(** The snapshot logic of [analyzeJob] (after the features are saved). *)
Definition snapshot_step (existingJob : option (JobRow * option dbJobFeatures))
  (jobId : JobId) (adapterJob : AdapterJob) : M unit :=
  let newSnapshotData := createSnapshotData jobId adapterJob in
  match existingJob with
  | None =>
      let! _ := createJobSnapshot newSnapshotData in ret tt
  | Some _ =>
      let! latestSnapshot := getLatestSnapshotForJob jobId in
      match latestSnapshot with
      | None =>
          let! _ := createJobSnapshot newSnapshotData in ret tt
      | Some latest =>
          if hasAtsUpdatedAtChanged (Some latest) (updated_at adapterJob) then
            let! _ := createJobSnapshot newSnapshotData in ret tt
          else ret tt
      end
  end.

(** Branch 3b of [analyzeJob]: a new or stale job is written to the store. *)
Definition reingest (existingJob : option (JobRow * option dbJobFeatures))
  (adapterJob : AdapterJob) : M Persisted :=
  let! _ :=
    (match existingJob with
     | Some (r, _) =>
         let! _ := InsertToJobUpdatesTable Date_getTime (id r) adapterJob in ret tt
     | None => ret tt
     end) in
  let! jobId := insertIntoJobTable adapterJob in
  match jobId with
  | None => ret SaveFailed
  | Some jobId =>
      let! _ :=
        (match existingJob with
         | None =>
             if truthy (updated_at adapterJob) then
               let! _ :=
                 insert_job_update
                   {| update_job_id := jobId;
                      update_ats_updated_at :=
                        default EmptyString (updated_at adapterJob) |} in
               ret tt
             else ret tt
         | Some _ => ret tt
         end) in
      let! _ := InsertStructuredJobFeatures jobId adapterJob in
      let! _ := snapshot_step existingJob jobId adapterJob in
      ret (Saved jobId)
  end.

(** Steps 2 and 3 of [analyzeJob] for a scraped job: look the job up by its
    composite key, use the cached row when it is fresh and has features,
    write it anew otherwise; a job that is not from Greenhouse is not
    stored. *)
Definition analyzeJob (adapterJob : AdapterJob) : M Persisted :=
  let! existingJob := getJobByCompositeKey adapterJob in
  if String.eqb (ats_provider adapterJob) "greenhouse" then
    fun w =>
      match existingJob with
      | Some (r, Some _) =>
          if isJobFresh (now w) r then (UsedCache (id r), w)
          else reingest existingJob adapterJob w
      | _ => reingest existingJob adapterJob w
      end
  else ret Ephemeral.

End AnalyzeJob.

End Orchestrator.

(** ** Concrete builtins for running the model *)

Module Builtins.

Open Scope Z_scope.

(** Days from 1970-01-01 to the civil date [y]-[m]-[d] (proleptic Gregorian). *)
Definition days_from_civil (y m d : Z) : Z :=
  let y' := if m <=? 2 then y - 1 else y in
  let era := y' / 400 in
  let yoe := y' - era * 400 in
  let doy := (153 * (if 2 <? m then m - 3 else m + 9) + 2) / 5 + d - 1 in
  let doe := yoe * 365 + yoe / 4 - yoe / 100 + doy in
  era * 146097 + doe - 719468.

Definition is_leap (y : Z) : bool :=
  ((y mod 4 =? 0) && negb (y mod 100 =? 0)) || (y mod 400 =? 0).

Definition days_in_month (y m : Z) : Z :=
  if m =? 2 then (if is_leap y then 29 else 28)
  else if (m =? 4) || (m =? 6) || (m =? 9) || (m =? 11) then 30
  else 31.

Definition field (s : string) (start len : nat) : option Z :=
  let t := substring start len s in
  if (String.length t =? len)%nat then JS.digits 10 t else None.

Definition char_is (s : string) (i : nat) (c : ascii) : bool :=
  match String.get i s with
  | Some c' => Ascii.eqb c c'
  | None => false
  end.

(** [new Date(s).getTime()] for the UTC date-time format
    [YYYY-MM-DDTHH:mm:ssZ] of ECMAScript; any other string is an invalid
    date here. *)
Definition Date_getTime (s : string) : option Z :=
  if (String.length s =? 20)%nat && char_is s 4 "-" && char_is s 7 "-"
     && char_is s 10 "T" && char_is s 13 ":" && char_is s 16 ":" && char_is s 19 "Z"
  then
    match field s 0 4, field s 5 2, field s 8 2,
          field s 11 2, field s 14 2, field s 17 2 with
    | Some y, Some mo, Some d, Some h, Some mi, Some sec =>
        if (1 <=? mo) && (mo <=? 12) && (1 <=? d) && (d <=? days_in_month y mo)
           && (h <=? 23) && (mi <=? 59) && (sec <=? 59)
        then Some ((((days_from_civil y mo d * 24 + h) * 60 + mi) * 60 + sec) * 1000)
        else None
    | _, _, _, _, _, _ => None
    end
  else None.

(** [Math.sqrt] rounded down to twelve decimals. *)
Definition Math_sqrt (x : Q) : Q :=
  Z.sqrt (Qnum x * 10 ^ 24 / Zpos (Qden x)) # 10 ^ 12.

End Builtins.

(** ** [app/scoring/score.ts]: the signals and the public scoring functions *)

Module ScoreFeatures.
Import Types JS JobSnapshots Score.

Open Scope Q_scope.

(** [NlpAnalysis]; a skill is kept as its name. *)
Record Buzzwords := { hits : list string; count : Q }.

Record NlpAnalysis := {
  skills : list string;
  buzzwords : Buzzwords;
  comp_period_detected : option string
}.

(** [AtsJobFeatures]; the string unions [CompPeriod] and [SalarySource] are
    the strings they are at run time. *)
Record AtsJobFeatures := {
  salary_min : option Q;
  salary_mid : option Q;
  salary_max : option Q;
  currency : option string;
  comp_period : option string;
  salary_source : option string
}.

(** [string | Date]: a date given as text or as a [Date] object, whose time
    value is [None] when the date is invalid. *)
Inductive DateInput :=
| DateString (s : string)
| DateObject (time : option Z).

(** One entry of [snapshot_data]. *)
Record SnapshotHashes := { content_simhash : string; metadata_simhash : string }.

(** [AtsJobInput]; [None] is a member that is missing or [null]. *)
Record AtsJobInput := {
  source : string;
  absolute_url : option string;
  first_published : option DateInput;
  updated_at : option DateInput;
  features : AtsJobFeatures;
  host_hint : option string;
  link_ok : option bool;
  link_loop : option bool;
  nlp_analysis : option NlpAnalysis;
  update_cadence_data : option (list string);
  snapshot_data : option (list SnapshotHashes)
}.

(** [WebFeaturesInput]. *)
Record WebFeaturesInput := {
  web_absolute_url : option string;
  web_first_published : option DateInput;
  web_updated_at : option DateInput;
  web_features : AtsJobFeatures;
  web_nlp_analysis : option NlpAnalysis
}.

(** [ScoreResult]. *)
Record ScoreResult := { score : Q; breakdown : Breakdown }.

Definition Math_min (x y : Q) : Q := if Qltb y x then y else x.

(** [s.endsWith(suffix)]. *)
Definition endsWith (s suffix : string) : bool :=
  (String.length suffix <=? String.length s)%nat
  && String.eqb
       (substring (String.length s - String.length suffix) (String.length suffix) s)
       suffix.

(** [s.includes(part)]. *)
Fixpoint includes (s part : string) : bool :=
  String.prefix part s
  || match s with
     | EmptyString => false
     | String _ s' => includes s' part
     end.

(** [s.replace(/\.$/, "")]: one dot at the end is dropped. *)
Fixpoint drop_final_dot (s : string) : string :=
  match s with
  | EmptyString => EmptyString
  | String c EmptyString => if Ascii.eqb c "." then EmptyString else s
  | String c s' => String c (drop_final_dot s')
  end.

(** [daysBetween] on time values. *)
Definition daysBetween (a b : Z) : Q :=
  let ms := Z.abs (a - b) in
  inject_Z ms / inject_Z (1000 * 60 * 60 * 24).

(** [typeof x === "number" && x !== null]. *)
Definition is_number (x : option Q) : bool :=
  match x with
  | Some _ => true
  | None => false
  end.

(** [featureLinkIntegrity]. *)
Definition featureLinkIntegrity (flag_ok flag_loop : option bool) : Q :=
  let ok := default false flag_ok in
  let loop := default false flag_loop in
  if negb ok then 0
  else if loop then 0
  else 1.

(** [featureSalaryDisclosure]. *)
Definition featureSalaryDisclosure (f : AtsJobFeatures) : Q :=
  let hasMin := is_number (salary_min f) in
  let hasMax := is_number (salary_max f) in
  if hasMin then 1
  else if negb hasMin && hasMax then 0.5
  else 0.

(** [featureSalaryMinPresent]. *)
Definition featureSalaryMinPresent (f : AtsJobFeatures) : Q :=
  if is_number (salary_min f) then 1 else 0.

Definition ATS_HOST_HINTS : list string :=
  [ "boards.greenhouse.io"; "job-boards.greenhouse.io"; "greenhouse.io"; "lever.co";
    "myworkdayjobs.com"; "smartrecruiters.com"; "ashbyhq.com"; "icims.com" ]%string.

(** [endsWithHost]: [h] is one of the hosts of [set] or a subdomain of one. *)
Fixpoint endsWithHost (h : string) (set : list string) : bool :=
  match set with
  | [] => false
  | s :: rest =>
      if String.eqb h s then true
      else if endsWith h ("." +:+ s) then true
      else endsWithHost h rest
  end.

(** [featureSourceCredibility]. *)
Definition featureSourceCredibility (f : AtsJobFeatures) (hostHint : option string) : Q :=
  let src := default "unknown"%string (salary_source f) in
  let srcBoost :=
    if String.eqb src "metadata" || String.eqb src "both" then 0.1
    else if String.eqb src "text" then -0.1
    else 0 in
  let base :=
    if truthy hostHint then
      let hostHint := default EmptyString hostHint in
      if existsb (String.eqb hostHint) ATS_HOST_HINTS
         || endsWithHost hostHint ATS_HOST_HINTS
      then 0.9
      else if includes hostHint "careers." || endsWith hostHint ".jobs" then 0.7
      else 0.6
    else 0.5 in
  clamp01 (base + srcBoost).

(** [featureSkillsPresent]. *)
Definition featureSkillsPresent (analysis : option NlpAnalysis) : Q :=
  match analysis with
  | None => 0
  | Some analysis =>
      let skillCount := length (skills analysis) in
      if (skillCount =? 0)%nat then 0
      else if (5 <=? skillCount)%nat then 1
      else 0.5
  end.

(** [featureBuzzwordPenalty]; the product and the difference are doubles. *)
Definition featureBuzzwordPenalty (analysis : option NlpAnalysis) : Q :=
  match analysis with
  | None => 1
  | Some analysis =>
      let buzzwordCount := count (buzzwords analysis) in
      if Qeq_bool buzzwordCount 0 then 1
      else if Qle_bool 5 buzzwordCount then 0
      else Float64.sub 1 (Float64.mul buzzwordCount (Float64.round 0.2))
  end.

(** [featureCompPeriodClarity]. *)
Definition featureCompPeriodClarity (analysis : option NlpAnalysis) : Q :=
  match analysis with
  | None => 0.5
  | Some analysis => if truthy (comp_period_detected analysis) then 1 else 0.5
  end.

(** The state of the loop of [featureContentChangeQuality]. *)
Record ChangeCount := {
  significantChanges : nat;
  totalComparisons : nat;
  seenSimhashes : gmap string nat
}.

(** [seenSimhashes.set(key, (seenSimhashes.get(key) || 0) + 1)]. *)
Definition seen (key : string) (m : gmap string nat) : gmap string nat :=
  <[ key := (default 0 (m !! key) + 1)%nat ]> m.

(** One turn of the loop, on the snapshots [prev] and [curr]. *)
Definition compare_step (acc : ChangeCount) (pair : SnapshotHashes * SnapshotHashes)
  : ChangeCount :=
  let (prev, curr) := pair in
  let contentChanged :=
    isSimhashChangeSignificant (content_simhash prev) (content_simhash curr) None in
  let metadataChanged :=
    isSimhashChangeSignificant (metadata_simhash prev) (metadata_simhash curr) None in
  {| significantChanges :=
       if contentChanged || metadataChanged
       then S (significantChanges acc) else significantChanges acc;
     totalComparisons := S (totalComparisons acc);
     seenSimhashes :=
       seen (metadata_simhash curr) (seen (content_simhash curr) (seenSimhashes acc)) |}.

(** The pairs [(snapshotData[i - 1], snapshotData[i])] for [i] from 1. *)
Fixpoint consecutive {A : Type} (l : list A) : list (A * A) :=
  match l with
  | a :: (b :: _) as rest => (a, b) :: consecutive rest
  | _ => []
  end.

(** The [forEach] over the hashes seen: [(uniqueHashes, duplicateHashes)]. *)
Definition tally (m : gmap string nat) : nat * nat :=
  map_fold
    (fun _ count acc =>
       if (count =? 1)%nat then (S (fst acc), snd acc) else (fst acc, (snd acc + count)%nat))
    (0%nat, 0%nat) m.

Definition Qnat (n : nat) : Q := inject_Z (Z.of_nat n).

(** [featureContentChangeQuality]. *)
Definition featureContentChangeQuality
  (snapshotData : option (list SnapshotHashes)) (updateCadenceScore : option Q) : Q :=
  match snapshotData with
  | None => 0.5
  | Some snapshotData =>
      if (length snapshotData <? 2)%nat then 0.5
      else
        let counts :=
          fold_left compare_step (consecutive snapshotData)
            {| significantChanges := 0; totalComparisons := 0; seenSimhashes := ∅ |} in
        if (totalComparisons counts =? 0)%nat then 0.5
        else
          let changeRatio :=
            Qnat (significantChanges counts) / Qnat (totalComparisons counts) in
          let '(uniqueHashes, duplicateHashes) := tally (seenSimhashes counts) in
          let baseScore := changeRatio in
          let totalHashes := (uniqueHashes + duplicateHashes)%nat in
          let duplicateRatio :=
            if (0 <? totalHashes)%nat then Qnat duplicateHashes / Qnat totalHashes else 0 in
          let baseScore :=
            if Qltb 0.5 duplicateRatio then baseScore * (1 - duplicateRatio * 0.5)
            else baseScore in
          let baseScore :=
            match updateCadenceScore with
            | Some cadence =>
                if Qltb cadence 0.3 && Qltb baseScore 0.3 then baseScore * 0.8
                else baseScore
            | None => baseScore
            end in
          clamp01 baseScore
  end.

Section Scoring.

(** The clock ([new Date()]), [new Date(s).getTime()] with [None] for an
    invalid date, [Math.sqrt], and [new URL(u).hostname] with [None] when the
    constructor throws. *)
Variable now : Z.
Variable Date_getTime : string -> option Z.
Variable Math_sqrt : Q -> Q.
Variable URL_hostname : string -> option string.

(** [toDate]: the time value of a date that is given and valid. *)
Definition toDate (d : option DateInput) : option Z :=
  match d with
  | None => None
  | Some (DateString s) => if String.eqb s "" then None else Date_getTime s
  | Some (DateObject time) => time
  end.

(** [featureFreshness]. *)
Definition featureFreshness (firstPublished : option DateInput) : Q :=
  match toDate firstPublished with
  | None => 0.5
  | Some pub =>
      let age := daysBetween now pub in
      let score := 1 - Math_min (age / 90) 1 in
      clamp01 score
  end.

(** [hostOf]. *)
Definition hostOf (u : option string) : option string :=
  if truthy u then
    match URL_hostname (default EmptyString u) with
    | Some hostname => Some (drop_final_dot (toLowerCase hostname))
    | None => None
    end
  else None.

(** [scoreJob]; [weights] is [None] when the caller passes none. *)
Definition scoreJob (input : AtsJobInput) (weights : option PartialScoreWeights)
  : ScoreResult :=
  let freshness :=
    featureFreshness
      (match first_published input with
       | Some d => Some d
       | None => updated_at input
       end) in
  let host :=
    match host_hint input with
    | Some h => Some h
    | None => hostOf (absolute_url input)
    end in
  let updateCadenceScore :=
    match update_cadence_data input with
    | Some data => Some (featureUpdateCadence Math_sqrt Date_getTime (Some data))
    | None => None
    end in
  let breakdown :=
    [ ("freshness", freshness);
      ("link_integrity", featureLinkIntegrity (link_ok input) (link_loop input));
      ("salary_disclosure", featureSalaryDisclosure (features input));
      ("salary_min_present", featureSalaryMinPresent (features input));
      ("source_credibility", featureSourceCredibility (features input) host);
      ("skills_present", featureSkillsPresent (nlp_analysis input));
      ("buzzword_penalty", featureBuzzwordPenalty (nlp_analysis input));
      ("comp_period_clarity", featureCompPeriodClarity (nlp_analysis input)) ]%string
    ++ match updateCadenceScore with
       | Some s => [ ("update_cadence"%string, s) ]
       | None => []
       end
    ++ match snapshot_data input with
       | Some data =>
           [ ("content_change_quality"%string,
              featureContentChangeQuality (Some data) updateCadenceScore) ]
       | None => []
       end in
  let score := finalizeScore breakdown (default (all_given DEFAULT_WEIGHTS) weights) in
  {| score := score; breakdown := breakdown |}.

(** [scoreWebFeatures]. *)
Definition scoreWebFeatures (input : WebFeaturesInput) (weights : option PartialScoreWeights)
  : ScoreResult :=
  let host := hostOf (web_absolute_url input) in
  let mapped :=
    {| source := "web";
       absolute_url := web_absolute_url input;
       first_published := web_first_published input;
       updated_at := web_updated_at input;
       features :=
         {| salary_min := salary_min (web_features input);
            salary_mid := salary_mid (web_features input);
            salary_max := salary_max (web_features input);
            currency := currency (web_features input);
            comp_period := comp_period (web_features input);
            salary_source :=
              Some (default "unknown"%string (salary_source (web_features input))) |};
       host_hint := host;
       link_ok := Some true;
       link_loop := Some false;
       nlp_analysis := web_nlp_analysis input;
       update_cadence_data := None;
       snapshot_data := None |} in
  scoreJob mapped weights.

End Scoring.

End ScoreFeatures.

(** ** [app/orchestrator/analyzeJob.ts]: validation, tier and recommendations *)

Module Report.
Import Types JS Score Action.

Open Scope Q_scope.

(** [Tier]. *)
Inductive Tier := Low | Medium | High.

(** [RiskResult]. *)
Record RiskResult := {
  score : Q;
  tier : Tier;
  redFlags : list string;
  recommendations : list string
}.

(** What [validateJobPosting] returns. *)
Record Validation := { isValid : bool; error : option string }.

(** Truthiness of a nullable number: [null] and 0 are falsy. *)
Definition truthy_number (x : option Q) : bool :=
  match x with
  | Some q => negb (Qeq_bool q 0)
  | None => false
  end.

(** [s && s.trim().length > 0]. *)
Definition has_text (s : option string) : bool :=
  truthy s && (0 <? String.length (trim (default EmptyString s)))%nat.

(** [s.replace(pattern, replacement)] for a string pattern: the first
    occurrence is replaced. *)
Fixpoint replace_first (pattern replacement s : string) : string :=
  if String.prefix pattern s then
    replacement
    +:+ substring (String.length pattern) (String.length s - String.length pattern) s
  else
    match s with
    | EmptyString => EmptyString
    | String c s' => String c (replace_first pattern replacement s')
    end.

Section Validate.

(** [new URL(u).hostname], [None] when the constructor throws. *)
Variable URL_hostname : string -> option string.

(** [validateJobPosting]; the [features] member of the scraped job, which
    the record [AdapterJob] above leaves out, is passed beside it ([None]
    when the job has none). *)
Definition validateJobPosting (adapterJob : AdapterJob) (features : option dbJobFeatures)
  : Validation :=
  let hasTitle := has_text (title adapterJob) in
  let hasLocation := has_text (location adapterJob) in
  let companyIsJustHostname :=
    match URL_hostname (absolute_url adapterJob) with
    | Some hostname =>
        bool_decide (company_name adapterJob = Some hostname)
        || bool_decide (company_name adapterJob = Some (replace_first "www." "" hostname))
    | None => false
    end in
  let hasSalary :=
    truthy_number (features ≫= salary_min) || truthy_number (features ≫= salary_max) in
  let hasTimeType := truthy (features ≫= time_type) in
  let hasCurrency := truthy (features ≫= currency) in
  let hasDepartment := truthy (features ≫= department) in
  let completenessScore :=
    ((if hasTitle then 25 else 0)
     + (if hasLocation then 20 else 0)
     + (if hasSalary then 20 else 0)
     + (if hasTimeType then 10 else 0)
     + (if hasCurrency then 10 else 0)
     + (if hasDepartment then 5 else 0)
     + (if negb companyIsJustHostname then 10 else 0))%Z in
  if negb hasTitle then
    {| isValid := false;
       error :=
         Some "No job title found. This doesn't appear to be a job posting page."%string |}
  else if negb hasLocation && negb hasSalary then
    {| isValid := false;
       error :=
         Some ("No job location or salary information found. "
               +:+ "This doesn't appear to be a job posting page.")%string |}
  else if (completenessScore <? 30)%Z then
    {| isValid := false;
       error :=
         Some ("Insufficient job information found. "
               +:+ "This doesn't appear to be a job posting page. "
               +:+ "Please provide a direct link to a job posting.")%string |}
  else if companyIsJustHostname && (completenessScore <? 40)%Z then
    {| isValid := false;
       error :=
         Some ("Unable to extract job information from this page. "
               +:+ "Please provide a direct link to a job posting.")%string |}
  else {| isValid := true; error := None |}.

End Validate.

(** [breakdown[k]], [None] when the breakdown has no such key. *)
Fixpoint signal (breakdown : Breakdown) (k : string) : option Q :=
  match breakdown with
  | [] => None
  | (k', v) :: rest => if String.eqb k k' then Some v else signal rest k
  end.

(** [breakdown[k] < 0.5]; the comparison is false of [undefined]. *)
Definition is_low (breakdown : Breakdown) (k : string) : bool :=
  match signal breakdown k with
  | Some v => Qltb v 0.5
  | None => false
  end.

(** [generateRecommendations]. *)
Definition generateRecommendations (breakdown : Breakdown) : list string :=
  let hasRedFlags := existsb (fun entry => Qltb (snd entry) 0.5) breakdown in
  if negb hasRedFlags then
    ["No ghosts detected! This looks like a legitimate opportunity."%string]
  else
    let salaryFlags := ["salary_disclosure"; "salary_min_present"]%string in
    let hasMultipleSalaryFlags :=
      (2 <=? length (List.filter (is_low breakdown) salaryFlags))%nat in
    let salary :=
      if hasMultipleSalaryFlags then
        [("This posting has unclear compensation details. "
          +:+ "Ask about salary ranges during the interview.")%string]
      else
        (if is_low breakdown "salary_disclosure"
         then ["Ask about the salary range during the interview."%string] else [])
        ++ (if is_low breakdown "salary_min_present"
            then [("No stated minimum salary may be intentionally vague, "
                   +:+ "depending on the nature of the job.")%string]
            else []) in
    let nlpFlags := ["skills_present"; "buzzword_penalty"]%string in
    let hasMultipleNlpFlags :=
      (2 <=? length (List.filter (is_low breakdown) nlpFlags))%nat in
    let nlp :=
      if hasMultipleNlpFlags then
        [("Consider asking clarifying questions about the role and requirements - "
          +:+ "the description may be vague.")%string]
      else
        (if is_low breakdown "skills_present"
         then [("Ask for a detailed job description with "
                +:+ "specific technical requirements.")%string]
         else [])
        ++ (if is_low breakdown "buzzword_penalty"
            then [("Seek concrete expectations and responsibilities "
                   +:+ "beyond generic phrases.")%string]
            else []) in
    let hasPredictableCadence := is_low breakdown "update_cadence" in
    let hasStaleRefreshPattern := is_low breakdown "content_change_quality" in
    let hasStalePosting := is_low breakdown "freshness" in
    let pattern :=
      if hasPredictableCadence && hasStaleRefreshPattern && hasStalePosting then
        [("This job refreshes in a predictable pattern with no significant content "
          +:+ "changes, and it is a stale posting. These three signals combined strongly "
          +:+ "indicate automated efforts to make a ghost job appear active.")%string]
      else if hasPredictableCadence && hasStaleRefreshPattern then
        [("This job refreshes in a predictable pattern with no significant content "
          +:+ "changes. These two signals combined indicate automated efforts to make "
          +:+ "a ghost job appear active.")%string]
      else if hasPredictableCadence && hasStalePosting then
        [("This job is both stale and refreshes in a predictable pattern. These two "
          +:+ "signals combined is a stronger signal of automated efforts to make a "
          +:+ "ghost job appear active.")%string]
      else if hasStaleRefreshPattern && hasStalePosting then
        [("This job refreshes without significant content changes and is a stale "
          +:+ "posting. This pattern suggests the job may be reposted to appear active "
          +:+ "without real updates.")%string]
      else
        (if hasStalePosting
         then [("This posting may be stale. Verify the position is still actively "
                +:+ "hiring (posted >30 days ago).")%string]
         else [])
        ++ (if hasPredictableCadence
            then [("This job refreshes in a predictable pattern, which could indicate "
                   +:+ "automated efforts to make a ghost job appear active.")%string]
            else [])
        ++ (if hasStaleRefreshPattern
            then [("This job refreshes without significant content changes, which "
                   +:+ "could indicate automated reposting to make a ghost job appear "
                   +:+ "active.")%string]
            else []) in
    salary ++ nlp ++ pattern.

(** Step 7 of [analyzeJob]: the tier of a score. *)
Definition tier_of (score : Q) : Tier :=
  if Qltb score 0.4 then High
  else if Qltb score 0.7 then Medium
  else Low.

(** Step 7 of [analyzeJob]: the risk result made of a score result. *)
Definition risk_result (scoreResult : ScoreFeatures.ScoreResult) : RiskResult :=
  let breakdown := ScoreFeatures.breakdown scoreResult in
  {| score := ScoreFeatures.score scoreResult;
     tier := tier_of (ScoreFeatures.score scoreResult);
     redFlags := List.filter (is_low breakdown) (keys_of breakdown);
     recommendations := generateRecommendations breakdown |}.

End Report.

(** ** [app/(app)/page.tsx]: the colours of the result *)

Module Page.
Import Score Report.

Open Scope Q_scope.

(** [getTierColor]. *)
Definition getTierColor (tier : Tier) : string :=
  match tier with
  | Low => "text-green-700 bg-green-100 border-green-200"
  | Medium => "text-amber-700 bg-amber-100 border-amber-200"
  | High => "text-red-700 bg-red-100 border-red-200"
  end.


End Page.

(** * Vocabulary of the statements

    Quantities the theorems speak of, and the concrete stores and postings
    they are run on. *)

Import Types JS JobSnapshots Score Action Orchestrator.

(** The number of set bits among the lowest [n] bits of [z]. *)
Definition popcount (n : nat) (z : Z) : Z :=
  fold_right Z.add 0 (map (fun i => Z.b2z (Z.testbit z (Z.of_nat i))) (seq 0 n)).

(** The number of the lowest 64 bit positions at which [a] and [b] differ. *)
Definition hamming64 (a b : Z) : Z :=
  Z.of_nat (length (List.filter
    (fun i => xorb (Z.testbit a (Z.of_nat i)) (Z.testbit b (Z.of_nat i)))
    (seq 0 64))).

(** The value of a decimal numeral read after the digits worth [acc]. *)
Fixpoint uint_value (d : Decimal.uint) (acc : Z) : Z :=
  match d with
  | Decimal.Nil => acc
  | Decimal.D0 d => uint_value d (acc * 10 + 0)
  | Decimal.D1 d => uint_value d (acc * 10 + 1)
  | Decimal.D2 d => uint_value d (acc * 10 + 2)
  | Decimal.D3 d => uint_value d (acc * 10 + 3)
  | Decimal.D4 d => uint_value d (acc * 10 + 4)
  | Decimal.D5 d => uint_value d (acc * 10 + 5)
  | Decimal.D6 d => uint_value d (acc * 10 + 6)
  | Decimal.D7 d => uint_value d (acc * 10 + 7)
  | Decimal.D8 d => uint_value d (acc * 10 + 8)
  | Decimal.D9 d => uint_value d (acc * 10 + 9)
  end.

Fixpoint no_spaces (s : string) : bool :=
  match s with
  | EmptyString => true
  | String c s' => negb (is_space c) && no_spaces s'
  end.

(** Bit [i] of a digest, bytes in order, lowest bit of a byte first. *)
Definition digest_bit (hash : list Z) (i : nat) : bool :=
  Z.testbit (nth (i / 8) hash 0) (Z.of_nat (i mod 8)).

(** What one token adds to position [i]. *)
Definition vote (token : string) (i : nat) : Z :=
  if digest_bit (SHA256.digest token) i then 1 else -1.

(** The tokens of a text as the claims read them.  A text is its UTF-8
    bytes.  A word character is an ASCII letter, digit or underscore;
    [word_letter] is its lower-case form. *)
Definition word_letter (c : ascii) : option ascii :=
  let n := nat_of_ascii c in
  if ((48 <=? n) && (n <=? 57))%nat then Some c
  else if ((97 <=? n) && (n <=? 122))%nat then Some c
  else if (n =? 95)%nat then Some c
  else if ((65 <=? n) && (n <=? 90))%nat then Some (ascii_of_nat (n + 32))
  else None.

(** The text read byte by byte: a word character in lower case, or nothing
    for a byte that separates words.  Lower-casing yields a word character
    from two other code points: KELVIN SIGN (U+212A, bytes E2 84 AA) becomes
    [k], and I WITH DOT ABOVE (U+0130, bytes C4 B0) becomes [i] followed by
    COMBINING DOT ABOVE (two bytes, not word characters). *)
Fixpoint letters (text : string) : list (option ascii) :=
  match text with
  | EmptyString => []
  | String b1 rest1 =>
      let plain := word_letter b1 :: letters rest1 in
      match rest1 with
      | EmptyString => plain
      | String b2 rest2 =>
          if ((nat_of_ascii b1 =? 196) && (nat_of_ascii b2 =? 176))%nat
          then Some "i"%char :: None :: None :: letters rest2
          else
            match rest2 with
            | EmptyString => plain
            | String b3 rest3 =>
                if ((nat_of_ascii b1 =? 226) && (nat_of_ascii b2 =? 132)
                    && (nat_of_ascii b3 =? 170))%nat
                then Some "k"%char :: letters rest3
                else plain
            end
      end
  end.

(** The maximal runs of word characters. *)
Fixpoint runs (l : list (option ascii)) : list string :=
  match l with
  | [] => []
  | None :: l' => runs l'
  | Some c :: l' =>
      match l' with
      | Some _ :: _ =>
          match runs l' with
          | word :: words => String c word :: words
          | [] => [String c EmptyString]
          end
      | _ => String c EmptyString :: runs l'
      end
  end.

(** The tokens of the lowercased, punctuation-stripped, whitespace-split
    text. *)
Definition words_of (text : string) : list string := runs (letters text).

(** The accumulator of position [i] over all tokens of [text]. *)
Definition accumulator (text : string) (i : nat) : Z :=
  fold_right Z.add 0 (map (fun token => vote token i) (words_of text)).

(** White space ([\s], and what [trim] strips) in UTF-8: the ASCII
    controls 09-0D and the space; U+00A0; U+1680; U+2000-200A, U+2028,
    U+2029, U+202F; U+205F; U+3000; U+FEFF. *)
Definition one_byte_space (b : ascii) : bool :=
  let n := nat_of_ascii b in
  ((n =? 32) || ((9 <=? n) && (n <=? 13)))%nat.

Definition two_byte_space (b1 b2 : ascii) : bool :=
  ((nat_of_ascii b1 =? 194) && (nat_of_ascii b2 =? 160))%nat.

Definition three_byte_space (b1 b2 b3 : ascii) : bool :=
  let n1 := nat_of_ascii b1 in
  let n2 := nat_of_ascii b2 in
  let n3 := nat_of_ascii b3 in
  (((n1 =? 225) && (n2 =? 154) && (n3 =? 128))
   || ((n1 =? 226) && (n2 =? 128)
       && (((128 <=? n3) && (n3 <=? 138)) || (n3 =? 168) || (n3 =? 169) || (n3 =? 175)))
   || ((n1 =? 226) && (n2 =? 129) && (n3 =? 159))
   || ((n1 =? 227) && (n2 =? 128) && (n3 =? 128))
   || ((n1 =? 239) && (n2 =? 187) && (n3 =? 191)))%nat.

(** The text is empty or made of white space only. *)
Fixpoint white_space_only (text : string) : bool :=
  match text with
  | EmptyString => true
  | String b1 rest1 =>
      if one_byte_space b1 then white_space_only rest1
      else
        match rest1 with
        | EmptyString => false
        | String b2 rest2 =>
            if two_byte_space b1 b2 then white_space_only rest2
            else
              match rest2 with
              | EmptyString => false
              | String b3 rest3 => three_byte_space b1 b2 b3 && white_space_only rest3
              end
        end
  end.

(** The text with the given UTF-8 bytes. *)
Definition text_of_bytes (codes : list nat) : string :=
  string_of_list_ascii (map ascii_of_nat codes).


(** [replace(/[^\w\s]/g, " ")] on one character. *)
Definition keep_or_blank (c : ascii) : ascii :=
  if is_word c || is_space c then c else " "%char.

(** [token.length > 0]. *)
Definition nonempty (token : string) : bool := (0 <? String.length token)%nat.

Definition word_text (cur : list ascii) : string := string_of_list_ascii cur.

(** The words of [l] when the letters [cur] were read just before it. *)
Definition glue (cur : list ascii) (l : list (option ascii)) : list string :=
  match l with
  | Some _ :: _ =>
      match runs l with
      | word :: words => (word_text cur +:+ word) :: words
      | [] => []
      end
  | _ => (if nonempty (word_text cur) then [word_text cur] else []) ++ runs l
  end.


Fixpoint all_spaces (s : string) : bool :=
  match s with
  | EmptyString => true
  | String c s' => is_space c && all_spaces s'
  end.

(** The JSON text [generateMetadataHash] digests, written out: the six
    members in the order of their sorted keys. *)
Definition canonical_metadata
  (company_name first_published location requisition_id title updated_at
     : option string) : string :=
  "{"
  +:+ join ","
        [ json_string "company_name" +:+ ":" +:+ json_value company_name;
          json_string "first_published" +:+ ":" +:+ json_value first_published;
          json_string "location" +:+ ":" +:+ json_value location;
          json_string "requisition_id" +:+ ":" +:+ json_value requisition_id;
          json_string "title" +:+ ":" +:+ json_value title;
          json_string "updated_at" +:+ ":" +:+ json_value updated_at ]
  +:+ "}".

(** Two postings that differ in [updated_at] only. *)
Definition posting_jan : AdapterJob := {|
  ats_provider := "greenhouse";
  tenant_slug := "acme";
  external_job_id := "4242";
  title := Some "Software Engineer";
  company_name := Some "Acme";
  location := Some "Remote";
  absolute_url := "https://boards.greenhouse.io/acme/jobs/4242";
  first_published := Some "2024-01-01T00:00:00Z";
  updated_at := Some "2024-01-01T00:00:00Z";
  requisition_id := Some "R-17";
  content := Some "Build and run the billing service.";
  raw_json := "{}"
|}.

Definition posting_feb : AdapterJob := {|
  ats_provider := "greenhouse";
  tenant_slug := "acme";
  external_job_id := "4242";
  title := Some "Software Engineer";
  company_name := Some "Acme";
  location := Some "Remote";
  absolute_url := "https://boards.greenhouse.io/acme/jobs/4242";
  first_published := Some "2024-01-01T00:00:00Z";
  updated_at := Some "2024-02-01T00:00:00Z";
  requisition_id := Some "R-17";
  content := Some "Build and run the billing service.";
  raw_json := "{}"
|}.

Open Scope Q_scope.

(** The sum of a list of rationals. *)
Definition Qsum (l : list Q) : Q := fold_right Qplus 0 l.

(** The signal [k] takes part in the weighted sum: it has a weight, and the
    weight is positive. *)
Definition counted (w : ScoreWeights) (k : string) : bool :=
  match weight_of w k with
  | Some weight => Qltb 0 weight
  | None => false
  end.

Definition weight_or_0 (w : ScoreWeights) (k : string) : Q := default 0 (weight_of w k).

(** The present signals that have a positive weight. *)
Definition weighted_keys (w : ScoreWeights) (breakdown : Breakdown) : list string :=
  List.filter (counted w) (keys_of breakdown).

(** The sum of the weights used. *)
Definition weight_total (w : ScoreWeights) (breakdown : Breakdown) : Q :=
  Qsum (map (weight_or_0 w) (weighted_keys w breakdown)).


(** The aggregator as the claims read it.  The numbers of the program are
    doubles: [stored q] is the double that holds [q]. *)
Definition stored (q : Q) : Q := Float64.round q.

(** A value cut to [0,1]. *)
Definition clamped (v : Q) : Q :=
  if Qle_bool 0 v then (if Qle_bool v 1 then v else 1) else 0.

(** The first entry under the name [k]. *)
Fixpoint entry_of {A : Type} (k : string) (entries : list (string * A)) : option A :=
  match entries with
  | [] => None
  | (name, entry) :: rest => if String.eqb name k then Some entry else entry_of k rest
  end.

(** The ten default weights, by name. *)
Definition default_entries : list (string * Q) :=
  [ ("freshness", 0.16); ("link_integrity", 0.09); ("salary_disclosure", 0.21);
    ("salary_min_present", 0.13); ("source_credibility", 0.09);
    ("skills_present", 0.09); ("buzzword_penalty", 0.04);
    ("comp_period_clarity", 0.04); ("update_cadence", 0.05);
    ("content_change_quality", 0.05) ]%string.

(** The entries of a weight table given to [finalizeScore], by name. *)
Definition given_entries (weights : PartialScoreWeights)
  : list (string * option (option Q)) :=
  [ ("freshness", p_freshness weights);
    ("link_integrity", p_link_integrity weights);
    ("salary_disclosure", p_salary_disclosure weights);
    ("salary_min_present", p_salary_min_present weights);
    ("source_credibility", p_source_credibility weights);
    ("skills_present", p_skills_present weights);
    ("buzzword_penalty", p_buzzword_penalty weights);
    ("comp_period_clarity", p_comp_period_clarity weights);
    ("update_cadence", p_update_cadence weights);
    ("content_change_quality", p_content_change_quality weights) ]%string.

(** The weight that applies to the signal [k]: the entry of the table given
    when it has one, the default otherwise; 0 when that is not a number (the
    entry is [undefined], or [k] is none of the ten names) or not positive. *)
Definition applied_weight (weights : PartialScoreWeights) (k : string) : Q :=
  let entry :=
    match entry_of k (given_entries weights) with
    | Some (Some entry) => entry
    | _ => entry_of k default_entries
    end in
  match entry with
  | Some weight => if Qle_bool (stored weight) 0 then 0 else stored weight
  | None => 0
  end.

(** The signals of a breakdown to which a positive weight applies. *)
Definition weighted_signals (weights : PartialScoreWeights) (breakdown : Breakdown)
  : Breakdown :=
  List.filter (fun signal => negb (Qle_bool (applied_weight weights (fst signal)) 0))
    breakdown.

(** The value of a signal as the aggregator reads it. *)
Definition signal_value (signal : string * Q) : Q := clamped (stored (snd signal)).

(** The sum of the weights used, and of weight times value, over the
    rationals. *)
Definition exact_weight_sum (weights : PartialScoreWeights) (breakdown : Breakdown) : Q :=
  Qsum (map (fun signal => applied_weight weights (fst signal))
          (weighted_signals weights breakdown)).

Definition exact_weighted_sum (weights : PartialScoreWeights) (breakdown : Breakdown) : Q :=
  Qsum (map (fun signal => applied_weight weights (fst signal) * signal_value signal)
          (weighted_signals weights breakdown)).

(** The mean of the values of a breakdown, over the rationals. *)
Definition exact_mean (breakdown : Breakdown) : Q :=
  Qsum (map signal_value breakdown) / inject_Z (Z.of_nat (length breakdown)).

(** A sum taken from the left in doubles: every partial sum is rounded. *)
Definition rounded_sum (terms : list Q) : Q :=
  fold_left (fun sum term => stored (sum + term)) terms 0.

Definition rounded_weight_sum (weights : PartialScoreWeights) (breakdown : Breakdown) : Q :=
  rounded_sum (map (fun signal => applied_weight weights (fst signal))
                 (weighted_signals weights breakdown)).

Definition rounded_weighted_sum (weights : PartialScoreWeights) (breakdown : Breakdown)
  : Q :=
  rounded_sum
    (map (fun signal => stored (applied_weight weights (fst signal) * signal_value signal))
       (weighted_signals weights breakdown)).

(** The rounding error allowed for an average of [n] signals: [20 n + 2]
    half units in the last place of 1. *)
Definition rounding_allowance (n : nat) : Q :=
  (20 * inject_Z (Z.of_nat n) + 2) * 2 ^ (-53).

(** The loop of [finalizeScore] over the entries of the breakdown. *)
Definition loop_step (weights : PartialScoreWeights) (acc : Q * Q) (signal : string * Q)
  : Q * Q :=
  if negb (Qle_bool (applied_weight weights (fst signal)) 0)
  then (stored (fst acc + applied_weight weights (fst signal)),
        stored (snd acc
                + stored (applied_weight weights (fst signal) * signal_value signal)))
  else acc.

(** The eight signals that are always computed, all at 0.4. *)
Definition eight_at_0_4 : Breakdown :=
  [ ("freshness", 0.4); ("link_integrity", 0.4); ("salary_disclosure", 0.4);
    ("salary_min_present", 0.4); ("source_credibility", 0.4);
    ("skills_present", 0.4); ("buzzword_penalty", 0.4);
    ("comp_period_clarity", 0.4) ]%string.

(** Three signals, and tables that weigh them 3, 1 and (by default) 0.09;
    3, nothing ([undefined]) and 0; and beyond the range of doubles. *)
Definition three_signals : Breakdown :=
  [ ("freshness", 0.25); ("link_integrity", 0.75); ("skills_present", 1) ]%string.

Definition uneven_weights : PartialScoreWeights :=
  {| p_freshness := Some (Some 3); p_link_integrity := Some (Some 1);
     p_salary_disclosure := None; p_salary_min_present := None;
     p_source_credibility := None; p_skills_present := None;
     p_buzzword_penalty := None; p_comp_period_clarity := None;
     p_update_cadence := None; p_content_change_quality := None |}.

Definition undefined_weights : PartialScoreWeights :=
  {| p_freshness := Some (Some 3); p_link_integrity := Some None;
     p_salary_disclosure := None; p_salary_min_present := None;
     p_source_credibility := None; p_skills_present := Some (Some 0);
     p_buzzword_penalty := None; p_comp_period_clarity := None;
     p_update_cadence := None; p_content_change_quality := None |}.

Definition huge_weights : PartialScoreWeights :=
  {| p_freshness := Some (Some (10 ^ 308)); p_link_integrity := Some (Some (10 ^ 308));
     p_salary_disclosure := None; p_salary_min_present := None;
     p_source_credibility := None; p_skills_present := None;
     p_buzzword_penalty := None; p_comp_period_clarity := None;
     p_update_cadence := None; p_content_change_quality := None |}.

(** An analysis that found [c] buzzwords. *)
Definition analysis_with_count (c : Q) : ScoreFeatures.NlpAnalysis :=
  {| ScoreFeatures.skills := [];
     ScoreFeatures.buzzwords := {| ScoreFeatures.hits := []; ScoreFeatures.count := c |};
     ScoreFeatures.comp_period_detected := None |}.

(** Mean, variance, standard deviation and coefficient of variation of a
    list of gaps, summed from the left as the code sums them. *)
Definition mean_of (l : list Q) : Q :=
  fold_left (fun sum val => sum + val) l 0 / inject_Z (Z.of_nat (length l)).

Definition variance_of (l : list Q) : Q :=
  fold_left (fun sum val => sum + (val - mean_of l) ^ 2) l 0
  / inject_Z (Z.of_nat (length l)).

Definition stdDev_of (Math_sqrt : Q -> Q) (l : list Q) : Q :=
  Math_sqrt (variance_of l).

Definition cv_of (Math_sqrt : Q -> Q) (l : list Q) : Q :=
  if Qltb 0 (mean_of l) then stdDev_of Math_sqrt l / mean_of l else 0.

(** The gaps, in days, between the valid timestamps sorted ascending. *)
Definition gaps_of (Date_getTime : string -> option Z) (updateTimestamps : list string)
  : list Q :=
  intervals_of (sort_numbers (valid_times Date_getTime updateTimestamps)).

Definition day_ms : Z := 1000 * 60 * 60 * 24.



Open Scope Z_scope.

(** The invariant of [request_lock]: no row has a negative token count. *)
Definition tokens_nonneg (w : World) : Prop :=
  forall (user_id : string) (row : RequestLock),
    request_lock w !! user_id = Some row -> 0 <= tokens_remaining row.

(** A store with nothing in it, at time 0, that answers every call. *)
Definition empty_world : World := {|
  request_lock := ∅;
  jobs := [];
  job_updates := [];
  job_features := ∅;
  job_snapshots := [];
  next_id := 0%nat;
  now := 0;
  faults := [];
  writes := []
|}.

(** One user whose lock is open and whose tokens are spent. *)
Definition spent_world : World :=
  with_request_lock
    {[ "u1"%string := {| is_available := true; tokens_remaining := 0 |} ]}
    empty_world.

(** A features collaborator that finds nothing. *)
Definition no_features (jobDetails : AdapterJob) : dbJobFeatures := {|
  time_type := None;
  salary_min := None;
  salary_mid := None;
  salary_max := None;
  currency := None;
  department := None;
  salary_source := None
|}.

(** The job is answered from the cache: it is stored, fresh, and has features. *)
Definition cache_hit (adapterJob : AdapterJob) (w : World) : bool :=
  match find_by_key adapterJob w with
  | Some r =>
      match job_features w !! id r with
      | Some _ => isJobFresh (now w) r
      | None => false
      end
  | None => false
  end.

(** The snapshots the store holds for a job, in their order of insertion. *)
Definition snapshots_of (jobId : JobId) (w : World) : list dbJobSnapshot :=
  List.filter (fun s => Nat.eqb (job_id s) jobId) (job_snapshots w).

(** One [snapshot_at] is strictly before another (a time is before NULL). *)
Definition stamped_before (a b : option Z) : Prop :=
  match a, b with
  | Some x, Some y => x < y
  | Some _, None => True
  | None, _ => False
  end.

(** [s] is the newest snapshot of the job: it is one of the job's
    snapshots and every other one was stamped strictly before it. *)
Definition newest_snapshot (jobId : JobId) (w : World) (s : dbJobSnapshot) : Prop :=
  exists before after,
    snapshots_of jobId w = before ++ s :: after
    /\ Forall (fun x => stamped_before (snapshot_at x) (snapshot_at s))
         (before ++ after).

(** Every snapshot in the store was stamped before the time the clock
    shows now. *)
Definition stamps_before_now (w : World) : Prop :=
  Forall (fun s => stamped_before (snapshot_at s) (Some (now w))) (job_snapshots w).

(** An [updated_at] as the comparisons read it: the empty string counts as
    absent, like null. *)
Definition present_value (v : option string) : option string :=
  match v with
  | Some EmptyString => None
  | other => other
  end.

(** The snapshot [getLatestSnapshotForJob] returns when the store answers. *)
Definition latest_snapshot (jobId : JobId) (w : World) : option dbJobSnapshot :=
  last (order_by_snapshot_at
          (List.filter (fun s => Nat.eqb (job_id s) jobId) (job_snapshots w))).

(** A snapshot as [createJobSnapshot] stores it at time [t]. *)
Definition stamped (t : Z) (snapshot : dbJobSnapshot) : dbJobSnapshot := {|
  job_id := job_id snapshot;
  snapshot_at := Some t;
  ats_updated_at := ats_updated_at snapshot;
  snap_raw_json := snap_raw_json snapshot;
  content_hash := content_hash snapshot;
  metadata_hash := metadata_hash snapshot;
  content_simhash := content_simhash snapshot;
  metadata_simhash := metadata_simhash snapshot
|}.

(** The row [r] after the upsert of [adapterJob], last seen at [t]. *)
Definition upserted (r : JobRow) (adapterJob : AdapterJob) (t : option Z) : JobRow :=
  {| id := id r; job := adapterJob; is_active := true; last_seen := t |}.

(** A store that holds the January posting, last seen two days before. *)
Definition stale_world : World :=
  with_jobs
    [ {| id := 0%nat; job := posting_jan; is_active := true; last_seen := Some 0 |} ]
    1%nat
    {| request_lock := ∅; jobs := []; job_updates := []; job_features := ∅;
       job_snapshots := []; next_id := 0%nat; now := 172800000; faults := [];
       writes := [] |}.

(** Whether [InsertToJobUpdatesTable] inserts a row, by the stored and the
    incoming [updated_at] (when the store answers). *)
Definition update_recorded (Date_getTime : string -> option Z)
  (stored incoming : option string) : bool :=
  if negb (truthy incoming) then false
  else if negb (truthy stored) then true
  else time_gt (Date_getTime (default EmptyString incoming))
               (Date_getTime (default EmptyString stored)).

(** Whether the snapshot logic stores a snapshot for an existing job. *)
Definition snapshot_due (jobId : JobId) (adapterJob : AdapterJob) (w : World) : bool :=
  match latest_snapshot jobId w with
  | None => true
  | Some latest => hasAtsUpdatedAtChanged (Some latest) (updated_at adapterJob)
  end.

(** The store after it accepts a write (no fault pending). *)
Definition update_inserted (row : JobUpdateRow) (w : World) : World :=
  logged (W_job_updates_insert row) (with_job_updates (job_updates w ++ [row]) w).

Definition seen_now (r : JobRow) (w : World) : World :=
  logged (W_jobs_last_seen (id r) (now w))
    (with_jobs
       (replace_row {| id := id r; job := job r; is_active := is_active r;
                       last_seen := Some (now w) |} (jobs w))
       (next_id w) w).

Definition job_upserted (r' : JobRow) (w : World) : World :=
  logged (W_jobs_upsert r') (with_jobs (replace_row r' (jobs w)) (next_id w) w).

Definition job_inserted (adapterJob : AdapterJob) (w : World) : World :=
  logged
    (W_jobs_upsert {| id := next_id w; job := adapterJob; is_active := true;
                      last_seen := None |})
    (with_jobs
       (jobs w ++ [ {| id := next_id w; job := adapterJob; is_active := true;
                       last_seen := None |} ])
       (S (next_id w)) w).

Definition features_upserted (job_Id : JobId) (f : dbJobFeatures) (w : World) : World :=
  logged (W_job_features_upsert job_Id)
    (with_job_features (<[job_Id := f]> (job_features w)) w).

Definition snapshot_inserted (snapshot : dbJobSnapshot) (w : World) : World :=
  logged (W_job_snapshots_insert (stamped (now w) snapshot))
    (with_job_snapshots (job_snapshots w ++ [stamped (now w) snapshot]) w).

(** The same posting as in January, its text edited, [updated_at] untouched. *)
Definition posting_jan_edited : AdapterJob := {|
  ats_provider := "greenhouse";
  tenant_slug := "acme";
  external_job_id := "4242";
  title := Some "Software Engineer";
  company_name := Some "Acme";
  location := Some "Remote";
  absolute_url := "https://boards.greenhouse.io/acme/jobs/4242";
  first_published := Some "2024-01-01T00:00:00Z";
  updated_at := Some "2024-01-01T00:00:00Z";
  requisition_id := Some "R-17";
  content := Some "Build, run and own the billing service.";
  raw_json := "{}"
|}.

(** The January posting without an [updated_at], and with an empty one. *)
Definition posting_undated : AdapterJob := {|
  ats_provider := "greenhouse";
  tenant_slug := "acme";
  external_job_id := "4242";
  title := Some "Software Engineer";
  company_name := Some "Acme";
  location := Some "Remote";
  absolute_url := "https://boards.greenhouse.io/acme/jobs/4242";
  first_published := Some "2024-01-01T00:00:00Z";
  updated_at := None;
  requisition_id := Some "R-17";
  content := Some "Build and run the billing service.";
  raw_json := "{}"
|}.

Definition posting_blank_date : AdapterJob := {|
  ats_provider := "greenhouse";
  tenant_slug := "acme";
  external_job_id := "4242";
  title := Some "Software Engineer";
  company_name := Some "Acme";
  location := Some "Remote";
  absolute_url := "https://boards.greenhouse.io/acme/jobs/4242";
  first_published := Some "2024-01-01T00:00:00Z";
  updated_at := Some EmptyString;
  requisition_id := Some "R-17";
  content := Some "Build and run the billing service.";
  raw_json := "{}"
|}.

(** The store after the January posting was ingested into an empty store. *)
Definition ingested_world : World :=
  snd (analyzeJob Builtins.Date_getTime no_features posting_jan empty_world).

(** The store after the posting without an [updated_at] was ingested into
    an empty store. *)
Definition undated_world : World :=
  snd (analyzeJob Builtins.Date_getTime no_features posting_undated empty_world).

(** The freshness of a posting published [ms] milliseconds away from now:
    1 at zero, falling in a straight line to 0 at ninety days. *)
Definition decay (ms : Z) : Q :=
  if (ms <=? 90 * day_ms)%Z then 1 - inject_Z ms / inject_Z (90 * day_ms) else 0.

Open Scope Q_scope.

(** The nudge [srcBoost] of [featureSourceCredibility]. *)
Definition source_boost (salary_source : option string) : Q :=
  let src := default "unknown"%string salary_source in
  if String.eqb src "metadata" || String.eqb src "both" then 0.1
  else if String.eqb src "text" then -0.1
  else 0.







(** The signals that are always part of a breakdown of [scoreJob], and the
    names of the ones it holds for an input. *)
Definition signals_of (input : ScoreFeatures.AtsJobInput) : list string :=
  firstn 8 SIGNALS
  ++ match ScoreFeatures.update_cadence_data input with
     | Some _ => ["update_cadence"%string]
     | None => []
     end
  ++ match ScoreFeatures.snapshot_data input with
     | Some _ => ["content_change_quality"%string]
     | None => []
     end.

(** The sum of the default weights of the signals of an input. *)
Definition divisor_of (input : ScoreFeatures.AtsJobInput) : Q :=
  0.85
  + match ScoreFeatures.update_cadence_data input with Some _ => 0.05 | None => 0 end
  + match ScoreFeatures.snapshot_data input with Some _ => 0.05 | None => 0 end.

(** The least a breakdown of [scoreJob] can hold: the source never scores
    below 0.4 and the compensation period never below 0.5; and the least a
    breakdown of [scoreWebFeatures] can hold, where the link counts as
    sound. *)
Definition least_breakdown (input : ScoreFeatures.AtsJobInput) : Breakdown :=
  [ ("freshness", 0); ("link_integrity", 0); ("salary_disclosure", 0);
    ("salary_min_present", 0); ("source_credibility", 0.4);
    ("skills_present", 0); ("buzzword_penalty", 0);
    ("comp_period_clarity", 0.5) ]%string
  ++ match ScoreFeatures.update_cadence_data input with
     | Some _ => [("update_cadence"%string, 0)]
     | None => []
     end
  ++ match ScoreFeatures.snapshot_data input with
     | Some _ => [("content_change_quality"%string, 0)]
     | None => []
     end.

Definition least_web_breakdown : Breakdown :=
  [ ("freshness", 0); ("link_integrity", 1); ("salary_disclosure", 0);
    ("salary_min_present", 0); ("source_credibility", 0.4);
    ("skills_present", 0); ("buzzword_penalty", 0);
    ("comp_period_clarity", 0.5) ]%string.

Open Scope Z_scope.

(** The accumulator of position [i] over a list of tokens. *)
Definition votes (tokens : list string) (i : nat) : Z :=
  fold_right Z.add 0 (map (fun token => vote token i) tokens).

(** The scraped job states a salary: a minimum or a maximum that is not 0. *)
Definition has_salary (features : option dbJobFeatures) : bool :=
  Report.truthy_number (features ≫= Action.salary_min)
  || Report.truthy_number (features ≫= Action.salary_max).

Definition no_title_error : string :=
  "No job title found. This doesn't appear to be a job posting page.".

Definition no_place_error : string :=
  "No job location or salary information found. "
  +:+ "This doesn't appear to be a job posting page.".

Open Scope Q_scope.

(** Some value of the breakdown is below one half. *)
Definition has_red_flags (breakdown : Breakdown) : bool :=
  existsb (fun entry => Score.Qltb (snd entry) 0.5) breakdown.

Definition no_ghosts : string :=
  "No ghosts detected! This looks like a legitimate opportunity.".

(** The signals [generateRecommendations] has advice for. *)
Definition advised_signals : list string :=
  [ "salary_disclosure"; "salary_min_present"; "skills_present"; "buzzword_penalty";
    "update_cadence"; "content_change_quality"; "freshness" ]%string.

(** The advice of [generateRecommendations], in the order it is given:
    three messages on the salary, three on the description, seven on the
    refresh pattern. *)
Definition advice : list string :=
  [ "This posting has unclear compensation details. "
    +:+ "Ask about salary ranges during the interview.";
    "Ask about the salary range during the interview.";
    "No stated minimum salary may be intentionally vague, "
    +:+ "depending on the nature of the job.";
    "Consider asking clarifying questions about the role and requirements - "
    +:+ "the description may be vague.";
    "Ask for a detailed job description with specific technical requirements.";
    "Seek concrete expectations and responsibilities beyond generic phrases.";
    "This job refreshes in a predictable pattern with no significant content "
    +:+ "changes, and it is a stale posting. These three signals combined strongly "
    +:+ "indicate automated efforts to make a ghost job appear active.";
    "This job refreshes in a predictable pattern with no significant content "
    +:+ "changes. These two signals combined indicate automated efforts to make "
    +:+ "a ghost job appear active.";
    "This job is both stale and refreshes in a predictable pattern. These two "
    +:+ "signals combined is a stronger signal of automated efforts to make a "
    +:+ "ghost job appear active.";
    "This job refreshes without significant content changes and is a stale "
    +:+ "posting. This pattern suggests the job may be reposted to appear active "
    +:+ "without real updates.";
    "This posting may be stale. Verify the position is still actively "
    +:+ "hiring (posted >30 days ago).";
    "This job refreshes in a predictable pattern, which could indicate "
    +:+ "automated efforts to make a ghost job appear active.";
    "This job refreshes without significant content changes, which "
    +:+ "could indicate automated reposting to make a ghost job appear "
    +:+ "active." ]%string.

Open Scope Z_scope.

(** The composite key of a job row (the conflict target of the upsert). *)
Definition key_of (r : JobRow) : string * string * string :=
  (ats_provider (job r), tenant_slug (job r), external_job_id (job r)).

(** What the [jobs] table guarantees: ids are unique, composite keys are
    unique, and every id in use was handed out. *)
Definition store_ok (w : World) : Prop :=
  NoDup (map id (jobs w))
  /\ NoDup (map key_of (jobs w))
  /\ Forall (fun r => (id r < next_id w)%nat) (jobs w).

(** The store when the clock shows [t]. *)
Definition at_time (t : Z) (w : World) : World :=
  {| request_lock := request_lock w; jobs := jobs w; job_updates := job_updates w;
     job_features := job_features w; job_snapshots := job_snapshots w;
     next_id := next_id w; now := t; faults := faults w; writes := writes w |}.

(** Two stores that hold the same tables, ids, clock and accepted writes
    (the answers the store has yet to give may differ). *)
Definition same_tables (w w' : World) : Prop :=
  request_lock w' = request_lock w /\ jobs w' = jobs w
  /\ job_updates w' = job_updates w /\ job_features w' = job_features w
  /\ job_snapshots w' = job_snapshots w /\ next_id w' = next_id w
  /\ now w' = now w /\ writes w' = writes w.

(** [grows nu ns nj nf w w']: from [w] to [w'] the lock table and the clock
    are untouched, calls were answered in order, [job_updates] and
    [job_snapshots] only gained rows at their end ([nu] and [ns] at most),
    the job ids only gained [nj] at most, no job lost its features (and
    with [nf = 0] no features were written), and the guarantees of the
    [jobs] table were kept. *)
Definition grows (nu ns nj nf : nat) (w w' : World) : Prop :=
  request_lock w' = request_lock w
  /\ now w' = now w
  /\ (exists used, faults w = used ++ faults w')
  /\ (exists us, job_updates w' = job_updates w ++ us /\ (length us <= nu)%nat)
  /\ (exists ss, job_snapshots w' = job_snapshots w ++ ss /\ (length ss <= ns)%nat)
  /\ (exists js, map id (jobs w') = map id (jobs w) ++ js /\ (length js <= nj)%nat)
  /\ (forall i, is_Some (job_features w !! i) -> is_Some (job_features w' !! i))
  /\ (nf = 0%nat -> job_features w' = job_features w)
  /\ (store_ok w -> store_ok w').

Open Scope Z_scope.

(** * Theorems *)

(** ** SHA-256 test vectors (FIPS 180-4) *)

Lemma sha256_empty :
  SHA256.hexdigest "" =
  "e3b0c44298fc1c149afbf4c8996fb92427ae41e4649b934ca495991b7852b855"%string.
Proof. vm_compute. reflexivity. Qed.

Lemma sha256_abc :
  SHA256.hexdigest "abc" =
  "ba7816bf8f01cfea414140de5dae2223b00361a396177a9cb410ff61f20015ad"%string.
Proof. vm_compute. reflexivity. Qed.

Lemma sha256_two_blocks :
  SHA256.hexdigest "abcdbcdecdefdefgefghfghighijhijkijkljklmklmnlmnomnopnopq" =
  "248d6a61d20638b8e5c026930c3e6039a33ce45964ff2167f6ecedd419db06c1"%string.
Proof. vm_compute. reflexivity. Qed.

Lemma round_constants :
  length SHA256.K = 64%nat /\
  nth 0 SHA256.K 0 = 0x428a2f98 /\ nth 63 SHA256.K 0 = 0xc67178f2 /\
  nth 0 SHA256.H0 0 = 0x6a09e667 /\ nth 7 SHA256.H0 0 = 0x5be0cd19.
Proof. vm_compute. repeat split; reflexivity. Qed.

(** ** Hamming distance of fingerprints *)

Lemma count_set_bits_unfold temp distance :
  count_set_bits temp distance =
  if 0 <? temp
  then count_set_bits (Z.shiftr temp 1)
         (if Z.land temp 1 =? 0 then distance else distance + 1)
  else distance.
Proof.
  rewrite count_set_bits_equation_1.
  destruct (Z_gt_dec temp 0) as [Hgt|Hle]; cbn.
  - assert ((0 <? temp) = true) as -> by lia. reflexivity.
  - assert ((0 <? temp) = false) as -> by lia. reflexivity.
Qed.

Lemma land_1_b2z z : Z.land z 1 = Z.b2z (Z.testbit z 0).
Proof.
  change 1 with (Z.ones 1). rewrite Z.land_ones by lia.
  rewrite Z.bit0_mod. reflexivity.
Qed.

Lemma popcount_S n z :
  popcount (S n) z = Z.b2z (Z.testbit z 0) + popcount n (Z.shiftr z 1).
Proof.
  unfold popcount. cbn [seq map fold_right]. f_equal.
  rewrite <- seq_shift, map_map. f_equal.
  apply map_ext. intros i. rewrite Z.shiftr_spec by lia.
  do 2 f_equal. lia.
Qed.

Lemma count_set_bits_popcount n : forall temp distance,
  0 <= temp < 2 ^ Z.of_nat n ->
  count_set_bits temp distance = distance + popcount n temp.
Proof.
  induction n as [|n IH]; intros temp distance Hr.
  - assert (temp = 0) as -> by (change (2 ^ Z.of_nat 0) with 1 in Hr; lia).
    rewrite count_set_bits_unfold. cbn. unfold popcount. cbn. lia.
  - rewrite count_set_bits_unfold, popcount_S.
    destruct (0 <? temp) eqn:Hpos.
    + rewrite IH.
      * rewrite land_1_b2z. destruct (Z.testbit temp 0); cbn; lia.
      * rewrite Z.shiftr_div_pow2 by lia. change (2 ^ 1) with 2.
        rewrite Nat2Z.inj_succ, Z.pow_succ_r in Hr by lia.
        split; [apply Z.div_pos; lia | apply Z.div_lt_upper_bound; lia].
    + assert (temp = 0) as -> by lia.
      assert (popcount n (Z.shiftr 0 1) = 0) as ->.
      { unfold popcount. rewrite Z.shiftr_0_l.
        induction (seq 0 n) as [|i l IHl]; cbn; [reflexivity|].
        rewrite Z.testbit_0_l. cbn. exact IHl. }
      cbn. lia.
Qed.

Lemma popcount_xor_hamming a b : popcount 64 (Z.lxor a b) = hamming64 a b.
Proof.
  unfold popcount, hamming64.
  induction (seq 0 64) as [|i l IH]; cbn [map fold_right List.filter length].
  - reflexivity.
  - rewrite IH, Z.lxor_spec.
    destruct (xorb _ _); cbn [Z.b2z length]; lia.
Qed.

Lemma lxor_range a b n :
  0 <= n -> 0 <= a < 2 ^ n -> 0 <= b < 2 ^ n -> 0 <= Z.lxor a b < 2 ^ n.
Proof.
  intros Hn Ha Hb.
  assert (0 <= Z.lxor a b) by (apply Z.lxor_nonneg; lia).
  split; [assumption|].
  destruct (Z.eq_dec (Z.lxor a b) 0) as [->|Hne]; [apply Z.pow_pos_nonneg; lia|].
  assert (0 < n).
  { destruct (Z.eq_dec n 0) as [->|]; [|lia].
    change (2 ^ 0) with 1 in *.
    assert (a = 0) as -> by lia. assert (b = 0) as -> by lia.
    exfalso. apply Hne. reflexivity. }
  apply Z.log2_lt_pow2; [lia|].
  eapply Z.le_lt_trans; [apply Z.log2_lxor; lia|].
  apply Z.max_lub_lt.
  - destruct (Z.eq_dec a 0) as [->|]; [cbn; lia|]. apply Z.log2_lt_pow2; lia.
  - destruct (Z.eq_dec b 0) as [->|]; [cbn; lia|]. apply Z.log2_lt_pow2; lia.
Qed.

(** *** Stored fingerprints parse back *)

Lemma digits_from_numeral (d : Decimal.uint) : forall acc,
  digits_from 10 (NilEmpty.string_of_uint d) acc = Some (uint_value d acc).
Proof.
  induction d; intros acc; cbn [NilEmpty.string_of_uint uint_value digits_from];
    try reflexivity; apply IHd.
Qed.

Lemma numeral_no_spaces (d : Decimal.uint) :
  no_spaces (NilEmpty.string_of_uint d) = true.
Proof. induction d; cbn; auto. Qed.

Lemma of_uint_acc_value (d : Decimal.uint) : forall p : positive,
  Zpos (Pos.of_uint_acc d p) = uint_value d (Zpos p).
Proof.
  induction d; intros p; cbn [Pos.of_uint_acc uint_value];
    try reflexivity; rewrite IHd; f_equal; lia.
Qed.

Lemma of_uint_value (d : Decimal.uint) : Z.of_N (Pos.of_uint d) = uint_value d 0.
Proof.
  induction d; cbn [Pos.of_uint uint_value]; try reflexivity;
    try exact IHd; cbn [Z.of_N]; apply of_uint_acc_value.
Qed.

Lemma trimEnd_no_spaces (s : string) : no_spaces s = true -> trimEnd s = s.
Proof.
  induction s as [|c s IH]; cbn; [reflexivity|].
  intros H. apply andb_true_iff in H as [Hc Hs]. rewrite (IH Hs).
  destruct s; [|reflexivity].
  apply negb_true_iff in Hc. rewrite Hc. reflexivity.
Qed.

Lemma trim_no_spaces (s : string) : no_spaces s = true -> trim s = s.
Proof.
  intros H. unfold trim.
  assert (trimStart s = s) as ->.
  { destruct s as [|c s]; [reflexivity|]. cbn in *.
    apply andb_true_iff in H as [Hc _]. apply negb_true_iff in Hc.
    rewrite Hc. reflexivity. }
  apply trimEnd_no_spaces, H.
Qed.

Lemma BigInt_numeral (d : Decimal.uint) :
  d <> Decimal.Nil ->
  BigInt (NilEmpty.string_of_uint d) = Some (uint_value d 0).
Proof.
  intros Hd. unfold BigInt.
  rewrite (trim_no_spaces _ (numeral_no_spaces d)).
  rewrite <- (digits_from_numeral d 0).
  destruct d as [|d|d|d|d|d|d|d|d|d|d]; try contradiction; try reflexivity.
  destruct d; reflexivity.
Qed.

Lemma BigInt_positive (p : positive) :
  BigInt (NilEmpty.string_of_uint (Pos.to_uint p)) = Some (Zpos p).
Proof.
  assert (Hne : Pos.to_uint p <> Decimal.Nil).
  { intros E. pose proof (DecimalPos.Unsigned.of_to p) as H.
    rewrite E in H. discriminate H. }
  rewrite (BigInt_numeral _ Hne), <- of_uint_value, DecimalPos.Unsigned.of_to.
  reflexivity.
Qed.

Lemma string_of_uint_positive (p : positive) :
  NilZero.string_of_uint (Pos.to_uint p) = NilEmpty.string_of_uint (Pos.to_uint p).
Proof.
  unfold NilZero.string_of_uint.
  destruct (Pos.to_uint p) eqn:E; try reflexivity.
  pose proof (DecimalPos.Unsigned.of_to p) as H. rewrite E in H. discriminate H.
Qed.

(** A fingerprint written by [toString()] is read back by [BigInt]. *)
Lemma BigInt_toString_roundtrip (z : Z) : 0 <= z -> BigInt (BigInt_toString z) = Some z.
Proof.
  intros Hz. unfold BigInt_toString. destruct z as [|p|p]; [reflexivity| |lia].
  cbn [Z.to_int NilZero.string_of_int].
  rewrite string_of_uint_positive. apply BigInt_positive.
Qed.

(** C8.  Two strings that hold 64-bit fingerprints [a] and [b] (as their
    decimal rendering by [toString()] does): the distance is the number of
    set bits of [a xor b], which is the number of bit positions where they
    differ; the change is significant exactly when the distance exceeds the
    threshold (10 when none is given); equal fingerprints are at distance 0
    and, for a threshold that is not negative, never significant. *)
Theorem hamming_distance_and_significance (simhash1 simhash2 : string) (a b : Z) :
  BigInt simhash1 = Some a -> BigInt simhash2 = Some b ->
  0 <= a < 2 ^ 64 -> 0 <= b < 2 ^ 64 ->
  simhashHammingDistance simhash1 simhash2 = popcount 64 (Z.lxor a b)
  /\ simhashHammingDistance simhash1 simhash2 = hamming64 a b
  /\ (forall threshold : Z,
        isSimhashChangeSignificant simhash1 simhash2 (Some threshold) = true
        <-> threshold < simhashHammingDistance simhash1 simhash2)
  /\ (isSimhashChangeSignificant simhash1 simhash2 None = true
        <-> 10 < simhashHammingDistance simhash1 simhash2)
  /\ (a = b ->
        simhashHammingDistance simhash1 simhash2 = 0
        /\ isSimhashChangeSignificant simhash1 simhash2 None = false
        /\ forall threshold : Z, 0 <= threshold ->
             isSimhashChangeSignificant simhash1 simhash2 (Some threshold) = false)
  /\ BigInt (BigInt_toString a) = Some a
  /\ BigInt (BigInt_toString b) = Some b.
Proof.
  intros H1 H2 Ha Hb.
  assert (Hd : simhashHammingDistance simhash1 simhash2 = popcount 64 (Z.lxor a b)).
  { unfold simhashHammingDistance. rewrite H1, H2. cbn zeta.
    rewrite (count_set_bits_popcount 64) by (apply lxor_range; lia). lia. }
  split; [exact Hd|].
  split; [rewrite Hd; apply popcount_xor_hamming|].
  split; [intros threshold; apply Z.ltb_lt|].
  split; [apply Z.ltb_lt|].
  split; [|split; apply BigInt_toString_roundtrip; lia].
  intros ->.
  assert (H0 : simhashHammingDistance simhash1 simhash2 = 0).
  { rewrite Hd, Z.lxor_nilpotent. reflexivity. }
  unfold isSimhashChangeSignificant. rewrite H0. cbn [default].
  split; [reflexivity|]. split; [reflexivity|].
  intros threshold Ht. apply Z.ltb_ge. exact Ht.
Qed.

Lemma hamming_distance_and_significance_witness :
  simhashHammingDistance "5" "3" = popcount 64 (Z.lxor 5 3)
  /\ simhashHammingDistance "5" "3" = hamming64 5 3
  /\ (forall threshold : Z,
        isSimhashChangeSignificant "5" "3" (Some threshold) = true
        <-> threshold < simhashHammingDistance "5" "3")
  /\ (isSimhashChangeSignificant "5" "3" None = true
        <-> 10 < simhashHammingDistance "5" "3")
  /\ (5 = 3 ->
        simhashHammingDistance "5" "3" = 0
        /\ isSimhashChangeSignificant "5" "3" None = false
        /\ forall threshold : Z, 0 <= threshold ->
             isSimhashChangeSignificant "5" "3" (Some threshold) = false)
  /\ BigInt (BigInt_toString 5) = Some 5
  /\ BigInt (BigInt_toString 3) = Some 3.
Proof.
  apply (hamming_distance_and_significance "5" "3" 5 3);
    [reflexivity | reflexivity | lia | lia].
Defined.

(** C10.  When a fingerprint does not parse as an integer the distance is
    64, and the change is significant under the default threshold. *)
Theorem malformed_fingerprint_is_max_distance (simhash1 simhash2 : string) :
  BigInt simhash1 = None \/ BigInt simhash2 = None ->
  simhashHammingDistance simhash1 simhash2 = 64
  /\ isSimhashChangeSignificant simhash1 simhash2 None = true
  /\ isSimhashChangeSignificant simhash1 simhash2 (Some 10) = true.
Proof.
  intros H.
  assert (Hd : simhashHammingDistance simhash1 simhash2 = 64).
  { unfold simhashHammingDistance.
    destruct H as [-> | ->]; [reflexivity|].
    destruct (BigInt simhash1); reflexivity. }
  unfold isSimhashChangeSignificant. rewrite Hd. repeat split.
Qed.

Lemma malformed_fingerprint_is_max_distance_witness :
  simhashHammingDistance "12abc" "7" = 64
  /\ isSimhashChangeSignificant "12abc" "7" None = true
  /\ isSimhashChangeSignificant "12abc" "7" (Some 10) = true.
Proof.
  apply (malformed_fingerprint_is_max_distance "12abc" "7").
  left. reflexivity.
Defined.

(** ** The simhash fingerprint *)

Lemma hash_bit_digest_bit hash i :
  hash_bit hash i = Z.b2z (digest_bit hash i).
Proof.
  unfold hash_bit, digest_bit.
  rewrite land_1_b2z, Z.shiftr_spec by lia. rewrite Z.add_0_l. reflexivity.
Qed.

Lemma add_token_loop (c : nat -> Z) : forall n (w : list Z),
  (n <= length w)%nat ->
  let w' := fold_left (fun w i => alter (fun weight => weight + c i) i w) (seq 0 n) w in
  length w' = length w
  /\ forall i, nth i w' 0 = if (i <? n)%nat then nth i w 0 + c i else nth i w 0.
Proof.
  induction n as [|n IH]; intros w Hn; cbn zeta.
  - split; [reflexivity|]. intros i. reflexivity.
  - rewrite seq_S, fold_left_app. cbn [fold_left Nat.add].
    destruct (IH w ltac:(lia)) as [Hlen Hnth]. cbn zeta in Hlen, Hnth.
    set (w1 := fold_left _ (seq 0 n) w) in *.
    split; [rewrite length_alter; exact Hlen|].
    intros i. destruct (Nat.eq_dec i n) as [->|Hne].
    + assert ((n <? S n)%nat = true) as -> by (apply Nat.ltb_lt; lia).
      rewrite nth_lookup, list_lookup_alter_eq.
      destruct (lookup_lt_is_Some_2 w1 n ltac:(lia)) as [x Hx].
      rewrite Hx. change (default 0 ((fun weight => weight + c n) <$> Some x)) with (x + c n).
      pose proof (Hnth n) as Hn'.
      assert ((n <? n)%nat = false) as Hf by (apply Nat.ltb_ge; lia).
      rewrite Hf, nth_lookup, Hx in Hn'. change (default 0 (Some x)) with x in Hn'.
      rewrite Hn'. reflexivity.
    + rewrite nth_lookup, list_lookup_alter_ne by congruence.
      rewrite <- nth_lookup, Hnth.
      destruct (i <? n)%nat eqn:E1, (i <? S n)%nat eqn:E2; try reflexivity;
        [apply Nat.ltb_lt in E1; apply Nat.ltb_ge in E2; lia
        |apply Nat.ltb_ge in E1; apply Nat.ltb_lt in E2; lia].
Qed.

Lemma add_token_nth (w : list Z) (token : string) :
  length w = 64%nat ->
  length (add_token w token) = 64%nat
  /\ forall i, (i < 64)%nat -> nth i (add_token w token) 0 = nth i w 0 + vote token i.
Proof.
  intros Hlen. unfold add_token. cbn zeta.
  pose proof (add_token_loop
    (fun i => if hash_bit (SHA256.digest token) i =? 0 then -1 else 1)
    HASH_BITS w ltac:(unfold HASH_BITS; lia)) as [Hl Hn].
  cbn zeta in Hl, Hn. split; [rewrite Hl; exact Hlen|].
  intros i Hi. rewrite Hn.
  assert ((i <? HASH_BITS)%nat = true) as -> by (apply Nat.ltb_lt; exact Hi).
  f_equal. unfold vote. rewrite hash_bit_digest_bit.
  destruct (digest_bit _ i); reflexivity.
Qed.

Lemma fold_add_token_nth (tokens : list string) : forall w : list Z,
  length w = 64%nat ->
  forall i, (i < 64)%nat ->
  nth i (fold_left add_token tokens w) 0 =
  nth i w 0 + fold_right Z.add 0 (map (fun token => vote token i) tokens).
Proof.
  induction tokens as [|t ts IH]; intros w Hlen i Hi; cbn [fold_left map fold_right].
  - lia.
  - destruct (add_token_nth w t Hlen) as [Hl Hn].
    rewrite (IH _ Hl i Hi), (Hn i Hi). lia.
Qed.

Lemma bits_loop (w : list Z) : forall n i,
  Z.testbit
    (fold_left
       (fun simhash i =>
          if 0 <? nth i w 0 then Z.lor simhash (Z.shiftl 1 (Z.of_nat i)) else simhash)
       (seq 0 n) 0) (Z.of_nat i)
  = (i <? n)%nat && (0 <? nth i w 0).
Proof.
  induction n as [|n IH]; intros i.
  - cbn. apply Z.testbit_0_l.
  - rewrite seq_S, fold_left_app. cbn [fold_left Nat.add].
    set (acc := fold_left _ (seq 0 n) 0) in *.
    assert (Hcase : forall b : bool,
      Z.testbit (if b then Z.lor acc (Z.shiftl 1 (Z.of_nat n)) else acc) (Z.of_nat i)
      = Z.testbit acc (Z.of_nat i) || (b && (n =? i)%nat)).
    { intros [|]; cbn [andb].
      - rewrite Z.lor_spec, Z.shiftl_1_l, Z.pow2_bits_eqb by lia.
        f_equal. destruct (Nat.eqb_spec n i) as [->|Hne].
        + apply Z.eqb_refl.
        + apply Z.eqb_neq. lia.
      - rewrite orb_false_r. reflexivity. }
    rewrite Hcase, IH.
    destruct (Nat.eqb_spec n i) as [->|Hne].
    + assert ((i <? i)%nat = false) as -> by (apply Nat.ltb_ge; lia).
      assert ((i <? S i)%nat = true) as -> by (apply Nat.ltb_lt; lia).
      cbn [andb orb]. rewrite andb_true_r. reflexivity.
    + rewrite andb_false_r, orb_false_r. f_equal.
      destruct (i <? n)%nat eqn:E1, (i <? S n)%nat eqn:E2; try reflexivity;
        [apply Nat.ltb_lt in E1; apply Nat.ltb_ge in E2; lia
        |apply Nat.ltb_ge in E1; apply Nat.ltb_lt in E2; lia].
Qed.

Lemma bits_of_weights_testbit (w : list Z) (i : nat) :
  Z.testbit (bits_of_weights w) (Z.of_nat i) = (i <? 64)%nat && (0 <? nth i w 0).
Proof. apply bits_loop. Qed.

Lemma bits_of_weights_nonneg (w : list Z) : 0 <= bits_of_weights w.
Proof.
  unfold bits_of_weights.
  assert (H : forall l acc, 0 <= acc ->
    0 <= fold_left
      (fun simhash i =>
         if 0 <? nth i w 0 then Z.lor simhash (Z.shiftl 1 (Z.of_nat i)) else simhash)
      l acc).
  { induction l as [|i l IH]; intros acc Hacc; cbn [fold_left]; [exact Hacc|].
    apply IH. destruct (0 <? nth i w 0); [|exact Hacc].
    apply Z.lor_nonneg. split; [exact Hacc|]. apply Z.shiftl_nonneg. lia. }
  apply H. lia.
Qed.

Lemma bits_of_weights_range (w : list Z) : 0 <= bits_of_weights w < 2 ^ 64.
Proof.
  pose proof (bits_of_weights_nonneg w) as Hnn. split; [exact Hnn|].
  destruct (Z.eq_dec (bits_of_weights w) 0) as [->|Hne]; [reflexivity|].
  apply Z.log2_lt_pow2; [lia|].
  destruct (Z_lt_le_dec (Z.log2 (bits_of_weights w)) 64) as [Hlt|Hge]; [exact Hlt|].
  exfalso.
  pose proof (Z.bit_log2 (bits_of_weights w) ltac:(lia)) as Hbit.
  rewrite <- (Z2Nat.id (Z.log2 (bits_of_weights w))) in Hbit by lia.
  rewrite bits_of_weights_testbit in Hbit.
  assert ((Z.to_nat (Z.log2 (bits_of_weights w)) <? 64)%nat = false) as Hf
    by (apply Nat.ltb_ge; lia).
  rewrite Hf in Hbit. discriminate.
Qed.

Lemma map_chars_all_spaces (f : ascii -> ascii) (s : string) :
  (forall c, is_space c = true -> is_space (f c) = true) ->
  all_spaces s = true -> all_spaces (map_chars f s) = true.
Proof.
  intros Hf. induction s as [|c s IH]; cbn; [reflexivity|].
  intros H. apply andb_true_iff in H as [Hc Hs].
  rewrite (Hf c Hc), (IH Hs). reflexivity.
Qed.

Lemma split_all_spaces (s : string) : forall in_run,
  all_spaces s = true ->
  List.filter (fun token => (0 <? String.length token)%nat)
    (split_spaces_from s [] in_run) = [].
Proof.
  induction s as [|c s IH]; intros in_run H; cbn in *.
  - reflexivity.
  - apply andb_true_iff in H as [Hc Hs]. rewrite Hc.
    destruct in_run; cbn; apply IH; exact Hs.
Qed.

Lemma toLowerCase_plain (c : ascii) (r : string) :
  code c <> 196%N -> code c <> 226%N ->
  toLowerCase (String c r) = String (lower_char c) (toLowerCase r).
Proof.
  intros H1 H2.
  assert (Hd : forall c2, is_dotted_I c c2 = false).
  { intros c2. unfold is_dotted_I. apply N.eqb_neq in H1. rewrite H1. reflexivity. }
  assert (Hk : forall c2 c3, is_kelvin c c2 c3 = false).
  { intros c2 c3. unfold is_kelvin. apply N.eqb_neq in H2. rewrite H2. reflexivity. }
  destruct r as [|c2 [|c3 r3]]; cbn [toLowerCase]; rewrite ?Hd, ?Hk; reflexivity.
Qed.

(** How [toLowerCase] reads the head of a text. *)
Lemma toLowerCase_cases (s : string) :
  (s = EmptyString /\ toLowerCase s = EmptyString)
  \/ (exists c1 c2 r2, s = String c1 (String c2 r2) /\ is_dotted_I c1 c2 = true
        /\ toLowerCase s = String "i" (dot_above +:+ toLowerCase r2))
  \/ (exists c1 c2 c3 r3, s = String c1 (String c2 (String c3 r3))
        /\ is_kelvin c1 c2 c3 = true
        /\ toLowerCase s = String "k" (toLowerCase r3))
  \/ (exists c1 r1, s = String c1 r1
        /\ (forall c2 r2, r1 = String c2 r2 -> is_dotted_I c1 c2 = false)
        /\ (forall c2 c3 r3, r1 = String c2 (String c3 r3) -> is_kelvin c1 c2 c3 = false)
        /\ toLowerCase s = String (lower_char c1) (toLowerCase r1)).
Proof.
  destruct s as [|c1 [|c2 r2]].
  - left. split; reflexivity.
  - right. right. right. exists c1, EmptyString. repeat split; discriminate.
  - destruct (is_dotted_I c1 c2) eqn:Ed.
    + right. left. exists c1, c2, r2. cbn [toLowerCase]. rewrite Ed. repeat split.
    + destruct r2 as [|c3 r3].
      * right. right. right. exists c1, (String c2 EmptyString).
        cbn [toLowerCase]. rewrite Ed.
        split; [reflexivity|]. split; [intros ? ? E; injection E as -> _; exact Ed|].
        split; [discriminate|reflexivity].
      * destruct (is_kelvin c1 c2 c3) eqn:Ek.
        -- right. right. left. exists c1, c2, c3, r3. cbn [toLowerCase].
           rewrite Ed, Ek. repeat split.
        -- right. right. right. exists c1, (String c2 (String c3 r3)).
           cbn [toLowerCase]. rewrite Ed, Ek.
           split; [reflexivity|]. split; [intros ? ? E; injection E as -> _; exact Ed|].
           split; [intros ? ? ? E; injection E as -> -> _; exact Ek|reflexivity].
Qed.

Lemma lower_char_high (c : ascii) : (128 <= code (lower_char c))%N -> lower_char c = c.
Proof.
  unfold lower_char. destruct (is_upper c) eqn:E; [|reflexivity].
  unfold is_upper in E. apply andb_true_iff in E as [E1 E2].
  apply N.leb_le in E1, E2. unfold code in *. rewrite N_ascii_embedding by lia. lia.
Qed.

Lemma toLowerCase_high_head (s r : string) (c : ascii) :
  toLowerCase s = String c r -> (128 <= code c)%N ->
  exists r0, s = String c r0 /\ r = toLowerCase r0
    /\ (forall c2 r2, r0 = String c2 r2 -> is_dotted_I c c2 = false)
    /\ (forall c2 c3 r3, r0 = String c2 (String c3 r3) -> is_kelvin c c2 c3 = false).
Proof.
  intros E Hc.
  destruct (toLowerCase_cases s) as
    [[-> El]|[(c1 & c2 & r2 & -> & _ & El)|[(c1 & c2 & c3 & r3 & -> & _ & El)
     |(c1 & r1 & -> & Hd & Hk & El)]]]; rewrite El in E.
  - discriminate.
  - injection E as <- _. vm_compute in Hc. exfalso. apply Hc. reflexivity.
  - injection E as <- _. vm_compute in Hc. exfalso. apply Hc. reflexivity.
  - injection E as Ec Er. rewrite <- Ec in Hc. pose proof (lower_char_high c1 Hc) as Hl.
    rewrite Hl in Ec. subst c1. exists r1. repeat split; [symmetry; exact Er|exact Hd|exact Hk].
Qed.

Lemma toLowerCase_all_spaces (s : string) :
  all_spaces s = true -> all_spaces (toLowerCase s) = true.
Proof.
  induction s as [|c s IH]; [reflexivity|].
  intros H. cbn [all_spaces] in H. apply andb_true_iff in H as [Hc Hs].
  assert (Hl : lower_char c = c /\ code c <> 196%N /\ code c <> 226%N).
  { unfold lower_char, is_space, is_upper in *.
    destruct (code c =? 32)%N eqn:E1.
    - apply N.eqb_eq in E1. rewrite E1. cbn. repeat split; lia.
    - cbn in Hc. apply andb_true_iff in Hc as [H1 H2]. apply N.leb_le in H1, H2.
      assert ((65 <=? code c)%N = false) as -> by (apply N.leb_gt; lia).
      cbn. repeat split; lia. }
  destruct Hl as (Hl & H1 & H2).
  rewrite toLowerCase_plain by assumption. rewrite Hl.
  cbn [all_spaces]. rewrite Hc, (IH Hs). reflexivity.
Qed.

Lemma nat_code (c : ascii) (n : nat) : (nat_of_ascii c =? n)%nat = (code c =? N.of_nat n)%N.
Proof.
  unfold code, nat_of_ascii.
  destruct (N.eqb_spec (N_of_ascii c) (N.of_nat n)) as [E|E].
  - apply Nat.eqb_eq. rewrite E. apply Nat2N.id.
  - apply Nat.eqb_neq. intros H. apply E. rewrite <- H. symmetry. apply N2Nat.id.
Qed.

Lemma letters_cases (s : string) :
  (s = EmptyString /\ letters s = [])
  \/ (exists c1 c2 r2, s = String c1 (String c2 r2) /\ is_dotted_I c1 c2 = true
        /\ letters s = Some "i"%char :: None :: None :: letters r2)
  \/ (exists c1 c2 c3 r3, s = String c1 (String c2 (String c3 r3))
        /\ is_dotted_I c1 c2 = false /\ is_kelvin c1 c2 c3 = true
        /\ letters s = Some "k"%char :: letters r3)
  \/ (exists c1 r1, s = String c1 r1
        /\ (forall c2 r2, r1 = String c2 r2 -> is_dotted_I c1 c2 = false)
        /\ (forall c2 c3 r3, r1 = String c2 (String c3 r3) -> is_kelvin c1 c2 c3 = false)
        /\ letters s = word_letter c1 :: letters r1).
Proof.
  destruct s as [|c1 [|c2 r2]].
  - left. split; reflexivity.
  - right. right. right. exists c1, EmptyString. repeat split; discriminate.
  - assert (Ed : ((nat_of_ascii c1 =? 196) && (nat_of_ascii c2 =? 176))%nat
                 = is_dotted_I c1 c2).
    { unfold is_dotted_I. rewrite !nat_code. reflexivity. }
    destruct (is_dotted_I c1 c2) eqn:Hd.
    + right. left. exists c1, c2, r2. cbn [letters]. rewrite Ed. repeat split; assumption.
    + destruct r2 as [|c3 r3].
      * right. right. right. exists c1, (String c2 EmptyString).
        cbn [letters]. rewrite Ed.
        split; [reflexivity|]. split; [intros ? ? E; injection E as -> _; exact Hd|].
        split; [discriminate|reflexivity].
      * assert (Ek : ((nat_of_ascii c1 =? 226) && (nat_of_ascii c2 =? 132)
                       && (nat_of_ascii c3 =? 170))%nat = is_kelvin c1 c2 c3).
        { unfold is_kelvin. rewrite !nat_code. reflexivity. }
        destruct (is_kelvin c1 c2 c3) eqn:Hk.
        -- right. right. left. exists c1, c2, c3, r3. cbn [letters].
           rewrite Ed, Ek. repeat split; assumption.
        -- right. right. right. exists c1, (String c2 (String c3 r3)).
           cbn [letters]. rewrite Ed, Ek.
           split; [reflexivity|]. split; [intros ? ? E; injection E as -> _; exact Hd|].
           split; [intros ? ? ? E; injection E as -> -> _; exact Hk|reflexivity].
Qed.

Lemma byte_class (c : ascii) :
  match word_letter c with
  | Some l => l = lower_char c /\ is_space (keep_or_blank l) = false
              /\ keep_or_blank l = l
  | None => is_space (keep_or_blank (lower_char c)) = true
  end.
Proof. destruct c as [[] [] [] [] [] [] [] []]; vm_compute; repeat split. Qed.

Lemma runs_some (c : ascii) (l : list (option ascii)) :
  exists word words, runs (Some c :: l) = String c word :: words.
Proof.
  revert c. induction l as [|[d|] l IH]; intros c.
  - exists EmptyString, []. reflexivity.
  - destruct (IH d) as (w & ws & E). cbn [runs] in *. rewrite E. eauto.
  - cbn [runs]. eauto.
Qed.

Lemma word_text_snoc (cur : list ascii) (c : ascii) (w : string) :
  word_text (cur ++ [c]) +:+ w = word_text cur +:+ String c w.
Proof.
  unfold word_text. induction cur as [|a cur IH]; [reflexivity|].
  change (String a (string_of_list_ascii (cur ++ [c]) +:+ w)
          = String a (string_of_list_ascii cur +:+ String c w)).
  rewrite IH. reflexivity.
Qed.

Lemma word_text_snoc_nonempty (cur : list ascii) (c : ascii) :
  nonempty (word_text (cur ++ [c])) = true.
Proof. destruct cur; reflexivity. Qed.

Lemma append_empty (s : string) : s +:+ EmptyString = s.
Proof.
  induction s as [|c s IH]; [reflexivity|].
  change (String c (s +:+ EmptyString) = String c s). rewrite IH. reflexivity.
Qed.

Lemma glue_some (cur : list ascii) (c : ascii) (l : list (option ascii)) :
  glue cur (Some c :: l) = glue (cur ++ [c]) l.
Proof.
  destruct l as [|[d|] l].
  - cbn [glue runs]. rewrite word_text_snoc_nonempty. cbn [app].
    rewrite <- word_text_snoc, append_empty. reflexivity.
  - destruct (runs_some d l) as (w & ws & E).
    cbn [glue]. cbn [runs] in *. rewrite E.
    rewrite word_text_snoc. reflexivity.
  - cbn [glue runs]. rewrite word_text_snoc_nonempty. cbn [app].
    rewrite <- word_text_snoc, append_empty. reflexivity.
Qed.

Lemma glue_none (cur : list ascii) (l : list (option ascii)) :
  glue cur (None :: l)
  = (if nonempty (word_text cur) then [word_text cur] else []) ++ glue [] l.
Proof.
  cbn [glue runs]. f_equal.
  destruct l as [|[d|] l]; cbn [glue]; try reflexivity.
  destruct (runs_some d l) as (w & ws & E). rewrite E. reflexivity.
Qed.

Lemma glue_nil (l : list (option ascii)) : glue [] l = runs l.
Proof.
  destruct l as [|[d|] l]; cbn [glue]; try reflexivity.
  destruct (runs_some d l) as (w & ws & E). rewrite E. reflexivity.
Qed.

Lemma split_letter (c : ascii) (s : string) (cur : list ascii) (in_run : bool) :
  is_space c = false ->
  split_spaces_from (String c s) cur in_run = split_spaces_from s (c :: cur) false.
Proof. intros H. cbn [split_spaces_from]. rewrite H. reflexivity. Qed.

Lemma split_blank (c : ascii) (s : string) (cur : list ascii) (in_run : bool) :
  is_space c = true -> (in_run = true -> cur = []) ->
  List.filter nonempty (split_spaces_from (String c s) cur in_run)
  = (if nonempty (word_text (rev cur)) then [word_text (rev cur)] else [])
    ++ List.filter nonempty (split_spaces_from s [] true).
Proof.
  intros H Hinv. cbn [split_spaces_from]. rewrite H.
  destruct in_run.
  - rewrite (Hinv eq_refl). reflexivity.
  - cbn [List.filter]. unfold word_text.
    destruct (nonempty (string_of_list_ascii (rev cur))); reflexivity.
Qed.

Lemma split_end (cur : list ascii) (in_run : bool) :
  List.filter nonempty (split_spaces_from EmptyString cur in_run) = glue (rev cur) [].
Proof.
  cbn [split_spaces_from List.filter glue runs]. unfold word_text.
  rewrite app_nil_r. reflexivity.
Qed.

Lemma split_is_glue (n : nat) : forall (text : string) (cur : list ascii) (in_run : bool),
  (String.length text <= n)%nat ->
  (in_run = true -> cur = []) ->
  List.filter nonempty
    (split_spaces_from (map_chars keep_or_blank (toLowerCase text)) cur in_run)
  = glue (rev cur) (letters text).
Proof.
  induction n as [|n IH]; intros text cur in_run Hn Hinv.
  - destruct text; [|cbn in Hn; lia]. apply split_end.
  - destruct (toLowerCase_cases text) as
      [[-> El]|[(c1 & c2 & r2 & -> & Hd & El)|[(c1 & c2 & c3 & r3 & -> & Hk & El)
       |(c1 & r1 & -> & Hd & Hk & El)]]].
    + apply split_end.
    + destruct (letters_cases (String c1 (String c2 r2))) as
        [[E _]|[(? & ? & ? & E & _ & Es)|[(? & ? & ? & ? & E & Hd' & _)
         |(? & ? & E & Hd' & _)]]]; try discriminate.
      * injection E as <- <- <-. rewrite El, Es.
        change (dot_above +:+ toLowerCase r2)
          with (String (ascii_of_N 204) (String (ascii_of_N 135) (toLowerCase r2))).
        cbn [map_chars].
        change (keep_or_blank "i") with "i"%char.
        change (keep_or_blank (ascii_of_N 204)) with " "%char.
        change (keep_or_blank (ascii_of_N 135)) with " "%char.
        rewrite split_letter by reflexivity.
        rewrite split_blank by (reflexivity || discriminate).
        cbn [split_spaces_from]. change (is_space " ") with true. cbn iota.
        rewrite (IH r2) by (cbn in Hn; lia || reflexivity).
        rewrite glue_some, glue_none, glue_none. cbn [rev].
        rewrite word_text_snoc_nonempty. reflexivity.
      * injection E as <- <- _. rewrite Hd in Hd'. discriminate.
      * injection E as <- <-. rewrite (Hd' _ _ eq_refl) in Hd. discriminate.
    + destruct (letters_cases (String c1 (String c2 (String c3 r3)))) as
        [[E _]|[(? & ? & ? & E & Hd' & _)|[(? & ? & ? & ? & E & _ & _ & Es)
         |(? & ? & E & _ & Hk' & _)]]]; try discriminate.
      * injection E as <- <- <-. exfalso. unfold is_dotted_I, is_kelvin in *.
        apply andb_true_iff in Hd' as [H1 _]. apply andb_true_iff in Hk as [Hk _].
        apply andb_true_iff in Hk as [H2 _]. apply N.eqb_eq in H1, H2. lia.
      * injection E as <- <- <- <-. rewrite El, Es.
        cbn [map_chars]. change (keep_or_blank "k") with "k"%char.
        rewrite split_letter by reflexivity.
        rewrite (IH r3) by (cbn in Hn; lia || discriminate).
        rewrite glue_some. reflexivity.
      * injection E as <- <-. rewrite (Hk' _ _ _ eq_refl) in Hk. discriminate.
    + destruct (letters_cases (String c1 r1)) as
        [[E _]|[(? & ? & ? & E & Hd' & _)|[(? & ? & ? & ? & E & _ & Hk' & _)
         |(? & ? & E & _ & _ & Es)]]]; try discriminate.
      * injection E as <- ->. rewrite (Hd _ _ eq_refl) in Hd'. discriminate.
      * injection E as <- ->. rewrite (Hk _ _ _ eq_refl) in Hk'. discriminate.
      * injection E as <- <-. rewrite El, Es. cbn [map_chars].
        pose proof (byte_class c1) as Hc. destruct (word_letter c1) as [l|].
        -- destruct Hc as (-> & Hs & Hk1). rewrite Hk1.
           rewrite Hk1 in Hs. rewrite split_letter by exact Hs.
           rewrite (IH r1) by (cbn in Hn; lia || discriminate).
           rewrite glue_some. reflexivity.
        -- rewrite split_blank by assumption.
           rewrite (IH r1) by (cbn in Hn; lia || reflexivity).
           rewrite glue_none. reflexivity.
Qed.

Lemma tokenize_words_of (text : string) : tokenize text = words_of text.
Proof.
  unfold tokenize, words_of, split_spaces. cbn zeta.
  rewrite <- glue_nil.
  exact (split_is_glue (String.length text) text [] false (le_n _) ltac:(discriminate)).
Qed.

Lemma letters_plain (b : ascii) (r : string) :
  nat_of_ascii b <> 196%nat -> nat_of_ascii b <> 226%nat ->
  letters (String b r) = word_letter b :: letters r.
Proof.
  intros H1 H2. apply Nat.eqb_neq in H1, H2.
  destruct r as [|b2 [|b3 r3]]; cbn [letters]; rewrite ?H1, ?H2; reflexivity.
Qed.

Lemma letters_lead (b1 b2 : ascii) (r : string) :
  nat_of_ascii b1 <> 196%nat -> nat_of_ascii b2 <> 132%nat ->
  letters (String b1 (String b2 r)) = word_letter b1 :: letters (String b2 r).
Proof.
  intros H1 H2. apply Nat.eqb_neq in H1, H2.
  destruct r as [|b3 r3]; cbn [letters]; rewrite ?H1, ?H2, ?andb_false_r; reflexivity.
Qed.

Lemma word_letter_none (b : ascii) :
  (nat_of_ascii b < 48)%nat \/ (128 <= nat_of_ascii b)%nat -> word_letter b = None.
Proof.
  intros H. unfold word_letter. cbn zeta.
  repeat match goal with
         | |- context [(?a <=? ?b)%nat] => destruct (Nat.leb_spec a b)
         | |- context [(?a =? ?b)%nat] => destruct (Nat.eqb_spec a b)
         end; cbn; try reflexivity; lia.
Qed.

Lemma white_space_no_letters (n : nat) : forall text : string,
  (String.length text <= n)%nat -> white_space_only text = true ->
  runs (letters text) = [].
Proof.
  induction n as [|n IH]; intros text Hn H.
  - destruct text; [reflexivity|cbn in Hn; lia].
  - destruct text as [|b1 rest1]; [reflexivity|].
    cbn [white_space_only] in H.
    destruct (one_byte_space b1) eqn:E1.
    { unfold one_byte_space in E1. cbn zeta in E1.
      rewrite orb_true_iff, andb_true_iff, Nat.eqb_eq, !Nat.leb_le in E1.
      rewrite letters_plain, word_letter_none by lia.
      cbn [runs]. apply IH; [cbn in Hn; lia|exact H]. }
    destruct rest1 as [|b2 rest2]; [discriminate|].
    destruct (two_byte_space b1 b2) eqn:E2.
    { unfold two_byte_space in E2.
      rewrite andb_true_iff, !Nat.eqb_eq in E2.
      rewrite letters_plain, word_letter_none by lia.
      rewrite letters_plain, word_letter_none by lia.
      cbn [runs]. apply IH; [cbn in Hn; lia|exact H]. }
    destruct rest2 as [|b3 rest3]; [discriminate|].
    apply andb_true_iff in H as [E3 H].
    unfold three_byte_space in E3. cbn zeta in E3.
    repeat (rewrite orb_true_iff in E3 || rewrite andb_true_iff in E3
            || rewrite Nat.eqb_eq in E3 || rewrite Nat.leb_le in E3).
    rewrite letters_lead, word_letter_none by lia.
    rewrite letters_plain, word_letter_none by lia.
    rewrite letters_plain, word_letter_none by lia.
    cbn [runs]. apply IH; [cbn in Hn; lia|exact H].
Qed.

Lemma words_of_white_space (text : string) :
  white_space_only text = true -> words_of text = [].
Proof. apply (white_space_no_letters (String.length text)). apply le_n. Qed.

Lemma tokenize_all_spaces (text : string) :
  all_spaces text = true -> tokenize text = [].
Proof.
  intros H. unfold tokenize, split_spaces. cbn zeta.
  apply split_all_spaces.
  apply map_chars_all_spaces.
  { intros c Hc. rewrite Hc, orb_true_r. exact Hc. }
  apply toLowerCase_all_spaces, H.
Qed.

Lemma trimStart_all_spaces (s : string) :
  all_spaces s = true -> trimStart s = EmptyString.
Proof.
  induction s as [|c s IH]; cbn; [reflexivity|].
  intros H. apply andb_true_iff in H as [Hc Hs]. rewrite Hc. apply IH, Hs.
Qed.

Lemma trimEnd_empty (s : string) :
  trimEnd s = EmptyString -> all_spaces s = true.
Proof.
  induction s as [|c s IH]; cbn; [reflexivity|].
  destruct (trimEnd s) eqn:E; [|discriminate].
  destruct (is_space c); [|discriminate].
  intros _. apply IH. reflexivity.
Qed.

Lemma trimStart_suffix (s : string) :
  all_spaces (trimStart s) = true -> all_spaces s = true.
Proof.
  induction s as [|c s IH]; cbn; [reflexivity|].
  destruct (is_space c) eqn:Hc; cbn.
  - exact IH.
  - rewrite Hc. cbn. discriminate.
Qed.

Lemma trim_empty_iff (s : string) :
  String.length (trim s) = 0%nat <-> all_spaces s = true.
Proof.
  unfold trim. split.
  - intros H. apply trimStart_suffix, trimEnd_empty.
    destruct (trimEnd (trimStart s)); [reflexivity|discriminate].
  - intros H. rewrite (trimStart_all_spaces s H). reflexivity.
Qed.

Lemma generateSimhash_cases (text : string) :
  (tokenize text = [] /\ generateSimhash text = 0)
  \/ generateSimhash text =
       bits_of_weights (fold_left add_token (tokenize text) (repeat 0 HASH_BITS)).
Proof.
  unfold generateSimhash. cbn zeta.
  destruct (String.eqb text "" || (String.length (trim text) =? 0)%nat) eqn:E.
  - left. split; [|reflexivity]. apply tokenize_all_spaces.
    apply orb_true_iff in E as [E|E].
    + apply String.eqb_eq in E. subst. reflexivity.
    + apply Nat.eqb_eq in E. apply trim_empty_iff. exact E.
  - destruct (length (tokenize text) =? 0)%nat eqn:E2.
    + left. split; [|reflexivity]. apply Nat.eqb_eq in E2.
      destruct (tokenize text); [reflexivity|discriminate].
    + right. reflexivity.
Qed.

Lemma generateSimhash_range (text : string) : 0 <= generateSimhash text < 2 ^ 64.
Proof.
  destruct (generateSimhash_cases text) as [[_ ->] | ->].
  - split; [lia|reflexivity].
  - apply bits_of_weights_range.
Qed.

(** C7.  The fingerprint is a function of the text alone.  Bit [i] (below
    64) is set exactly when the accumulator of position [i] - the sum over
    the tokens of the lowercased, punctuation-stripped, whitespace-split
    text of +1 when bit [i] of the token's SHA-256 digest is 1 and -1
    otherwise - is strictly positive; no other bit is set; a text of white
    space only (the empty text included) has the all-zero fingerprint.  The
    tokens are the maximal runs of word characters in lower case, as in
    [Hello, World! It's 2024_Q1], whose fingerprint is
    1113463558561430028; a text of a no-break space, an em space, a
    byte-order mark, a space and a line feed has fingerprint 0. *)
Theorem simhash_bit_iff_accumulator_positive :
  (forall (text : string) (i : nat), (i < 64)%nat ->
     Z.testbit (generateSimhash text) (Z.of_nat i) = true <-> 0 < accumulator text i)
  /\ (forall text : string, 0 <= generateSimhash text < 2 ^ 64)
  /\ (forall text : string, white_space_only text = true -> generateSimhash text = 0)
  /\ words_of "Hello, World! It's 2024_Q1"
     = ["hello"; "world"; "it"; "s"; "2024_q1"]%string
  /\ words_of (text_of_bytes [196; 176; 115; 116; 97; 110; 98; 117; 108; 32;
                              99; 97; 102; 195; 169; 32; 53; 226; 132; 170]%nat)
     = ["i"; "stanbul"; "caf"; "5k"]%string
  /\ generateSimhash "Hello, World! It's 2024_Q1" = 1113463558561430028
  /\ generateSimhash (text_of_bytes [194; 160; 226; 128; 131; 239; 187; 191; 32; 10]%nat)
     = 0.
Proof.
  split; [|split; [|split; [|repeat split; vm_compute; reflexivity]]].
  - intros text i Hi. unfold accumulator. rewrite <- tokenize_words_of.
    destruct (generateSimhash_cases text) as [[Ht ->] | ->].
    + rewrite Ht. cbn. rewrite Z.testbit_0_l. split; [discriminate|lia].
    + rewrite bits_of_weights_testbit.
      assert ((i <? 64)%nat = true) as -> by (apply Nat.ltb_lt; exact Hi).
      cbn [andb].
      rewrite fold_add_token_nth by (try exact Hi; apply repeat_length).
      rewrite nth_repeat, Z.add_0_l. apply Z.ltb_lt.
  - apply generateSimhash_range.
  - intros text H. pose proof (words_of_white_space text H) as Hw.
    rewrite <- tokenize_words_of in Hw.
    destruct (generateSimhash_cases text) as [[_ ->] | ->]; [reflexivity|].
    rewrite Hw. vm_compute. reflexivity.
Qed.

(** Fingerprints as [createSnapshotData] stores them: the distance between
    the stored content fingerprints of two postings is the number of bit
    positions at which the simhashes of their contents differ. *)
Theorem stored_fingerprints_distance (id1 id2 : JobId) (job1 job2 : AdapterJob) :
  simhashHammingDistance
    (content_simhash (createSnapshotData id1 job1))
    (content_simhash (createSnapshotData id2 job2))
  = hamming64 (generateSimhash (or_empty (content job1)))
              (generateSimhash (or_empty (content job2))).
Proof.
  pose proof (generateSimhash_range (or_empty (content job1))) as H1.
  pose proof (generateSimhash_range (or_empty (content job2))) as H2.
  unfold createSnapshotData. cbn [content_simhash].
  unfold simhashHammingDistance.
  rewrite !BigInt_toString_roundtrip by lia.
  rewrite (count_set_bits_popcount 64) by (apply lxor_range; lia).
  rewrite Z.add_0_l. apply popcount_xor_hamming.
Qed.

(** ** The metadata hash *)

Lemma metadata_keys_sorted (jobData : AdapterJob) :
  sort_strings (map fst (metadata_of jobData)) =
  [ "company_name"; "first_published"; "location"; "requisition_id";
    "title"; "updated_at" ]%string.
Proof. vm_compute. reflexivity. Qed.

Lemma metadataString_canonical (jobData : AdapterJob) :
  metadataString jobData =
  canonical_metadata (company_name jobData) (first_published jobData)
    (location jobData) (requisition_id jobData) (title jobData) (updated_at jobData).
Proof.
  unfold metadataString. cbn zeta. rewrite metadata_keys_sorted.
  unfold JSON_stringify, metadata_of, canonical_metadata.
  cbn [flat_map assoc String.eqb Ascii.eqb Bool.eqb app].
  reflexivity.
Qed.

Lemma blocks_length (fuel : nat) : forall h bs,
  length h = 8%nat -> length (SHA256.blocks fuel h bs) = 8%nat.
Proof.
  induction fuel as [|f IH]; intros h bs Hh; cbn [SHA256.blocks]; [exact Hh|].
  destruct bs as [|b bs]; [exact Hh|]. apply IH. reflexivity.
Qed.

Lemma digest_length (s : string) : length (SHA256.digest s) = 32%nat.
Proof.
  unfold SHA256.digest, SHA256.digest_bytes. cbn zeta.
  pose proof (blocks_length
    (length (SHA256.pad (SHA256.bytes_of_string s))) SHA256.H0
    (SHA256.pad (SHA256.bytes_of_string s)) eq_refl) as H.
  destruct (SHA256.blocks _ _ _) as [|a [|b [|c [|d [|e [|f [|g [|h [|]]]]]]]]];
    try discriminate H.
  reflexivity.
Qed.

Lemma hexdigest_length (s : string) : String.length (SHA256.hexdigest s) = 64%nat.
Proof.
  unfold SHA256.hexdigest, SHA256.hex_of_bytes.
  pose proof (digest_length s) as H.
  destruct (SHA256.digest s) as
    [|b0 [|b1 [|b2 [|b3 [|b4 [|b5 [|b6 [|b7 [|b8 [|b9 [|b10 [|b11 [|b12 [|b13
     [|b14 [|b15 [|b16 [|b17 [|b18 [|b19 [|b20 [|b21 [|b22 [|b23 [|b24 [|b25
     [|b26 [|b27 [|b28 [|b29 [|b30 [|b31 [|]]]]]]]]]]]]]]]]]]]]]]]]]]]]]]]]];
    try discriminate H.
  reflexivity.
Qed.

(** C4 (as the code has it).  The metadata hash is the SHA-256 digest, 64
    hexadecimal digits (256 bits), of the JSON object of six metadata
    fields - company_name, first_published, location, requisition_id, title,
    updated_at - written in the order of their sorted keys; it is a function
    of these six fields alone, so two postings that agree on them have the
    same hash whatever their other fields hold. *)
Theorem metadata_hash_of_six_fields (jobData : AdapterJob) :
  generateMetadataHash jobData =
    SHA256.hexdigest
      (canonical_metadata (company_name jobData) (first_published jobData)
         (location jobData) (requisition_id jobData) (title jobData)
         (updated_at jobData))
  /\ String.length (generateMetadataHash jobData) = 64%nat
  /\ sort_strings (map fst (metadata_of jobData)) =
       [ "company_name"; "first_published"; "location"; "requisition_id";
         "title"; "updated_at" ]%string
  /\ forall other : AdapterJob,
       title other = title jobData /\ company_name other = company_name jobData
       /\ location other = location jobData
       /\ first_published other = first_published jobData
       /\ updated_at other = updated_at jobData
       /\ requisition_id other = requisition_id jobData ->
       generateMetadataHash other = generateMetadataHash jobData.
Proof.
  split; [|split; [|split]].
  - unfold generateMetadataHash. rewrite metadataString_canonical. reflexivity.
  - apply hexdigest_length.
  - reflexivity.
  - intros other (H1 & H2 & H3 & H4 & H5 & H6).
    unfold generateMetadataHash. rewrite !metadataString_canonical.
    rewrite H1, H2, H3, H4, H5, H6. reflexivity.
Qed.

(** C4, where the claim fails: the two postings agree on title, company,
    location, first_published and requisition_id (and on every field but
    [updated_at]), and their metadata hashes differ. *)
Lemma metadata_hash_depends_on_updated_at :
  title posting_jan = title posting_feb
  /\ company_name posting_jan = company_name posting_feb
  /\ location posting_jan = location posting_feb
  /\ first_published posting_jan = first_published posting_feb
  /\ requisition_id posting_jan = requisition_id posting_feb
  /\ generateMetadataHash posting_jan <> generateMetadataHash posting_feb.
Proof.
  repeat (split; [reflexivity|]).
  vm_compute. discriminate.
Qed.

(** ** Binary64 rounding *)

Open Scope Q_scope.



Lemma pow2_pos (k : Z) : 0 < 2 ^ k.
Proof. apply Qpower_0_lt. reflexivity. Qed.

Lemma pow2_plus (a b : Z) : 2 ^ (a + b) == 2 ^ a * 2 ^ b.
Proof. apply Qpower_plus. discriminate. Qed.

Lemma pow2_le (a b : Z) : (a <= b)%Z -> 2 ^ a <= 2 ^ b.
Proof. intros H. apply Qpower_le_compat_l; [exact H|discriminate]. Qed.

Lemma pow2_int (k : Z) : (0 <= k)%Z -> 2 ^ k == inject_Z (2 ^ k).
Proof. intros H. rewrite Zpower_Qpower by exact H. reflexivity. Qed.

Lemma pow2_minus (a b : Z) : 2 ^ (a - b) == 2 ^ a / 2 ^ b.
Proof.
  unfold Z.sub. rewrite pow2_plus, Qpower_opp. reflexivity.
Qed.

Lemma Q_as_ratio (q : Q) : q * inject_Z (Z.pos (Qden q)) == inject_Z (Qnum q).
Proof.
  destruct q as [n d]. unfold Qeq, Qmult, inject_Z. cbn. lia.
Qed.

Lemma ilog2_spec (q : Q) : 0 < q -> 2 ^ Float64.ilog2 q <= q < 2 ^ (Float64.ilog2 q + 1).
Proof.
  intros Hq.
  assert (Hn : (0 < Qnum q)%Z).
  { destruct q as [n d]. unfold Qlt in Hq. cbn in *. lia. }
  set (a := Z.log2 (Qnum q)). set (b := Z.log2 (Z.pos (Qden q))).
  pose proof (Z.log2_spec (Qnum q) Hn) as Ha. fold a in Ha.
  pose proof (Z.log2_spec (Z.pos (Qden q)) ltac:(lia)) as Hb. fold b in Hb.
  pose proof (Z.log2_nonneg (Qnum q)) as Ha0. fold a in Ha0.
  pose proof (Z.log2_nonneg (Z.pos (Qden q))) as Hb0. fold b in Hb0.
  pose proof (Q_as_ratio q) as Hr.
  set (d := inject_Z (Z.pos (Qden q))) in *.
  set (n := inject_Z (Qnum q)) in *.
  assert (Hd : 0 < d). { unfold d. change 0 with (inject_Z 0). rewrite <- Zlt_Qlt. lia. }
  assert (Hna : 2 ^ a <= n /\ n < 2 ^ (a + 1)).
  { rewrite !pow2_int by lia. unfold n. rewrite <- Zle_Qle, <- Zlt_Qlt.
    replace (a + 1)%Z with (Z.succ a) by lia. exact Ha. }
  assert (Hdb : 2 ^ b <= d /\ d < 2 ^ (b + 1)).
  { rewrite !pow2_int by lia. unfold d. rewrite <- Zle_Qle, <- Zlt_Qlt.
    replace (b + 1)%Z with (Z.succ b) by lia. exact Hb. }
  pose proof (pow2_pos b) as Hpb. pose proof (pow2_pos a) as Hpa.
  (* q < 2^(a-b+1) and 2^(a-b-1) < q *)
  assert (Hup : q < 2 ^ (a - b + 1)).
  { replace (a - b + 1)%Z with ((a + 1) - b)%Z by lia. rewrite pow2_minus.
    apply Qlt_shift_div_l; [exact Hpb|].
    apply Qle_lt_trans with (q * d); [|rewrite Hr; apply Hna].
    apply Qmult_le_l; [exact Hq|apply Hdb]. }
  assert (Hlow : 2 ^ (a - b - 1) <= q).
  { replace (a - b - 1)%Z with (a - (b + 1))%Z by lia. rewrite pow2_minus.
    apply Qle_shift_div_r; [apply pow2_pos|].
    apply Qle_trans with (q * d); [rewrite Hr; apply Hna|].
    apply Qmult_le_l; [exact Hq|]. apply Qlt_le_weak, Hdb. }
  unfold Float64.ilog2. fold a b. cbn zeta.
  destruct (Qle_bool (2 ^ (a - b)) q) eqn:E.
  - apply Qle_bool_iff in E. split; [exact E|exact Hup].
  - split; [exact Hlow|].
    replace (a - b - 1 + 1)%Z with (a - b)%Z by lia.
    apply Qnot_le_lt. intros H. apply Qle_bool_iff in H. congruence.
Qed.

Lemma ilog2_mono (x y : Q) : 0 < x -> x <= y -> (Float64.ilog2 x <= Float64.ilog2 y)%Z.
Proof.
  intros Hx Hxy.
  assert (Hy : 0 < y) by lra.
  pose proof (ilog2_spec x Hx) as [Hx1 _].
  pose proof (ilog2_spec y Hy) as [_ Hy2].
  destruct (Z_le_gt_dec (Float64.ilog2 x) (Float64.ilog2 y)) as [H|H]; [exact H|].
  exfalso. assert (2 ^ (Float64.ilog2 y + 1) <= 2 ^ Float64.ilog2 x) by (apply pow2_le; lia).
  lra.
Qed.

Lemma rne_between (x : Q) : (Qfloor x <= Float64.rne x <= Qfloor x + 1)%Z.
Proof.
  unfold Float64.rne. cbn zeta.
  destruct (Qcompare _ _); [destruct (Z.even _)| |]; lia.
Qed.

Lemma rne_int (z : Z) : Float64.rne (inject_Z z) = z.
Proof.
  unfold Float64.rne. cbn zeta. rewrite Qfloor_Z.
  assert (E : inject_Z z - inject_Z z == 0) by ring.
  assert (C : Qcompare (inject_Z z - inject_Z z) (1 # 2) = Lt).
  { rewrite <- Qlt_alt. rewrite E. reflexivity. }
  rewrite C. reflexivity.
Qed.

Lemma rne_mono (x y : Q) : x <= y -> (Float64.rne x <= Float64.rne y)%Z.
Proof.
  intros Hxy.
  pose proof (Qfloor_resp_le x y Hxy) as Hf.
  pose proof (rne_between x) as Hx. pose proof (rne_between y) as Hy.
  destruct (Z.eq_dec (Qfloor x) (Qfloor y)) as [E|E]; [|lia].
  unfold Float64.rne in *. cbn zeta in *. rewrite <- E in *.
  destruct (Qcompare (x - inject_Z (Qfloor x)) (1 # 2)) eqn:Cx;
    destruct (Qcompare (y - inject_Z (Qfloor x)) (1 # 2)) eqn:Cy;
    try rewrite <- Qeq_alt in *; try rewrite <- Qlt_alt in *;
    try rewrite <- Qgt_alt in *;
    destruct (Z.even (Qfloor x)); try lia; exfalso; lra.
Qed.

Lemma rne_error (x : Q) : Qabs (inject_Z (Float64.rne x) - x) <= 1 # 2.
Proof.
  pose proof (Qfloor_le x) as H1. pose proof (Qlt_floor x) as H2.
  rewrite inject_Z_plus in H2. change (inject_Z 1) with 1 in H2.
  apply Qabs_case; intros _; unfold Float64.rne; cbn zeta;
    destruct (Qcompare (x - inject_Z (Qfloor x)) (1 # 2)) eqn:C;
    try rewrite <- Qeq_alt in C; try rewrite <- Qlt_alt in C;
    try rewrite <- Qgt_alt in C;
    try destruct (Z.even (Qfloor x)); rewrite ?inject_Z_plus;
    change (inject_Z 1) with 1; lra.
Qed.

Lemma ulp_exponent_mono (x y : Q) :
  0 < x -> x <= y -> (Float64.ulp_exponent x <= Float64.ulp_exponent y)%Z.
Proof.
  intros Hx Hxy. unfold Float64.ulp_exponent.
  pose proof (ilog2_mono x y Hx Hxy). lia.
Qed.

Lemma scaled (x : Q) (e : Z) : x / 2 ^ e * 2 ^ e == x.
Proof. field. pose proof (pow2_pos e). lra. Qed.

Lemma round_positive_eq (x : Q) :
  Float64.round_positive x == inject_Z (Float64.rne (x / 2 ^ Float64.ulp_exponent x)) * 2 ^ Float64.ulp_exponent x.
Proof. unfold Float64.round_positive. cbn zeta. apply Qred_correct. Qed.

(** A multiple of the last place that bounds [x] bounds its double too. *)
Lemma round_positive_le_grid (x : Q) (z : Z) :
  x <= inject_Z z * 2 ^ Float64.ulp_exponent x ->
  Float64.round_positive x <= inject_Z z * 2 ^ Float64.ulp_exponent x.
Proof.
  intros H. rewrite round_positive_eq.
  pose proof (pow2_pos (Float64.ulp_exponent x)) as Hp.
  apply Qmult_le_compat_r; [|lra].
  rewrite <- Zle_Qle. rewrite <- (rne_int z). apply rne_mono.
  apply Qle_shift_div_r; [exact Hp|exact H].
Qed.

Lemma round_positive_ge_grid (x : Q) (z : Z) :
  inject_Z z * 2 ^ Float64.ulp_exponent x <= x ->
  inject_Z z * 2 ^ Float64.ulp_exponent x <= Float64.round_positive x.
Proof.
  intros H. rewrite round_positive_eq.
  pose proof (pow2_pos (Float64.ulp_exponent x)) as Hp.
  apply Qmult_le_compat_r; [|lra].
  rewrite <- Zle_Qle. rewrite <- (rne_int z) at 1. apply rne_mono.
  apply Qle_shift_div_l; [exact Hp|exact H].
Qed.

Lemma round_positive_nonneg (x : Q) : 0 < x -> 0 <= Float64.round_positive x.
Proof.
  intros Hx. pose proof (round_positive_ge_grid x 0) as H.
  rewrite Qmult_0_l in H. apply H. lra.
Qed.

Lemma pow2_grid (k e : Z) : (e <= k)%Z -> 2 ^ k == inject_Z (2 ^ (k - e)) * 2 ^ e.
Proof.
  intros H. rewrite <- pow2_int by lia. rewrite <- pow2_plus.
  replace (k - e + e)%Z with k by lia. reflexivity.
Qed.

Lemma round_positive_mono (x y : Q) :
  0 < x -> x <= y -> Float64.round_positive x <= Float64.round_positive y.
Proof.
  intros Hx Hxy.
  pose proof (ulp_exponent_mono x y Hx Hxy) as He.
  destruct (Z.eq_dec (Float64.ulp_exponent x) (Float64.ulp_exponent y)) as [E|E].
  - rewrite !round_positive_eq, E.
    pose proof (pow2_pos (Float64.ulp_exponent y)) as Hp.
    apply Qmult_le_compat_r; [|lra].
    rewrite <- Zle_Qle. apply rne_mono.
    apply Qmult_le_compat_r; [exact Hxy|].
    apply Qlt_le_weak, Qinv_lt_0_compat, Hp.
  - assert (Hy : 0 < y) by lra.
    set (k := Float64.ilog2 y).
    assert (Hey : Float64.ulp_exponent y = (k - 52)%Z) by (unfold Float64.ulp_exponent in *; lia).
    assert (Hlx : (Float64.ilog2 x + 1 <= k)%Z) by (unfold Float64.ulp_exponent in *; lia).
    assert (Hex : (Float64.ulp_exponent x <= k)%Z) by lia.
    pose proof (ilog2_spec x Hx) as [_ Hx2].
    pose proof (ilog2_spec y Hy) as [Hy1 _]. fold k in Hy1.
    pose proof (pow2_le _ _ Hlx) as Hle.
    apply Qle_trans with (2 ^ k).
    + rewrite (pow2_grid k (Float64.ulp_exponent x) Hex).
      apply round_positive_le_grid.
      rewrite <- (pow2_grid k (Float64.ulp_exponent x) Hex). lra.
    + rewrite (pow2_grid k (Float64.ulp_exponent y)) by lia.
      apply round_positive_ge_grid.
      rewrite <- (pow2_grid k (Float64.ulp_exponent y)) by lia. exact Hy1.
Qed.

Lemma round_pos (x : Q) : 0 < x -> Float64.round x = Float64.round_positive x.
Proof.
  intros H. unfold Float64.round.
  assert (C : Qcompare x 0 = Gt) by (rewrite <- Qgt_alt; exact H).
  rewrite C. reflexivity.
Qed.

Lemma round_neg (x : Q) : x < 0 -> Float64.round x = - Float64.round_positive (- x).
Proof.
  intros H. unfold Float64.round.
  assert (C : Qcompare x 0 = Lt) by (rewrite <- Qlt_alt; exact H).
  rewrite C. reflexivity.
Qed.

Lemma round_zero (x : Q) : x == 0 -> Float64.round x = 0.
Proof.
  intros H. unfold Float64.round.
  assert (C : Qcompare x 0 = Eq) by (rewrite <- Qeq_alt; exact H).
  rewrite C. reflexivity.
Qed.

Lemma round_nonneg (x : Q) : 0 <= x -> 0 <= Float64.round x.
Proof.
  intros H. destruct (Qlt_le_dec 0 x) as [Hp|Hz].
  - rewrite round_pos by exact Hp. apply round_positive_nonneg, Hp.
  - rewrite round_zero by lra. lra.
Qed.

Lemma round_nonpos (x : Q) : x <= 0 -> Float64.round x <= 0.
Proof.
  intros H. destruct (Qlt_le_dec x 0) as [Hn|Hz].
  - rewrite round_neg by exact Hn.
    pose proof (round_positive_nonneg (- x) ltac:(lra)). lra.
  - rewrite round_zero by lra. lra.
Qed.

(** Rounding keeps the order. *)
Lemma round_mono (x y : Q) : x <= y -> Float64.round x <= Float64.round y.
Proof.
  intros Hxy.
  destruct (Qlt_le_dec 0 x) as [Hx|Hx].
  - rewrite (round_pos x Hx), (round_pos y) by lra.
    apply round_positive_mono; assumption.
  - destruct (Qlt_le_dec 0 y) as [Hy|Hy].
    + pose proof (round_nonpos x Hx). pose proof (round_nonneg y ltac:(lra)). lra.
    + destruct (Qlt_le_dec y 0) as [Hy'|Hy'].
      * rewrite (round_neg y Hy'), (round_neg x) by lra.
        pose proof (round_positive_mono (- y) (- x) ltac:(lra) ltac:(lra)). lra.
      * rewrite (round_zero y) by lra. apply round_nonpos, Hx.
Qed.

#[global] Instance round_proper : Proper (Qeq ==> Qeq) Float64.round.
Proof.
  intros x y H. apply Qle_antisym; apply round_mono; rewrite H; apply Qle_refl.
Qed.

(** The error of rounding: half a unit in the last place. *)
Lemma round_positive_error (x : Q) :
  0 < x -> Qabs (Float64.round_positive x - x) <= (2 ^ (-53)) * x + 2 ^ (-1075).
Proof.
  intros Hx. rewrite round_positive_eq.
  set (e := Float64.ulp_exponent x).
  pose proof (pow2_pos e) as Hp.
  pose proof (rne_error (x / 2 ^ e)) as Herr.
  assert (Hhalf : Qabs (inject_Z (Float64.rne (x / 2 ^ e)) * 2 ^ e - x) <= 2 ^ (e - 1)).
  { assert (E : inject_Z (Float64.rne (x / 2 ^ e)) * 2 ^ e - x
                == (inject_Z (Float64.rne (x / 2 ^ e)) - x / 2 ^ e) * 2 ^ e)
      by (field; lra).
    rewrite E, Qabs_Qmult, (Qabs_pos (2 ^ e)) by lra.
    replace (e - 1)%Z with (-1 + e)%Z by lia. rewrite pow2_plus.
    apply Qmult_le_compat_r; [exact Herr|lra]. }
  apply Qle_trans with (2 ^ (e - 1)); [exact Hhalf|].
  pose proof (ilog2_spec x Hx) as [Hl _].
  pose proof (pow2_pos (-53)) as H53. pose proof (pow2_pos (-1075)) as H1075.
  unfold e, Float64.ulp_exponent.
  destruct (Z.max_spec (Float64.ilog2 x - 52) (-1074)) as [[_ ->]|[_ ->]].
  - change (-1074 - 1)%Z with (-1075)%Z.
    assert (0 <= 2 ^ (-53) * x) by (apply Qmult_le_0_compat; lra). lra.
  - replace (Float64.ilog2 x - 52 - 1)%Z with (-53 + Float64.ilog2 x)%Z by lia.
    rewrite pow2_plus.
    assert (2 ^ (-53) * 2 ^ Float64.ilog2 x <= 2 ^ (-53) * x)
      by (apply Qmult_le_l; [exact H53|exact Hl]).
    lra.
Qed.

Lemma round_error (x : Q) :
  0 <= x -> Qabs (Float64.round x - x) <= (2 ^ (-53)) * x + 2 ^ (-1075).
Proof.
  intros H. destruct (Qlt_le_dec 0 x) as [Hp|Hz].
  - rewrite round_pos by exact Hp. apply round_positive_error, Hp.
  - rewrite round_zero by lra.
    assert (E : x == 0) by lra. rewrite E.
    vm_compute. discriminate.
Qed.

Lemma ilog2_unique (x : Q) (k : Z) : 2 ^ k <= x < 2 ^ (k + 1) -> Float64.ilog2 x = k.
Proof.
  intros [H1 H2].
  assert (Hx : 0 < x) by (pose proof (pow2_pos k); lra).
  pose proof (ilog2_spec x Hx) as [H3 H4].
  destruct (Z.lt_trichotomy (Float64.ilog2 x) k) as [H|[H|H]]; [|exact H|]; exfalso.
  - assert (2 ^ (Float64.ilog2 x + 1) <= 2 ^ k) by (apply pow2_le; lia). lra.
  - assert (2 ^ (k + 1) <= 2 ^ Float64.ilog2 x) by (apply pow2_le; lia). lra.
Qed.

Lemma ilog2_grid (m e : Z) : (0 < m)%Z -> Float64.ilog2 (inject_Z m * 2 ^ e) = (Z.log2 m + e)%Z.
Proof.
  intros Hm. apply ilog2_unique.
  pose proof (Z.log2_spec m Hm) as [H1 H2].
  pose proof (Z.log2_nonneg m) as H0.
  pose proof (pow2_pos e) as Hp.
  replace (Z.log2 m + e + 1)%Z with (Z.succ (Z.log2 m) + e)%Z by lia.
  rewrite !pow2_plus.
  rewrite (pow2_int (Z.log2 m)), (pow2_int (Z.succ (Z.log2 m))) by lia. split.
  - apply Qmult_le_compat_r; [|lra]. rewrite <- Zle_Qle. exact H1.
  - apply Qmult_lt_compat_r; [exact Hp|]. rewrite <- Zlt_Qlt. exact H2.
Qed.

(** A positive multiple of its own last place is a double. *)
Lemma round_positive_grid (m e : Z) :
  (0 < m)%Z -> (Float64.ulp_exponent (inject_Z m * 2 ^ e) <= e)%Z ->
  Float64.round_positive (inject_Z m * 2 ^ e) == inject_Z m * 2 ^ e.
Proof.
  intros Hm He. rewrite round_positive_eq.
  set (y := inject_Z m * 2 ^ e) in *. set (e' := Float64.ulp_exponent y) in *.
  pose proof (pow2_pos e') as Hp.
  assert (E : y / 2 ^ e' == inject_Z (m * 2 ^ (e - e'))).
  { unfold y. rewrite inject_Z_mult, <- pow2_int by lia.
    rewrite pow2_minus. field. lra. }
  assert (R : Float64.rne (y / 2 ^ e') = (m * 2 ^ (e - e'))%Z).
  { assert (L1 : y / 2 ^ e' <= inject_Z (m * 2 ^ (e - e'))) by (rewrite E; lra).
    assert (L2 : inject_Z (m * 2 ^ (e - e')) <= y / 2 ^ e') by (rewrite E; lra).
    apply rne_mono in L1, L2. rewrite rne_int in L1, L2. lia. }
  rewrite R, <- E. apply scaled.
Qed.

Lemma round_positive_idem (x : Q) :
  0 < x -> 0 < Float64.round_positive x -> Float64.round_positive (Float64.round_positive x) == Float64.round_positive x.
Proof.
  intros Hx Hpos.
  set (e := Float64.ulp_exponent x). set (m := Float64.rne (x / 2 ^ e)).
  pose proof (round_positive_eq x) as Hy. fold e m in Hy.
  pose proof (pow2_pos e) as Hp.
  assert (Hm : (0 < m)%Z).
  { destruct (Z_lt_le_dec 0 m) as [H|H]; [exact H|]. exfalso.
    assert (inject_Z m * 2 ^ e <= 0).
    { assert (inject_Z m <= 0) by (change 0 with (inject_Z 0); rewrite <- Zle_Qle; exact H).
      assert (0 <= - inject_Z m * 2 ^ e) by (apply Qmult_le_0_compat; lra). lra. }
    lra. }
  pose proof (ilog2_spec x Hx) as [_ Hup].
  assert (He : (-1074 <= e)%Z) by (unfold e, Float64.ulp_exponent; lia).
  assert (Hk : (Float64.ilog2 x + 1 <= e + 53)%Z) by (unfold e, Float64.ulp_exponent; lia).
  assert (Hm53 : (m <= 2 ^ 53)%Z).
  { unfold m. rewrite <- (rne_int (2 ^ 53)). apply rne_mono.
    apply Qle_shift_div_r; [exact Hp|].
    rewrite <- pow2_int by lia. rewrite <- pow2_plus.
    pose proof (pow2_le _ _ Hk). replace (53 + e)%Z with (e + 53)%Z by lia. lra. }
  assert (Hlog : (Z.log2 m <= 53)%Z).
  { replace 53%Z with (Z.log2 (2 ^ 53)) by reflexivity. apply Z.log2_le_mono, Hm53. }
  assert (Hmono : forall a b, 0 < a -> a == b -> Float64.round_positive a == Float64.round_positive b).
  { intros a b Ha Hab. apply Qle_antisym; apply round_positive_mono; lra. }
  rewrite (Hmono _ _ Hpos Hy).
  apply Qeq_trans with (inject_Z m * 2 ^ e); [|symmetry; exact Hy].
  destruct (Z_le_gt_dec (Z.log2 m) 52) as [Hl|Hl].
  - apply round_positive_grid; [exact Hm|].
    unfold Float64.ulp_exponent. rewrite ilog2_grid by exact Hm. lia.
  - assert (Em : m = (2 ^ 53)%Z).
    { apply Z.le_antisymm; [exact Hm53|].
      pose proof (Z.log2_spec m Hm) as [H1 _].
      assert (Z.log2 m = 53%Z) as E by lia. rewrite E in H1. exact H1. }
    assert (Ey : inject_Z m * 2 ^ e == inject_Z (2 ^ 52) * 2 ^ (e + 1)).
    { rewrite Em, <- !pow2_int, <- !pow2_plus by lia.
      replace (52 + (e + 1))%Z with (53 + e)%Z by lia. reflexivity. }
    assert (P : Float64.round_positive (inject_Z (2 ^ 52) * 2 ^ (e + 1))
                == inject_Z (2 ^ 52) * 2 ^ (e + 1)).
    { apply round_positive_grid; [reflexivity|].
      unfold Float64.ulp_exponent. rewrite ilog2_grid by reflexivity.
      change (Z.log2 (2 ^ 52)) with 52%Z. lia. }
    assert (Hy0 : 0 < inject_Z m * 2 ^ e) by (rewrite <- Hy; exact Hpos).
    rewrite (Hmono _ _ Hy0 Ey), P. symmetry. exact Ey.
Qed.

(** A double is its own nearest double. *)
Lemma round_idem (x : Q) : Float64.round (Float64.round x) == Float64.round x.
Proof.
  destruct (Qlt_le_dec 0 x) as [Hp|Hz].
  - rewrite (round_pos x Hp).
    pose proof (round_positive_nonneg x Hp) as H0.
    destruct (Qlt_le_dec 0 (Float64.round_positive x)) as [Hpos|Hzero].
    + rewrite round_pos by exact Hpos. apply round_positive_idem; assumption.
    + rewrite round_zero by lra. lra.
  - destruct (Qlt_le_dec x 0) as [Hn|Hz'].
    + rewrite (round_neg x Hn).
      pose proof (round_positive_nonneg (- x) ltac:(lra)) as H0.
      destruct (Qlt_le_dec 0 (Float64.round_positive (- x))) as [Hpos|Hzero].
      * rewrite round_neg by lra.
        assert (E : - - Float64.round_positive (- x) == Float64.round_positive (- x)) by ring.
        assert (Hmono : forall a b, 0 < a -> a == b -> Float64.round_positive a == Float64.round_positive b).
        { intros a b Ha Hab. apply Qle_antisym; apply round_positive_mono; lra. }
        assert (Hpp : 0 < - - Float64.round_positive (- x)) by lra.
        rewrite (Hmono _ _ Hpp E).
        rewrite (round_positive_idem (- x)) by lra. reflexivity.
      * rewrite round_zero by lra. lra.
    + rewrite (round_zero x) by lra. reflexivity.
Qed.

Lemma round_le_double (x y : Q) : x <= Float64.round y -> Float64.round x <= Float64.round y.
Proof. intros H. rewrite <- (round_idem y). apply round_mono, H. Qed.

(** ** The aggregator *)

Open Scope Q_scope.

Lemma Qltb_lt (x y : Q) : Qltb x y = true <-> x < y.
Proof.
  unfold Qltb. rewrite negb_true_iff. split.
  - intros H. apply Qnot_le_lt. intros Hle.
    apply Qle_bool_iff in Hle. congruence.
  - intros H. destruct (Qle_bool y x) eqn:E; [|reflexivity].
    apply Qle_bool_iff in E. exfalso. apply (Qlt_not_le _ _ H E).
Qed.

Lemma Qltb_ge (x y : Q) : Qltb x y = false <-> y <= x.
Proof.
  unfold Qltb. rewrite negb_false_iff. apply Qle_bool_iff.
Qed.

Lemma clamp01_range (x : Q) : 0 <= clamp01 x <= 1.
Proof.
  unfold clamp01.
  destruct (Qltb x 0) eqn:E0; [lra|].
  destruct (Qltb 1 x) eqn:E1; [lra|].
  apply Qltb_ge in E0, E1. lra.
Qed.

Lemma clamp01_id (x : Q) : 0 <= x <= 1 -> clamp01 x = x.
Proof.
  intros [H0 H1]. unfold clamp01.
  assert (Qltb x 0 = false) as -> by (apply Qltb_ge; exact H0).
  assert (Qltb 1 x = false) as -> by (apply Qltb_ge; exact H1).
  reflexivity.
Qed.

Lemma counted_weight_pos (w : ScoreWeights) (k : string) :
  counted w k = true -> 0 < weight_or_0 w k.
Proof.
  unfold counted, weight_or_0. destruct (weight_of w k) as [x|]; [|discriminate].
  cbn. apply Qltb_lt.
Qed.




Lemma ratio_in_unit (a b : Q) : 0 < b -> 0 <= a <= b -> 0 <= a / b <= 1.
Proof.
  intros Hb [H0 H1]. split.
  - apply Qle_shift_div_l; [exact Hb|]. lra.
  - apply Qle_shift_div_r; [exact Hb|]. lra.
Qed.

Lemma clamped_clamp01 (v : Q) : clamped v = clamp01 v.
Proof.
  unfold clamped, clamp01, Qltb.
  destruct (Qle_bool 0 v), (Qle_bool v 1); reflexivity.
Qed.

Lemma weight_of_in_effect (weights : PartialScoreWeights) (k : string) :
  weight_of (spread DEFAULT_WEIGHTS weights) k
  = match entry_of k (given_entries weights) with
    | Some (Some entry) => entry
    | _ => entry_of k default_entries
    end.
Proof.
  unfold weight_of, given_entries, default_entries, spread. cbn [entry_of].
  cbn [freshness link_integrity salary_disclosure salary_min_present source_credibility
       skills_present buzzword_penalty comp_period_clarity update_cadence
       content_change_quality DEFAULT_WEIGHTS].
  rewrite !(String.eqb_sym k).
  repeat match goal with
         | |- context [String.eqb ?a k] => destruct (String.eqb a k)
         end;
    try reflexivity;
    match goal with
    | |- default _ ?e = _ => destruct e; reflexivity
    end.
Qed.

Lemma accumulate_as_applied (weights : PartialScoreWeights) (breakdown : Breakdown)
  (acc : Q * Q) (k : string) :
  accumulate_as Float64.round (spread DEFAULT_WEIGHTS weights) breakdown acc k
  = if negb (Qle_bool (applied_weight weights k) 0)
    then (stored (fst acc + applied_weight weights k),
          stored (snd acc
                  + stored (applied_weight weights k
                            * clamped (stored (lookup_signal breakdown k)))))
    else acc.
Proof.
  unfold accumulate_as, applied_weight. cbn zeta.
  rewrite weight_of_in_effect, clamped_clamp01.
  destruct (match entry_of k (given_entries weights) with
            | Some (Some entry) => entry
            | _ => entry_of k default_entries
            end) as [weight|]; [|reflexivity].
  unfold Qltb, stored.
  destruct (Qle_bool (Float64.round weight) 0) eqn:E; cbn [negb].
  - reflexivity.
  - rewrite E. reflexivity.
Qed.


Lemma keys_with_values (breakdown : Breakdown) :
  NoDup (keys_of breakdown) ->
  map (fun k => (k, lookup_signal breakdown k)) (keys_of breakdown) = breakdown.
Proof.
  induction breakdown as [|[k v] rest IH]; intros Hnd; [reflexivity|].
  cbn [keys_of map fst snd] in *. apply NoDup_cons in Hnd as [Hk Hnd].
  cbn [lookup_signal]. rewrite String.eqb_refl. f_equal.
  rewrite <- (IH Hnd) at 2. apply map_ext_in. intros k' Hk'.
  destruct (String.eqb k' k) eqn:E; [|reflexivity].
  apply String.eqb_eq in E. subst k'. exfalso. apply Hk.
  apply list_elem_of_In. exact Hk'.
Qed.

Lemma fold_left_map_in {A B C : Type} (f : C -> B -> C) (g : A -> B) (l : list A) :
  forall acc, fold_left (fun acc a => f acc (g a)) l acc = fold_left f (map g l) acc.
Proof. induction l as [|a l IH]; intros acc; [reflexivity|]. cbn. apply IH. Qed.

Lemma fold_left_same {A B : Type} (f g : A -> B -> A) (l : list B) :
  (forall acc b, f acc b = g acc b) ->
  forall acc, fold_left f l acc = fold_left g l acc.
Proof.
  intros H. induction l as [|b l IH]; intros acc; [reflexivity|].
  cbn. rewrite H. apply IH.
Qed.

Lemma loop_over_entries (weights : PartialScoreWeights) (breakdown : Breakdown)
  (acc : Q * Q) :
  NoDup (keys_of breakdown) ->
  fold_left (accumulate_as Float64.round (spread DEFAULT_WEIGHTS weights) breakdown)
    (keys_of breakdown) acc
  = fold_left (loop_step weights) breakdown acc.
Proof.
  intros Hnd.
  rewrite <- (keys_with_values breakdown Hnd) at 3.
  rewrite <- fold_left_map_in.
  apply fold_left_same. intros acc' k. rewrite accumulate_as_applied. reflexivity.
Qed.

Lemma loop_sums (weights : PartialScoreWeights) (signals : Breakdown) :
  forall acc : Q * Q,
    fold_left (loop_step weights) signals acc
    = (fold_left (fun sum term => stored (sum + term))
         (map (fun signal => applied_weight weights (fst signal))
            (weighted_signals weights signals))
         (fst acc),
       fold_left (fun sum term => stored (sum + term))
         (map (fun signal =>
                 stored (applied_weight weights (fst signal) * signal_value signal))
            (weighted_signals weights signals))
         (snd acc)).
Proof.
  induction signals as [|signal rest IH]; intros [a b]; [reflexivity|].
  cbn [fold_left]. rewrite IH. unfold loop_step, weighted_signals.
  cbn [List.filter].
  destruct (negb (Qle_bool (applied_weight weights (fst signal)) 0)); reflexivity.
Qed.

Lemma plain_over_entries (breakdown : Breakdown) :
  NoDup (keys_of breakdown) ->
  fold_left
    (fun acc k => Float64.add acc (clamp01 (Float64.round (lookup_signal breakdown k))))
    (keys_of breakdown) 0
  = rounded_sum (map signal_value breakdown).
Proof.
  intros Hnd. unfold rounded_sum.
  rewrite <- (keys_with_values breakdown Hnd) at 2.
  rewrite map_map. rewrite <- fold_left_map_in.
  apply fold_left_same. intros acc k. unfold signal_value. cbn [snd].
  rewrite clamped_clamp01. reflexivity.
Qed.

(** [finalizeScore], read off the entries of the breakdown. *)
Lemma finalizeScore_rounded (breakdown : Breakdown) (weights : PartialScoreWeights) :
  NoDup (keys_of breakdown) ->
  finalizeScore breakdown weights
  = if Qltb 0 (rounded_weight_sum weights breakdown) then
      if Float64.finite (rounded_weight_sum weights breakdown)
      then clamp01 (stored (rounded_weighted_sum weights breakdown
                            / rounded_weight_sum weights breakdown))
      else 0
    else if (length breakdown =? 0)%nat then 0
    else clamp01 (stored (rounded_sum (map signal_value breakdown)
                          / inject_Z (Z.of_nat (length breakdown)))).
Proof.
  intros Hnd. unfold finalizeScore. cbn zeta.
  rewrite (loop_over_entries weights breakdown (0, 0) Hnd), loop_sums.
  cbn [fst snd]. fold (rounded_weight_sum weights breakdown).
  fold (rounded_weighted_sum weights breakdown).
  rewrite (plain_over_entries breakdown Hnd).
  unfold keys_of. rewrite length_map. reflexivity.
Qed.

Lemma clamp01_mono (x y : Q) : x <= y -> clamp01 x <= clamp01 y.
Proof.
  intros H. unfold clamp01.
  destruct (Qltb x 0) eqn:E1, (Qltb y 0) eqn:E2;
    try apply Qltb_lt in E1; try apply Qltb_ge in E1;
    try apply Qltb_lt in E2; try apply Qltb_ge in E2;
    destruct (Qltb 1 x) eqn:E3; destruct (Qltb 1 y) eqn:E4;
    try apply Qltb_lt in E3; try apply Qltb_ge in E3;
    try apply Qltb_lt in E4; try apply Qltb_ge in E4; lra.
Qed.

Lemma stored_mono (x y : Q) : x <= y -> stored x <= stored y.
Proof. apply round_mono. Qed.

Lemma stored_nonneg (x : Q) : 0 <= x -> 0 <= stored x.
Proof. apply round_nonneg. Qed.

Lemma stored_error (x : Q) :
  0 <= x -> Qabs (stored x - x) <= 2 ^ (-53) * x + 2 ^ (-1075).
Proof. apply round_error. Qed.

(** The loop of [finalizeScore] on two breakdowns, the second nowhere
    lower: the same [sumW], and [sum] no lower. *)
Lemma loop_monotone (w : ScoreWeights) (low high : Breakdown) (keys : list string) :
  (forall k, In k keys -> lookup_signal low k <= lookup_signal high k) ->
  forall sumW sum sum' : Q, sum <= sum' ->
    fst (fold_left (accumulate_as Float64.round w low) keys (sumW, sum))
    = fst (fold_left (accumulate_as Float64.round w high) keys (sumW, sum'))
    /\ snd (fold_left (accumulate_as Float64.round w low) keys (sumW, sum))
       <= snd (fold_left (accumulate_as Float64.round w high) keys (sumW, sum')).
Proof.
  induction keys as [|k keys IH]; intros Hle sumW sum sum' Hs.
  - split; [reflexivity|exact Hs].
  - cbn [fold_left]. unfold accumulate_as at 2 4 6 8. cbn zeta.
    destruct (weight_of w k) as [weight|].
    + destruct (Qltb 0 (Float64.round weight)) eqn:E.
      * cbn [fst snd]. apply IH; [intros k' Hk'; apply Hle; right; exact Hk'|].
        apply round_mono. apply Qltb_lt in E.
        assert (Hv : clamp01 (Float64.round (lookup_signal low k))
                     <= clamp01 (Float64.round (lookup_signal high k))).
        { apply clamp01_mono, round_mono, Hle. left. reflexivity. }
        assert (Hp : Float64.round
                       (Float64.round weight * clamp01 (Float64.round (lookup_signal low k)))
                     <= Float64.round
                          (Float64.round weight
                           * clamp01 (Float64.round (lookup_signal high k)))).
        { apply round_mono. apply Qmult_le_l; assumption. }
        lra.
      * apply IH; [intros k' Hk'; apply Hle; right; exact Hk'|exact Hs].
    + apply IH; [intros k' Hk'; apply Hle; right; exact Hk'|exact Hs].
Qed.

Lemma plain_monotone (low high : Breakdown) (keys : list string) :
  (forall k, In k keys -> lookup_signal low k <= lookup_signal high k) ->
  forall acc acc' : Q, acc <= acc' ->
    fold_left
      (fun acc k => Float64.add acc (clamp01 (Float64.round (lookup_signal low k))))
      keys acc
    <= fold_left
         (fun acc k => Float64.add acc (clamp01 (Float64.round (lookup_signal high k))))
         keys acc'.
Proof.
  induction keys as [|k keys IH]; intros Hle acc acc' Ha; [exact Ha|].
  cbn [fold_left]. apply IH; [intros k' Hk'; apply Hle; right; exact Hk'|].
  unfold Float64.add. apply round_mono.
  assert (clamp01 (Float64.round (lookup_signal low k))
          <= clamp01 (Float64.round (lookup_signal high k)))
    by (apply clamp01_mono, round_mono, Hle; left; reflexivity).
  lra.
Qed.

Lemma finalizeScore_range (breakdown : Breakdown) (weights : PartialScoreWeights) :
  0 <= finalizeScore breakdown weights <= 1.
Proof.
  unfold finalizeScore. cbn zeta.
  destruct (fold_left _ _ _) as [sumW sum].
  destruct (Qltb 0 sumW).
  - destruct (Float64.finite sumW); [apply clamp01_range|lra].
  - destruct (length (keys_of breakdown) =? 0)%nat; [lra|apply clamp01_range].
Qed.

Lemma div_monotone (a b c : Q) : 0 < c -> a <= b -> a / c <= b / c.
Proof.
  intros Hc Hab. apply Qmult_le_compat_r; [exact Hab|].
  apply Qlt_le_weak, Qinv_lt_0_compat, Hc.
Qed.

Lemma finalizeScore_rises (low high : Breakdown) (weights : PartialScoreWeights) :
  keys_of low = keys_of high ->
  (forall k, In k (keys_of low) -> lookup_signal low k <= lookup_signal high k) ->
  finalizeScore low weights <= finalizeScore high weights.
Proof.
  intros Hkeys Hle. unfold finalizeScore. cbn zeta. rewrite <- Hkeys.
  pose proof (loop_monotone (spread DEFAULT_WEIGHTS weights) low high (keys_of low)
                Hle 0 0 0 ltac:(lra)) as [Hw Hs].
  destruct (fold_left (accumulate_as Float64.round _ low) _ _) as [sumW sum].
  destruct (fold_left (accumulate_as Float64.round _ high) _ _) as [sumW' sum'].
  cbn [fst snd] in Hw, Hs. subst sumW'.
  destruct (Qltb 0 sumW) eqn:E.
  - destruct (Float64.finite sumW); [|lra].
    apply Qltb_lt in E. apply clamp01_mono. unfold Float64.div.
    apply round_mono, div_monotone; assumption.
  - destruct (length (keys_of low) =? 0)%nat eqn:El; [lra|].
    apply clamp01_mono. unfold Float64.div. apply round_mono, div_monotone.
    + apply Nat.eqb_neq in El. change 0 with (inject_Z 0). rewrite <- Zlt_Qlt. lia.
    + apply plain_monotone; [exact Hle|lra].
Qed.

(** *** The rounding error of the aggregator *)

Lemma Qabs_le_iff (x y : Q) : Qabs x <= y <-> - y <= x <= y.
Proof. apply Qabs_Qle_condition. Qed.

Lemma Qsum_cons (x : Q) (l : list Q) : Qsum (x :: l) = x + Qsum l.
Proof. reflexivity. Qed.

Lemma Qsum_all_nonneg (l : list Q) : (forall x, In x l -> 0 <= x) -> 0 <= Qsum l.
Proof.
  induction l as [|a l IH]; intros H; [cbn; lra|].
  rewrite Qsum_cons.
  pose proof (H a (or_introl eq_refl)).
  specialize (IH (fun x Hx => H x (or_intror Hx))). lra.
Qed.

Lemma inject_nat_succ (n : nat) :
  inject_Z (Z.of_nat (S n)) == inject_Z (Z.of_nat n) + 1.
Proof. rewrite Nat2Z.inj_succ. unfold Z.succ. rewrite inject_Z_plus. reflexivity. Qed.

Lemma inject_nat_nonneg (n : nat) : 0 <= inject_Z (Z.of_nat n).
Proof. change 0 with (inject_Z 0). rewrite <- Zle_Qle. lia. Qed.

Lemma inject_nat_le (n m : nat) :
  (n <= m)%nat -> inject_Z (Z.of_nat n) <= inject_Z (Z.of_nat m).
Proof. intros H. rewrite <- Zle_Qle. lia. Qed.

(** A sum of [n] terms that are not negative, taken in doubles from the
    left, when the exact sum stays below [T]: each of the [n] roundings adds
    at most [2 u T + 2 eta]. *)
Lemma rounded_sum_error (T : Q) (N : nat) :
  0 <= T -> 2 * inject_Z (Z.of_nat N) * 2 ^ (-53) <= 1 ->
  forall (terms : list Q) (j : nat) (acc a : Q),
    (j + length terms <= N)%nat ->
    (forall t, In t terms -> 0 <= t) ->
    0 <= a -> 0 <= acc -> a + Qsum terms <= T ->
    Qabs (acc - a) <= inject_Z (Z.of_nat j) * (2 * 2 ^ (-53) * T + 2 * 2 ^ (-1075)) ->
    0 <= fold_left (fun sum term => stored (sum + term)) terms acc
    /\ Qabs (fold_left (fun sum term => stored (sum + term)) terms acc
             - (a + Qsum terms))
       <= inject_Z (Z.of_nat (j + length terms))
          * (2 * 2 ^ (-53) * T + 2 * 2 ^ (-1075)).
Proof.
  intros HT HN.
  pose proof (pow2_pos (-53)) as Hu. pose proof (pow2_pos (-1075)) as Heta.
  set (u := 2 ^ (-53)) in *. set (eta := 2 ^ (-1075)) in *.
  set (K := 2 * u * T + 2 * eta).
  induction terms as [|t rest IH]; intros j acc a Hj Hpos Ha Hacc Hsum Herr.
  - cbn [fold_left length Qsum fold_right]. rewrite Nat.add_0_r. split; [exact Hacc|].
    assert (E : acc - (a + 0) == acc - a) by ring. rewrite E. exact Herr.
  - cbn [fold_left]. rewrite Qsum_cons in *. cbn [length] in *.
    assert (Ht : 0 <= t) by (apply Hpos; left; reflexivity).
    assert (Hrest : 0 <= Qsum rest)
      by (apply Qsum_all_nonneg; intros x Hx; apply Hpos; right; exact Hx).
    assert (Hst : 0 <= acc + t) by lra.
    pose proof (stored_error (acc + t) Hst) as He. fold u eta in He.
    apply Qabs_le_iff in He. apply Qabs_le_iff in Herr.
    set (J := inject_Z (Z.of_nat j)) in *.
    assert (HJ0 : 0 <= J) by apply inject_nat_nonneg.
    assert (HJN : J <= inject_Z (Z.of_nat N)) by (apply inject_nat_le; lia).
    assert (HK : 0 <= K) by (unfold K; assert (0 <= u * T) by (apply Qmult_le_0_compat; lra); lra).
    (* u * J * K <= u * T + eta *)
    assert (HuJ : 2 * J * u <= 1).
    { assert (J * u <= inject_Z (Z.of_nat N) * u)
        by (apply Qmult_le_compat_r; lra). lra. }
    assert (HuT : 0 <= u * T) by (apply Qmult_le_0_compat; lra).
    assert (H1 : (2 * J * u) * (u * T) <= 1 * (u * T))
      by (apply Qmult_le_compat_r; lra).
    assert (H2 : (2 * J * u) * eta <= 1 * eta)
      by (apply Qmult_le_compat_r; lra).
    assert (HuJK : u * (J * K) <= u * T + eta).
    { assert (E : u * (J * K) == (2 * J * u) * (u * T) + (2 * J * u) * eta)
        by (unfold K; ring). rewrite E. lra. }
    assert (Hu1 : u * (acc + t) <= u * (T + J * K))
      by (apply Qmult_le_l; [exact Hu|lra]).
    assert (Hnew : Qabs (stored (acc + t) - (a + t))
                   <= inject_Z (Z.of_nat (S j)) * K).
    { apply Qabs_le_iff. rewrite inject_nat_succ. fold J.
      assert (E1 : u * (T + J * K) == u * T + u * (J * K)) by ring.
      assert (E2 : (J + 1) * K == J * K + K) by ring.
      rewrite E2. unfold K at 2 4. unfold K in E2.
      split; lra. }
    destruct (IH (S j) (stored (acc + t)) (a + t)) as [Hr0 Hr];
      [lia|intros x Hx; apply Hpos; right; exact Hx|lra
      |apply stored_nonneg; exact Hst|lra|exact Hnew|].
    split; [exact Hr0|].
    replace (j + S (length rest))%nat with (S j + length rest)%nat by lia.
    assert (E : a + (t + Qsum rest) == a + t + Qsum rest) by ring.
    rewrite E. exact Hr.
Qed.

Lemma Qmult_le_l_nonneg (x y z : Q) : 0 <= z -> x <= y -> z * x <= z * y.
Proof.
  intros Hz Hxy. rewrite (Qmult_comm z x), (Qmult_comm z y).
  apply Qmult_le_compat_r; assumption.
Qed.

Lemma quotient_error (W S W' S' al be : Q) :
  0 < W -> 0 <= S <= W -> 0 <= al -> al <= 1 # 2 -> 0 <= be ->
  Qabs (W' - W) <= al * W -> Qabs (S' - S) <= be * W ->
  Qabs (S' / W' - S / W) <= 2 * (al + be).
Proof.
  intros HW [HS0 HSW] Hal0 Hal Hbe HeW HeS.
  apply Qabs_le_iff in HeW, HeS. apply Qabs_le_iff.
  assert (HalW : al * W <= (1 # 2) * W) by (apply Qmult_le_compat_r; lra).
  assert (Ehalf : W / 2 == (1 # 2) * W) by field.
  assert (HW' : W / 2 <= W') by (rewrite Ehalf; lra).
  assert (HW'0 : 0 < W') by lra.
  set (rho := S / W).
  assert (Hrho : 0 <= rho <= 1).
  { unfold rho. split.
    - apply Qle_shift_div_l; [exact HW|]. lra.
    - apply Qle_shift_div_r; [exact HW|]. lra. }
  assert (ES : S == rho * W) by (unfold rho; field; lra).
  set (d := S' / W' - rho).
  assert (Ed : d * W' == (S' - S) - rho * (W' - W)).
  { unfold d. rewrite ES. field. lra. }
  (* |rho * (W' - W)| <= al * W *)
  assert (Hr1 : rho * (W' - W) <= rho * (al * W))
    by (apply Qmult_le_l_nonneg; lra).
  assert (Hr2 : rho * (- (al * W)) <= rho * (W' - W))
    by (apply Qmult_le_l_nonneg; lra).
  assert (HalW0 : 0 <= al * W) by (apply Qmult_le_0_compat; lra).
  assert (Hr3 : rho * (al * W) <= 1 * (al * W))
    by (apply Qmult_le_compat_r; lra).
  assert (HbeW0 : 0 <= be * W) by (apply Qmult_le_0_compat; lra).
  assert (Hd : - ((al + be) * W) <= d * W' <= (al + be) * W).
  { rewrite Ed.
    assert (E1 : rho * (- (al * W)) == - (rho * (al * W))) by ring.
    assert (E2 : (al + be) * W == al * W + be * W) by ring.
    rewrite E2. split; lra. }
  (* (al + be) * W <= 2 (al + be) W' *)
  assert (Hab : (al + be) * W <= (2 * (al + be)) * W').
  { assert (E : (al + be) * W == (2 * (al + be)) * (W / 2)) by field.
    rewrite E. apply Qmult_le_l_nonneg; [lra|exact HW']. }
  split.
  - apply Qmult_le_r with W'; [exact HW'0|].
    assert (E : - (2 * (al + be)) * W' == - ((2 * (al + be)) * W')) by ring.
    rewrite E. lra.
  - apply Qmult_le_r with W'; [exact HW'0|]. lra.
Qed.

Lemma clamp01_closer (y a : Q) : 0 <= a <= 1 -> Qabs (clamp01 y - a) <= Qabs (y - a).
Proof.
  intros Ha. pose proof (clamp01_range y) as Hr.
  unfold clamp01 in *.
  destruct (Qltb y 0) eqn:E1.
  - apply Qltb_lt in E1. apply Qabs_le_iff.
    assert (H : a - 0 <= Qabs (y - a)).
    { apply Qle_trans with (- (y - a)); [lra|]. rewrite <- Qabs_opp. apply Qle_Qabs. }
    split; lra.
  - destruct (Qltb 1 y) eqn:E2; [|lra].
    apply Qltb_lt in E2. apply Qabs_le_iff.
    assert (H : 1 - a <= Qabs (y - a)).
    { apply Qle_trans with (y - a); [lra|]. apply Qle_Qabs. }
    split; lra.
Qed.

Lemma clamped_range (v : Q) : 0 <= clamped v <= 1.
Proof. rewrite clamped_clamp01. apply clamp01_range. Qed.

Lemma applied_weight_cases (weights : PartialScoreWeights) (k : string) :
  (applied_weight weights k = 0 /\ Qle_bool (applied_weight weights k) 0 = true)
  \/ exists q, applied_weight weights k = stored q /\ 0 < stored q.
Proof.
  unfold applied_weight. cbn zeta.
  destruct (match entry_of k (given_entries weights) with
            | Some (Some entry) => entry
            | _ => entry_of k default_entries
            end) as [weight|]; [|left; split; reflexivity].
  destruct (Qle_bool (stored weight) 0) eqn:E; [left; split; reflexivity|].
  right. exists weight. split; [reflexivity|].
  apply Qnot_le_lt. intros H. apply Qle_bool_iff in H. congruence.
Qed.

Lemma weighted_signal_weight (weights : PartialScoreWeights) (breakdown : Breakdown)
  (signal : string * Q) :
  In signal (weighted_signals weights breakdown) ->
  exists q, applied_weight weights (fst signal) = stored q /\ 0 < stored q.
Proof.
  intros H. unfold weighted_signals in H. apply List.filter_In in H as [_ H].
  destruct (applied_weight_cases weights (fst signal)) as [[_ E]|Hq]; [|exact Hq].
  rewrite E in H. discriminate.
Qed.

(** One product of the weighted sum: not negative, at most the weight, and
    within half a unit in the last place of the exact product. *)
Lemma product_bounds (q v : Q) :
  0 < stored q -> 0 <= v <= 1 ->
  0 <= stored q * v <= stored q
  /\ 0 <= stored (stored q * v) <= stored q
  /\ Qabs (stored (stored q * v) - stored q * v)
     <= 2 ^ (-53) * stored q + 2 ^ (-1075).
Proof.
  intros Hq [Hv0 Hv1].
  assert (H0 : 0 <= stored q * v) by (apply Qmult_le_0_compat; lra).
  assert (H1 : stored q * v <= stored q).
  { assert (stored q * v <= stored q * 1) by (apply Qmult_le_l_nonneg; lra). lra. }
  split; [split; assumption|]. split.
  - split; [apply stored_nonneg, H0|].
    unfold stored in *. apply round_le_double. exact H1.
  - pose proof (stored_error _ H0) as He.
    pose proof (pow2_pos (-53)) as Hu.
    assert (2 ^ (-53) * (stored q * v) <= 2 ^ (-53) * stored q)
      by (apply Qmult_le_l_nonneg; lra).
    lra.
Qed.

Lemma rounded_sum_le (l : list (Q * Q)) :
  (forall p, In p l -> fst p <= snd p) ->
  forall acc acc' : Q, acc <= acc' ->
    fold_left (fun sum term => stored (sum + term)) (map fst l) acc
    <= fold_left (fun sum term => stored (sum + term)) (map snd l) acc'.
Proof.
  induction l as [|p l IH]; intros H acc acc' Ha; [exact Ha|].
  cbn [map fold_left]. apply IH; [intros p' Hp'; apply H; right; exact Hp'|].
  apply stored_mono. pose proof (H p (or_introl eq_refl)). lra.
Qed.

Section Accuracy.

Variable weights : PartialScoreWeights.
Variable signals : Breakdown.

Hypothesis signals_weighted :
  forall signal, In signal signals ->
    exists q, applied_weight weights (fst signal) = stored q /\ 0 < stored q.

Let omega (signal : string * Q) : Q := applied_weight weights (fst signal).
Let W : Q := Qsum (map omega signals).
Let S : Q := Qsum (map (fun signal => omega signal * signal_value signal) signals).
Let P : Q := Qsum (map (fun signal => stored (omega signal * signal_value signal)) signals).

Lemma weighted_sums_ordered :
  (forall t, In t (map omega signals) -> 0 <= t)
  /\ (forall t, In t (map (fun signal => stored (omega signal * signal_value signal))
                      signals) -> 0 <= t)
  /\ 0 <= S <= W /\ 0 <= P <= W
  /\ Qabs (P - S)
     <= 2 ^ (-53) * W + inject_Z (Z.of_nat (length signals)) * 2 ^ (-1075).
Proof.
  unfold W, S, P. clear W S P.
  induction signals as [|signal rest IH].
  - cbn. repeat split; try (intros t []); try lra.
    vm_compute. discriminate.
  - destruct (signals_weighted signal (or_introl eq_refl)) as (q & Eq & Hq).
    destruct IH as (I1 & I2 & I3 & I4 & I5);
      [intros s Hs; apply signals_weighted; right; exact Hs|].
    pose proof (product_bounds q (signal_value signal) Hq (clamped_range _))
      as (B1 & B2 & B3).
    cbn [map length]. rewrite !Qsum_cons. unfold omega in *. rewrite Eq.
    rewrite inject_nat_succ.
    apply Qabs_le_iff in I5, B3.
    split; [intros t [<-|Ht]; [lra|apply I1, Ht]|].
    split; [intros t [<-|Ht]; [lra|apply I2, Ht]|].
    split; [lra|]. split; [lra|].
    apply Qabs_le_iff.
    set (n := inject_Z (Z.of_nat (length rest))) in *.
    assert (E1 : 2 ^ (-53) * (stored q + Qsum (map (fun signal0 => applied_weight weights (fst signal0)) rest))
                 == 2 ^ (-53) * stored q
                    + 2 ^ (-53) * Qsum (map (fun signal0 => applied_weight weights (fst signal0)) rest))
      by ring.
    assert (E2 : (n + 1) * 2 ^ (-1075) == n * 2 ^ (-1075) + 2 ^ (-1075)) by ring.
    rewrite E1, E2. split; lra.
Qed.

End Accuracy.

Lemma Qabs_triangle_3 (x y z : Q) : Qabs (x - z) <= Qabs (x - y) + Qabs (y - z).
Proof.
  assert (E : x - z == (x - y) + (y - z)) by ring.
  rewrite E. apply Qabs_triangle.
Qed.

Lemma small_count (n : nat) :
  (Z.of_nat n <= 2 ^ 32)%Z -> inject_Z (Z.of_nat n) * 2 ^ (-53) <= 2 ^ (-21).
Proof.
  intros H.
  assert (Hn : inject_Z (Z.of_nat n) <= 2 ^ 32).
  { rewrite (pow2_int 32) by lia. rewrite <- Zle_Qle. exact H. }
  pose proof (pow2_pos (-53)).
  assert (inject_Z (Z.of_nat n) * 2 ^ (-53) <= 2 ^ 32 * 2 ^ (-53))
    by (apply Qmult_le_compat_r; lra).
  rewrite <- pow2_plus in *. exact H1.
Qed.

(** The weighted branch of [finalizeScore]: [sumW] is positive and finite,
    and the score is within the rounding allowance of the exact weighted
    average. *)
Lemma weighted_branch_accuracy
  (breakdown : Breakdown) (weights : PartialScoreWeights) :
  weighted_signals weights breakdown <> [] ->
  (Z.of_nat (length (weighted_signals weights breakdown)) <= 2 ^ 32)%Z ->
  2 ^ (-1000) <= exact_weight_sum weights breakdown <= 2 ^ 1000 ->
  Qltb 0 (rounded_weight_sum weights breakdown) = true
  /\ Float64.finite (rounded_weight_sum weights breakdown) = true
  /\ Qabs (clamp01 (stored (rounded_weighted_sum weights breakdown
                            / rounded_weight_sum weights breakdown))
           - exact_weighted_sum weights breakdown / exact_weight_sum weights breakdown)
     <= rounding_allowance (length (weighted_signals weights breakdown)).
Proof.
  intros Hne Hlen [HWlo HWhi].
  set (used := weighted_signals weights breakdown) in *.
  pose proof (weighted_sums_ordered weights used
                (fun s Hs => weighted_signal_weight weights breakdown s Hs))
    as (Hw0 & Hp0 & HS & HP & HPS).
  cbv zeta in HS, HP, HPS.
  unfold rounded_weight_sum, rounded_weighted_sum, exact_weight_sum,
    exact_weighted_sum, rounding_allowance, rounded_sum in *. fold used in HWlo, HWhi |- *.
  set (W := Qsum (map (fun signal => applied_weight weights (fst signal)) used)) in *.
  set (S := Qsum (map (fun signal => applied_weight weights (fst signal)
                                      * signal_value signal) used)) in *.
  set (P := Qsum (map (fun signal => stored (applied_weight weights (fst signal)
                                              * signal_value signal)) used)) in *.
  set (n := length used) in *.
  set (N := inject_Z (Z.of_nat n)) in *.
  pose proof (pow2_pos (-53)) as Hu. pose proof (pow2_pos (-1075)) as Heta.
  pose proof (pow2_pos (-1000)) as H1000.
  set (u := 2 ^ (-53)) in *. set (eta := 2 ^ (-1075)) in *.
  assert (HW : 0 < W) by lra.
  assert (Hn1 : 1 <= N).
  { unfold N, n. destruct used; [congruence|]. cbn [length].
    rewrite inject_nat_succ. pose proof (inject_nat_nonneg (length used)). lra. }
  pose proof (small_count n Hlen) as HNu. fold N u in HNu.
  assert (H21 : 2 ^ (-21) <= 1 # 8) by (vm_compute; discriminate).
  assert (HNu8 : N * u <= 1 # 8) by lra.
  assert (HetaW : eta <= u * W).
  { assert (E : eta <= u * 2 ^ (-1000)).
    { unfold eta, u. rewrite <- pow2_plus. apply pow2_le. lia. }
    assert (u * 2 ^ (-1000) <= u * W) by (apply Qmult_le_l_nonneg; lra). lra. }
  assert (HuW : 0 <= u * W) by (apply Qmult_le_0_compat; lra).
  (* the two sums *)
  destruct (rounded_sum_error W n (Qlt_le_weak _ _ HW) ltac:(fold N u; lra)
              (map (fun signal => applied_weight weights (fst signal)) used)
              0%nat 0 0) as [HW'0 HW'];
    [rewrite length_map; fold n; lia|exact Hw0|lra|lra|fold W; lra
    |vm_compute; discriminate|].
  destruct (rounded_sum_error W n (Qlt_le_weak _ _ HW) ltac:(fold N u; lra)
              (map (fun signal => stored (applied_weight weights (fst signal)
                                          * signal_value signal)) used)
              0%nat 0 0) as [HS'0 HS'];
    [rewrite length_map; fold n; lia|exact Hp0|lra|lra|fold P; lra
    |vm_compute; discriminate|].
  rewrite !length_map in HW', HS'. fold n in HW', HS'. cbn [Nat.add] in HW', HS'.
  fold N u eta W P in HW', HS'.
  set (W' := fold_left (fun sum term => stored (sum + term))
               (map (fun signal => applied_weight weights (fst signal)) used) 0) in *.
  set (S' := fold_left (fun sum term => stored (sum + term))
               (map (fun signal => stored (applied_weight weights (fst signal)
                                           * signal_value signal)) used) 0) in *.
  assert (EW : 0 + W == W) by ring. assert (EP : 0 + P == P) by ring.
  rewrite EW in HW'. rewrite EP in HS'.
  assert (EK : N * (2 * u * W + 2 * eta) == 2 * (N * (u * W)) + 2 * (N * eta)) by ring.
  rewrite EK in HW', HS'.
  assert (HNeta : N * eta <= N * (u * W)) by (apply Qmult_le_l_nonneg; lra).
  assert (HNuW : N * (u * W) == (N * u) * W) by ring.
  assert (HuWN : u * W <= N * (u * W)).
  { assert (1 * (u * W) <= N * (u * W)) by (apply Qmult_le_compat_r; lra). lra. }
  (* errors relative to W *)
  assert (HeW : Qabs (W' - W) <= (4 * (N * u)) * W).
  { assert (E : (4 * (N * u)) * W == 4 * (N * (u * W))) by ring. rewrite E. lra. }
  assert (HeS : Qabs (S' - S) <= (6 * (N * u)) * W).
  { assert (E : (6 * (N * u)) * W == 6 * (N * (u * W))) by ring. rewrite E.
    apply Qle_trans with (Qabs (S' - P) + Qabs (P - S)); [apply Qabs_triangle_3|].
    lra. }
  assert (HNu0 : 0 <= N * u) by (apply Qmult_le_0_compat; lra).
  pose proof (quotient_error W S W' S' (4 * (N * u)) (6 * (N * u)) HW HS
                ltac:(lra) ltac:(lra) ltac:(lra) HeW HeS) as Hq.
  (* W' is positive and finite *)
  apply Qabs_le_iff in HeW.
  assert (HNuW8 : (N * u) * W <= (1 # 8) * W) by (apply Qmult_le_compat_r; lra).
  assert (E4 : (4 * (N * u)) * W == 4 * ((N * u) * W)) by ring.
  rewrite E4 in HeW.
  assert (HW'pos : 0 < W') by lra.
  assert (HW'up : W' < 2 ^ 1024).
  { assert (2 * 2 ^ 1000 < 2 ^ 1024) by (vm_compute; reflexivity). lra. }
  split; [apply Qltb_lt; exact HW'pos|].
  split.
  { unfold Float64.finite. rewrite negb_true_iff.
    destruct (Qle_bool (2 ^ 1024) (Qabs W')) eqn:E; [|reflexivity].
    apply Qle_bool_iff in E. rewrite Qabs_pos in E by lra. lra. }
  (* the quotient and its rounding *)
  assert (HS'W' : S' <= W').
  { pose proof (rounded_sum_le
                  (map (fun signal => (stored (applied_weight weights (fst signal)
                                               * signal_value signal),
                                       applied_weight weights (fst signal))) used))
      as Hle.
    rewrite !map_map in Hle. cbn [fst snd] in Hle.
    apply Hle; [|lra].
    intros p Hp. apply in_map_iff in Hp as (s & <- & Hs). cbn [fst snd].
    destruct (weighted_signal_weight weights breakdown s Hs) as (q & -> & Hq').
    apply (product_bounds q (signal_value s) Hq' (clamped_range _)). }
  set (x := S' / W') in *.
  assert (Hx : 0 <= x <= 1).
  { unfold x. split.
    - apply Qle_shift_div_l; [exact HW'pos|]. lra.
    - apply Qle_shift_div_r; [exact HW'pos|]. lra. }
  assert (HA : 0 <= S / W <= 1).
  { split.
    - apply Qle_shift_div_l; [exact HW|]. lra.
    - apply Qle_shift_div_r; [exact HW|]. lra. }
  pose proof (stored_error x ltac:(lra)) as Hsx. fold u eta in Hsx.
  assert (Hux : u * x <= u * 1) by (apply Qmult_le_l_nonneg; lra).
  assert (Hetau : eta <= u) by (unfold eta, u; apply pow2_le; lia).
  apply Qle_trans with (Qabs (stored x - S / W)); [apply clamp01_closer, HA|].
  apply Qle_trans with (Qabs (stored x - x) + Qabs (x - S / W));
    [apply Qabs_triangle_3|].
  assert (E : (20 * N + 2) * u == 2 * (4 * (N * u) + 6 * (N * u)) + 2 * u) by ring.
  rewrite E. lra.
Qed.

Lemma values_sum_bounds (l : list (string * Q)) :
  (forall t, In t (map signal_value l) -> 0 <= t)
  /\ 0 <= Qsum (map signal_value l) <= inject_Z (Z.of_nat (length l)).
Proof.
  induction l as [|s l (I1 & I2)].
  - cbn. split; [intros t []|]. split; [lra|vm_compute; discriminate].
  - cbn [map length]. rewrite Qsum_cons, inject_nat_succ.
    pose proof (clamped_range (stored (snd s))) as Hv. fold (signal_value s) in Hv.
    split; [intros t [<-|Ht]; [lra|apply I1, Ht]|]. lra.
Qed.

(** The fallback of [finalizeScore]: the plain mean in doubles is within the
    rounding allowance of the exact mean. *)
Lemma plain_branch_accuracy (breakdown : Breakdown) :
  breakdown <> [] ->
  (Z.of_nat (length breakdown) <= 2 ^ 32)%Z ->
  Qabs (clamp01 (stored (rounded_sum (map signal_value breakdown)
                         / inject_Z (Z.of_nat (length breakdown))))
        - exact_mean breakdown)
  <= rounding_allowance (length breakdown).
Proof.
  intros Hne Hlen.
  destruct (values_sum_bounds breakdown) as (Hv0 & Hs).
  unfold exact_mean, rounding_allowance, rounded_sum.
  set (n := length breakdown) in *. set (N := inject_Z (Z.of_nat n)) in *.
  set (s := Qsum (map signal_value breakdown)) in *.
  pose proof (pow2_pos (-53)) as Hu. pose proof (pow2_pos (-1075)) as Heta.
  set (u := 2 ^ (-53)) in *. set (eta := 2 ^ (-1075)) in *.
  assert (Hn1 : 1 <= N).
  { unfold N, n. destruct breakdown; [congruence|]. cbn [length].
    rewrite inject_nat_succ. pose proof (inject_nat_nonneg (length breakdown)). lra. }
  pose proof (small_count n Hlen) as HNu. fold N u in HNu.
  assert (H21 : 2 ^ (-21) <= 1 # 8) by (vm_compute; discriminate).
  destruct (rounded_sum_error N n ltac:(lra) ltac:(fold N u; lra)
              (map signal_value breakdown) 0%nat 0 0) as [Hs'0 Hs'];
    [rewrite length_map; fold n; lia|exact Hv0|lra|lra|fold s; lra
    |vm_compute; discriminate|].
  rewrite length_map in Hs'. fold n in Hs'. cbn [Nat.add] in Hs'.
  fold N u eta s in Hs'.
  set (s' := fold_left (fun sum term => stored (sum + term))
               (map signal_value breakdown) 0) in *.
  assert (Es : 0 + s == s) by ring. rewrite Es in Hs'.
  assert (HN : 0 < N) by lra.
  set (x := s' / N). set (A := s / N).
  assert (HA : 0 <= A <= 1).
  { unfold A. split.
    - apply Qle_shift_div_l; [exact HN|]. lra.
    - apply Qle_shift_div_r; [exact HN|]. lra. }
  assert (HxA : Qabs (x - A) <= 2 * u * N + 2 * eta).
  { assert (E : x - A == (s' - s) / N) by (unfold x, A; field; lra).
    rewrite E. unfold Qdiv. rewrite Qabs_Qmult.
    rewrite (Qabs_pos (/ N)) by (apply Qlt_le_weak, Qinv_lt_0_compat, HN).
    apply Qle_shift_div_r; [exact HN|].
    assert (E2 : (2 * u * N + 2 * eta) * N == N * (2 * u * N + 2 * eta)) by ring.
    rewrite E2. exact Hs'. }
  assert (Hx0 : 0 <= x) by (unfold x; apply Qle_shift_div_l; [exact HN|lra]).
  assert (Hetau : eta <= u) by (unfold eta, u; apply pow2_le; lia).
  assert (Hx2 : x <= 2).
  { apply Qabs_le_iff in HxA.
    assert (u <= 1 # 8) by (vm_compute; discriminate). lra. }
  pose proof (stored_error x Hx0) as Hsx. fold u eta in Hsx.
  assert (Hux : u * x <= u * 2) by (apply Qmult_le_l_nonneg; lra).
  apply Qle_trans with (Qabs (stored x - A)); [apply clamp01_closer, HA|].
  apply Qle_trans with (Qabs (stored x - x) + Qabs (x - A));
    [apply Qabs_triangle_3|].
  assert (E : (20 * N + 2) * u == 20 * (u * N) + 2 * u) by ring.
  assert (HuN : u * 1 <= u * N) by (apply Qmult_le_l_nonneg; lra).
  rewrite E. lra.
Qed.

Lemma no_weighted_signals (weights : PartialScoreWeights) (breakdown : Breakdown) :
  weighted_signals weights breakdown = [] ->
  rounded_weight_sum weights breakdown = 0.
Proof. intros H. unfold rounded_weight_sum. rewrite H. reflexivity. Qed.

(** The score is within the rounding allowance of the exact weighted average
    when a positive weight applies to some signal, and of the exact mean of
    the signals otherwise. *)
Lemma finalizeScore_accuracy (breakdown : Breakdown) (weights : PartialScoreWeights) :
  NoDup (keys_of breakdown) ->
  (Z.of_nat (length breakdown) <= 2 ^ 32)%Z ->
  (weighted_signals weights breakdown <> [] ->
   2 ^ (-1000) <= exact_weight_sum weights breakdown <= 2 ^ 1000 ->
   Qabs (finalizeScore breakdown weights
         - exact_weighted_sum weights breakdown / exact_weight_sum weights breakdown)
   <= rounding_allowance (length (weighted_signals weights breakdown)))
  /\ (weighted_signals weights breakdown = [] -> breakdown <> [] ->
      Qabs (finalizeScore breakdown weights - exact_mean breakdown)
      <= rounding_allowance (length breakdown)).
Proof.
  intros Hnd Hlen. rewrite (finalizeScore_rounded breakdown weights Hnd). split.
  - intros Hne HW.
    assert (Hlen' : (Z.of_nat (length (weighted_signals weights breakdown)) <= 2 ^ 32)%Z).
    { pose proof (List.filter_length_le
                    (fun signal => negb (Qle_bool (applied_weight weights (fst signal)) 0))
                    breakdown) as H.
      fold (weighted_signals weights breakdown) in H. lia. }
    destruct (weighted_branch_accuracy breakdown weights Hne Hlen' HW)
      as (-> & -> & H). exact H.
  - intros Hnil Hne. rewrite (no_weighted_signals weights breakdown Hnil).
    change (Qltb 0 0) with false. cbn iota.
    destruct breakdown as [|s rest]; [congruence|].
    cbn [length Nat.eqb]. apply plain_branch_accuracy; [discriminate|exact Hlen].
Qed.



(** C9 (as the code has it).  The score is computed in doubles: every
    weight and value is the double that holds it, every product and every
    partial sum is rounded, and so is the quotient.  For a breakdown of
    distinct signals, at most [2^32] of them: when a positive weight applies
    to some signal (the entry of the table given, the default where the
    table has none; an entry that is [undefined] or not positive gives the
    signal no weight) and the weights used sum to between [2^-1000] and
    [2^1000], the score is the rounded sum of weight times clamped value
    divided by the rounded sum of the weights, and differs from the exact
    quotient by at most [20 n + 2] half units in the last place of 1, [n]
    the number of signals used; when no positive weight applies and the
    breakdown is not empty, it is the rounded mean of the clamped values,
    within the same allowance of the exact mean; the score always lies in
    [0,1].  With weights whose sum exceeds the range of doubles the score
    is 0. *)
Theorem finalizeScore_weighted_average
  (breakdown : Breakdown) (weights : PartialScoreWeights) :
  NoDup (keys_of breakdown) ->
  (Z.of_nat (length breakdown) <= 2 ^ 32)%Z ->
  (weighted_signals weights breakdown <> [] ->
   2 ^ (-1000) <= exact_weight_sum weights breakdown <= 2 ^ 1000 ->
   finalizeScore breakdown weights
   = clamped (stored (rounded_weighted_sum weights breakdown
                      / rounded_weight_sum weights breakdown))
   /\ Qabs (finalizeScore breakdown weights
            - exact_weighted_sum weights breakdown / exact_weight_sum weights breakdown)
      <= rounding_allowance (length (weighted_signals weights breakdown)))
  /\ (weighted_signals weights breakdown = [] -> breakdown <> [] ->
      finalizeScore breakdown weights
      = clamped (stored (rounded_sum (map signal_value breakdown)
                         / inject_Z (Z.of_nat (length breakdown))))
      /\ Qabs (finalizeScore breakdown weights - exact_mean breakdown)
         <= rounding_allowance (length breakdown))
  /\ 0 <= finalizeScore breakdown weights <= 1
  /\ finalizeScore three_signals huge_weights = 0.
Proof.
  intros Hnd Hlen.
  destruct (finalizeScore_accuracy breakdown weights Hnd Hlen) as [Hw Hm].
  split; [|split; [|split; [apply finalizeScore_range|vm_compute; reflexivity]]].
  - intros Hne HW. split; [|apply Hw; assumption].
    assert (Hlen' : (Z.of_nat (length (weighted_signals weights breakdown)) <= 2 ^ 32)%Z).
    { pose proof (List.filter_length_le
                    (fun signal => negb (Qle_bool (applied_weight weights (fst signal)) 0))
                    breakdown) as H.
      fold (weighted_signals weights breakdown) in H. lia. }
    destruct (weighted_branch_accuracy breakdown weights Hne Hlen' HW) as (E1 & E2 & _).
    rewrite (finalizeScore_rounded breakdown weights Hnd), E1, E2, clamped_clamp01.
    reflexivity.
  - intros Hnil Hne. split; [|apply Hm; assumption].
    rewrite (finalizeScore_rounded breakdown weights Hnd).
    rewrite (no_weighted_signals weights breakdown Hnil).
    change (Qltb 0 0) with false. cbn iota.
    destruct breakdown as [|s rest]; [congruence|].
    cbn [length Nat.eqb]. rewrite clamped_clamp01. reflexivity.
Qed.

(** C9, at three signals weighed 3, 1 and 0.09: all three are used, the
    score is the double 0.38875305623471884, within the allowance of the
    exact quotient; with the second weight [undefined] and the third 0 only
    the first signal is used, and the score is its value. *)
Lemma finalizeScore_weighted_average_witness :
  NoDup (keys_of three_signals)
  /\ (Z.of_nat (length three_signals) <= 2 ^ 32)%Z
  /\ weighted_signals uneven_weights three_signals = three_signals
  /\ exact_weight_sum uneven_weights three_signals == 3 + 1 + stored 0.09
  /\ finalizeScore three_signals uneven_weights
     = 7003152476791285 # 18014398509481984
  /\ Qabs (finalizeScore three_signals uneven_weights
           - (3 * 0.25 + 1 * 0.75 + stored 0.09 * 1) / (3 + 1 + stored 0.09))
     <= 62 * 2 ^ (-53)
  /\ weighted_signals undefined_weights three_signals = [("freshness"%string, 0.25)]
  /\ finalizeScore three_signals undefined_weights = 1 # 4.
Proof.
  assert (Hnd : NoDup (keys_of three_signals)).
  { apply NoDup_ListNoDup. repeat constructor; cbn; intuition discriminate. }
  assert (Hlen : (Z.of_nat (length three_signals) <= 2 ^ 32)%Z) by (vm_compute; discriminate).
  split; [exact Hnd|]. split; [exact Hlen|].
  split; [vm_compute; reflexivity|]. split; [vm_compute; reflexivity|].
  split; [vm_compute; reflexivity|].
  split; [|split; vm_compute; reflexivity].
  destruct (finalizeScore_weighted_average three_signals uneven_weights Hnd Hlen)
    as (Hw & _).
  destruct Hw as [_ Hacc].
  - vm_compute. discriminate.
  - split; vm_compute; discriminate.
  - assert (E : exact_weighted_sum uneven_weights three_signals
                / exact_weight_sum uneven_weights three_signals
                == (3 * 0.25 + 1 * 0.75 + stored 0.09 * 1) / (3 + 1 + stored 0.09))
      by (vm_compute; reflexivity).
    rewrite <- E.
    assert (E2 : rounding_allowance (length (weighted_signals uneven_weights three_signals))
                 == 62 * 2 ^ (-53)) by (vm_compute; reflexivity).
    rewrite <- E2. exact Hacc.
Defined.

(** C9, where the claim fails: with the default weights, eight signals at
    0.4 score 0.39999999999999997, the double below the one that holds 0.4,
    which is their weighted average. *)
Lemma weighted_average_is_rounded :
  finalizeScore eight_at_0_4 (all_given DEFAULT_WEIGHTS)
  = 7205759403792793 # 18014398509481984
  /\ exact_weighted_sum (all_given DEFAULT_WEIGHTS) eight_at_0_4
     / exact_weight_sum (all_given DEFAULT_WEIGHTS) eight_at_0_4
     == 3602879701896397 # 9007199254740992
  /\ stored 0.4 = 3602879701896397 # 9007199254740992
  /\ ~ finalizeScore eight_at_0_4 (all_given DEFAULT_WEIGHTS)
       == exact_weighted_sum (all_given DEFAULT_WEIGHTS) eight_at_0_4
          / exact_weight_sum (all_given DEFAULT_WEIGHTS) eight_at_0_4
  /\ ~ finalizeScore eight_at_0_4 (all_given DEFAULT_WEIGHTS) == 0.4.
Proof.
  split; [vm_compute; reflexivity|]. split; [vm_compute; reflexivity|].
  split; [vm_compute; reflexivity|].
  split; intros H; apply Qeq_bool_iff in H; vm_compute in H; discriminate.
Qed.



(** ** The cadence signal *)

Section CadenceFacts.

Variable Math_sqrt : Q -> Q.
Variable Date_getTime : string -> option Z.

Lemma omap_length_le {A B : Type} (f : A -> option B) (l : list A) :
  (length (omap f l) <= length l)%nat.
Proof.
  induction l as [|x l IH]; cbn; [lia|].
  destruct (f x); cbn; lia.
Qed.

Lemma sort_numbers_length (l : list Z) : length (sort_numbers l) = length l.
Proof. unfold sort_numbers. apply Permutation_length, merge_sort_Permutation. Qed.

Lemma intervals_of_length (l : list Z) :
  length (intervals_of l) = Nat.pred (length l).
Proof.
  induction l as [|a [|b l] IH]; [reflexivity|reflexivity|].
  change (intervals_of (a :: b :: l))
    with (inject_Z (b - a) / inject_Z (1000 * 60 * 60 * 24) :: intervals_of (b :: l)).
  cbn [length]. rewrite IH. reflexivity.
Qed.

(** The function once the three guards on the number of timestamps pass. *)
Lemma featureUpdateCadence_enough (updateTimestamps : list string) :
  (4 <= length (valid_times Date_getTime updateTimestamps))%nat ->
  featureUpdateCadence Math_sqrt Date_getTime (Some updateTimestamps) =
  let cv := cv_of Math_sqrt (gaps_of Date_getTime updateTimestamps) in
  if Qltb cv 0.2 then 0.0
  else if Qltb 0.5 cv then 1.0
  else clamp01 ((cv - 0.2) / (0.5 - 0.2)).
Proof.
  intros Hvalid. unfold featureUpdateCadence.
  pose proof (omap_length_le Date_getTime updateTimestamps) as Hle.
  fold (valid_times Date_getTime updateTimestamps) in Hle.
  assert ((length updateTimestamps <? 4)%nat = false) as ->
    by (apply Nat.ltb_ge; lia).
  cbn zeta.
  assert ((length (sort_numbers (valid_times Date_getTime updateTimestamps)) <? 4)%nat
          = false) as -> by (apply Nat.ltb_ge; rewrite sort_numbers_length; lia).
  assert ((length (intervals_of
             (sort_numbers (valid_times Date_getTime updateTimestamps))) =? 0)%nat
          = false) as ->.
  { apply Nat.eqb_neq. rewrite intervals_of_length, sort_numbers_length. lia. }
  reflexivity.
Qed.

Lemma featureUpdateCadence_few (updateTimestamps : list string) :
  (length (valid_times Date_getTime updateTimestamps) < 4)%nat ->
  featureUpdateCadence Math_sqrt Date_getTime (Some updateTimestamps) = 0.5.
Proof.
  intros Hvalid. unfold featureUpdateCadence.
  destruct (length updateTimestamps <? 4)%nat; [reflexivity|].
  cbn zeta.
  assert ((length (sort_numbers (valid_times Date_getTime updateTimestamps)) <? 4)%nat
          = true) as -> by (apply Nat.ltb_lt; rewrite sort_numbers_length; lia).
  reflexivity.
Qed.










End CadenceFacts.




(** ** The admission controller *)

Open Scope Z_scope.

Lemma call_no_faults (w : World) : faults w = [] -> call w = (false, w).
Proof. unfold call. intros ->. reflexivity. Qed.

Lemma tokens_nonneg_insert (w : World) (userId : string) (row : RequestLock)
  (t : gmap string RequestLock) :
  (forall u r, t !! u = Some r -> 0 <= tokens_remaining r) ->
  0 <= tokens_remaining row ->
  forall u r, <[userId := row]> t !! u = Some r -> 0 <= tokens_remaining r.
Proof.
  intros Ht Hrow u r. destruct (decide (userId = u)) as [->|Hne].
  - rewrite lookup_insert_eq. intros [= <-]. exact Hrow.
  - rewrite lookup_insert_ne by exact Hne. apply Ht.
Qed.

(** What [set_request_lock] does, by the answers of the store: [e1] to the
    closing update, [e2] to the decrement, [e3] to the compensation. *)
Lemma set_request_lock_cases (userId : string) (w : World) :
  let r := set_request_lock userId w in
  match request_lock w !! userId with
  | Some row =>
      if is_available row then
        (fst r = Thrown /\ request_lock (snd r) = request_lock w)
        \/ (fst r = Thrown
            /\ request_lock (snd r) =
               <[userId := {| is_available := true;
                              tokens_remaining := tokens_remaining row |}]>
                 (<[userId := {| is_available := false;
                                 tokens_remaining := tokens_remaining row |}]>
                    (request_lock w)))
        \/ (fst r = Thrown
            /\ request_lock (snd r) =
               <[userId := {| is_available := false;
                              tokens_remaining := tokens_remaining row |}]>
                 (request_lock w))
        \/ (fst r = Returned true
            /\ request_lock (snd r) =
               <[userId := {| is_available := false;
                              tokens_remaining := tokens_remaining row - 1 |}]>
                 (<[userId := {| is_available := false;
                                 tokens_remaining := tokens_remaining row |}]>
                    (request_lock w))
            /\ (faults w = [] \/ exists rest, faults w = false :: rest))
      else (fst r = Thrown \/ fst r = Returned false)
           /\ request_lock (snd r) = request_lock w
  | None => (fst r = Thrown \/ fst r = Returned false)
            /\ request_lock (snd r) = request_lock w
  end.
Proof.
  destruct w as [locks js us fs ss nid t flt ws].
  unfold set_request_lock, bind, call, ret, write_lock. cbn.
  destruct flt as [|[|] flt]; cbn.
  - destruct (locks !! userId) as [[[|] tok]|] eqn:E; cbn.
    + right. right. right. repeat split; auto.
    + split; [right; reflexivity|reflexivity].
    + split; [right; reflexivity|reflexivity].
  - destruct (locks !! userId) as [[[|] tok]|] eqn:E; cbn.
    + left. split; reflexivity.
    + split; [left; reflexivity|reflexivity].
    + split; [left; reflexivity|reflexivity].
  - destruct (locks !! userId) as [[[|] tok]|] eqn:E; cbn.
    + destruct flt as [|[|] flt]; cbn.
      * right. right. right. repeat split; eauto.
      * destruct flt as [|[|] flt]; cbn.
        -- right. left. split; reflexivity.
        -- right. right. left. split; reflexivity.
        -- right. left. split; reflexivity.
      * right. right. right. repeat split; eauto.
    + split; [right; reflexivity|reflexivity].
    + split; [right; reflexivity|reflexivity].
Qed.

Lemma request_lock_and_tokens_tables (userId : string) (w : World) :
  request_lock (snd (request_lock_and_tokens userId w)) = request_lock w
  \/ (request_lock w !! userId = None
      /\ request_lock (snd (request_lock_and_tokens userId w)) =
         <[userId := {| is_available := true; tokens_remaining := 3 |}]>
           (request_lock w)).
Proof.
  destruct w as [locks js us fs ss nid t flt ws].
  unfold request_lock_and_tokens, bind, call, ret, write_lock. cbn.
  destruct flt as [|[|] flt]; cbn; try (left; reflexivity);
    destruct (locks !! userId) as [row|] eqn:E; cbn; try (left; reflexivity).
  - right. split; reflexivity.
  - destruct flt as [|[|] flt]; cbn; try (left; reflexivity);
      right; split; reflexivity.
Qed.

Lemma release_request_lock_tables (userId : string) (w : World) :
  request_lock (snd (release_request_lock userId w)) = request_lock w
  \/ exists row, request_lock w !! userId = Some row
      /\ request_lock (snd (release_request_lock userId w)) =
         <[userId := {| is_available := true;
                        tokens_remaining := tokens_remaining row |}]>
           (request_lock w).
Proof.
  destruct w as [locks js us fs ss nid t flt ws].
  unfold release_request_lock, bind, call, ret, write_lock. cbn.
  destruct flt as [|[|] flt]; cbn; try (left; reflexivity);
    destruct (locks !! userId) as [row|] eqn:E; cbn; try (left; reflexivity);
    right; exists row; split; reflexivity.
Qed.

(** C1 (as the code has it).  [set_request_lock] grants only on a row whose
    lock is open, and then closes it and takes one token whatever the count
    is: the token count is not consulted.  On an open lock it grants
    whenever the store answers its calls; on a closed or missing row it
    denies and changes nothing.  [request_lock_and_tokens] and
    [release_request_lock] keep every token count non-negative;
    [set_request_lock] keeps them so when the open row it grants on holds a
    token. *)
Theorem acquire_checks_availability_only (userId : string) (w : World) :
  (fst (set_request_lock userId w) = Returned true ->
     exists row, request_lock w !! userId = Some row /\ is_available row = true
       /\ request_lock (snd (set_request_lock userId w)) !! userId =
          Some {| is_available := false;
                  tokens_remaining := tokens_remaining row - 1 |})
  /\ (faults w = [] ->
      forall row, request_lock w !! userId = Some row -> is_available row = true ->
      fst (set_request_lock userId w) = Returned true)
  /\ ((forall row, request_lock w !! userId = Some row -> is_available row = false) ->
      fst (set_request_lock userId w) <> Returned true
      /\ request_lock (snd (set_request_lock userId w)) = request_lock w)
  /\ (tokens_nonneg w ->
      tokens_nonneg (snd (request_lock_and_tokens userId w))
      /\ tokens_nonneg (snd (release_request_lock userId w))
      /\ ((forall row, request_lock w !! userId = Some row ->
             is_available row = true -> 0 < tokens_remaining row) ->
          tokens_nonneg (snd (set_request_lock userId w)))).
Proof.
  pose proof (set_request_lock_cases userId w) as Hc. cbn zeta in Hc.
  split; [|split; [|split]].
  - intros Hgrant.
    destruct (request_lock w !! userId) as [row|] eqn:E.
    + destruct (is_available row) eqn:Ea.
      * destruct Hc as [[H _]|[[H _]|[[H _]|(_ & H & _)]]];
          try (rewrite Hgrant in H; discriminate).
        exists row. repeat split; [exact Ea|]. rewrite H. apply lookup_insert_eq.
      * destruct Hc as [[H|H] _]; rewrite Hgrant in H; discriminate.
    + destruct Hc as [[H|H] _]; rewrite Hgrant in H; discriminate.
  - intros Hf row E Ea. clear Hc.
    destruct w as [locks js us fs ss nid t flt ws]. cbn in Hf, E. subst flt.
    unfold set_request_lock, bind, call, ret, write_lock. cbn.
    rewrite E. cbn. rewrite Ea. reflexivity.
  - intros Hclosed.
    destruct (request_lock w !! userId) as [row|] eqn:E.
    + rewrite (Hclosed row eq_refl) in Hc. destruct Hc as [[H|H] Ht];
        (split; [rewrite H; discriminate|exact Ht]).
    + destruct Hc as [[H|H] Ht]; (split; [rewrite H; discriminate|exact Ht]).
  - intros Hinv. split; [|split].
    + destruct (request_lock_and_tokens_tables userId w) as [H|[_ H]];
        unfold tokens_nonneg; rewrite H; [exact Hinv|].
      apply (tokens_nonneg_insert w); [exact Hinv|cbn; lia].
    + destruct (release_request_lock_tables userId w) as [H|(row & E & H)];
        unfold tokens_nonneg; rewrite H; [exact Hinv|].
      apply (tokens_nonneg_insert w); [exact Hinv|cbn; exact (Hinv _ _ E)].
    + intros Htok. unfold tokens_nonneg.
      destruct (request_lock w !! userId) as [row|] eqn:E.
      * destruct (is_available row) eqn:Ea.
        -- pose proof (Hinv _ _ E) as H0. pose proof (Htok row eq_refl Ea) as H1.
           destruct Hc as [[_ H]|[[_ H]|[[_ H]|(_ & H & _)]]]; rewrite H;
             [exact Hinv| | |];
             repeat (apply (tokens_nonneg_insert w); [|cbn; lia]); exact Hinv.
        -- destruct Hc as [_ H]. rewrite H. exact Hinv.
      * destruct Hc as [_ H]. rewrite H. exact Hinv.
Qed.

(** C1, where the claim fails: a user whose lock is open and whose tokens
    are spent is granted the lock, and is left with -1 tokens. *)
Lemma acquire_with_no_tokens_is_granted :
  request_lock spent_world !! "u1"%string =
    Some {| is_available := true; tokens_remaining := 0 |}
  /\ fst (set_request_lock "u1" spent_world) = Returned true
  /\ request_lock (snd (set_request_lock "u1" spent_world)) !! "u1"%string =
       Some {| is_available := false; tokens_remaining := -1 |}.
Proof. vm_compute. repeat split. Qed.

(** An open lock is taken and released: the lock is open again and one
    token is gone. *)
Theorem acquire_then_release (userId : string) (w : World) (row : RequestLock) :
  faults w = [] -> request_lock w !! userId = Some row -> is_available row = true ->
  fst (set_request_lock userId w) = Returned true
  /\ request_lock
       (snd (release_request_lock userId (snd (set_request_lock userId w))))
     !! userId =
     Some {| is_available := true; tokens_remaining := tokens_remaining row - 1 |}.
Proof.
  intros Hf E Ea.
  destruct w as [locks js us fs ss nid t flt ws]. cbn in Hf, E. subst flt.
  unfold set_request_lock, release_request_lock, bind, call, ret, write_lock. cbn.
  rewrite E. cbn. rewrite Ea. cbn. rewrite lookup_insert_eq. cbn.
  split; [reflexivity|]. apply lookup_insert_eq.
Qed.

Lemma acquire_then_release_witness :
  fst (set_request_lock "u1" spent_world) = Returned true
  /\ request_lock
       (snd (release_request_lock "u1" (snd (set_request_lock "u1" spent_world))))
     !! "u1"%string =
     Some {| is_available := true; tokens_remaining := 0 - 1 |}.
Proof.
  apply (acquire_then_release "u1" spent_world
           {| is_available := true; tokens_remaining := 0 |});
    reflexivity.
Defined.

(** The first request of a user creates the lock row, open, with three
    tokens. *)
Theorem first_request_creates_lock (userId : string) (w : World) :
  faults w = [] -> request_lock w !! userId = None ->
  fst (request_lock_and_tokens userId w) = Returned (true, 3)
  /\ request_lock (snd (request_lock_and_tokens userId w)) !! userId =
     Some {| is_available := true; tokens_remaining := 3 |}.
Proof.
  intros Hf E.
  destruct w as [locks js us fs ss nid t flt ws]. cbn in Hf, E. subst flt.
  unfold request_lock_and_tokens, bind, call, ret, write_lock. cbn.
  rewrite E. cbn. split; [reflexivity|]. apply lookup_insert_eq.
Qed.

Lemma first_request_creates_lock_witness :
  fst (request_lock_and_tokens "u2" spent_world) = Returned (true, 3)
  /\ request_lock (snd (request_lock_and_tokens "u2" spent_world)) !! "u2"%string =
     Some {| is_available := true; tokens_remaining := 3 |}.
Proof.
  apply (first_request_creates_lock "u2" spent_world); reflexivity.
Defined.

(** The decrement fails after the lock was closed: the lock is opened again,
    the tokens are as they were, and the error is thrown. *)
Theorem failed_decrement_reopens_lock
  (userId : string) (w : World) (row : RequestLock) (rest : list bool) :
  faults w = false :: true :: false :: rest ->
  request_lock w !! userId = Some row -> is_available row = true ->
  fst (set_request_lock userId w) = Thrown
  /\ request_lock (snd (set_request_lock userId w)) !! userId =
     Some {| is_available := true; tokens_remaining := tokens_remaining row |}.
Proof.
  intros Hf E Ea.
  destruct w as [locks js us fs ss nid t flt ws]. cbn in Hf, E. subst flt.
  unfold set_request_lock, bind, call, ret, write_lock. cbn.
  rewrite E. cbn. rewrite Ea. cbn. split; [reflexivity|]. apply lookup_insert_eq.
Qed.

Lemma failed_decrement_reopens_lock_witness :
  fst (set_request_lock "u1" (with_faults [false; true; false] spent_world)) = Thrown
  /\ request_lock
       (snd (set_request_lock "u1" (with_faults [false; true; false] spent_world)))
     !! "u1"%string =
     Some {| is_available := true; tokens_remaining := 0 |}.
Proof.
  apply (failed_decrement_reopens_lock "u1"
           (with_faults [false; true; false] spent_world)
           {| is_available := true; tokens_remaining := 0 |} []);
    reflexivity.
Defined.

(** ** Re-ingest: the update log and the snapshots *)

Lemma bind_run {A B : Type} (m : M A) (k : A -> M B) (w w' : World) (a : A) :
  m w = (a, w') -> bind m k w = k a w'.
Proof. unfold bind. intros ->. reflexivity. Qed.

Lemma find_replace_row (P : JobRow -> bool) (r r1 : JobRow) (rows : list JobRow) :
  List.find P rows = Some r -> id r1 = id r -> P r1 = true ->
  List.find P (replace_row r1 rows) = Some r1.
Proof.
  intros Hfind Hid HP. induction rows as [|x rows IH]; [discriminate|].
  cbn [replace_row map List.find] in *.
  destruct (Nat.eqb_spec (id x) (id r1)) as [Hx|Hx].
  - rewrite HP. reflexivity.
  - destruct (P x) eqn:Px.
    + injection Hfind as <-. congruence.
    + apply IH. exact Hfind.
Qed.

Lemma find_by_id_unique (r : JobRow) (rows : list JobRow) :
  NoDup (map id rows) -> In r rows ->
  List.find (fun x => Nat.eqb (id x) (id r)) rows = Some r.
Proof.
  induction rows as [|x rows IH]; intros Hnd Hin; [destruct Hin|].
  cbn [map] in Hnd. apply NoDup_cons in Hnd as [Hx Hnd].
  cbn [List.find]. destruct Hin as [->|Hin].
  - rewrite Nat.eqb_refl. reflexivity.
  - destruct (Nat.eqb_spec (id x) (id r)) as [E|E].
    + exfalso. apply Hx. rewrite E. apply list_elem_of_In, in_map, Hin.
    + apply IH; assumption.
Qed.

Lemma find_by_key_by_id (adapterJob : AdapterJob) (w : World) (r : JobRow) :
  NoDup (map id (jobs w)) -> find_by_key adapterJob w = Some r ->
  find_by_id (id r) w = Some r.
Proof.
  intros Hnd Hfind. unfold find_by_id. apply find_by_id_unique; [exact Hnd|].
  apply (find_some _ _ Hfind).
Qed.

Lemma replace_row_ids (r1 : JobRow) (rows : list JobRow) :
  map id (replace_row r1 rows) = map id rows.
Proof.
  unfold replace_row. rewrite map_map. apply map_ext. intros x.
  destruct (Nat.eqb_spec (id x) (id r1)) as [E|E]; [symmetry; exact E|reflexivity].
Qed.

Lemma same_key_upserted (r : JobRow) (adapterJob : AdapterJob) (t : option Z) :
  same_key adapterJob (upserted r adapterJob t) = true.
Proof. unfold same_key, upserted. cbn. rewrite !String.eqb_refl. reflexivity. Qed.

Lemma hasAtsUpdatedAtChanged_present (latest : dbJobSnapshot)
  (incoming : option string) :
  hasAtsUpdatedAtChanged (Some latest) incoming = true
  <-> present_value (ats_updated_at latest) <> present_value incoming.
Proof.
  unfold hasAtsUpdatedAtChanged, truthy, present_value.
  destruct (ats_updated_at latest) as [a|], incoming as [b|].
  - destruct a as [|c a], b as [|d b]; cbn [String.eqb negb andb orb default].
    + split; [discriminate|congruence].
    + split; [intros _; discriminate|reflexivity].
    + split; [intros _; discriminate|reflexivity].
    + unfold Datatypes.id.
      destruct (String.eqb_spec (String c a) (String d b)) as [E|E]; cbn [negb].
      * rewrite E. split; [discriminate|congruence].
      * split; [congruence|reflexivity].
  - destruct a; cbn [String.eqb negb andb orb].
    + split; [discriminate|congruence].
    + split; [intros _; discriminate|reflexivity].
  - destruct b; cbn [String.eqb negb andb orb].
    + split; [discriminate|congruence].
    + split; [intros _; discriminate|reflexivity].
  - cbn [negb andb]. split; [discriminate|congruence].
Qed.

Lemma stamped_before_leb (a b : option Z) :
  stamped_before a b -> stamp_leb a b = true /\ stamp_leb b a = false.
Proof.
  destruct a as [x|], b as [y|]; cbn; try tauto.
  intros H. split; [apply Z.leb_le; lia|apply Z.leb_gt; lia].
Qed.

Lemma insert_by_stamp_Forall (P : dbJobSnapshot -> Prop) (s : dbJobSnapshot)
  (sorted : list dbJobSnapshot) :
  P s -> Forall P sorted -> Forall P (insert_by_stamp s sorted).
Proof.
  intros Hs. induction sorted as [|x rest IH]; intros H; cbn [insert_by_stamp].
  - apply List.Forall_cons; [exact Hs|apply List.Forall_nil].
  - apply Forall_cons in H as [Hx Hrest].
    destruct (stamp_leb (snapshot_at x) (snapshot_at s)).
    + apply List.Forall_cons; [exact Hx|apply IH, Hrest].
    + apply List.Forall_cons; [exact Hs|].
      apply List.Forall_cons; [exact Hx|exact Hrest].
Qed.

Lemma fold_insert_Forall (P : dbJobSnapshot -> Prop) (rows acc : list dbJobSnapshot) :
  Forall P rows -> Forall P acc ->
  Forall P (fold_left (fun sorted s => insert_by_stamp s sorted) rows acc).
Proof.
  revert acc. induction rows as [|s rows IH]; intros acc Hrows Hacc; [exact Hacc|].
  apply Forall_cons in Hrows as [Hs Hrows]. cbn [fold_left].
  apply IH; [exact Hrows|apply insert_by_stamp_Forall; assumption].
Qed.

Lemma insert_newest (s : dbJobSnapshot) (sorted : list dbJobSnapshot) :
  Forall (fun x => stamped_before (snapshot_at x) (snapshot_at s)) sorted ->
  insert_by_stamp s sorted = sorted ++ [s].
Proof.
  induction sorted as [|x rest IH]; intros H; [reflexivity|].
  apply Forall_cons in H as [Hx Hrest]. cbn [insert_by_stamp].
  rewrite (proj1 (stamped_before_leb _ _ Hx)), (IH Hrest). reflexivity.
Qed.

Lemma insert_keeps_last (x m : dbJobSnapshot) (sorted : list dbJobSnapshot) :
  stamped_before (snapshot_at x) (snapshot_at m) ->
  last sorted = Some m -> last (insert_by_stamp x sorted) = Some m.
Proof.
  intros Hx. induction sorted as [|y rest IH]; [discriminate|].
  intros Hlast. cbn [insert_by_stamp].
  destruct (stamp_leb (snapshot_at y) (snapshot_at x)) eqn:E.
  - destruct rest as [|z rest].
    + cbn in Hlast. injection Hlast as ->.
      rewrite (proj2 (stamped_before_leb _ _ Hx)) in E. discriminate.
    + change (last (y :: z :: rest)) with (last (z :: rest)) in Hlast.
      specialize (IH Hlast).
      destruct (insert_by_stamp x (z :: rest)) as [|u us] eqn:Ei; [discriminate|].
      exact IH.
  - exact Hlast.
Qed.

Lemma fold_insert_keeps_last (m : dbJobSnapshot) (rows acc : list dbJobSnapshot) :
  Forall (fun x => stamped_before (snapshot_at x) (snapshot_at m)) rows ->
  last acc = Some m ->
  last (fold_left (fun sorted s => insert_by_stamp s sorted) rows acc) = Some m.
Proof.
  revert acc. induction rows as [|x rows IH]; intros acc Hrows Hacc; [exact Hacc|].
  apply Forall_cons in Hrows as [Hx Hrows]. cbn [fold_left].
  apply IH; [exact Hrows|apply insert_keeps_last; assumption].
Qed.

Lemma order_by_snapshot_at_newest (before after : list dbJobSnapshot)
  (s : dbJobSnapshot) :
  Forall (fun x => stamped_before (snapshot_at x) (snapshot_at s)) (before ++ after) ->
  last (order_by_snapshot_at (before ++ s :: after)) = Some s.
Proof.
  intros H. apply Forall_app in H as [Hb Ha].
  unfold order_by_snapshot_at. rewrite fold_left_app. cbn [fold_left].
  apply fold_insert_keeps_last; [exact Ha|].
  rewrite insert_newest; [apply last_snoc|].
  apply fold_insert_Forall; [exact Hb|apply List.Forall_nil].
Qed.

Lemma order_by_snapshot_at_snoc (rows : list dbJobSnapshot) (s : dbJobSnapshot) :
  Forall (fun x => stamped_before (snapshot_at x) (snapshot_at s)) rows ->
  order_by_snapshot_at (rows ++ [s]) = order_by_snapshot_at rows ++ [s].
Proof.
  intros H. unfold order_by_snapshot_at. rewrite fold_left_app. cbn [fold_left].
  apply insert_newest. apply fold_insert_Forall; [exact H|apply List.Forall_nil].
Qed.

Lemma insert_by_stamp_not_nil (s : dbJobSnapshot) (sorted : list dbJobSnapshot) :
  insert_by_stamp s sorted <> [].
Proof.
  destruct sorted as [|x rest]; cbn [insert_by_stamp]; [discriminate|].
  destruct (stamp_leb _ _); discriminate.
Qed.

Lemma newest_is_latest (jobId : JobId) (w : World) (s : dbJobSnapshot) :
  newest_snapshot jobId w s -> latest_snapshot jobId w = Some s.
Proof.
  intros (before & after & E & H). unfold latest_snapshot.
  change (List.filter (fun s => Nat.eqb (job_id s) jobId) (job_snapshots w))
    with (snapshots_of jobId w).
  rewrite E. apply order_by_snapshot_at_newest, H.
Qed.

Lemma no_snapshot_no_latest (jobId : JobId) (w : World) :
  snapshots_of jobId w = [] -> latest_snapshot jobId w = None.
Proof.
  intros E. unfold latest_snapshot.
  change (List.filter (fun s => Nat.eqb (job_id s) jobId) (job_snapshots w))
    with (snapshots_of jobId w).
  rewrite E. reflexivity.
Qed.

Lemma truthy_present (v : string) : v <> EmptyString -> truthy (Some v) = true.
Proof.
  intros Hv. unfold truthy. destruct (String.eqb_spec v ""); [contradiction|reflexivity].
Qed.

Lemma time_gt_iff (a b : option Z) :
  time_gt a b = true <-> exists x y, a = Some x /\ b = Some y /\ y < x.
Proof.
  unfold time_gt. split.
  - destruct a as [x|], b as [y|]; try discriminate.
    intros H. exists x, y. repeat split. apply Z.ltb_lt. exact H.
  - intros (x & y & -> & -> & H). apply Z.ltb_lt. exact H.
Qed.

#[local] Opaque createSnapshotData hasAtsUpdatedAtChanged replace_row truthy time_gt.

Lemma insert_job_update_run (row : JobUpdateRow) (w : World) :
  faults w = [] -> insert_job_update row w = (false, update_inserted row w).
Proof.
  intros Hf. unfold insert_job_update.
  rewrite (bind_run _ _ _ _ _ (call_no_faults w Hf)). reflexivity.
Qed.

Lemma touch_last_seen_run (r : JobRow) (w : World) :
  faults w = [] -> find_by_id (id r) w = Some r ->
  touch_last_seen (id r) w = (false, seen_now r w).
Proof.
  intros Hf Hfind. unfold touch_last_seen.
  rewrite (bind_run _ _ _ _ _ (call_no_faults w Hf)). cbn iota.
  rewrite Hfind. reflexivity.
Qed.

Section Reingest.

Variable Date_getTime : string -> option Z.
Variable analyzeAdapterJob : AdapterJob -> dbJobFeatures.

Lemma InsertToJobUpdatesTable_run (adapterJob : AdapterJob) (r : JobRow) (w : World) :
  faults w = [] -> find_by_id (id r) w = Some r ->
  InsertToJobUpdatesTable Date_getTime (id r) adapterJob w =
  let row := {| update_job_id := id r;
                update_ats_updated_at := default EmptyString (updated_at adapterJob) |} in
  let recorded :=
    update_recorded Date_getTime (updated_at (job r)) (updated_at adapterJob) in
  (recorded,
   if truthy (updated_at adapterJob)
   then seen_now r (if recorded then update_inserted row w else w)
   else w).
Proof.
  intros Hf Hfind. unfold InsertToJobUpdatesTable, update_recorded. cbn zeta.
  rewrite (bind_run _ _ _ _ _ (call_no_faults w Hf)). cbn iota.
  rewrite Hfind.
  destruct (truthy (updated_at adapterJob)) eqn:Ti; cbn [negb]; [|reflexivity].
  destruct (truthy (updated_at (job r))) eqn:Ts; cbn [negb].
  - destruct (time_gt _ _) eqn:Tg.
    + erewrite bind_run;
        [|erewrite bind_run; [reflexivity|apply insert_job_update_run; exact Hf]].
      erewrite bind_run; [reflexivity|].
      apply touch_last_seen_run; [exact Hf|exact Hfind].
    + erewrite bind_run; [|reflexivity].
      erewrite bind_run; [reflexivity|].
      apply touch_last_seen_run; [exact Hf|exact Hfind].
  - erewrite bind_run; [|apply insert_job_update_run; exact Hf].
    erewrite bind_run; [reflexivity|].
    apply touch_last_seen_run; [exact Hf|exact Hfind].
Qed.

Lemma insertIntoJobTable_run (adapterJob : AdapterJob) (w : World) :
  faults w = [] ->
  insertIntoJobTable adapterJob w =
  match find_by_key adapterJob w with
  | Some r =>
      (Some (id r),
       job_upserted {| id := id r; job := adapterJob; is_active := true;
                       last_seen := last_seen r |} w)
  | None => (Some (next_id w), job_inserted adapterJob w)
  end.
Proof.
  intros Hf. unfold insertIntoJobTable.
  rewrite (bind_run _ _ _ _ _ (call_no_faults w Hf)). cbn iota.
  destruct (find_by_key adapterJob w); reflexivity.
Qed.

Lemma InsertStructuredJobFeatures_run (job_Id : JobId) (adapterJob : AdapterJob)
  (w : World) :
  faults w = [] ->
  InsertStructuredJobFeatures analyzeAdapterJob job_Id adapterJob w =
  (tt, features_upserted job_Id (analyzeAdapterJob adapterJob) w).
Proof.
  intros Hf. unfold InsertStructuredJobFeatures, InsertIntoJobFeaturesTable. cbn zeta.
  rewrite (bind_run _ _ _ _ _ (call_no_faults w Hf)). reflexivity.
Qed.

Lemma createJobSnapshot_run (snapshot : dbJobSnapshot) (w : World) :
  faults w = [] -> createJobSnapshot snapshot w = (true, snapshot_inserted snapshot w).
Proof.
  intros Hf. unfold createJobSnapshot.
  rewrite (bind_run _ _ _ _ _ (call_no_faults w Hf)). reflexivity.
Qed.

Lemma getLatestSnapshotForJob_run (jobId : JobId) (w : World) :
  faults w = [] -> getLatestSnapshotForJob jobId w = (latest_snapshot jobId w, w).
Proof.
  intros Hf. unfold getLatestSnapshotForJob.
  rewrite (bind_run _ _ _ _ _ (call_no_faults w Hf)). reflexivity.
Qed.

Lemma snapshot_step_run (existingJob : option (JobRow * option dbJobFeatures))
  (jobId : JobId) (adapterJob : AdapterJob) (w : World) :
  faults w = [] ->
  snapshot_step existingJob jobId adapterJob w =
  (tt,
   if match existingJob with
      | None => true
      | Some _ => snapshot_due jobId adapterJob w
      end
   then snapshot_inserted (createSnapshotData jobId adapterJob) w
   else w).
Proof.
  intros Hf. unfold snapshot_step, snapshot_due. cbn zeta.
  destruct existingJob as [e|].
  - rewrite (bind_run _ _ _ _ _ (getLatestSnapshotForJob_run jobId w Hf)).
    destruct (latest_snapshot jobId w) as [latest|].
    + destruct (hasAtsUpdatedAtChanged (Some latest) (updated_at adapterJob)).
      * rewrite (bind_run _ _ _ _ _ (createJobSnapshot_run _ w Hf)). reflexivity.
      * reflexivity.
    + rewrite (bind_run _ _ _ _ _ (createJobSnapshot_run _ w Hf)). reflexivity.
  - rewrite (bind_run _ _ _ _ _ (createJobSnapshot_run _ w Hf)). reflexivity.
Qed.

Lemma reingest_existing (adapterJob : AdapterJob) (w : World) (r : JobRow)
  (feats : option dbJobFeatures) :
  faults w = [] -> NoDup (map id (jobs w)) ->
  find_by_key adapterJob w = Some r ->
  let out := reingest Date_getTime analyzeAdapterJob (Some (r, feats)) adapterJob w in
  let row := {| update_job_id := id r;
                update_ats_updated_at := default EmptyString (updated_at adapterJob) |} in
  let recorded :=
    update_recorded Date_getTime (updated_at (job r)) (updated_at adapterJob) in
  let seen := if truthy (updated_at adapterJob) then Some (now w) else last_seen r in
  let snap := stamped (now w) (createSnapshotData (id r) adapterJob) in
  let due := snapshot_due (id r) adapterJob w in
  fst out = Saved (id r)
  /\ job_updates (snd out) = job_updates w ++ (if recorded then [row] else [])
  /\ job_snapshots (snd out) = job_snapshots w ++ (if due then [snap] else [])
  /\ find_by_key adapterJob (snd out) = Some (upserted r adapterJob seen)
  /\ writes (snd out) =
       writes w
       ++ (if recorded then [W_job_updates_insert row] else [])
       ++ (if truthy (updated_at adapterJob)
           then [W_jobs_last_seen (id r) (now w)] else [])
       ++ [W_jobs_upsert (upserted r adapterJob seen); W_job_features_upsert (id r)]
       ++ (if due then [W_job_snapshots_insert snap] else []).
Proof.
  intros Hf Hnd Hfind. cbn zeta.
  pose proof (find_by_key_by_id adapterJob w r Hnd Hfind) as Hid.
  pose proof (find_some _ _ Hfind) as [_ Hkey].
  unfold reingest.
  erewrite bind_run;
    [|erewrite bind_run;
       [reflexivity|apply InsertToJobUpdatesTable_run; [exact Hf|exact Hid]]].
  cbn zeta.
  set (row := {| update_job_id := id r;
                 update_ats_updated_at := default EmptyString (updated_at adapterJob) |}).
  set (recorded :=
         update_recorded Date_getTime (updated_at (job r)) (updated_at adapterJob)).
  set (w1 := if truthy (updated_at adapterJob)
             then seen_now r (if recorded then update_inserted row w else w)
             else w).
  set (seen := if truthy (updated_at adapterJob) then Some (now w) else last_seen r).
  assert (Hf1 : faults w1 = []).
  { unfold w1. destruct (truthy _), recorded; exact Hf. }
  assert (Hnow1 : now w1 = now w).
  { unfold w1. destruct (truthy _), recorded; reflexivity. }
  assert (Hss1 : job_snapshots w1 = job_snapshots w).
  { unfold w1. destruct (truthy _), recorded; reflexivity. }
  assert (Hus1 : job_updates w1 = job_updates w ++ (if recorded then [row] else [])).
  { unfold w1, recorded, update_recorded.
    destruct (truthy (updated_at adapterJob)); cbn [negb].
    - destruct (if negb (truthy (updated_at (job r))) then true else _);
        [reflexivity|symmetry; apply app_nil_r].
    - symmetry; apply app_nil_r. }
  assert (Hws1 : writes w1 =
                 writes w ++ (if recorded then [W_job_updates_insert row] else [])
                 ++ (if truthy (updated_at adapterJob)
                     then [W_jobs_last_seen (id r) (now w)] else [])).
  { unfold w1, recorded, update_recorded.
    destruct (truthy (updated_at adapterJob)); cbn [negb].
    - destruct (if negb (truthy (updated_at (job r))) then true else _); cbn.
      + rewrite <- app_assoc. reflexivity.
      + reflexivity.
    - cbn. symmetry; apply app_nil_r. }
  assert (Hfind1 : find_by_key adapterJob w1 =
                   Some {| id := id r; job := job r; is_active := is_active r;
                           last_seen := seen |}).
  { unfold w1, seen. destruct (truthy (updated_at adapterJob)).
    - unfold find_by_key, seen_now.
      assert (Hjobs : jobs (if recorded then update_inserted row w else w) = jobs w)
        by (destruct recorded; reflexivity).
      assert (Hnow : now (if recorded then update_inserted row w else w) = now w)
        by (destruct recorded; reflexivity).
      cbn [jobs logged with_jobs]. rewrite Hjobs, Hnow.
      apply (find_replace_row _ r); [exact Hfind|reflexivity|exact Hkey].
    - rewrite Hfind. destruct r; reflexivity. }
  pose proof (insertIntoJobTable_run adapterJob w1 Hf1) as Hins.
  rewrite Hfind1 in Hins. cbn [id last_seen] in Hins.
  rewrite (bind_run _ _ _ _ _ Hins).
  set (r' := {| id := id r; job := adapterJob; is_active := true; last_seen := seen |}).
  erewrite bind_run; [|reflexivity].
  erewrite bind_run;
    [|apply InsertStructuredJobFeatures_run; exact Hf1].
  erewrite bind_run; [|apply snapshot_step_run; exact Hf1].
  unfold ret. cbn [fst snd].
  assert (Hdue : snapshot_due (id r) adapterJob
                   (features_upserted (id r) (analyzeAdapterJob adapterJob)
                      (job_upserted r' w1))
                 = snapshot_due (id r) adapterJob w).
  { unfold snapshot_due, latest_snapshot. cbn [job_snapshots features_upserted
      job_upserted logged with_job_features with_jobs]. rewrite Hss1. reflexivity. }
  rewrite Hdue. fold (upserted r adapterJob seen) in r'.
  split; [reflexivity|].
  destruct (snapshot_due (id r) adapterJob w);
    cbn [job_updates job_snapshots jobs writes now snapshot_inserted features_upserted
         job_upserted logged with_job_features with_jobs with_job_snapshots
         find_by_key];
    rewrite ?Hus1, ?Hss1, ?Hws1, ?Hnow1.
  - split; [reflexivity|]. split; [reflexivity|]. split.
    + apply (find_replace_row _ {| id := id r; job := job r; is_active := is_active r;
                                   last_seen := seen |});
        [exact Hfind1|reflexivity|apply same_key_upserted].
    + rewrite <- !app_assoc. reflexivity.
  - split; [reflexivity|]. split; [symmetry; apply app_nil_r|]. split.
    + apply (find_replace_row _ {| id := id r; job := job r; is_active := is_active r;
                                   last_seen := seen |});
        [exact Hfind1|reflexivity|apply same_key_upserted].
    + rewrite <- !app_assoc. reflexivity.
Qed.

Lemma reingest_new (adapterJob : AdapterJob) (w : World) :
  faults w = [] -> find_by_key adapterJob w = None ->
  let out := reingest Date_getTime analyzeAdapterJob None adapterJob w in
  let row := {| update_job_id := next_id w;
                update_ats_updated_at := default EmptyString (updated_at adapterJob) |} in
  let snap := stamped (now w) (createSnapshotData (next_id w) adapterJob) in
  fst out = Saved (next_id w)
  /\ job_updates (snd out) =
       job_updates w ++ (if truthy (updated_at adapterJob) then [row] else [])
  /\ job_snapshots (snd out) = job_snapshots w ++ [snap].
Proof.
  intros Hf Hfind. cbn zeta. unfold reingest.
  erewrite bind_run; [|reflexivity].
  pose proof (insertIntoJobTable_run adapterJob w Hf) as Hins.
  rewrite Hfind in Hins. rewrite (bind_run _ _ _ _ _ Hins).
  destruct (truthy (updated_at adapterJob)).
  - erewrite bind_run;
      [|erewrite bind_run; [reflexivity|apply insert_job_update_run; exact Hf]].
    erewrite bind_run; [|apply InsertStructuredJobFeatures_run; exact Hf].
    erewrite bind_run; [|apply snapshot_step_run; exact Hf].
    repeat split; try (symmetry; apply app_nil_r).
  - erewrite bind_run; [|reflexivity].
    erewrite bind_run; [|apply InsertStructuredJobFeatures_run; exact Hf].
    erewrite bind_run; [|apply snapshot_step_run; exact Hf].
    repeat split; try (symmetry; apply app_nil_r).
Qed.

Lemma getJobByCompositeKey_run (adapterJob : AdapterJob) (w : World) :
  faults w = [] ->
  getJobByCompositeKey adapterJob w =
  (option_map (fun r => (r, job_features w !! id r)) (find_by_key adapterJob w), w).
Proof.
  intros Hf. unfold getJobByCompositeKey.
  rewrite (bind_run _ _ _ _ _ (call_no_faults w Hf)). reflexivity.
Qed.

Lemma analyzeJob_run (adapterJob : AdapterJob) (w : World) :
  faults w = [] -> ats_provider adapterJob = "greenhouse"%string ->
  analyzeJob Date_getTime analyzeAdapterJob adapterJob w =
  match find_by_key adapterJob w with
  | Some r =>
      if cache_hit adapterJob w then (UsedCache (id r), w)
      else reingest Date_getTime analyzeAdapterJob
             (Some (r, job_features w !! id r)) adapterJob w
  | None => reingest Date_getTime analyzeAdapterJob None adapterJob w
  end.
Proof.
  intros Hf Hgh. unfold analyzeJob, cache_hit.
  rewrite (bind_run _ _ _ _ _ (getJobByCompositeKey_run adapterJob w Hf)).
  rewrite Hgh. cbn [String.eqb Ascii.eqb Bool.eqb].
  destruct (find_by_key adapterJob w) as [r|]; cbn [option_map]; [|reflexivity].
  destruct (job_features w !! id r); [|reflexivity].
  destruct (isJobFresh (now w) r); reflexivity.
Qed.

End Reingest.

(** C3 (as the code has it).  A stored job with a present [updated_at] is
    re-ingested (the store answers every call, the job is not served from
    the cache) with a present incoming [updated_at].  When the incoming
    date is strictly newer than the stored one (both parse, and the incoming
    time is greater), exactly one row is appended to [job_updates]; the row
    holds the incoming value, which was compared with the stored one; and
    the insert is written before the upsert that overwrites the job's
    [updated_at].  When it is not strictly newer, no row is appended.
    After the re-ingest the job row holds the incoming value. *)
Theorem reingest_records_incoming_updated_at
  (Date_getTime : string -> option Z) (analyzeAdapterJob : AdapterJob -> dbJobFeatures)
  (adapterJob : AdapterJob) (w : World) (r : JobRow) (stored incoming : string) :
  faults w = [] -> NoDup (map id (jobs w)) ->
  ats_provider adapterJob = "greenhouse"%string ->
  find_by_key adapterJob w = Some r -> cache_hit adapterJob w = false ->
  updated_at (job r) = Some stored -> stored <> EmptyString ->
  updated_at adapterJob = Some incoming -> incoming <> EmptyString ->
  (time_gt (Date_getTime incoming) (Date_getTime stored) = true ->
     job_updates (snd (analyzeJob Date_getTime analyzeAdapterJob adapterJob w)) =
       job_updates w ++ [ {| update_job_id := id r; update_ats_updated_at := incoming |} ]
     /\ exists rest,
          writes (snd (analyzeJob Date_getTime analyzeAdapterJob adapterJob w)) =
            writes w
            ++ [ W_job_updates_insert
                   {| update_job_id := id r; update_ats_updated_at := incoming |};
                 W_jobs_last_seen (id r) (now w);
                 W_jobs_upsert (upserted r adapterJob (Some (now w))) ]
            ++ rest)
  /\ (time_gt (Date_getTime incoming) (Date_getTime stored) = false ->
      job_updates (snd (analyzeJob Date_getTime analyzeAdapterJob adapterJob w)) =
        job_updates w)
  /\ find_by_key adapterJob (snd (analyzeJob Date_getTime analyzeAdapterJob adapterJob w))
       = Some (upserted r adapterJob (Some (now w)))
  /\ updated_at (job (upserted r adapterJob (Some (now w)))) = Some incoming
  /\ (forall a b : option Z,
        time_gt a b = true <-> exists x y, a = Some x /\ b = Some y /\ y < x).
Proof.
  intros Hf Hnd Hgh Hfind Hmiss Hstored Hs Hincoming Hi.
  rewrite (analyzeJob_run Date_getTime analyzeAdapterJob adapterJob w Hf Hgh).
  rewrite Hfind, Hmiss.
  pose proof (reingest_existing Date_getTime analyzeAdapterJob adapterJob w r
                (job_features w !! id r) Hf Hnd Hfind) as H.
  cbn zeta in H. destruct H as (_ & Hus & _ & Hrow & Hws).
  unfold update_recorded in Hus, Hws.
  rewrite Hstored, Hincoming in Hus, Hws. rewrite Hincoming in Hrow.
  rewrite (truthy_present _ Hs), (truthy_present _ Hi) in Hus, Hws.
  rewrite (truthy_present _ Hi) in Hrow.
  cbn [negb default] in Hus, Hws.
  unfold Datatypes.id in Hus, Hws.
  split; [|split; [|split; [|split]]].
  - intros Hnewer. rewrite Hnewer in Hus, Hws. split; [exact Hus|].
    exists (W_job_features_upsert (id r)
            :: (if snapshot_due (id r) adapterJob w
                then [W_job_snapshots_insert
                        (stamped (now w) (createSnapshotData (id r) adapterJob))]
                else [])).
    rewrite Hws. reflexivity.
  - intros Hold. rewrite Hold in Hus. rewrite Hus. apply app_nil_r.
  - exact Hrow.
  - exact Hincoming.
  - apply time_gt_iff.
Qed.

Lemma reingest_records_incoming_updated_at_witness :
  job_updates (snd (analyzeJob Builtins.Date_getTime no_features posting_feb stale_world)) =
    job_updates stale_world
    ++ [ {| update_job_id := 0%nat;
            update_ats_updated_at := "2024-02-01T00:00:00Z" |} ].
Proof.
  pose proof (reingest_records_incoming_updated_at
    Builtins.Date_getTime no_features posting_feb stale_world
    {| id := 0%nat; job := posting_jan; is_active := true; last_seen := Some 0 |}
    "2024-01-01T00:00:00Z" "2024-02-01T00:00:00Z"
    eq_refl (NoDup_singleton 0%nat) eq_refl eq_refl eq_refl eq_refl
    ltac:(discriminate) eq_refl ltac:(discriminate)) as [H _].
  exact (proj1 (H eq_refl)).
Defined.

(** C3, where the claim fails: the job is stored with [updated_at] of
    January; it is re-ingested with February's, which is newer; the one row
    appended to [job_updates] holds February's value, not the stored one. *)
Lemma reingest_records_incoming_not_prior :
  find_by_key posting_feb stale_world =
    Some {| id := 0%nat; job := posting_jan; is_active := true; last_seen := Some 0 |}
  /\ updated_at posting_jan = Some "2024-01-01T00:00:00Z"%string
  /\ job_updates stale_world = []
  /\ job_updates (snd (analyzeJob Builtins.Date_getTime no_features posting_feb stale_world)) =
       [ {| update_job_id := 0%nat;
            update_ats_updated_at := "2024-02-01T00:00:00Z" |} ]
  /\ "2024-02-01T00:00:00Z"%string <> "2024-01-01T00:00:00Z"%string.
Proof.
  split; [reflexivity|]. split; [reflexivity|]. split; [reflexivity|].
  split; [vm_compute; reflexivity|discriminate].
Qed.

(** C5 (as the code has it).  The store answers every call and the posting
    is from Greenhouse.  The first ingest of a job appends exactly one
    snapshot.  A later ingest that is not served from the cache appends
    exactly one snapshot when the incoming [updated_at] differs from the
    [ats_updated_at] of the job's newest snapshot (the one with the greatest
    [snapshot_at]), and none when it does not, whatever the content is;
    here null and the empty string both count as absent: absent against
    present is a difference, absent against absent is none.  It also
    appends one when the job has no snapshot yet.  A job served from the
    cache leaves the store as it is. *)
Theorem snapshot_when_updated_at_differs
  (Date_getTime : string -> option Z) (analyzeAdapterJob : AdapterJob -> dbJobFeatures)
  (adapterJob : AdapterJob) (w : World) :
  faults w = [] -> NoDup (map id (jobs w)) ->
  ats_provider adapterJob = "greenhouse"%string ->
  (find_by_key adapterJob w = None ->
     job_snapshots (snd (analyzeJob Date_getTime analyzeAdapterJob adapterJob w)) =
       job_snapshots w
       ++ [stamped (now w) (createSnapshotData (next_id w) adapterJob)])
  /\ (forall (r : JobRow) (latest : dbJobSnapshot),
        find_by_key adapterJob w = Some r -> cache_hit adapterJob w = false ->
        newest_snapshot (id r) w latest ->
        (present_value (ats_updated_at latest) <> present_value (updated_at adapterJob) ->
           job_snapshots (snd (analyzeJob Date_getTime analyzeAdapterJob adapterJob w)) =
             job_snapshots w
             ++ [stamped (now w) (createSnapshotData (id r) adapterJob)])
        /\ (present_value (ats_updated_at latest)
              = present_value (updated_at adapterJob) ->
              job_snapshots (snd (analyzeJob Date_getTime analyzeAdapterJob adapterJob w)) =
                job_snapshots w))
  /\ (forall r : JobRow,
        find_by_key adapterJob w = Some r -> cache_hit adapterJob w = false ->
        snapshots_of (id r) w = [] ->
        job_snapshots (snd (analyzeJob Date_getTime analyzeAdapterJob adapterJob w)) =
          job_snapshots w
          ++ [stamped (now w) (createSnapshotData (id r) adapterJob)])
  /\ (cache_hit adapterJob w = true ->
        snd (analyzeJob Date_getTime analyzeAdapterJob adapterJob w) = w)
  /\ (ats_updated_at (createSnapshotData (next_id w) adapterJob) = updated_at adapterJob).
Proof.
  intros Hf Hnd Hgh.
  rewrite (analyzeJob_run Date_getTime analyzeAdapterJob adapterJob w Hf Hgh).
  split; [|split; [|split; [|split]]].
  - intros Hnone. rewrite Hnone.
    apply (reingest_new Date_getTime analyzeAdapterJob adapterJob w Hf Hnone).
  - intros r latest Hfind Hmiss Hnewest. rewrite Hfind, Hmiss.
    pose proof (newest_is_latest _ _ _ Hnewest) as Hlatest.
    pose proof (reingest_existing Date_getTime analyzeAdapterJob adapterJob w r
                  (job_features w !! id r) Hf Hnd Hfind) as H.
    cbn zeta in H. destruct H as (_ & _ & Hss & _).
    unfold snapshot_due in Hss. rewrite Hlatest in Hss.
    pose proof (hasAtsUpdatedAtChanged_present latest (updated_at adapterJob)) as Hiff.
    split.
    + intros Hdiff. apply Hiff in Hdiff. rewrite Hdiff in Hss. exact Hss.
    + intros Hsame.
      destruct (hasAtsUpdatedAtChanged (Some latest) (updated_at adapterJob)) eqn:E.
      * exfalso. apply (proj1 Hiff eq_refl). exact Hsame.
      * rewrite Hss. apply app_nil_r.
  - intros r Hfind Hmiss Hnone. rewrite Hfind, Hmiss.
    pose proof (no_snapshot_no_latest _ _ Hnone) as Hlatest.
    pose proof (reingest_existing Date_getTime analyzeAdapterJob adapterJob w r
                  (job_features w !! id r) Hf Hnd Hfind) as H.
    cbn zeta in H. destruct H as (_ & _ & Hss & _).
    unfold snapshot_due in Hss. rewrite Hlatest in Hss. exact Hss.
  - intros Hhit. unfold cache_hit in Hhit.
    destruct (find_by_key adapterJob w) as [r|] eqn:Hfind; [|discriminate].
    unfold cache_hit. rewrite Hfind.
    destruct (job_features w !! id r); [|discriminate].
    rewrite Hhit. reflexivity.
  - reflexivity.
Qed.

Lemma ingested_newest :
  newest_snapshot 0%nat (at_time 172800000 ingested_world)
    (stamped 0 (createSnapshotData 0%nat posting_jan)).
Proof.
  exists [], []. split; [reflexivity|apply List.Forall_nil].
Qed.

Lemma snapshot_when_updated_at_differs_witness :
  (* the first ingest stored one snapshot *)
  length (job_snapshots ingested_world) = 1%nat
  (* two days later, the edited text with the same [updated_at]: no snapshot *)
  /\ hasContentChanged
       (createSnapshotData 0%nat posting_jan)
       (createSnapshotData 0%nat posting_jan_edited) = true
  /\ job_snapshots
       (snd (analyzeJob Builtins.Date_getTime no_features posting_jan_edited
               (at_time 172800000 ingested_world))) = job_snapshots ingested_world
  (* a newer [updated_at]: one more snapshot *)
  /\ job_snapshots
       (snd (analyzeJob Builtins.Date_getTime no_features posting_feb
               (at_time 172800000 ingested_world))) =
     job_snapshots ingested_world
     ++ [stamped 172800000 (createSnapshotData 0%nat posting_feb)].
Proof.
  assert (Hnd : NoDup (map id (jobs (at_time 172800000 ingested_world))))
    by (apply NoDup_singleton).
  pose proof (snapshot_when_updated_at_differs
    Builtins.Date_getTime no_features posting_jan_edited
    (at_time 172800000 ingested_world) eq_refl Hnd eq_refl) as (_ & Hsame & _).
  pose proof (snapshot_when_updated_at_differs
    Builtins.Date_getTime no_features posting_feb
    (at_time 172800000 ingested_world) eq_refl Hnd eq_refl) as (_ & Hdiff & _).
  split; [reflexivity|]. split; [vm_compute; reflexivity|]. split.
  - refine (proj2 (Hsame
      {| id := 0%nat; job := posting_jan; is_active := true; last_seen := None |}
      (stamped 0 (createSnapshotData 0%nat posting_jan))
      _ _ ingested_newest) _); vm_compute; reflexivity.
  - refine (proj1 (Hdiff
      {| id := 0%nat; job := posting_jan; is_active := true; last_seen := None |}
      (stamped 0 (createSnapshotData 0%nat posting_jan))
      _ _ ingested_newest) _); try (vm_compute; reflexivity).
    vm_compute. discriminate.
Defined.

(** C5, where the claim fails: the newest snapshot of the job records no
    [updated_at] (null) and the posting comes back with the empty string,
    which is not null; the two differ, the ingest is not served from the
    cache, and no snapshot is made. *)
Lemma null_against_empty_makes_no_snapshot :
  newest_snapshot 0%nat (at_time 172800000 undated_world)
    (stamped 0 (createSnapshotData 0%nat posting_undated))
  /\ ats_updated_at (stamped 0 (createSnapshotData 0%nat posting_undated)) = None
  /\ updated_at posting_blank_date = Some EmptyString
  /\ ats_updated_at (stamped 0 (createSnapshotData 0%nat posting_undated))
       <> updated_at posting_blank_date
  /\ cache_hit posting_blank_date (at_time 172800000 undated_world) = false
  /\ fst (analyzeJob Builtins.Date_getTime no_features posting_blank_date
            (at_time 172800000 undated_world)) = Saved 0%nat
  /\ job_snapshots
       (snd (analyzeJob Builtins.Date_getTime no_features posting_blank_date
               (at_time 172800000 undated_world)))
     = job_snapshots (at_time 172800000 undated_world).
Proof.
  split; [exists [], []; split; [reflexivity|apply List.Forall_nil]|].
  split; [reflexivity|]. split; [reflexivity|]. split; [discriminate|].
  split; [reflexivity|]. split; vm_compute; reflexivity.
Qed.

(** ** The signals of [score.ts] *)

#[local] Transparent createSnapshotData hasAtsUpdatedAtChanged replace_row truthy time_gt.

Import ScoreFeatures.

Open Scope Q_scope.

Lemma Math_min_spec (x y : Q) :
  (x <= y -> Math_min x y = x) /\ (y < x -> Math_min x y = y).
Proof.
  unfold Math_min. split; intros H.
  - assert (Qltb y x = false) as -> by (apply Qltb_ge; exact H). reflexivity.
  - assert (Qltb y x = true) as -> by (apply Qltb_lt; exact H). reflexivity.
Qed.

Lemma decay_range (ms : Z) : (0 <= ms)%Z -> 0 <= decay ms <= 1.
Proof.
  intros Hms. unfold decay, day_ms.
  destruct (ms <=? 90 * (1000 * 60 * 60 * 24))%Z eqn:E; [|lra].
  apply Z.leb_le in E.
  rewrite Zle_Qle in Hms, E. change (inject_Z 0) with 0 in Hms.
  change (inject_Z (90 * (1000 * 60 * 60 * 24))) with 7776000000 in *.
  assert (H : 0 <= inject_Z ms / 7776000000 <= 1).
  { apply ratio_in_unit; lra. }
  lra.
Qed.

Lemma featureFreshness_decay (now : Z) (Date_getTime : string -> option Z)
  (d : option DateInput) (pub : Z) :
  toDate Date_getTime d = Some pub ->
  featureFreshness now Date_getTime d == decay (Z.abs (now - pub)).
Proof.
  intros Hd. unfold featureFreshness. rewrite Hd. cbn zeta.
  unfold daysBetween, decay, day_ms. cbn zeta.
  set (m := Z.abs (now - pub)).
  assert (Hm : (0 <= m)%Z) by apply Z.abs_nonneg.
  change (inject_Z (1000 * 60 * 60 * 24)) with 86400000.
  change (inject_Z (90 * (1000 * 60 * 60 * 24))) with 7776000000.
  assert (Hq : inject_Z m / 86400000 / 90 == inject_Z m / 7776000000) by field.
  rewrite Zle_Qle in Hm. change (inject_Z 0) with 0 in Hm.
  destruct (m <=? 90 * (1000 * 60 * 60 * 24))%Z eqn:E.
  - apply Z.leb_le in E. rewrite Zle_Qle in E.
    change (inject_Z (90 * (1000 * 60 * 60 * 24))) with 7776000000 in E.
    assert (H1 : 0 <= inject_Z m / 7776000000 <= 1) by (apply ratio_in_unit; lra).
    destruct (Math_min_spec (inject_Z m / 86400000 / 90) 1) as [Hmin _].
    rewrite Hmin by lra.
    rewrite clamp01_id by lra. lra.
  - apply Z.leb_gt in E. rewrite Zlt_Qlt in E.
    change (inject_Z (90 * (1000 * 60 * 60 * 24))) with 7776000000 in E.
    assert (H1 : 1 < inject_Z m / 7776000000).
    { apply Qlt_shift_div_l; lra. }
    destruct (Math_min_spec (inject_Z m / 86400000 / 90) 1) as [_ Hmin].
    rewrite Hmin by lra.
    reflexivity.
Qed.



Lemma append_cons (c : ascii) (s t : string) : String c s +:+ t = String c (s +:+ t).
Proof. reflexivity. Qed.

Lemma append_nil (t : string) : EmptyString +:+ t = t.
Proof. reflexivity. Qed.

Lemma length_append (s t : string) :
  String.length (s +:+ t) = (String.length s + String.length t)%nat.
Proof.
  induction s as [|c s IH]; [reflexivity|].
  rewrite append_cons. cbn [String.length]. rewrite IH. reflexivity.
Qed.

Lemma substring_all (s : string) : substring 0 (String.length s) s = s.
Proof. induction s as [|c s IH]; [reflexivity|]. cbn. rewrite IH. reflexivity. Qed.

Lemma substring_skip (p q : string) :
  substring (String.length p) (String.length q) (p +:+ q) = q.
Proof.
  induction p as [|c p IH]; [apply substring_all|].
  rewrite append_cons. cbn [String.length substring]. exact IH.
Qed.

Lemma endsWith_append (p q : string) : endsWith (p +:+ q) q = true.
Proof.
  unfold endsWith. rewrite length_append.
  apply andb_true_intro. split.
  - apply Nat.leb_le. lia.
  - replace (String.length p + String.length q - String.length q)%nat
      with (String.length p) by lia.
    rewrite substring_skip. apply String.eqb_refl.
Qed.

Lemma endsWithHost_subdomain (h s : string) (set : list string) :
  In s set -> endsWith h ("." +:+ s) = true -> endsWithHost h set = true.
Proof.
  intros Hin Hend. induction set as [|s' rest IH]; [destruct Hin|].
  cbn [endsWithHost]. destruct (String.eqb h s'); [reflexivity|].
  destruct Hin as [->|Hin].
  - rewrite Hend. reflexivity.
  - destruct (endsWith h ("." +:+ s')); [reflexivity|]. apply IH, Hin.
Qed.

Lemma source_boost_cases (o : option string) :
  (let src := default "unknown"%string o in
   if String.eqb src "metadata" || String.eqb src "both" then 0.1
   else if String.eqb src "text" then -0.1 else 0) = source_boost o.
Proof. reflexivity. Qed.

Lemma source_boost_range (o : option string) :
  (source_boost o = 0.1 \/ source_boost o = -0.1 \/ source_boost o = 0).
Proof.
  rewrite <- source_boost_cases. cbn zeta.
  destruct (_ || _); [left; reflexivity|].
  destruct (String.eqb _ _); [right; left|right; right]; reflexivity.
Qed.

(** The base level of [featureSourceCredibility] and what it adds up to. *)
Lemma featureSourceCredibility_levels (f : AtsJobFeatures) (hostHint : option string) :
  exists base : Q,
    featureSourceCredibility f hostHint == base + source_boost (salary_source f)
    /\ (truthy hostHint = false -> base = 0.5)
    /\ (truthy hostHint = true ->
          (base = 0.9 /\
             (existsb (String.eqb (default EmptyString hostHint)) ATS_HOST_HINTS
              || endsWithHost (default EmptyString hostHint) ATS_HOST_HINTS) = true)
          \/ ((base = 0.7 \/ base = 0.6) /\
             (existsb (String.eqb (default EmptyString hostHint)) ATS_HOST_HINTS
              || endsWithHost (default EmptyString hostHint) ATS_HOST_HINTS) = false)).
Proof.
  unfold featureSourceCredibility. cbn zeta.
  change (if String.eqb (default "unknown"%string (salary_source f)) "metadata"
             || String.eqb (default "unknown"%string (salary_source f)) "both"
          then 0.1
          else if String.eqb (default "unknown"%string (salary_source f)) "text"
               then -0.1 else 0)
    with (source_boost (salary_source f)).
  set (known := existsb _ _ || endsWithHost _ _).
  set (careers := includes _ _ || endsWith _ _).
  pose proof (source_boost_range (salary_source f)) as Hb.
  assert (Hclamp : forall base : Q,
    0.5 <= base <= 0.9 ->
    clamp01 (base + source_boost (salary_source f))
    == base + source_boost (salary_source f)).
  { intros base Hbase. rewrite clamp01_id; [reflexivity|].
    destruct Hb as [-> | [-> | ->]]; lra. }
  destruct (truthy hostHint).
  - destruct known eqn:Ek.
    + exists 0.9. split; [apply Hclamp; lra|]. split; [discriminate|].
      intros _. left. split; reflexivity.
    + destruct careers.
      * exists 0.7. split; [apply Hclamp; lra|]. split; [discriminate|].
        intros _. right. split; [left; reflexivity|reflexivity].
      * exists 0.6. split; [apply Hclamp; lra|]. split; [discriminate|].
        intros _. right. split; [right; reflexivity|reflexivity].
  - exists 0.5. split; [apply Hclamp; lra|]. split; [reflexivity|discriminate].
Qed.

Lemma featureSourceCredibility_range (f : AtsJobFeatures) (hostHint : option string) :
  0.4 <= featureSourceCredibility f hostHint <= 1.
Proof.
  destruct (featureSourceCredibility_levels f hostHint) as (base & -> & Hno & Hyes).
  pose proof (source_boost_range (salary_source f)) as Hb.
  destruct (truthy hostHint).
  - destruct (Hyes eq_refl) as [[-> _]|[[->| ->] _]];
      destruct Hb as [-> | [-> | ->]]; lra.
  - rewrite (Hno eq_refl). destruct Hb as [-> | [-> | ->]]; lra.
Qed.

(** [featureSourceCredibility]: always in [0.4, 1]; between 0.4 and 0.6
    when no host is known; at least 0.5 for any host; at least 0.8 for one
    of the known ATS hosts or any subdomain of one, and below 0.8 for every
    other host; a salary read from the metadata (or from both) adds 0.1 to
    the level of the host, one read from the text takes 0.1 off. *)
Theorem source_credibility_levels (f : AtsJobFeatures) :
  (forall hostHint, 0.4 <= featureSourceCredibility f hostHint <= 1)
  /\ (forall hostHint, truthy hostHint = false ->
        featureSourceCredibility f hostHint == 0.5 + source_boost (salary_source f))
  /\ (forall h, h <> EmptyString -> 0.5 <= featureSourceCredibility f (Some h))
  /\ (forall s label, In s ATS_HOST_HINTS ->
        featureSourceCredibility f (Some s) == 0.9 + source_boost (salary_source f)
        /\ featureSourceCredibility f (Some (label +:+ "." +:+ s))
           == 0.9 + source_boost (salary_source f))
  /\ (forall h, h <> EmptyString -> endsWithHost h ATS_HOST_HINTS = false ->
        featureSourceCredibility f (Some h) < 0.9 + source_boost (salary_source f)
        /\ featureSourceCredibility f (Some h) <= 0.8)
  /\ (source_boost (salary_source f) = 0.1 \/ source_boost (salary_source f) = -0.1
      \/ source_boost (salary_source f) = 0).
Proof.
  pose proof (source_boost_range (salary_source f)) as Hb.
  assert (Htruthy : forall h, h <> EmptyString -> truthy (Some h) = true).
  { intros h Hh. cbn. apply negb_true_iff, String.eqb_neq, Hh. }
  assert (Hmember : forall h,
    existsb (String.eqb h) ATS_HOST_HINTS = true -> endsWithHost h ATS_HOST_HINTS = true).
  { intros h Hex. apply existsb_exists in Hex as (s & Hin & Heq).
    apply String.eqb_eq in Heq. subst s.
    revert Hin. generalize ATS_HOST_HINTS. intros set Hin.
    induction set as [|s rest IH]; [destruct Hin|].
    cbn [endsWithHost]. destruct (String.eqb h s) eqn:E; [reflexivity|].
    destruct Hin as [->|Hin]; [rewrite String.eqb_refl in E; discriminate|].
    destruct (endsWith h ("." +:+ s)); [reflexivity|]. apply IH, Hin. }
  assert (Hne : forall s, In s ATS_HOST_HINTS -> s <> EmptyString).
  { intros s Hin ->. cbn in Hin. intuition discriminate. }
  split; [|split; [|split; [|split; [|split]]]].
  - intros hostHint. apply featureSourceCredibility_range.
  - intros hostHint Hno.
    destruct (featureSourceCredibility_levels f hostHint) as (base & -> & Hbase & _).
    rewrite (Hbase Hno). reflexivity.
  - intros h Hh.
    destruct (featureSourceCredibility_levels f (Some h)) as (base & -> & _ & Hyes).
    destruct (Hyes (Htruthy h Hh)) as [[-> _]|[[->| ->] _]];
      destruct Hb as [-> | [-> | ->]]; lra.
  - intros s label Hin. split.
    + destruct (featureSourceCredibility_levels f (Some s)) as (base & -> & _ & Hyes).
      destruct (Hyes (Htruthy s (Hne s Hin))) as [[-> _]|[_ Hk]]; [reflexivity|].
      exfalso. change (default EmptyString (Some ?x)) with x in Hk. apply orb_false_elim in Hk as [Hk _].
      assert (existsb (String.eqb s) ATS_HOST_HINTS = true); [|congruence].
      apply existsb_exists. exists s. split; [exact Hin|apply String.eqb_refl].
    + assert (Hh : label +:+ "." +:+ s <> EmptyString).
      { intros Hnil. apply (f_equal String.length) in Hnil.
        rewrite !length_append in Hnil. cbn in Hnil. lia. }
      destruct (featureSourceCredibility_levels f (Some (label +:+ "." +:+ s)))
        as (base & -> & _ & Hyes).
      destruct (Hyes (Htruthy _ Hh)) as [[-> _]|[_ Hk]]; [reflexivity|].
      exfalso. change (default EmptyString (Some ?x)) with x in Hk. apply orb_false_elim in Hk as [_ Hk].
      rewrite (endsWithHost_subdomain _ s) in Hk; [discriminate|exact Hin|].
      apply endsWith_append.
  - intros h Hh Hunknown.
    destruct (featureSourceCredibility_levels f (Some h)) as (base & -> & _ & Hyes).
    destruct (Hyes (Htruthy h Hh)) as [[_ Hk]|[[->| ->] _]].
    + exfalso. change (default EmptyString (Some ?x)) with x in Hk. apply orb_true_iff in Hk as [Hk|Hk].
      * apply Hmember in Hk. congruence.
      * congruence.
    + destruct Hb as [-> | [-> | ->]]; lra.
    + destruct Hb as [-> | [-> | ->]]; lra.
  - exact Hb.
Qed.

Lemma featureBuzzwordPenalty_cases (a : NlpAnalysis) :
  let c := count (buzzwords a) in
  (c == 0 /\ featureBuzzwordPenalty (Some a) = 1)
  \/ (5 <= c /\ featureBuzzwordPenalty (Some a) = 0)
  \/ (~ c == 0 /\ c < 5
      /\ featureBuzzwordPenalty (Some a) = stored (1 - stored (c * stored 0.2))).
Proof.
  intros c. unfold featureBuzzwordPenalty. cbn zeta. fold c.
  destruct (Qeq_bool c 0) eqn:E0.
  - left. apply Qeq_bool_iff in E0. split; [exact E0|reflexivity].
  - right. destruct (Qle_bool 5 c) eqn:E5.
    + left. apply Qle_bool_iff in E5. split; [exact E5|reflexivity].
    + right. split; [intros H; apply Qeq_bool_iff in H; congruence|].
      split; [|reflexivity].
      apply Qnot_le_lt. intros H. apply Qle_bool_iff in H. congruence.
Qed.

Lemma stored_fifth :
  0 < stored 0.2 /\ stored (5 * stored 0.2) == 1
  /\ 5 * (stored 0.2 - 0.2) == 2 ^ (-54).
Proof. repeat split; vm_compute; reflexivity. Qed.

Lemma penalty_range (c : Q) :
  (0 <= c -> c < 5 -> 0 <= stored (1 - stored (c * stored 0.2)) <= 1)
  /\ (c < 0 -> 1 <= stored (1 - stored (c * stored 0.2))).
Proof.
  destruct stored_fifth as (Hr & H5 & _).
  split.
  - intros H0 Hc.
    assert (Hy0 : 0 <= c * stored 0.2) by (apply Qmult_le_0_compat; lra).
    assert (Hy5 : c * stored 0.2 <= 5 * stored 0.2)
      by (apply Qmult_le_compat_r; lra).
    pose proof (stored_nonneg _ Hy0) as Hs0.
    pose proof (stored_mono _ _ Hy5) as Hs5. rewrite H5 in Hs5.
    split.
    + apply stored_nonneg. lra.
    + apply Qle_trans with (stored 1); [apply stored_mono; lra|].
      vm_compute. discriminate.
  - intros Hc.
    assert (Hy : c * stored 0.2 <= 0).
    { assert (0 <= (- c) * stored 0.2) by (apply Qmult_le_0_compat; lra). lra. }
    pose proof (round_nonpos _ Hy) as Hs. fold (stored (c * stored 0.2)) in Hs.
    apply Qle_trans with (stored 1); [vm_compute; discriminate|].
    apply stored_mono. lra.
Qed.

Lemma penalty_error (c : Q) :
  0 <= c -> c < 5 ->
  Qabs (stored (1 - stored (c * stored 0.2)) - (1 - c * 0.2)) <= 2 ^ (-51).
Proof.
  intros H0 Hc. destruct stored_fifth as (Hr & H5 & Hd).
  pose proof (pow2_pos (-53)) as Hu. pose proof (pow2_pos (-1075)) as Heta.
  assert (Hy0 : 0 <= c * stored 0.2) by (apply Qmult_le_0_compat; lra).
  assert (Hy5 : c * stored 0.2 <= 5 * stored 0.2)
    by (apply Qmult_le_compat_r; lra).
  pose proof (stored_nonneg _ Hy0) as Hs0.
  pose proof (stored_mono _ _ Hy5) as Hs5. rewrite H5 in Hs5.
  pose proof (stored_error _ Hy0) as He1.
  pose proof (stored_error (1 - stored (c * stored 0.2)) ltac:(lra)) as He2.
  apply Qabs_le_iff in He1, He2. apply Qabs_le_iff.
  assert (Hr02 : 0 <= stored 0.2 - 0.2).
  { assert (0 <= 5 * (stored 0.2 - 0.2)) by (rewrite Hd; apply Qlt_le_weak, pow2_pos). lra. }
  assert (Hcd : c * (stored 0.2 - 0.2) <= 5 * (stored 0.2 - 0.2))
    by (apply Qmult_le_compat_r; lra).
  assert (Hcd0 : 0 <= c * (stored 0.2 - 0.2)) by (apply Qmult_le_0_compat; lra).
  assert (Ecd : c * (stored 0.2 - 0.2) == c * stored 0.2 - c * 0.2) by ring.
  rewrite Hd in Hcd.
  assert (Hu1 : 2 ^ (-53) * (c * stored 0.2) <= 2 ^ (-53) * (5 * stored 0.2))
    by (apply Qmult_le_l_nonneg; lra).
  assert (Hu2 : 2 ^ (-53) * (1 - stored (c * stored 0.2)) <= 2 ^ (-53) * 1)
    by (apply Qmult_le_l_nonneg; lra).
  assert (Hu0 : 0 <= 2 ^ (-53) * (1 - stored (c * stored 0.2)))
    by (apply Qmult_le_0_compat; lra).
  assert (Hu3 : 0 <= 2 ^ (-53) * (c * stored 0.2))
    by (apply Qmult_le_0_compat; lra).
  assert (Hn1 : 2 ^ (-53) * (5 * stored 0.2) + 2 ^ (-53) * 1 + 2 * 2 ^ (-1075)
                + 2 ^ (-54) <= 2 ^ (-51)) by (vm_compute; discriminate).
  split; lra.
Qed.

(** [featureBuzzwordPenalty]: 1 without an analysis or with no buzzword, 0
    from five buzzwords on; below five the product and the difference are
    doubles, so that the score is within [2^-51] of 1 less a fifth for each
    buzzword: 0.8 and 0.6 for one and two, but 0.3999999999999999 and
    0.19999999999999996 for three and four.  It lies in [0,1] for a count
    that is not negative and never rises with the count.  (A negative count
    would give 1 or more.) *)
Theorem buzzword_penalty_steps :
  featureBuzzwordPenalty None = 1
  /\ (forall a : NlpAnalysis,
        let c := count (buzzwords a) in
        (c == 0 -> featureBuzzwordPenalty (Some a) = 1)
        /\ (0 <= c <= 5 ->
            Qabs (featureBuzzwordPenalty (Some a) - (1 - c * 0.2)) <= 2 ^ (-51))
        /\ (5 <= c -> featureBuzzwordPenalty (Some a) = 0)
        /\ (0 <= c -> 0 <= featureBuzzwordPenalty (Some a) <= 1)
        /\ (c < 0 -> 1 <= featureBuzzwordPenalty (Some a)))
  /\ (forall a b : NlpAnalysis,
        0 <= count (buzzwords a) <= count (buzzwords b) ->
        featureBuzzwordPenalty (Some b) <= featureBuzzwordPenalty (Some a))
  /\ featureBuzzwordPenalty (Some (analysis_with_count 1)) = stored 0.8
  /\ featureBuzzwordPenalty (Some (analysis_with_count 2)) = stored 0.6
  /\ featureBuzzwordPenalty (Some (analysis_with_count 3))
     = 900719925474099 # 2251799813685248
  /\ featureBuzzwordPenalty (Some (analysis_with_count 4))
     = 900719925474099 # 4503599627370496
  /\ featureBuzzwordPenalty (Some (analysis_with_count 3)) < stored 0.4
  /\ featureBuzzwordPenalty (Some (analysis_with_count 4)) < stored 0.2.
Proof.
  split; [reflexivity|].
  split; [|split; [|repeat split; vm_compute; reflexivity]].
  - intros a. cbv zeta.
    pose proof (featureBuzzwordPenalty_cases a) as Hcases. cbv zeta in Hcases.
    set (c := count (buzzwords a)) in *.
    destruct Hcases as [[Hz ->]|[[H5 ->]|(Hnz & Hlt & ->)]].
    + split; [reflexivity|].
      split; [intros _; rewrite Hz; vm_compute; discriminate|].
      split; [intros H; lra|]. split; [lra|intros H; lra].
    + split; [intros H; lra|].
      split; [intros [_ H]; assert (E : c == 5) by lra; rewrite E;
              vm_compute; discriminate|].
      split; [reflexivity|]. split; [lra|intros H; lra].
    + split; [intros H; contradiction|].
      split; [intros [H0 _]; apply penalty_error; assumption|].
      split; [intros H; lra|].
      split; [intros H0; apply (penalty_range c); assumption|].
      intros H. apply (penalty_range c), H.
  - intros a b [H0 Hab].
    assert (Hra : 0 <= featureBuzzwordPenalty (Some a) <= 1).
    { destruct (featureBuzzwordPenalty_cases a)
        as [[_ ->]|[[_ ->]|(_ & Hlt & ->)]]; try lra.
      apply (penalty_range (count (buzzwords a))); assumption. }
    assert (Hrb : 0 <= featureBuzzwordPenalty (Some b) <= 1).
    { destruct (featureBuzzwordPenalty_cases b)
        as [[_ ->]|[[_ ->]|(_ & Hlt & ->)]]; try lra.
      apply (penalty_range (count (buzzwords b))); [lra|assumption]. }
    destruct (featureBuzzwordPenalty_cases b)
      as [[Hz Eb]|[[H5 Eb]|(Hnz & Hlt & Eb)]].
    + destruct (featureBuzzwordPenalty_cases a)
        as [[_ Ea]|[[H5 _]|(Hnz & _ & _)]].
      * rewrite Ea, Eb. lra.
      * lra.
      * exfalso. apply Hnz. lra.
    + rewrite Eb. lra.
    + destruct (featureBuzzwordPenalty_cases a)
        as [[_ Ea]|[[H5 _]|(_ & _ & Ea)]].
      * rewrite Ea. lra.
      * lra.
      * rewrite Ea, Eb. apply stored_mono.
        destruct stored_fifth as (Hr & _).
        assert (count (buzzwords a) * stored 0.2 <= count (buzzwords b) * stored 0.2)
          by (apply Qmult_le_compat_r; lra).
        pose proof (stored_mono _ _ H). lra.
Qed.










Lemma featureContentChangeQuality_range
  (snapshotData : option (list SnapshotHashes)) (cadence : option Q) :
  0 <= featureContentChangeQuality snapshotData cadence <= 1.
Proof.
  unfold featureContentChangeQuality. destruct snapshotData as [l|]; [|lra].
  destruct (length l <? 2)%nat; [lra|]. cbn zeta.
  destruct (totalComparisons _ =? 0)%nat; [lra|].
  destruct (tally _) as [u d]. apply clamp01_range.
Qed.



Lemma filter_constant {A : Type} (P : A -> bool) (b : bool) (l : list A) :
  (forall x, In x l -> P x = b) ->
  List.filter P l = if b then l else [].
Proof.
  intros H. induction l as [|a l IH]; [destruct b; reflexivity|].
  cbn [List.filter]. rewrite (H a (or_introl eq_refl)).
  rewrite IH by (intros x Hx; apply H; right; exact Hx).
  destruct b; reflexivity.
Qed.

















Lemma featureFreshness_range (now : Z) (Date_getTime : string -> option Z)
  (d : option DateInput) : 0 <= featureFreshness now Date_getTime d <= 1.
Proof.
  destruct (toDate Date_getTime d) as [pub|] eqn:E.
  - rewrite (featureFreshness_decay now Date_getTime d pub E).
    apply decay_range, Z.abs_nonneg.
  - unfold featureFreshness. rewrite E. lra.
Qed.

Lemma featureLinkIntegrity_range (a b : option bool) :
  0 <= featureLinkIntegrity a b <= 1.
Proof. unfold featureLinkIntegrity. destruct a as [[|]|], b as [[|]|]; cbn; lra. Qed.

Lemma featureSalaryDisclosure_range (f : AtsJobFeatures) :
  0 <= featureSalaryDisclosure f <= 1.
Proof.
  unfold featureSalaryDisclosure.
  destruct (salary_min f), (salary_max f); cbn; lra.
Qed.

Lemma featureSalaryMinPresent_range (f : AtsJobFeatures) :
  0 <= featureSalaryMinPresent f <= 1.
Proof. unfold featureSalaryMinPresent. destruct (salary_min f); cbn; lra. Qed.

Lemma featureSkillsPresent_range (a : option NlpAnalysis) :
  0 <= featureSkillsPresent a <= 1.
Proof.
  unfold featureSkillsPresent. destruct a as [a|]; [|lra]. cbn zeta.
  destruct (length (skills a) =? 0)%nat; [lra|].
  destruct (5 <=? length (skills a))%nat; lra.
Qed.

Lemma featureCompPeriodClarity_range (a : option NlpAnalysis) :
  0 <= featureCompPeriodClarity a <= 1.
Proof.
  unfold featureCompPeriodClarity. destruct a as [a|]; [|lra].
  destruct (truthy (comp_period_detected a)); lra.
Qed.

Lemma featureBuzzwordPenalty_range (a : option NlpAnalysis) :
  (forall x, a = Some x -> 0 <= count (buzzwords x)) ->
  0 <= featureBuzzwordPenalty a <= 1.
Proof.
  intros H. destruct a as [a|]; [|cbn; lra].
  specialize (H a eq_refl).
  destruct (featureBuzzwordPenalty_cases a) as [[_ ->]|[[_ ->]|(_ & Hlt & ->)]];
    try lra.
  apply (penalty_range (count (buzzwords a))); assumption.
Qed.

Lemma featureUpdateCadence_range (Math_sqrt : Q -> Q) (Date_getTime : string -> option Z)
  (ts : option (list string)) :
  0 <= featureUpdateCadence Math_sqrt Date_getTime ts <= 1.
Proof.
  destruct ts as [ts|]; [|cbn; lra].
  destruct (Nat.lt_ge_cases (length (valid_times Date_getTime ts)) 4) as [H|H].
  - rewrite (featureUpdateCadence_few Math_sqrt Date_getTime ts H). lra.
  - rewrite (featureUpdateCadence_enough Math_sqrt Date_getTime ts H). cbn zeta.
    destruct (Qltb _ 0.2); [lra|]. destruct (Qltb 0.5 _); [lra|]. apply clamp01_range.
Qed.

Lemma featureSourceCredibility_range_unit (f : AtsJobFeatures) (hostHint : option string) :
  0 <= featureSourceCredibility f hostHint <= 1.
Proof. pose proof (featureSourceCredibility_range f hostHint). lra. Qed.

Section ScoreJob.

Variable now : Z.
Variable Date_getTime : string -> option Z.
Variable Math_sqrt : Q -> Q.
Variable URL_hostname : string -> option string.

Lemma scoreJob_keys (input : AtsJobInput) (weights : option PartialScoreWeights) :
  keys_of (breakdown (scoreJob now Date_getTime Math_sqrt URL_hostname input weights))
  = signals_of input.
Proof.
  unfold scoreJob, signals_of. cbn [breakdown].
  destruct (update_cadence_data input), (snapshot_data input); reflexivity.
Qed.

Lemma signals_of_sound (input : AtsJobInput) :
  NoDup (signals_of input)
  /\ (forall k, In k (signals_of input) -> counted DEFAULT_WEIGHTS k = true)
  /\ Qsum (map (weight_or_0 DEFAULT_WEIGHTS) (signals_of input)) == divisor_of input.
Proof.
  unfold signals_of, divisor_of.
  destruct (update_cadence_data input), (snapshot_data input);
    (split; [apply NoDup_ListNoDup; repeat constructor; cbn; intuition discriminate|]);
    (split; [intros k Hk; cbn in Hk;
             repeat (destruct Hk as [<-|Hk]; [reflexivity|]); destruct Hk
            |vm_compute; reflexivity]).
Qed.

Lemma scoreJob_values (input : AtsJobInput) (weights : option PartialScoreWeights) :
  (forall a, nlp_analysis input = Some a -> 0 <= count (buzzwords a)) ->
  forall v,
    In v (map snd (breakdown (scoreJob now Date_getTime Math_sqrt URL_hostname
                                input weights))) ->
    0 <= v <= 1.
Proof.
  intros Hcount v Hv. unfold scoreJob in Hv. cbn [breakdown] in Hv.
  rewrite !map_app in Hv. cbn [map snd] in Hv.
  rewrite !in_app_iff in Hv. cbn [In] in Hv.
  destruct Hv as [Hv|[Hv|Hv]].
  - repeat (destruct Hv as [<-|Hv];
      [first [ apply featureFreshness_range | apply featureLinkIntegrity_range
             | apply featureSalaryDisclosure_range | apply featureSalaryMinPresent_range
             | apply featureSourceCredibility_range_unit | apply featureSkillsPresent_range
             | apply featureBuzzwordPenalty_range, Hcount
             | apply featureCompPeriodClarity_range ]|]).
    destruct Hv.
  - destruct (update_cadence_data input) as [data|]; cbn [map snd In] in Hv;
      [|destruct Hv].
    destruct Hv as [<-|[]]. apply featureUpdateCadence_range.
  - destruct (snapshot_data input) as [data|]; cbn [map snd In] in Hv; [|destruct Hv].
    destruct Hv as [<-|[]]. apply featureContentChangeQuality_range.
Qed.

End ScoreJob.

Lemma Qsum_nonneg (l : list Q) : (forall x, In x l -> 0 <= x) -> 0 <= Qsum l.
Proof.
  induction l as [|a l IH]; intros H; [cbn; lra|].
  cbn [Qsum fold_right]. fold (Qsum l).
  pose proof (H a (or_introl eq_refl)).
  specialize (IH (fun x Hx => H x (or_intror Hx))). lra.
Qed.

Lemma Qsum_pos (l : list Q) :
  (forall x, In x l -> 0 <= x) -> (exists x, In x l /\ 0 < x) -> 0 < Qsum l.
Proof.
  induction l as [|a l IH]; intros H (x & Hx & Hpos); [destruct Hx|].
  cbn [Qsum fold_right]. fold (Qsum l).
  pose proof (H a (or_introl eq_refl)) as Ha.
  pose proof (Qsum_nonneg l (fun x Hx => H x (or_intror Hx))) as Hl.
  destruct Hx as [->|Hx]; [lra|].
  assert (0 < Qsum l) by (apply IH; [intros y Hy; apply H; right; exact Hy|eauto]).
  lra.
Qed.

Lemma default_weights_all_counted (breakdown : Breakdown) :
  (forall k, In k (keys_of breakdown) -> counted DEFAULT_WEIGHTS k = true) ->
  weighted_keys DEFAULT_WEIGHTS breakdown = keys_of breakdown.
Proof.
  intros H. unfold weighted_keys.
  rewrite (filter_constant _ true); [reflexivity|exact H].
Qed.

Section ScoreJobFacts.

Variable now : Z.
Variable Date_getTime : string -> option Z.
Variable Math_sqrt : Q -> Q.
Variable URL_hostname : string -> option string.

Lemma featureBuzzwordPenalty_nonneg (a : option NlpAnalysis) :
  0 <= featureBuzzwordPenalty a.
Proof.
  destruct a as [a|]; [|cbn; lra].
  destruct (featureBuzzwordPenalty_cases a) as [[_ ->]|[[_ ->]|(_ & Hlt & ->)]];
    try lra.
  destruct (Qlt_le_dec (count (buzzwords a)) 0) as [Hneg|Hpos].
  - pose proof (proj2 (penalty_range (count (buzzwords a))) Hneg). lra.
  - apply (penalty_range (count (buzzwords a))); assumption.
Qed.

Lemma weighted_signals_all (weights : PartialScoreWeights) (breakdown : Breakdown) :
  (forall k, In k (keys_of breakdown) -> Qle_bool (applied_weight weights k) 0 = false) ->
  weighted_signals weights breakdown = breakdown.
Proof.
  unfold weighted_signals, keys_of.
  induction breakdown as [|[k v] rest IH]; intros H; [reflexivity|].
  cbn [List.filter fst]. rewrite (H k) by (left; reflexivity). cbn [negb].
  f_equal. apply IH. intros k' Hk'. apply H. right. exact Hk'.
Qed.

Lemma exact_weight_sum_keys (weights : PartialScoreWeights) (breakdown : Breakdown) :
  weighted_signals weights breakdown = breakdown ->
  exact_weight_sum weights breakdown
  = Qsum (map (applied_weight weights) (keys_of breakdown)).
Proof.
  intros H. unfold exact_weight_sum, keys_of. rewrite H, map_map. reflexivity.
Qed.

(** The signals of [scoreJob] all have a positive default weight, and the
    doubles that hold the weights used sum to the divisor up to [2^-56]. *)
Lemma scoreJob_weights_used (input : AtsJobInput) (weights : option PartialScoreWeights) :
  let r := scoreJob now Date_getTime Math_sqrt URL_hostname input weights in
  weighted_signals (all_given DEFAULT_WEIGHTS) (breakdown r) = breakdown r
  /\ Qabs (exact_weight_sum (all_given DEFAULT_WEIGHTS) (breakdown r) - divisor_of input)
     <= 2 ^ (-56).
Proof.
  intros r.
  pose proof (scoreJob_keys now Date_getTime Math_sqrt URL_hostname input weights) as Hkeys.
  fold r in Hkeys.
  assert (Hall : weighted_signals (all_given DEFAULT_WEIGHTS) (breakdown r) = breakdown r).
  { apply weighted_signals_all. rewrite Hkeys. unfold signals_of.
    destruct (update_cadence_data input), (snapshot_data input);
      intros k Hk; cbn in Hk;
      repeat (destruct Hk as [<-|Hk]; [vm_compute; reflexivity|]); destruct Hk. }
  split; [exact Hall|].
  rewrite (exact_weight_sum_keys _ _ Hall), Hkeys. unfold signals_of, divisor_of.
  destruct (update_cadence_data input), (snapshot_data input);
    vm_compute; discriminate.
Qed.

Lemma featureCompPeriodClarity_half (a : option NlpAnalysis) :
  0.5 <= featureCompPeriodClarity a <= 1.
Proof.
  unfold featureCompPeriodClarity. destruct a as [a|]; [|lra].
  destruct (truthy (comp_period_detected a)); lra.
Qed.

Lemma scoreJob_above_least (input : AtsJobInput) :
  finalizeScore (least_breakdown input) (all_given DEFAULT_WEIGHTS)
  <= score (scoreJob now Date_getTime Math_sqrt URL_hostname input None).
Proof.
  change (score (scoreJob now Date_getTime Math_sqrt URL_hostname input None))
    with (finalizeScore
            (breakdown (scoreJob now Date_getTime Math_sqrt URL_hostname input None))
            (all_given DEFAULT_WEIGHTS)).
  pose proof (featureSourceCredibility_range) as Hsource.
  pose proof (featureCompPeriodClarity_half) as Hcomp.
  apply finalizeScore_rises.
  - rewrite scoreJob_keys. unfold least_breakdown, signals_of.
    destruct (update_cadence_data input), (snapshot_data input); reflexivity.
  - unfold scoreJob, least_breakdown. cbn [breakdown].
    destruct (update_cadence_data input), (snapshot_data input);
      intros k Hk; cbn [keys_of map fst app] in Hk;
      repeat (destruct Hk as [<-|Hk];
        [cbn [lookup_signal app String.eqb Ascii.eqb Bool.eqb andb];
         first [ apply featureFreshness_range | apply featureLinkIntegrity_range
               | apply featureSalaryDisclosure_range | apply featureSalaryMinPresent_range
               | apply Hsource | apply featureSkillsPresent_range
               | apply featureBuzzwordPenalty_nonneg | apply Hcomp
               | apply featureUpdateCadence_range
               | apply featureContentChangeQuality_range ]|]);
      destruct Hk.
Qed.

Lemma least_breakdown_score (input : AtsJobInput) :
  0.058 < finalizeScore (least_breakdown input) (all_given DEFAULT_WEIGHTS).
Proof.
  unfold least_breakdown.
  destruct (update_cadence_data input), (snapshot_data input); vm_compute; reflexivity.
Qed.

Lemma divisor_of_range (input : AtsJobInput) : 0.85 <= divisor_of input <= 0.95.
Proof.
  unfold divisor_of. destruct (update_cadence_data input), (snapshot_data input); lra.
Qed.

(** [scoreJob]: the breakdown holds the eight signals that are always
    computed, then [update_cadence] when update timestamps are given and
    [content_change_quality] when snapshots are given, each once; every
    value lies in [0,1] when the buzzword count is not negative; the score
    always lies in [0,1]. *)
Theorem scoreJob_breakdown (input : AtsJobInput) (weights : option PartialScoreWeights) :
  let r := scoreJob now Date_getTime Math_sqrt URL_hostname input weights in
  keys_of (breakdown r) = signals_of input
  /\ NoDup (keys_of (breakdown r))
  /\ (8 <= length (breakdown r) <= 10)%nat
  /\ (forall k, In k (keys_of (breakdown r)) -> In k SIGNALS)
  /\ ((forall a, nlp_analysis input = Some a -> 0 <= count (buzzwords a)) ->
      forall v, In v (map snd (breakdown r)) -> 0 <= v <= 1)
  /\ 0 <= score r <= 1.
Proof.
  intros r.
  pose proof (scoreJob_keys now Date_getTime Math_sqrt URL_hostname input weights)
    as Hkeys.
  fold r in Hkeys. destruct (signals_of_sound input) as (Hnd & _ & _).
  split; [exact Hkeys|]. split; [rewrite Hkeys; exact Hnd|].
  split; [|split; [|split]].
  - rewrite <- (length_map fst (breakdown r)). fold (keys_of (breakdown r)).
    rewrite Hkeys. unfold signals_of.
    destruct (update_cadence_data input), (snapshot_data input); cbn; lia.
  - intros k Hk. rewrite Hkeys in Hk. unfold signals_of in Hk.
    destruct (update_cadence_data input), (snapshot_data input); cbn in Hk |- *;
      intuition.
  - apply scoreJob_values.
  - apply finalizeScore_range.
Qed.

(** With the default weights the score of [scoreJob] is, up to rounding,
    the weighted average of all the signals of the breakdown. *)
Lemma scoreJob_default_weights_parts (input : AtsJobInput) :
  let r := scoreJob now Date_getTime Math_sqrt URL_hostname input None in
  weighted_signals (all_given DEFAULT_WEIGHTS) (breakdown r) = breakdown r
  /\ Qabs (exact_weight_sum (all_given DEFAULT_WEIGHTS) (breakdown r) - divisor_of input)
     <= 2 ^ (-56)
  /\ Qabs (score r
           - exact_weighted_sum (all_given DEFAULT_WEIGHTS) (breakdown r)
             / exact_weight_sum (all_given DEFAULT_WEIGHTS) (breakdown r))
     <= rounding_allowance (length (breakdown r)).
Proof.
  intros r.
  pose proof (divisor_of_range input) as Hdiv.
  pose proof (scoreJob_keys now Date_getTime Math_sqrt URL_hostname input None) as Hkeys.
  fold r in Hkeys.
  destruct (signals_of_sound input) as (Hnd & _ & _).
  destruct (scoreJob_weights_used input None) as [Hall Hw]. fold r in Hall, Hw.
  split; [exact Hall|]. split; [exact Hw|].
  assert (Hlen : (Z.of_nat (length (breakdown r)) <= 2 ^ 32)%Z).
  { rewrite <- (length_map fst (breakdown r)). fold (keys_of (breakdown r)).
    rewrite Hkeys. unfold signals_of.
    destruct (update_cadence_data input), (snapshot_data input);
      vm_compute; discriminate. }
  assert (Hnd' : NoDup (keys_of (breakdown r))) by (rewrite Hkeys; exact Hnd).
  destruct (finalizeScore_accuracy (breakdown r) (all_given DEFAULT_WEIGHTS) Hnd' Hlen)
    as [Hacc _].
  rewrite Hall in Hacc. apply Hacc.
  - intros E. rewrite E in Hkeys. unfold signals_of in Hkeys. discriminate.
  - apply Qabs_le_iff in Hw.
    assert (H1 : 2 ^ (-1000) <= 1 # 2) by (vm_compute; discriminate).
    assert (H2 : 2 <= 2 ^ 1000) by (vm_compute; discriminate).
    assert (H3 : 2 ^ (-56) <= 1 # 8) by (vm_compute; discriminate).
    split; lra.
Qed.

(** [scoreJob] with the default weights: every signal of the breakdown is
    used; the divisor is 0.85 plus 0.05 for each of the two optional signals
    that is present, which the doubles that hold the weights used sum to up
    to [2^-56]; the score is the weighted average of the signals up to
    rounding ([20 n + 2] half units in the last place of 1 for [n]
    signals); as the source and the compensation period never score below
    0.4 and 0.5, the score is never 0: it is above 0.058. *)
Theorem scoreJob_default_weights (input : AtsJobInput) :
  let r := scoreJob now Date_getTime Math_sqrt URL_hostname input None in
  0.85 <= divisor_of input <= 0.95
  /\ weight_total DEFAULT_WEIGHTS (breakdown r) == divisor_of input
  /\ weighted_signals (all_given DEFAULT_WEIGHTS) (breakdown r) = breakdown r
  /\ Qabs (exact_weight_sum (all_given DEFAULT_WEIGHTS) (breakdown r) - divisor_of input)
     <= 2 ^ (-56)
  /\ Qabs (score r
           - exact_weighted_sum (all_given DEFAULT_WEIGHTS) (breakdown r)
             / exact_weight_sum (all_given DEFAULT_WEIGHTS) (breakdown r))
     <= rounding_allowance (length (breakdown r))
  /\ 0.058 < score r.
Proof.
  intros r.
  pose proof (divisor_of_range input) as Hdiv.
  pose proof (scoreJob_keys now Date_getTime Math_sqrt URL_hostname input None) as Hkeys.
  fold r in Hkeys.
  destruct (signals_of_sound input) as (Hnd & Hcounted & Hsum).
  destruct (scoreJob_default_weights_parts input) as (Hall & Hw & Hacc).
  fold r in Hall, Hw, Hacc.
  split; [exact Hdiv|]. split; [|split; [exact Hall|split; [exact Hw|split; [exact Hacc|]]]].
  - unfold weight_total.
    rewrite default_weights_all_counted by (rewrite Hkeys; exact Hcounted).
    rewrite Hkeys. exact Hsum.
  - apply Qlt_le_trans with (finalizeScore (least_breakdown input) (all_given DEFAULT_WEIGHTS)).
    + apply least_breakdown_score.
    + apply scoreJob_above_least.
Qed.

End ScoreJobFacts.

Section ScoreWebFacts.

Variable now : Z.
Variable Date_getTime : string -> option Z.
Variable Math_sqrt : Q -> Q.
Variable URL_hostname : string -> option string.

(** [scoreWebFeatures]: the breakdown holds exactly the eight signals that
    are always computed, never the cadence or the change quality; the link
    counts as sound (1); the score lies in [0,1]; with the default weights
    all eight signals are used, the doubles that hold their weights sum to
    0.85 up to [2^-56], the score is the weighted average of the signals up
    to rounding, and it is at least 0.17. *)
Theorem scoreWebFeatures_eight_signals
  (input : WebFeaturesInput) (weights : option PartialScoreWeights) :
  let r := scoreWebFeatures now Date_getTime Math_sqrt URL_hostname input weights in
  let r0 := scoreWebFeatures now Date_getTime Math_sqrt URL_hostname input None in
  keys_of (breakdown r) = firstn 8 SIGNALS
  /\ lookup_signal (breakdown r) "link_integrity" = 1
  /\ 0 <= score r <= 1
  /\ weighted_signals (all_given DEFAULT_WEIGHTS) (breakdown r0) = breakdown r0
  /\ Qabs (exact_weight_sum (all_given DEFAULT_WEIGHTS) (breakdown r0) - 0.85)
     <= 2 ^ (-56)
  /\ Qabs (score r0
           - exact_weighted_sum (all_given DEFAULT_WEIGHTS) (breakdown r0)
             / exact_weight_sum (all_given DEFAULT_WEIGHTS) (breakdown r0))
     <= rounding_allowance 8
  /\ 0.17 <= score r0.
Proof.
  intros r r0. unfold scoreWebFeatures in r, r0.
  set (mapped := {| source := "web"; absolute_url := web_absolute_url input;
                    first_published := _; updated_at := _; features := _;
                    host_hint := _; link_ok := Some true; link_loop := Some false;
                    nlp_analysis := _; update_cadence_data := None;
                    snapshot_data := None |}) in *.
  assert (Hdiv : divisor_of mapped == 0.85) by (unfold divisor_of; cbn; ring).
  pose proof (scoreJob_default_weights_parts now Date_getTime Math_sqrt URL_hostname mapped)
    as (Hall & Hw & Hacc). fold r0 in Hall, Hw, Hacc.
  assert (Hlen8 : length (breakdown r0) = 8%nat).
  { rewrite <- (length_map fst (breakdown r0)). fold (keys_of (breakdown r0)).
    unfold r0. rewrite scoreJob_keys. reflexivity. }
  split; [|split; [|split; [|split; [exact Hall|split; [|split]]]]].
  - unfold r. rewrite scoreJob_keys. reflexivity.
  - reflexivity.
  - apply finalizeScore_range.
  - rewrite <- Hdiv. exact Hw.
  - rewrite <- Hlen8. exact Hacc.
  - apply Qle_trans with (finalizeScore least_web_breakdown (all_given DEFAULT_WEIGHTS));
      [vm_compute; discriminate|].
    change (score r0) with (finalizeScore (breakdown r0) (all_given DEFAULT_WEIGHTS)).
    pose proof (featureSourceCredibility_range) as Hsource.
    pose proof (featureCompPeriodClarity_half) as Hcomp.
    apply finalizeScore_rises.
    + unfold r0. rewrite scoreJob_keys. reflexivity.
    + unfold r0, scoreJob, least_web_breakdown. cbn [breakdown].
      intros k Hk; cbn [keys_of map fst app] in Hk;
      repeat (destruct Hk as [<-|Hk];
        [cbn [lookup_signal app String.eqb Ascii.eqb Bool.eqb andb];
         first [ apply featureFreshness_range | apply Qle_refl
               | apply featureSalaryDisclosure_range | apply featureSalaryMinPresent_range
               | apply Hsource | apply featureSkillsPresent_range
               | apply featureBuzzwordPenalty_nonneg | apply Hcomp ]|]);
      destruct Hk.
Qed.

End ScoreWebFacts.

Lemma Qsum_le (f g : string -> Q) (keys : list string) :
  (forall k, In k keys -> f k <= g k) -> Qsum (map f keys) <= Qsum (map g keys).
Proof.
  induction keys as [|k keys IH]; intros H; [cbn; lra|].
  cbn [map Qsum fold_right]. fold (Qsum (map f keys)). fold (Qsum (map g keys)).
  pose proof (H k (or_introl eq_refl)).
  specialize (IH (fun k' Hk' => H k' (or_intror Hk'))). lra.
Qed.

(** [finalizeScore] never falls when signals rise: of two breakdowns with
    the same signals, the one whose values are nowhere lower scores at least
    as much, whatever the weights. *)
Theorem finalizeScore_monotone
  (low high : Breakdown) (weights : PartialScoreWeights) :
  keys_of low = keys_of high ->
  (forall k, In k (keys_of low) -> lookup_signal low k <= lookup_signal high k) ->
  finalizeScore low weights <= finalizeScore high weights.
Proof. apply finalizeScore_rises. Qed.

Lemma finalizeScore_monotone_witness :
  finalizeScore [("freshness"%string, 0.2); ("link_integrity"%string, 1)]
    (all_given DEFAULT_WEIGHTS)
  <= finalizeScore [("freshness"%string, 0.6); ("link_integrity"%string, 1)]
       (all_given DEFAULT_WEIGHTS).
Proof.
  apply (finalizeScore_monotone
           [("freshness"%string, 0.2); ("link_integrity"%string, 1)]
           [("freshness"%string, 0.6); ("link_integrity"%string, 1)]
           (all_given DEFAULT_WEIGHTS)); [reflexivity|].
  intros k [<-|[<-|[]]]; vm_compute; discriminate.
Defined.

Lemma clamped_id (x : Q) : 0 <= x <= 1 -> clamped x = x.
Proof. intros H. rewrite clamped_clamp01. apply clamp01_id, H. Qed.

Lemma Qsum_map_eq {A : Type} (f g : A -> Q) (l : list A) :
  (forall a, In a l -> f a == g a) -> Qsum (map f l) == Qsum (map g l).
Proof.
  induction l as [|a l IH]; intros H; [reflexivity|].
  cbn [map]. rewrite !Qsum_cons, (H a (or_introl eq_refl)).
  rewrite IH by (intros b Hb; apply H; right; exact Hb). reflexivity.
Qed.

Lemma Qsum_map_scaled {A : Type} (f : A -> Q) (v : Q) (l : list A) :
  Qsum (map (fun a => f a * v) l) == Qsum (map f l) * v.
Proof.
  induction l as [|a l IH]; [cbn; ring|].
  cbn [map]. rewrite !Qsum_cons, IH. ring.
Qed.

Lemma Qsum_map_constant {A : Type} (v : Q) (l : list A) :
  Qsum (map (fun _ => v) l) == inject_Z (Z.of_nat (length l)) * v.
Proof.
  induction l as [|a l IH]; [cbn; ring|].
  cbn [map length]. rewrite Qsum_cons, IH, inject_nat_succ. ring.
Qed.

Lemma rounding_allowance_mono (n m : nat) :
  (n <= m)%nat -> rounding_allowance n <= rounding_allowance m.
Proof.
  intros H. unfold rounding_allowance. pose proof (pow2_pos (-53)).
  apply Qmult_le_compat_r; [|lra].
  pose proof (inject_nat_le n m H). lra.
Qed.

(** [finalizeScore] of a breakdown whose signals all hold the same value in
    [0,1] is that value up to rounding, whatever the weights (as long as
    the ones used sum to between [2^-1000] and [2^1000]); it need not be
    the value itself: eight signals at 0.4 score less than 0.4 with the
    default weights. *)
Theorem finalizeScore_of_equal_signals
  (breakdown : Breakdown) (weights : PartialScoreWeights) (v : Q) :
  NoDup (keys_of breakdown) -> breakdown <> [] ->
  (Z.of_nat (length breakdown) <= 2 ^ 32)%Z ->
  0 <= v <= 1 ->
  (forall signal, In signal breakdown -> stored (snd signal) == v) ->
  (weighted_signals weights breakdown <> [] ->
   2 ^ (-1000) <= exact_weight_sum weights breakdown <= 2 ^ 1000) ->
  Qabs (finalizeScore breakdown weights - v) <= rounding_allowance (length breakdown)
  /\ finalizeScore eight_at_0_4 (all_given DEFAULT_WEIGHTS) < stored 0.4.
Proof.
  intros Hnd Hne Hlen Hv Hall Hmag.
  split; [|vm_compute; reflexivity].
  assert (Hval : forall signal, In signal breakdown -> signal_value signal == v).
  { intros signal Hs. unfold signal_value. rewrite clamped_id; [apply Hall, Hs|].
    rewrite (Hall signal Hs). exact Hv. }
  destruct (finalizeScore_accuracy breakdown weights Hnd Hlen) as [Hw Hm].
  destruct (weighted_signals weights breakdown) as [|s used] eqn:Eu.
  - specialize (Hm eq_refl Hne).
    assert (E : exact_mean breakdown == v).
    { unfold exact_mean. rewrite (Qsum_map_eq _ (fun _ => v) _ Hval), Qsum_map_constant.
      field. assert (0 < inject_Z (Z.of_nat (length breakdown))); [|lra].
      change 0 with (inject_Z 0). rewrite <- Zlt_Qlt.
      destruct breakdown; [congruence|cbn; lia]. }
    rewrite E in Hm. exact Hm.
  - assert (Hne' : s :: used <> []) by discriminate.
    specialize (Hmag Hne'). specialize (Hw Hne' Hmag).
    assert (Hin : forall signal, In signal (s :: used) -> In signal breakdown).
    { intros signal Hs. rewrite <- Eu in Hs. unfold weighted_signals in Hs.
      apply List.filter_In in Hs as [Hs _]. exact Hs. }
    assert (E : exact_weighted_sum weights breakdown / exact_weight_sum weights breakdown
                == v).
    { unfold exact_weighted_sum, exact_weight_sum in *. rewrite Eu in *.
      clear Hw Hm.
      rewrite (Qsum_map_eq _ (fun signal => applied_weight weights (fst signal) * v)).
      - rewrite Qsum_map_scaled. field.
        pose proof (pow2_pos (-1000)). lra.
      - intros signal Hs. rewrite (Hval signal (Hin signal Hs)). reflexivity. }
    rewrite E in Hw.
    apply Qle_trans with (rounding_allowance (length (s :: used))); [exact Hw|].
    apply rounding_allowance_mono. rewrite <- Eu.
    apply List.filter_length_le.
Qed.

Lemma finalizeScore_of_equal_signals_witness :
  Qabs (finalizeScore eight_at_0_4 (all_given DEFAULT_WEIGHTS) - stored 0.4)
  <= rounding_allowance 8
  /\ exact_weight_sum (all_given DEFAULT_WEIGHTS) eight_at_0_4
     == stored 0.16 + stored 0.09 + stored 0.21 + stored 0.13 + stored 0.09
        + stored 0.09 + stored 0.04 + stored 0.04.
Proof.
  split; [|vm_compute; reflexivity].
  apply (finalizeScore_of_equal_signals eight_at_0_4 (all_given DEFAULT_WEIGHTS)
           (stored 0.4)).
  - apply NoDup_ListNoDup. repeat constructor; cbn; intuition discriminate.
  - discriminate.
  - vm_compute. discriminate.
  - split; vm_compute; discriminate.
  - intros signal Hs. cbn in Hs.
    repeat (destruct Hs as [<-|Hs]; [vm_compute; reflexivity|]). destruct Hs.
  - intros _. split; vm_compute; discriminate.
Defined.

Lemma sort_numbers_perm (l1 l2 : list Z) : l1 ≡ₚ l2 -> sort_numbers l1 = sort_numbers l2.
Proof.
  intros Hp. unfold sort_numbers.
  apply (Sorted_unique Z.le); try apply (Sorted_merge_sort Z.le).
  rewrite !merge_sort_Permutation. exact Hp.
Qed.

(** [featureUpdateCadence] does not depend on the order in which the
    timestamps are given, and a timestamp that is not a valid date changes
    nothing as long as four timestamps are given without it. *)
Theorem cadence_ignores_order_and_invalid_dates
  (Math_sqrt : Q -> Q) (Date_getTime : string -> option Z) :
  (forall ts1 ts2 : list string, ts1 ≡ₚ ts2 ->
     featureUpdateCadence Math_sqrt Date_getTime (Some ts1)
     = featureUpdateCadence Math_sqrt Date_getTime (Some ts2))
  /\ (forall (ts : list string) (bad : string),
        (4 <= length ts)%nat -> Date_getTime bad = None ->
        featureUpdateCadence Math_sqrt Date_getTime (Some (bad :: ts))
        = featureUpdateCadence Math_sqrt Date_getTime (Some ts)).
Proof.
  split.
  - intros ts1 ts2 Hp. unfold featureUpdateCadence.
    rewrite (Permutation_length Hp).
    assert (Hv : sort_numbers (valid_times Date_getTime ts1)
                 = sort_numbers (valid_times Date_getTime ts2)).
    { apply sort_numbers_perm. unfold valid_times. rewrite Hp. reflexivity. }
    rewrite Hv. reflexivity.
  - intros ts bad Hlen Hbad. unfold featureUpdateCadence.
    assert ((length (bad :: ts) <? 4)%nat = false) as ->
      by (apply Nat.ltb_ge; cbn [length]; lia).
    assert ((length ts <? 4)%nat = false) as -> by (apply Nat.ltb_ge; lia).
    assert (Hv : valid_times Date_getTime (bad :: ts) = valid_times Date_getTime ts).
    { unfold valid_times. cbn [omap list_omap]. rewrite Hbad. reflexivity. }
    rewrite Hv. reflexivity.
Qed.

(** ** Fingerprints and exact hashes ([jobSnapshots.ts]) *)

Open Scope Z_scope.

Lemma generateSimhash_testbit (text : string) (i : nat) :
  Z.testbit (generateSimhash text) (Z.of_nat i)
  = (i <? 64)%nat && (0 <? votes (tokenize text) i).
Proof.
  destruct (generateSimhash_cases text) as [[Hnil ->] | ->].
  - rewrite Hnil. cbn [votes map fold_right]. rewrite Z.bits_0, andb_false_r. reflexivity.
  - rewrite bits_of_weights_testbit.
    destruct (i <? 64)%nat eqn:E; [|reflexivity]. apply Nat.ltb_lt in E.
    rewrite fold_add_token_nth by (try apply repeat_length; exact E).
    rewrite nth_repeat. reflexivity.
Qed.

Lemma generateSimhash_by_votes (text1 text2 : string) :
  (forall i, (i < 64)%nat ->
     (0 <? votes (tokenize text1) i) = (0 <? votes (tokenize text2) i)) ->
  generateSimhash text1 = generateSimhash text2.
Proof.
  intros H. apply Z.bits_inj'. intros n Hn.
  rewrite <- (Z2Nat.id n Hn), !generateSimhash_testbit.
  destruct (Z.to_nat n <? 64)%nat eqn:E; [|reflexivity].
  apply Nat.ltb_lt in E. rewrite (H _ E). reflexivity.
Qed.

Lemma votes_app (l1 l2 : list string) (i : nat) :
  votes (l1 ++ l2) i = votes l1 i + votes l2 i.
Proof.
  unfold votes. induction l1 as [|t l1 IH]; [reflexivity|].
  cbn [app map fold_right]. rewrite IH. lia.
Qed.

Lemma votes_perm (l1 l2 : list string) (i : nat) : l1 ≡ₚ l2 -> votes l1 i = votes l2 i.
Proof.
  unfold votes. induction 1 as [|t l1 l2 _ IH|t1 t2 l|l1 l2 l3 _ IH1 _ IH2].
  - reflexivity.
  - cbn [map fold_right]. rewrite IH. reflexivity.
  - cbn [map fold_right]. lia.
  - congruence.
Qed.

Lemma votes_repeated (tokens : list string) (i : nat) (n : nat) :
  votes (concat (replicate n tokens)) i = Z.of_nat n * votes tokens i.
Proof.
  induction n as [|n IH]; [reflexivity|].
  cbn [replicate concat]. rewrite votes_app, IH. lia.
Qed.

Lemma lower_char_idempotent (c : ascii) : lower_char (lower_char c) = lower_char c.
Proof. destruct c as [[] [] [] [] [] [] [] []]; reflexivity. Qed.

Lemma toLowerCase_idempotent_upto (n : nat) : forall s : string,
  (String.length s <= n)%nat -> toLowerCase (toLowerCase s) = toLowerCase s.
Proof.
  induction n as [|n IH]; intros s Hn.
  - destruct s; [reflexivity|cbn in Hn; lia].
  - destruct (toLowerCase_cases s) as
      [[-> El]|[(c1 & c2 & r2 & -> & _ & El)|[(c1 & c2 & c3 & r3 & -> & _ & El)
       |(c1 & r1 & -> & Hd & Hk & El)]]]; rewrite El.
    + reflexivity.
    + change (dot_above +:+ toLowerCase r2)
        with (String (ascii_of_N 204) (String (ascii_of_N 135) (toLowerCase r2))).
      rewrite !toLowerCase_plain by (vm_compute; discriminate).
      rewrite (IH r2) by (cbn in Hn; lia). reflexivity.
    + rewrite toLowerCase_plain by (vm_compute; discriminate).
      rewrite (IH r3) by (cbn in Hn; lia). reflexivity.
    + assert (Hr : toLowerCase (toLowerCase r1) = toLowerCase r1)
        by (apply IH; cbn in Hn; lia).
      destruct (toLowerCase_cases (String (lower_char c1) (toLowerCase r1))) as
        [[E _]|[(d1 & d2 & q2 & E & Hd' & _)|[(d1 & d2 & d3 & q3 & E & Hk' & _)
         |(d1 & q1 & E & _ & _ & El')]]].
      * discriminate.
      * exfalso. injection E as <- E.
        assert (Hh : (128 <= code (lower_char c1))%N).
        { unfold is_dotted_I in Hd'. apply andb_true_iff in Hd' as [H1 _].
          apply N.eqb_eq in H1. lia. }
        rewrite (lower_char_high c1 Hh) in Hd'.
        assert (H2 : (128 <= code d2)%N).
        { unfold is_dotted_I in Hd'. apply andb_true_iff in Hd' as [_ H2].
          apply N.eqb_eq in H2. lia. }
        destruct (toLowerCase_high_head _ _ _ E H2) as (r0 & -> & _).
        rewrite (Hd _ _ eq_refl) in Hd'. discriminate.
      * exfalso. injection E as <- E.
        unfold is_kelvin in Hk'. apply andb_true_iff in Hk' as [Hk' H3].
        apply andb_true_iff in Hk' as [H1 H2]. apply N.eqb_eq in H1, H2, H3.
        assert (Hh : (128 <= code (lower_char c1))%N) by lia.
        rewrite (lower_char_high c1 Hh) in H1.
        destruct (toLowerCase_high_head _ _ _ E ltac:(lia)) as (r0 & -> & E0 & _).
        symmetry in E0.
        destruct (toLowerCase_high_head _ _ _ E0 ltac:(lia)) as (r00 & -> & _).
        specialize (Hk _ _ _ eq_refl). unfold is_kelvin in Hk.
        rewrite H1, H2, H3 in Hk. discriminate.
      * injection E as <- <-. rewrite El', lower_char_idempotent, Hr. reflexivity.
Qed.

Lemma toLowerCase_idempotent (s : string) : toLowerCase (toLowerCase s) = toLowerCase s.
Proof. exact (toLowerCase_idempotent_upto (String.length s) s (le_n _)). Qed.

(** [generateSimhash] sees a text as the bag of its tokens: texts with the
    same tokens, in any order, have the same fingerprint; so have a text and
    its lowercase form; repeating every token the same number of times
    changes nothing; and the fingerprint of a text of one token is read off
    the first eight bytes of the SHA-256 digest of the token. *)
Theorem simhash_of_token_bag :
  (forall text1 text2 : string,
     tokenize text1 ≡ₚ tokenize text2 -> generateSimhash text1 = generateSimhash text2)
  /\ (forall text : string, generateSimhash (toLowerCase text) = generateSimhash text)
  /\ (forall (text1 text2 : string) (n : nat),
        tokenize text2 ≡ₚ concat (replicate (S n) (tokenize text1)) ->
        generateSimhash text2 = generateSimhash text1)
  /\ (forall (text token : string) (i : nat),
        tokenize text = [token] -> (i < 64)%nat ->
        Z.testbit (generateSimhash text) (Z.of_nat i)
        = digest_bit (SHA256.digest token) i).
Proof.
  split; [|split; [|split]].
  - intros text1 text2 Hp. apply generateSimhash_by_votes. intros i _.
    rewrite (votes_perm _ _ i Hp). reflexivity.
  - intros text. apply generateSimhash_by_votes. intros i _.
    unfold tokenize. cbn zeta. rewrite toLowerCase_idempotent. reflexivity.
  - intros text1 text2 n Hp. apply generateSimhash_by_votes. intros i _.
    rewrite (votes_perm _ _ i Hp), votes_repeated.
    destruct (0 <? votes (tokenize text1) i) eqn:E.
    + apply Z.ltb_lt in E. apply Z.ltb_lt. nia.
    + apply Z.ltb_ge in E. apply Z.ltb_ge. nia.
  - intros text token i Htok Hi. rewrite generateSimhash_testbit, Htok.
    assert ((i <? 64)%nat = true) as -> by (apply Nat.ltb_lt; exact Hi).
    cbn [votes map fold_right andb]. unfold vote.
    destruct (digest_bit (SHA256.digest token) i); reflexivity.
Qed.

Lemma filter_length_union {A : Type} (P Q R : A -> bool) (l : list A) :
  (forall x, P x = true -> Q x = true \/ R x = true) ->
  (length (List.filter P l) <= length (List.filter Q l) + length (List.filter R l))%nat.
Proof.
  intros H. induction l as [|a l IH]; [cbn; lia|].
  cbn [List.filter]. destruct (P a) eqn:EP.
  - destruct (H a EP) as [-> | ->]; destruct (Q a), (R a); cbn [length]; lia.
  - destruct (Q a), (R a); cbn [length]; lia.
Qed.

Lemma testbit_above (a : Z) (n : Z) : 0 <= a < 2 ^ 64 -> 64 <= n -> Z.testbit a n = false.
Proof.
  intros [H0 H64] Hn. destruct (Z.eq_dec a 0) as [->|Hne]; [apply Z.bits_0|].
  apply Z.bits_above_log2; [exact H0|].
  assert (Z.log2 a < 64) by (apply Z.log2_lt_pow2; lia). lia.
Qed.

Lemma filter_none {A : Type} (P : A -> bool) (l : list A) :
  Z.of_nat (length (List.filter P l)) = 0 -> forall x, In x l -> P x = false.
Proof.
  induction l as [|a l IH]; intros H x Hx; [destruct Hx|].
  cbn [List.filter] in H. destruct (P a) eqn:E; [cbn [length] in H; lia|].
  destruct Hx as [<-|Hx]; [exact E|apply IH; assumption].
Qed.

Lemma hamming64_bits (a b : Z) :
  hamming64 a b = 0 ->
  forall i, In i (seq 0 64) ->
  xorb (Z.testbit a (Z.of_nat i)) (Z.testbit b (Z.of_nat i)) = false.
Proof.
  unfold hamming64. generalize (seq 0 64). intros l H.
  exact (filter_none
           (fun i => xorb (Z.testbit a (Z.of_nat i)) (Z.testbit b (Z.of_nat i))) l H).
Qed.

Lemma hamming64_range (a b : Z) : 0 <= hamming64 a b <= 64.
Proof.
  unfold hamming64.
  assert (Hlen : length (seq 0 64) = 64%nat) by apply length_seq.
  revert Hlen. generalize (seq 0 64). intros l Hlen.
  pose proof (List.filter_length_le
    (fun i => xorb (Z.testbit a (Z.of_nat i)) (Z.testbit b (Z.of_nat i))) l).
  lia.
Qed.

Lemma hamming64_same (a : Z) : hamming64 a a = 0.
Proof.
  unfold hamming64. generalize (seq 0 64). intros l.
  rewrite (filter_constant _ false); [reflexivity|].
  intros i _. apply xorb_nilpotent.
Qed.

Lemma hamming64_triangle (a b c : Z) : hamming64 a c <= hamming64 a b + hamming64 b c.
Proof.
  unfold hamming64. generalize (seq 0 64). intros l.
  rewrite <- Nat2Z.inj_add. apply Nat2Z.inj_le.
  apply filter_length_union. intros i Hi.
  destruct (Z.testbit a (Z.of_nat i)), (Z.testbit b (Z.of_nat i)),
    (Z.testbit c (Z.of_nat i)); cbn in *; auto; discriminate.
Qed.

Lemma hamming64_zero (a b : Z) :
  0 <= a < 2 ^ 64 -> 0 <= b < 2 ^ 64 -> hamming64 a b = 0 -> a = b.
Proof.
  intros Ha Hb H. pose proof (hamming64_bits a b H) as Hbits. clear H.
  apply Z.bits_inj'. intros n Hn.
  destruct (Z_lt_le_dec n 64) as [Hlt|Hge].
  - assert (Hin : In (Z.to_nat n) (seq 0 64)).
    { apply in_seq. split; [apply Nat.le_0_l|].
      change (0 + 64)%nat with (Z.to_nat 64). apply Z2Nat.inj_lt; lia. }
    specialize (Hbits _ Hin).
    rewrite Z2Nat.id in Hbits by exact Hn.
    apply xorb_eq in Hbits. exact Hbits.
  - rewrite (testbit_above a n Ha Hge), (testbit_above b n Hb Hge). reflexivity.
Qed.

Lemma distance_parsed (s1 s2 : string) (a b : Z) :
  BigInt s1 = Some a -> BigInt s2 = Some b ->
  0 <= a < 2 ^ 64 -> 0 <= b < 2 ^ 64 ->
  simhashHammingDistance s1 s2 = hamming64 a b.
Proof.
  intros H1 H2 Ha Hb. unfold simhashHammingDistance. rewrite H1, H2. cbn zeta.
  rewrite (count_set_bits_popcount 64) by (apply lxor_range; lia).
  rewrite popcount_xor_hamming. lia.
Qed.

(** [simhashHammingDistance] is symmetric for all strings; on strings that
    hold 64-bit fingerprints it is a metric with values from 0 to 64: zero
    exactly for equal fingerprints, and never more between two fingerprints
    than by way of a third. *)
Theorem hamming_distance_metric :
  (forall s1 s2 : string, simhashHammingDistance s1 s2 = simhashHammingDistance s2 s1)
  /\ (forall (s1 s2 : string) (a b : Z),
        BigInt s1 = Some a -> BigInt s2 = Some b ->
        0 <= a < 2 ^ 64 -> 0 <= b < 2 ^ 64 ->
        0 <= simhashHammingDistance s1 s2 <= 64
        /\ (simhashHammingDistance s1 s2 = 0 <-> a = b))
  /\ (forall (s1 s2 s3 : string) (a b c : Z),
        BigInt s1 = Some a -> BigInt s2 = Some b -> BigInt s3 = Some c ->
        0 <= a < 2 ^ 64 -> 0 <= b < 2 ^ 64 -> 0 <= c < 2 ^ 64 ->
        simhashHammingDistance s1 s3
        <= simhashHammingDistance s1 s2 + simhashHammingDistance s2 s3).
Proof.
  split; [|split].
  - intros s1 s2. unfold simhashHammingDistance.
    destruct (BigInt s1) as [a|], (BigInt s2) as [b|]; try reflexivity.
    cbn zeta. rewrite Z.lxor_comm. reflexivity.
  - intros s1 s2 a b H1 H2 Ha Hb.
    rewrite (distance_parsed s1 s2 a b H1 H2 Ha Hb). split.
    + apply hamming64_range.
    + split; [apply hamming64_zero; assumption|].
      intros ->. apply hamming64_same.
  - intros s1 s2 s3 a b c H1 H2 H3 Ha Hb Hc.
    rewrite (distance_parsed s1 s3 a c H1 H3 Ha Hc).
    rewrite (distance_parsed s1 s2 a b H1 H2 Ha Hb).
    rewrite (distance_parsed s2 s3 b c H2 H3 Hb Hc).
    apply hamming64_triangle.
Qed.

(** Fingerprint strings at the edge of [simhashHammingDistance]: an empty
    or blank string reads as the fingerprint 0; a fingerprint with a minus
    sign is at distance 0 from any fingerprint without one, in either order,
    and the change is then not significant under the default threshold. *)
Theorem fingerprint_string_edges :
  (forall s blank : string,
     all_spaces blank = true ->
     simhashHammingDistance blank s = simhashHammingDistance "0" s)
  /\ (forall (s1 s2 : string) (a b : Z),
        BigInt s1 = Some a -> BigInt s2 = Some b -> a < 0 -> 0 <= b ->
        simhashHammingDistance s1 s2 = 0
        /\ simhashHammingDistance s2 s1 = 0
        /\ isSimhashChangeSignificant s1 s2 None = false)
  /\ BigInt "-5" = Some (-5).
Proof.
  split; [|split; [|reflexivity]].
  - intros s blank Hblank. unfold simhashHammingDistance.
    assert (BigInt blank = Some 0) as ->; [|reflexivity].
    unfold BigInt. unfold trim. rewrite (trimStart_all_spaces blank Hblank). reflexivity.
  - intros s1 s2 a b H1 H2 Ha Hb.
    assert (Hneg : Z.lxor a b < 0).
    { apply Z.nle_gt. intros Hnn. apply Z.lxor_nonneg in Hnn. lia. }
    assert (Hd : simhashHammingDistance s1 s2 = 0).
    { unfold simhashHammingDistance. rewrite H1, H2. cbn zeta.
      rewrite count_set_bits_unfold.
      assert ((0 <? Z.lxor a b) = false) as -> by (apply Z.ltb_ge; lia). reflexivity. }
    split; [exact Hd|]. split.
    + unfold simhashHammingDistance. rewrite H1, H2. cbn zeta.
      rewrite Z.lxor_comm, count_set_bits_unfold.
      assert ((0 <? Z.lxor a b) = false) as -> by (apply Z.ltb_ge; lia). reflexivity.
    + unfold isSimhashChangeSignificant. rewrite Hd. reflexivity.
Qed.

(** [hasContentChanged] compares the two exact hashes and nothing else: it
    is false of a snapshot and itself, the same in both directions, and
    false exactly when both hashes agree; snapshots made of two postings
    with the same content (a missing content counting as empty) and the same
    six metadata fields are unchanged, whatever their job ids and other
    fields. *)
Theorem content_change_compares_hashes :
  (forall s : dbJobSnapshot, hasContentChanged s s = false)
  /\ (forall s1 s2 : dbJobSnapshot, hasContentChanged s1 s2 = hasContentChanged s2 s1)
  /\ (forall s1 s2 : dbJobSnapshot,
        hasContentChanged s1 s2 = false
        <-> content_hash s1 = content_hash s2 /\ metadata_hash s1 = metadata_hash s2)
  /\ (forall (id1 id2 : JobId) (job1 job2 : AdapterJob),
        or_empty (content job1) = or_empty (content job2) ->
        title job1 = title job2 -> company_name job1 = company_name job2 ->
        location job1 = location job2 ->
        Types.first_published job1 = Types.first_published job2 ->
        Types.updated_at job1 = Types.updated_at job2 ->
        requisition_id job1 = requisition_id job2 ->
        hasContentChanged (createSnapshotData id1 job1) (createSnapshotData id2 job2)
        = false).
Proof.
  assert (Hiff : forall s1 s2 : dbJobSnapshot,
    hasContentChanged s1 s2 = false
    <-> content_hash s1 = content_hash s2 /\ metadata_hash s1 = metadata_hash s2).
  { intros s1 s2. unfold hasContentChanged.
    rewrite orb_false_iff, !negb_false_iff, !String.eqb_eq. reflexivity. }
  split; [|split; [|split; [exact Hiff|]]].
  - intros s. apply Hiff. split; reflexivity.
  - intros s1 s2. unfold hasContentChanged.
    rewrite (String.eqb_sym (content_hash s1)), (String.eqb_sym (metadata_hash s1)).
    reflexivity.
  - intros id1 id2 job1 job2 Hc Ht Hn Hl Hf Hu Hr. apply Hiff.
    unfold createSnapshotData. cbn [content_hash metadata_hash]. split.
    + rewrite Hc. reflexivity.
    + unfold generateMetadataHash. rewrite !metadataString_canonical.
      rewrite Ht, Hn, Hl, Hf, Hu, Hr. reflexivity.
Qed.

(** ** Validation, tier and recommendations ([analyzeJob.ts], [page.tsx]) *)

Import Report Page.

Open Scope Q_scope.

(** [validateJobPosting] accepts a posting exactly when it has a title and
    either a location or a salary (texts of spaces only do not count); the
    company name, the URL and the completeness score never decide, since a
    title and one of the two already make 45 points; so a rejection carries
    one of the first two messages, and the verdict is the same whatever the
    URL parser answers. *)
Theorem validation_needs_title_and_place
  (URL_hostname : string -> option string)
  (adapterJob : AdapterJob) (features : option dbJobFeatures) :
  let v := validateJobPosting URL_hostname adapterJob features in
  (isValid v = true <->
     has_text (title adapterJob) = true
     /\ (has_text (location adapterJob) = true \/ has_salary features = true))
  /\ (isValid v = true -> error v = None)
  /\ (has_text (title adapterJob) = false -> error v = Some no_title_error)
  /\ (has_text (title adapterJob) = true -> isValid v = false ->
      error v = Some no_place_error)
  /\ (forall other : string -> option string,
        validateJobPosting other adapterJob features = v).
Proof.
  assert (Hform : forall h : string -> option string,
    validateJobPosting h adapterJob features
    = if negb (has_text (title adapterJob)) then
        {| isValid := false; error := Some no_title_error |}
      else if negb (has_text (location adapterJob)) && negb (has_salary features) then
        {| isValid := false; error := Some no_place_error |}
      else {| isValid := true; error := None |}).
  { intros h. unfold validateJobPosting, has_salary. cbn zeta.
    destruct (has_text (title adapterJob)); [|reflexivity].
    destruct (has_text (location adapterJob));
      destruct (truthy_number (features ≫= Action.salary_min) ||
                truthy_number (features ≫= Action.salary_max));
      cbn [negb andb]; try reflexivity;
      destruct (truthy (features ≫= time_type)), (truthy (features ≫= Action.currency)),
        (truthy (features ≫= department));
      destruct (match h (Types.absolute_url adapterJob) with
                | Some hostname => _ | None => false end);
      reflexivity. }
  intros v. unfold v. rewrite (Hform URL_hostname).
  split; [|split; [|split; [|split]]].
  - destruct (has_text (title adapterJob)), (has_text (location adapterJob)),
      (has_salary features); cbn; intuition discriminate.
  - destruct (has_text (title adapterJob)), (has_text (location adapterJob)),
      (has_salary features); cbn; intuition discriminate.
  - intros ->. reflexivity.
  - intros ->. destruct (has_text (location adapterJob)), (has_salary features);
      cbn; intuition discriminate.
  - intros other. apply Hform.
Qed.


Section Advice.

Variable low : string -> bool.
Variables k1 k2 : string.
Variables a b c : string.

(** The advice on a pair of signals: one message for both, or one each. *)
Lemma pair_advice :
  let part :=
    if (2 <=? length (List.filter low [k1; k2]))%nat then [a]
    else (if low k1 then [b] else []) ++ (if low k2 then [c] else []) in
  sublist part [a; b; c] /\ (length part <= 1)%nat
  /\ (part = [] <-> low k1 || low k2 = false).
Proof.
  cbn [List.filter]. destruct (low k1), (low k2); cbn;
    (split; [repeat constructor|]); (split; [lia|]); split; congruence.
Qed.

End Advice.

(** The advice on the refresh pattern: one message for the combination. *)
Lemma triple_advice (cadence refresh stale : bool) (m3 mcr mcs mrs ms mc mr : string) :
  let part :=
    if cadence && refresh && stale then [m3]
    else if cadence && refresh then [mcr]
    else if cadence && stale then [mcs]
    else if refresh && stale then [mrs]
    else (if stale then [ms] else [])
         ++ (if cadence then [mc] else [])
         ++ (if refresh then [mr] else []) in
  sublist part [m3; mcr; mcs; mrs; ms; mc; mr] /\ (length part <= 1)%nat
  /\ (part = [] <-> cadence || (refresh || (stale || false)) = false).
Proof.
  destruct cadence, refresh, stale; cbn;
    (split; [repeat constructor|]); (split; [lia|]); split; congruence.
Qed.

Lemma three_parts (S N P S' N' P' : list string) (x1 x2 x3 x4 rest : bool) :
  sublist S S' /\ (length S <= 1)%nat /\ (S = [] <-> x1 || x2 = false) ->
  sublist N N' /\ (length N <= 1)%nat /\ (N = [] <-> x3 || x4 = false) ->
  sublist P P' /\ (length P <= 1)%nat /\ (P = [] <-> rest = false) ->
  sublist (S ++ N ++ P) (S' ++ N' ++ P')
  /\ (length (S ++ N ++ P) <= 3)%nat
  /\ (S ++ N ++ P = [] <-> x1 || (x2 || (x3 || (x4 || rest))) = false).
Proof.
  intros (HS & HSl & HSn) (HN & HNl & HNn) (HP & HPl & HPn).
  split; [repeat apply sublist_app; assumption|].
  split; [rewrite !length_app; lia|].
  split.
  - intros H. apply app_eq_nil in H as [H1 H]. apply app_eq_nil in H as [H2 H3].
    apply HSn in H1. apply HNn in H2. apply HPn in H3.
    destruct x1, x2, x3, x4, rest; cbn in *; congruence.
  - intros H.
    assert (H1 : x1 || x2 = false) by (destruct x1, x2; cbn in *; congruence).
    assert (H2 : x3 || x4 = false) by (destruct x1, x2, x3, x4; cbn in *; congruence).
    assert (H3 : rest = false) by (destruct x1, x2, x3, x4, rest; cbn in *; congruence).
    apply HSn in H1. apply HNn in H2. apply HPn in H3. subst. reflexivity.
Qed.

Lemma generateRecommendations_clear (breakdown : Breakdown) :
  has_red_flags breakdown = false -> generateRecommendations breakdown = [no_ghosts].
Proof.
  unfold generateRecommendations, has_red_flags. intros ->. reflexivity.
Qed.

Lemma generateRecommendations_flagged (breakdown : Breakdown) :
  has_red_flags breakdown = true ->
  sublist (generateRecommendations breakdown) advice
  /\ (length (generateRecommendations breakdown) <= 3)%nat
  /\ (generateRecommendations breakdown = []
      <-> existsb (is_low breakdown) advised_signals = false).
Proof.
  unfold generateRecommendations, has_red_flags. intros ->.
  cbn zeta. cbn [negb].
  apply (three_parts _ _ _ [_; _; _] [_; _; _] [_; _; _; _; _; _; _]).
  - apply pair_advice.
  - apply pair_advice.
  - apply triple_advice.
Qed.

Lemma advice_distinct : NoDup advice /\ no_ghosts ∉ advice.
Proof.
  split.
  - apply (bool_decide_eq_true_1 (NoDup advice)). vm_compute. reflexivity.
  - apply (bool_decide_eq_true_1 (no_ghosts ∉ advice)). vm_compute. reflexivity.
Qed.

Lemma generateRecommendations_advice (breakdown : Breakdown) :
  has_red_flags breakdown = true ->
  ~ In no_ghosts (generateRecommendations breakdown)
  /\ (generateRecommendations breakdown = []
      <-> forall k, In k advised_signals -> is_low breakdown k = false).
Proof.
  intros Hred. destruct advice_distinct as [_ Hno].
  destruct (generateRecommendations_flagged breakdown Hred) as (Hsub & _ & Hnil).
  split.
  - intros Hin. apply Hno. apply list_elem_of_In in Hin.
    exact (sublist_subseteq _ _ Hsub _ Hin).
  - rewrite Hnil. split.
    + intros Hex k Hk. destruct (is_low breakdown k) eqn:E; [|reflexivity].
      assert (existsb (is_low breakdown) advised_signals = true); [|congruence].
      apply existsb_exists. exists k. split; assumption.
    + intros Hall. destruct (existsb (is_low breakdown) advised_signals) eqn:E;
        [|reflexivity].
      apply existsb_exists in E as (k & Hk & Hlow). rewrite (Hall k Hk) in Hlow.
      discriminate.
Qed.

(** [generateRecommendations]: when no value of the breakdown is below one
    half the only message is the all-clear; otherwise the messages are a
    selection of the thirteen pieces of advice, in their fixed order: at
    most three of them - one on the salary, one on the description, one on
    the refresh pattern - without the all-clear, and none at all when the
    only low values are of signals without advice (such as the link or the
    source); no message is given twice. *)
Theorem recommendations_shape (breakdown : Breakdown) :
  (has_red_flags breakdown = false ->
     generateRecommendations breakdown = [no_ghosts])
  /\ (has_red_flags breakdown = true ->
      sublist (generateRecommendations breakdown) advice
      /\ (length (generateRecommendations breakdown) <= 3)%nat
      /\ ~ In no_ghosts (generateRecommendations breakdown)
      /\ (generateRecommendations breakdown = []
          <-> forall k, In k advised_signals -> is_low breakdown k = false))
  /\ NoDup (generateRecommendations breakdown)
  /\ length advice = 13%nat.
Proof.
  destruct advice_distinct as [Hnd _].
  split; [apply generateRecommendations_clear|]. split; [|split; [|reflexivity]].
  - intros Hred.
    destruct (generateRecommendations_flagged breakdown Hred) as (Hsub & Hlen & _).
    destruct (generateRecommendations_advice breakdown Hred) as [Hno Hnil].
    split; [exact Hsub|]. split; [exact Hlen|]. split; [exact Hno|exact Hnil].
  - destruct (has_red_flags breakdown) eqn:Hred.
    + destruct (generateRecommendations_flagged breakdown Hred) as (Hsub & _ & _).
      exact (sublist_NoDup _ _ Hnd Hsub).
    + rewrite (generateRecommendations_clear breakdown Hred).
      apply NoDup_singleton.
Qed.

Lemma signal_In (breakdown : Breakdown) (k : string) (v : Q) :
  NoDup (keys_of breakdown) -> (signal breakdown k = Some v <-> In (k, v) breakdown).
Proof.
  induction breakdown as [|[k' v'] rest IH]; intros Hnd.
  - cbn. split; [discriminate|intros []].
  - cbn [keys_of map fst] in Hnd. apply NoDup_cons in Hnd as [Hk Hnd].
    cbn [signal In]. destruct (String.eqb k k') eqn:E.
    + apply String.eqb_eq in E. subst k'. split.
      * intros H. injection H as ->. left. reflexivity.
      * intros [H|H]; [injection H as ->; reflexivity|].
        exfalso. apply Hk. apply list_elem_of_In.
        unfold keys_of. apply in_map_iff. exists (k, v). split; [reflexivity|exact H].
    + apply String.eqb_neq in E. rewrite (IH Hnd). split; [intros H; right; exact H|].
      intros [H|H]; [injection H as -> ->; congruence|exact H].
Qed.

Lemma is_low_In (breakdown : Breakdown) (k : string) :
  NoDup (keys_of breakdown) ->
  (is_low breakdown k = true <-> exists v, In (k, v) breakdown /\ v < 0.5).
Proof.
  intros Hnd. unfold is_low. split.
  - destruct (signal breakdown k) as [v|] eqn:E; [|discriminate].
    intros H. exists v. split; [apply (signal_In _ _ _ Hnd), E|apply Qltb_lt, H].
  - intros (v & Hin & Hlt). apply (signal_In _ _ _ Hnd) in Hin. rewrite Hin.
    apply Qltb_lt, Hlt.
Qed.

Lemma has_red_flags_In (breakdown : Breakdown) :
  has_red_flags breakdown = true <-> exists k v, In (k, v) breakdown /\ v < 0.5.
Proof.
  unfold has_red_flags. rewrite existsb_exists. split.
  - intros ([k v] & Hin & Hlt). exists k, v. split; [exact Hin|apply Qltb_lt, Hlt].
  - intros (k & v & Hin & Hlt). exists (k, v). split; [exact Hin|apply Qltb_lt, Hlt].
Qed.

Lemma redFlags_In (scoreResult : ScoreResult) (k : string) :
  NoDup (keys_of (breakdown scoreResult)) ->
  (In k (redFlags (risk_result scoreResult))
   <-> exists v, In (k, v) (breakdown scoreResult) /\ v < 0.5).
Proof.
  intros Hnd. unfold risk_result. cbn [redFlags]. rewrite List.filter_In.
  rewrite (is_low_In _ _ Hnd). split; [intros [_ H]; exact H|].
  intros (v & Hin & Hlt). split; [|eauto].
  unfold keys_of. apply in_map_iff. exists (k, v). split; [reflexivity|exact Hin].
Qed.

Lemma redFlags_none (scoreResult : ScoreResult) :
  NoDup (keys_of (breakdown scoreResult)) ->
  (redFlags (risk_result scoreResult) = []
   <-> has_red_flags (breakdown scoreResult) = false).
Proof.
  intros Hnd. split.
  - intros Hnil. destruct (has_red_flags _) eqn:E; [|reflexivity].
    apply has_red_flags_In in E as (k & v & Hin & Hlt).
    assert (In k (redFlags (risk_result scoreResult)))
      by (apply (redFlags_In _ _ Hnd); eauto).
    rewrite Hnil in H. destruct H.
  - intros Hno. destruct (redFlags (risk_result scoreResult)) as [|k rest] eqn:E;
      [reflexivity|].
    assert (Hk : In k (redFlags (risk_result scoreResult))) by (rewrite E; left; reflexivity).
    apply (redFlags_In _ _ Hnd) in Hk as (v & Hin & Hlt).
    assert (has_red_flags (breakdown scoreResult) = true)
      by (apply has_red_flags_In; eauto).
    congruence.
Qed.

Section RiskFacts.

Variable now : Z.
Variable Date_getTime : string -> option Z.
Variable Math_sqrt : Q -> Q.
Variable URL_hostname : string -> option string.

(** The risk result made of a score of [scoreJob] (step 7 of [analyzeJob]):
    the red flags are signals of the breakdown; there is none exactly when
    the recommendation is the all-clear; the compensation period is never
    one, nor is the link when the link is reported sound, as [analyzeJob]
    and [scoreWebFeatures] report it; and the recommendations are empty
    exactly when there are red flags and all of them are the link or the
    source, for which there is no advice. *)
Theorem risk_result_flags (input : AtsJobInput) (weights : option PartialScoreWeights) :
  let scored := scoreJob now Date_getTime Math_sqrt URL_hostname input weights in
  let r := risk_result scored in
  Report.score r = ScoreFeatures.score scored
  /\ tier r = tier_of (ScoreFeatures.score scored)
  /\ (forall k, In k (redFlags r) -> In k SIGNALS)
  /\ (redFlags r = [] <-> recommendations r = [no_ghosts])
  /\ ~ In "comp_period_clarity"%string (redFlags r)
  /\ (link_ok input = Some true -> link_loop input <> Some true ->
      ~ In "link_integrity"%string (redFlags r))
  /\ (recommendations r = []
      <-> redFlags r <> []
          /\ forall k, In k (redFlags r) ->
               k = "link_integrity"%string \/ k = "source_credibility"%string).
Proof.
  intros scored r.
  pose proof (scoreJob_keys now Date_getTime Math_sqrt URL_hostname input weights)
    as Hkeys.
  fold scored in Hkeys.
  destruct (signals_of_sound input) as (Hnd0 & _ & _).
  assert (Hnd : NoDup (keys_of (breakdown scored))) by (rewrite Hkeys; exact Hnd0).
  assert (Hsig : forall k, In k (keys_of (breakdown scored)) -> In k SIGNALS).
  { intros k Hk. rewrite Hkeys in Hk. unfold signals_of in Hk.
    destruct (update_cadence_data input), (snapshot_data input); cbn in Hk |- *;
      intuition. }
  assert (Hcomp : ~ In "comp_period_clarity"%string (redFlags r)).
  { intros Hin. apply (redFlags_In _ _ Hnd) in Hin as (v & Hin & Hlt).
    apply (signal_In _ _ _ Hnd) in Hin.
    assert (Hv : signal (breakdown scored) "comp_period_clarity"
                 = Some (featureCompPeriodClarity (nlp_analysis input))) by reflexivity.
    rewrite Hv in Hin. injection Hin as <-.
    pose proof (featureCompPeriodClarity_half (nlp_analysis input)). lra. }
  assert (Hflag : forall k, In k (redFlags r) -> In k (keys_of (breakdown scored))).
  { intros k Hk. unfold r, risk_result in Hk. cbn [redFlags] in Hk.
    apply List.filter_In in Hk as [Hk _]. exact Hk. }
  assert (Hlow : forall k, is_low (breakdown scored) k = true <-> In k (redFlags r)).
  { intros k. unfold r, risk_result. cbn [redFlags]. rewrite List.filter_In. split.
    - intros H. split; [|exact H]. apply (is_low_In _ _ Hnd) in H as (v & Hin & _).
      unfold keys_of. apply in_map_iff. exists (k, v). split; [reflexivity|exact Hin].
    - intros [_ H]. exact H. }
  split; [reflexivity|]. split; [reflexivity|]. split; [|split; [|split; [|split]]].
  - intros k Hk. apply Hsig, Hflag, Hk.
  - unfold r. rewrite (redFlags_none scored Hnd). unfold risk_result.
    cbn [recommendations].
    pose proof (generateRecommendations_clear (breakdown scored)) as Hclear.
    pose proof (fun H => generateRecommendations_advice (breakdown scored) H)
      as Hflagged.
    split; [exact Hclear|].
    intros Hrec. destruct (has_red_flags (breakdown scored)) eqn:E; [|reflexivity].
    destruct (Hflagged eq_refl) as (Hno & _). exfalso. apply Hno.
    rewrite Hrec. left. reflexivity.
  - exact Hcomp.
  - intros Hok Hloop Hin. apply (redFlags_In _ _ Hnd) in Hin as (v & Hin & Hlt).
    apply (signal_In _ _ _ Hnd) in Hin.
    assert (Hv : signal (breakdown scored) "link_integrity"
                 = Some (featureLinkIntegrity (link_ok input) (link_loop input)))
      by reflexivity.
    rewrite Hv in Hin. injection Hin as <-. rewrite Hok in Hlt.
    destruct (link_loop input) as [[|]|]; [congruence| |]; cbn in Hlt; lra.
  - unfold r at 1, risk_result at 1. cbn [recommendations].
    pose proof (generateRecommendations_clear (breakdown scored)) as Hclear.
    pose proof (fun H => generateRecommendations_advice (breakdown scored) H)
      as Hflagged.
    split.
    + intros Hnil. destruct (has_red_flags (breakdown scored)) eqn:E.
      * destruct (Hflagged eq_refl) as (_ & Hiff).
        pose proof (proj1 Hiff Hnil) as Hadv. split.
        -- intros Hnone. apply (redFlags_none scored Hnd) in Hnone. congruence.
        -- intros k Hk. pose proof (Hsig k (Hflag k Hk)) as Hs.
           apply Hlow in Hk.
           cbn in Hs.
           repeat (destruct Hs as [<-|Hs];
             [first [ left; reflexivity | right; reflexivity
                    | exfalso; apply Hcomp, Hlow, Hk
                    | exfalso;
                      match goal with
                      | |- False =>
                          rewrite Hadv in Hk by (cbn; tauto); discriminate
                      end ]|]).
           destruct Hs.
      * rewrite (Hclear eq_refl) in Hnil. discriminate.
    + intros [Hne Hall].
      assert (E : has_red_flags (breakdown scored) = true).
      { destruct (has_red_flags (breakdown scored)) eqn:E; [reflexivity|].
        exfalso. apply Hne. apply (redFlags_none scored Hnd). exact E. }
      destruct (Hflagged E) as (_ & Hiff). apply Hiff.
      intros k Hk. destruct (is_low (breakdown scored) k) eqn:El; [|reflexivity].
      apply Hlow in El. destruct (Hall k El) as [-> | ->];
        cbn in Hk; intuition discriminate.
Qed.

End RiskFacts.

Open Scope Z_scope.

Lemma replace_row_In (r r' : JobRow) (rows : list JobRow) :
  In r rows -> id r' = id r -> In r' (replace_row r' rows).
Proof.
  intros Hin Hid. unfold replace_row. apply in_map_iff. exists r.
  split; [|exact Hin]. rewrite Hid, Nat.eqb_refl. reflexivity.
Qed.

Lemma replace_row_keys (r' : JobRow) (rows : list JobRow) :
  (forall r, In r rows -> id r = id r' -> key_of r = key_of r') ->
  map key_of (replace_row r' rows) = map key_of rows.
Proof.
  intros H. unfold replace_row. rewrite map_map. apply map_ext_in.
  intros r Hin. destruct (Nat.eqb (id r) (id r')) eqn:E; [|reflexivity].
  symmetry. apply H; [exact Hin|apply Nat.eqb_eq, E].
Qed.

Lemma replace_row_jobs (r' : JobRow) (rows : list JobRow) :
  (forall r, In r rows -> id r = id r' -> job r = job r') ->
  map job (replace_row r' rows) = map job rows.
Proof.
  intros H. unfold replace_row. rewrite map_map. apply map_ext_in.
  intros r Hin. destruct (Nat.eqb (id r) (id r')) eqn:E; [|reflexivity].
  symmetry. apply H; [exact Hin|apply Nat.eqb_eq, E].
Qed.

Lemma replace_row_other (r' : JobRow) (rows : list JobRow) (P : JobRow -> bool) :
  (forall r, In r rows -> id r = id r' -> P r = false) -> P r' = false ->
  List.filter P (replace_row r' rows) = List.filter P rows.
Proof.
  intros H Hr'. unfold replace_row. induction rows as [|r rows IH]; [reflexivity|].
  cbn [map List.filter]. rewrite IH by (intros x Hx; apply H; right; exact Hx).
  destruct (Nat.eqb (id r) (id r')) eqn:E; [|reflexivity].
  rewrite Hr', (H r (or_introl eq_refl) (proj1 (Nat.eqb_eq _ _) E)). reflexivity.
Qed.

Lemma replace_row_bound (r' : JobRow) (rows : list JobRow) (n : nat) :
  Forall (fun r => (id r < n)%nat) rows ->
  Forall (fun r => (id r < n)%nat) (replace_row r' rows).
Proof.
  intros H. unfold replace_row. apply List.Forall_forall. intros x Hx.
  apply in_map_iff in Hx as (r & <- & Hr).
  rewrite List.Forall_forall in H.
  destruct (Nat.eqb (id r) (id r')) eqn:E; [|apply H, Hr].
  apply Nat.eqb_eq in E. rewrite <- E. apply H, Hr.
Qed.

Lemma replace_row_length (r' : JobRow) (rows : list JobRow) :
  length (replace_row r' rows) = length rows.
Proof. unfold replace_row. apply length_map. Qed.

Lemma hasAtsUpdatedAtChanged_same (old : dbJobSnapshot) (incoming : option string) :
  ats_updated_at old = incoming -> hasAtsUpdatedAtChanged (Some old) incoming = false.
Proof.
  intros E. unfold hasAtsUpdatedAtChanged. rewrite E.
  destruct (truthy incoming); cbn [negb andb orb]; [|reflexivity].
  rewrite String.eqb_refl. reflexivity.
Qed.

Lemma createSnapshotData_fields (jobId : JobId) (jobData : AdapterJob) :
  job_id (createSnapshotData jobId jobData) = jobId
  /\ ats_updated_at (createSnapshotData jobId jobData) = Types.updated_at jobData.
Proof. split; reflexivity. Qed.

Lemma truthy_true_iff (v : option string) :
  truthy v = true <-> exists s, v = Some s /\ s <> EmptyString.
Proof.
  unfold truthy. destruct v as [s|].
  - destruct (String.eqb_spec s "") as [->|Hne]; cbn [negb].
    + split; [discriminate|]. intros (s & E & Hs). congruence.
    + split; [|reflexivity]. intros _. exists s. split; [reflexivity|exact Hne].
  - split; [discriminate|]. intros (s & E & _). discriminate.
Qed.

Lemma time_gt_same (a : option Z) : time_gt a a = false.
Proof. destruct a as [x|]; [apply Z.ltb_irrefl|reflexivity]. Qed.

#[local] Opaque createSnapshotData hasAtsUpdatedAtChanged replace_row truthy time_gt.

Lemma find_some_In {A : Type} (P : A -> bool) (l : list A) (x : A) :
  List.find P l = Some x -> In x l /\ P x = true.
Proof. apply find_some. Qed.

Lemma same_key_key_of (jobDetails : AdapterJob) (r : JobRow) :
  same_key jobDetails r = true <->
  key_of r = (ats_provider jobDetails, tenant_slug jobDetails, external_job_id jobDetails).
Proof.
  unfold same_key, key_of. rewrite !andb_true_iff, !String.eqb_eq. split.
  - intros [[-> ->] ->]. reflexivity.
  - intros H. injection H as -> -> ->. repeat split.
Qed.

Lemma find_by_unique_key (jobDetails : AdapterJob) (rows : list JobRow) (r : JobRow) :
  NoDup (map key_of rows) -> In r rows -> same_key jobDetails r = true ->
  List.find (same_key jobDetails) rows = Some r.
Proof.
  intros Hnd Hin Hk. induction rows as [|x rows IH]; [destruct Hin|].
  cbn [map] in Hnd. apply NoDup_cons in Hnd as [Hx Hnd].
  cbn [List.find]. destruct (same_key jobDetails x) eqn:E.
  - destruct Hin as [->|Hin]; [reflexivity|]. exfalso. apply Hx.
    apply list_elem_of_In, in_map_iff. exists r. split; [|exact Hin].
    apply same_key_key_of in E, Hk. congruence.
  - destruct Hin as [->|Hin]; [congruence|]. apply IH; assumption.
Qed.

Lemma find_none_key (jobDetails : AdapterJob) (rows : list JobRow) :
  List.find (same_key jobDetails) rows = None ->
  ~ In (ats_provider jobDetails, tenant_slug jobDetails, external_job_id jobDetails)
       (map key_of rows).
Proof.
  intros Hnone Hin. apply in_map_iff in Hin as (r & Hk & Hr).
  apply (find_none _ _ Hnone) in Hr. apply same_key_key_of in Hk. congruence.
Qed.

Ltac no_rows := exists []; split; [symmetry; apply app_nil_r|cbn; lia].

Ltac grows_parts :=
  unfold grows;
  split; [|split; [|split; [|split; [|split; [|split; [|split; [|split]]]]]]].

Lemma grows_refl (w : World) : grows 0 0 0 0 w w.
Proof.
  unfold grows. split; [reflexivity|]. split; [reflexivity|].
  split; [exists []; reflexivity|]. do 3 (split; [no_rows|]). tauto.
Qed.

Lemma grows_weaken (nu ns nj nf nu' ns' nj' nf' : nat) (w w' : World) :
  grows nu ns nj nf w w' ->
  (nu <= nu')%nat -> (ns <= ns')%nat -> (nj <= nj')%nat -> (nf <= nf')%nat ->
  grows nu' ns' nj' nf' w w'.
Proof.
  intros (Hl & Hn & Hf & (us & Hu & Lu) & (ss & Hs & Ls) & (js & Hj & Lj) & Hk & Hz & Hok)
    H1 H2 H3 H4.
  grows_parts; try assumption.
  - exists us. split; [exact Hu|lia].
  - exists ss. split; [exact Hs|lia].
  - exists js. split; [exact Hj|lia].
  - intros ->. apply Hz. lia.
Qed.

Lemma grows_trans (nu ns nj nf nu' ns' nj' nf' : nat) (w w1 w2 : World) :
  grows nu ns nj nf w w1 -> grows nu' ns' nj' nf' w1 w2 ->
  grows (nu + nu') (ns + ns') (nj + nj') (nf + nf') w w2.
Proof.
  intros (Hl & Hn & (f1 & Hf) & (us & Hu & Lu) & (ss & Hs & Ls) & (js & Hj & Lj)
          & Hk & Hz & Hok)
         (Hl' & Hn' & (f2 & Hf') & (us' & Hu' & Lu') & (ss' & Hs' & Ls')
          & (js' & Hj' & Lj') & Hk' & Hz' & Hok').
  grows_parts.
  - congruence.
  - congruence.
  - exists (f1 ++ f2). rewrite Hf, Hf'. apply app_assoc.
  - exists (us ++ us'). rewrite Hu', Hu, length_app. split; [symmetry; apply app_assoc|lia].
  - exists (ss ++ ss'). rewrite Hs', Hs, length_app. split; [symmetry; apply app_assoc|lia].
  - exists (js ++ js'). rewrite Hj', Hj, length_app. split; [symmetry; apply app_assoc|lia].
  - intros i Hi. apply Hk', Hk, Hi.
  - intros H0. rewrite Hz', Hz by lia. reflexivity.
  - intros H. apply Hok', Hok, H.
Qed.

Lemma bind_eq {A B : Type} (m : M A) (k : A -> M B) (w : World) :
  bind m k w = k (fst (m w)) (snd (m w)).
Proof. unfold bind. destruct (m w). reflexivity. Qed.

(** The store reached when a call was answered. *)
Lemma call_cases (w : World) :
  (fst (call w) = false /\ snd (call w) = w /\ faults w = [])
  \/ (exists rest, faults w = fst (call w) :: rest /\ snd (call w) = with_faults rest w).
Proof.
  unfold call. destruct (faults w) as [|f rest] eqn:E.
  - left. repeat split.
  - right. exists rest. split; reflexivity.
Qed.

Lemma grows_with_faults (w : World) (f : bool) (rest : list bool) :
  faults w = f :: rest -> grows 0 0 0 0 w (with_faults rest w).
Proof.
  intros E. unfold grows. split; [reflexivity|]. split; [reflexivity|].
  split; [exists [f]; exact E|]. do 3 (split; [no_rows|]).
  split; [tauto|]. split; [reflexivity|]. tauto.
Qed.

Lemma call_grows (w : World) : grows 0 0 0 0 w (snd (call w)).
Proof.
  destruct (call_cases w) as [(_ & -> & _)|(rest & E & ->)].
  - apply grows_refl.
  - eapply grows_with_faults, E.
Qed.

Lemma call_jobs (w : World) :
  jobs (snd (call w)) = jobs w /\ next_id (snd (call w)) = next_id w
  /\ job_snapshots (snd (call w)) = job_snapshots w
  /\ job_features (snd (call w)) = job_features w
  /\ job_updates (snd (call w)) = job_updates w.
Proof.
  destruct (call_cases w) as [(_ & -> & _)|(rest & E & ->)]; repeat split.
Qed.

Lemma grows_bind (a b c d a' b' c' d' nu ns nj nf : nat) (w w1 w2 : World) :
  grows a b c d w w1 -> grows a' b' c' d' w1 w2 ->
  (a + a' <= nu)%nat -> (b + b' <= ns)%nat -> (c + c' <= nj)%nat ->
  (d + d' <= nf)%nat ->
  grows nu ns nj nf w w2.
Proof.
  intros H1 H2 Ha Hb Hc Hd.
  apply (grows_weaken _ _ _ _ _ _ _ _ _ _ (grows_trans _ _ _ _ _ _ _ _ _ _ _ H1 H2));
    assumption.
Qed.

Lemma grows_logged (e : Write) (w : World) : grows 0 0 0 0 w (logged e w).
Proof.
  grows_parts; try reflexivity; try no_rows; try tauto.
  exists []. reflexivity.
Qed.

Lemma grows_update_inserted (row : JobUpdateRow) (w : World) :
  grows 1 0 0 0 w (update_inserted row w).
Proof.
  grows_parts; try reflexivity; try no_rows; try tauto.
  - exists []. reflexivity.
  - exists [row]. split; [reflexivity|cbn; lia].
Qed.

Lemma grows_snapshot_inserted (snapshot : dbJobSnapshot) (w : World) :
  grows 0 1 0 0 w (snapshot_inserted snapshot w).
Proof.
  grows_parts; try reflexivity; try no_rows; try tauto.
  - exists []. reflexivity.
  - exists [stamped (now w) snapshot]. split; [reflexivity|cbn; lia].
Qed.

Lemma grows_features_upserted (job_Id : JobId) (f : dbJobFeatures) (w : World) :
  grows 0 0 0 1 w (features_upserted job_Id f w).
Proof.
  grows_parts; try reflexivity; try no_rows; try tauto.
  - exists []. reflexivity.
  - intros i Hi. cbn. destruct (decide (i = job_Id)) as [->|Hne].
    + rewrite lookup_insert_eq. eexists. reflexivity.
    + rewrite lookup_insert_ne by congruence. exact Hi.
  - discriminate.
Qed.

Lemma NoDup_ids_In (rows : list JobRow) (x r : JobRow) :
  NoDup (map id rows) -> In x rows -> In r rows -> id x = id r -> x = r.
Proof.
  intros Hnd. induction rows as [|y rows IH]; [intros []|].
  cbn [map] in Hnd. apply NoDup_cons in Hnd as [Hy Hnd].
  intros [->|Hx] [->|Hr] E.
  - reflexivity.
  - exfalso. apply Hy. rewrite E. apply list_elem_of_In, in_map. exact Hr.
  - exfalso. apply Hy. rewrite <- E. apply list_elem_of_In, in_map. exact Hx.
  - apply IH; assumption.
Qed.

Lemma grows_row_replaced (r r' : JobRow) (w : World) :
  In r (jobs w) -> id r' = id r -> key_of r' = key_of r ->
  grows 0 0 0 0 w (with_jobs (replace_row r' (jobs w)) (next_id w) w).
Proof.
  intros Hin Hid Hkey.
  grows_parts; try reflexivity; try tauto.
  - exists []. reflexivity.
  - no_rows.
  - no_rows.
  - exists []. cbn. rewrite replace_row_ids. split; [symmetry; apply app_nil_r|cbn; lia].
  - intros (Hi & Hk & Hb). unfold store_ok. cbn.
    rewrite replace_row_ids, replace_row_keys.
    + split; [exact Hi|]. split; [exact Hk|]. apply replace_row_bound, Hb.
    + intros x Hx E. rewrite Hkey. f_equal.
      apply (NoDup_ids_In (jobs w)); [exact Hi|exact Hx|exact Hin|congruence].
Qed.

Lemma grows_job_inserted (adapterJob : AdapterJob) (w : World) :
  find_by_key adapterJob w = None -> grows 0 0 1 0 w (job_inserted adapterJob w).
Proof.
  intros Hnone.
  grows_parts; try reflexivity; try tauto.
  - exists []. reflexivity.
  - no_rows.
  - no_rows.
  - exists [next_id w]. cbn. rewrite map_app. split; [reflexivity|cbn; lia].
  - intros (Hi & Hk & Hb). unfold store_ok. cbn. rewrite !map_app. cbn [map].
    split; [|split].
    + apply NoDup_app. split; [exact Hi|]. split; [|apply NoDup_singleton].
      intros i Hi1 Hi2. apply list_elem_of_In in Hi1, Hi2.
      destruct Hi2 as [<-|[]]. apply in_map_iff in Hi1 as (x & E & Hx).
      rewrite List.Forall_forall in Hb. specialize (Hb x Hx). cbn in E. lia.
    + apply NoDup_app. split; [exact Hk|]. split; [|apply NoDup_singleton].
      intros k Hk1 Hk2. apply list_elem_of_In in Hk1, Hk2.
      destruct Hk2 as [<-|[]]. revert Hk1. apply (find_none_key adapterJob), Hnone.
    + apply Forall_app. split.
      * eapply Forall_impl; [exact Hb|]. cbn. intros x Hx. lia.
      * apply Forall_cons. split; [cbn; lia|apply Forall_nil_2].
Qed.

Lemma insert_job_update_grows (row : JobUpdateRow) (w : World) :
  grows 1 0 0 0 w (snd (insert_job_update row w))
  /\ jobs (snd (insert_job_update row w)) = jobs w.
Proof.
  unfold insert_job_update. rewrite bind_eq.
  pose proof (call_grows w) as Hc. pose proof (call_jobs w) as (Hj & _).
  destruct (fst (call w)); cbn [ret snd].
  - split; [|exact Hj]. eapply grows_weaken; [exact Hc|lia..].
  - split; [|exact Hj].
    eapply grows_bind; [exact Hc|apply grows_update_inserted|lia..].
Qed.

Lemma touch_last_seen_grows (job_Id : JobId) (w : World) :
  grows 0 0 0 0 w (snd (touch_last_seen job_Id w)).
Proof.
  unfold touch_last_seen. rewrite bind_eq.
  pose proof (call_grows w) as Hc.
  destruct (fst (call w)); cbn [ret snd]; [exact Hc|].
  destruct (find_by_id job_Id (snd (call w))) as [r|] eqn:E; cbn [snd]; [|exact Hc].
  apply find_some_In in E as [Hin Hid].
  eapply grows_weaken;
    [eapply grows_trans;
       [exact Hc
       |eapply grows_trans;
          [apply (grows_row_replaced r
                    {| id := id r; job := job r; is_active := is_active r;
                       last_seen := Some (now (snd (call w))) |}
                    (snd (call w)) Hin); reflexivity
          |apply grows_logged]]
    |lia..].
Qed.

Lemma grows_updates_same (ns nj nf : nat) (w w' : World) :
  grows 0 ns nj nf w w' -> job_updates w' = job_updates w.
Proof.
  intros (_ & _ & _ & (us & -> & L) & _). destruct us; [apply app_nil_r|cbn in L; lia].
Qed.

Lemma grows_snapshots_same (nu nj nf : nat) (w w' : World) :
  grows nu 0 nj nf w w' -> job_snapshots w' = job_snapshots w.
Proof.
  intros (_ & _ & _ & _ & (ss & -> & L) & _). destruct ss; [apply app_nil_r|cbn in L; lia].
Qed.

Lemma grows_ids_same (nu ns nf : nat) (w w' : World) :
  grows nu ns 0 nf w w' -> map id (jobs w') = map id (jobs w).
Proof.
  intros (_ & _ & _ & _ & _ & (js & -> & L) & _).
  destruct js; [apply app_nil_r|cbn in L; lia].
Qed.

Lemma grows_features_same (nu ns nj : nat) (w w' : World) :
  grows nu ns nj 0 w w' -> job_features w' = job_features w.
Proof. intros (_ & _ & _ & _ & _ & _ & _ & H & _). apply H. reflexivity. Qed.

Lemma grows_no_faults (nu ns nj nf : nat) (w w' : World) :
  grows nu ns nj nf w w' -> faults w = [] -> faults w' = [].
Proof.
  intros (_ & _ & (used & E) & _) H. rewrite H in E. symmetry in E.
  apply app_eq_nil in E. apply E.
Qed.

Lemma insert_job_update_result (row : JobUpdateRow) (w : World) :
  job_updates (snd (insert_job_update row w)) =
  job_updates w ++ (if fst (insert_job_update row w) then [] else [row]).
Proof.
  unfold insert_job_update. rewrite bind_eq.
  pose proof (call_jobs w) as (_ & _ & _ & _ & Hu).
  destruct (fst (call w)); cbn [ret snd fst].
  - rewrite Hu. symmetry. apply app_nil_r.
  - cbn. rewrite Hu. reflexivity.
Qed.

Section UpdateFacts.

Variable Date_getTime : string -> option Z.

Lemma InsertToJobUpdatesTable_grows (job_Id : JobId) (jobDetails : AdapterJob)
  (w : World) :
  grows 1 0 0 0 w (snd (InsertToJobUpdatesTable Date_getTime job_Id jobDetails w)).
Proof.
  unfold InsertToJobUpdatesTable. cbn zeta. rewrite bind_eq.
  pose proof (call_grows w) as Hc.
  assert (H0 : grows 1 0 0 0 w (snd (call w)))
    by (eapply grows_weaken; [exact Hc|lia..]).
  set (w1 := snd (call w)) in *.
  destruct (if fst (call w) then None else find_by_id job_Id w1) as [jobRow|];
    [|exact H0].
  destruct (truthy (Types.updated_at jobDetails)); cbn [negb]; [|exact H0].
  destruct (truthy (Types.updated_at (job jobRow))); cbn [negb].
  - rewrite bind_eq.
    destruct (time_gt _ _).
    + rewrite !bind_eq. cbn [ret fst snd].
      eapply grows_weaken;
        [eapply grows_trans;
           [exact Hc
           |eapply grows_trans;
              [apply insert_job_update_grows|apply touch_last_seen_grows]]
        |lia..].
    + rewrite !bind_eq. cbn [ret fst snd].
      eapply grows_weaken;
        [eapply grows_trans; [exact Hc|apply touch_last_seen_grows]|lia..].
  - rewrite !bind_eq. cbn [ret fst snd].
    eapply grows_weaken;
      [eapply grows_trans;
         [exact Hc
         |eapply grows_trans;
            [apply insert_job_update_grows|apply touch_last_seen_grows]]
      |lia..].
Qed.

Lemma InsertToJobUpdatesTable_result (job_Id : JobId) (jobDetails : AdapterJob)
  (w : World) :
  let r := InsertToJobUpdatesTable Date_getTime job_Id jobDetails w in
  job_updates (snd r) =
    job_updates w
    ++ (if fst r
        then [ {| update_job_id := job_Id;
                  update_ats_updated_at :=
                    default EmptyString (Types.updated_at jobDetails) |} ]
        else [])
  /\ (fst r = true ->
      exists jobRow, find_by_id job_Id w = Some jobRow
        /\ update_recorded Date_getTime (Types.updated_at (job jobRow))
             (Types.updated_at jobDetails) = true).
Proof.
  cbn zeta. unfold InsertToJobUpdatesTable, update_recorded. cbn zeta. rewrite bind_eq.
  pose proof (call_jobs w) as (Hj & _ & _ & _ & Hu).
  assert (Hfind : forall i, find_by_id i (snd (call w)) = find_by_id i w)
    by (intros i; unfold find_by_id; rewrite Hj; reflexivity).
  set (w1 := snd (call w)) in *.
  destruct (if fst (call w) then None else find_by_id job_Id w1) as [jobRow|] eqn:E.
  2:{ cbn [fst snd]. rewrite Hu. split; [symmetry; apply app_nil_r|discriminate]. }
  assert (Hrow : find_by_id job_Id w = Some jobRow).
  { destruct (fst (call w)); [discriminate|]. rewrite <- Hfind. exact E. }
  destruct (truthy (Types.updated_at jobDetails)); cbn [negb].
  2:{ cbn [fst snd]. rewrite Hu. split; [symmetry; apply app_nil_r|discriminate]. }
  destruct (truthy (Types.updated_at (job jobRow))) eqn:Ts; cbn [negb].
  - rewrite bind_eq.
    destruct (time_gt _ _) eqn:Tg.
    + rewrite !bind_eq. cbn [ret fst snd].
      rewrite (grows_updates_same _ _ _ _ _ (touch_last_seen_grows job_Id _)).
      rewrite insert_job_update_result, Hu.
      destruct (fst (insert_job_update _ w1)); cbn [negb]; split;
        try reflexivity; try discriminate.
      intros _. exists jobRow. rewrite Ts. cbn [negb]. split; [exact Hrow|exact Tg].
    + rewrite !bind_eq. cbn [ret fst snd].
      rewrite (grows_updates_same _ _ _ _ _ (touch_last_seen_grows job_Id _)), Hu.
      split; [symmetry; apply app_nil_r|discriminate].
  - rewrite !bind_eq. cbn [ret fst snd].
    rewrite (grows_updates_same _ _ _ _ _ (touch_last_seen_grows job_Id _)).
    rewrite insert_job_update_result, Hu.
    destruct (fst (insert_job_update _ w1)); cbn [negb]; split;
      try reflexivity; try discriminate.
    intros _. exists jobRow. rewrite Ts. split; [exact Hrow|reflexivity].
Qed.

(** [InsertToJobUpdatesTable] answers [true] exactly when it appended a row
    to [job_updates], whatever calls the store refuses, and the row holds
    the incoming [updated_at].  It answers [true] only for a job row that
    was found and an incoming [updated_at] that is not empty; and when the
    stored [updated_at] is not empty either, only when both parse as dates
    and the incoming one is strictly later.  (A missing or empty stored
    [updated_at] does not hold the row back.) *)
Theorem update_row_iff_returned_true (job_Id : JobId) (jobDetails : AdapterJob)
  (w : World) :
  let r := InsertToJobUpdatesTable Date_getTime job_Id jobDetails w in
  job_updates (snd r) =
    job_updates w
    ++ (if fst r
        then [ {| update_job_id := job_Id;
                  update_ats_updated_at :=
                    default EmptyString (Types.updated_at jobDetails) |} ]
        else [])
  /\ (fst r = true ->
      exists (jobRow : JobRow) (incoming : string),
        find_by_id job_Id w = Some jobRow
        /\ Types.updated_at jobDetails = Some incoming /\ incoming <> EmptyString
        /\ forall stored : string,
             Types.updated_at (job jobRow) = Some stored -> stored <> EmptyString ->
             exists t_in t_old : Z,
               Date_getTime incoming = Some t_in /\ Date_getTime stored = Some t_old
               /\ (t_old < t_in)%Z).
Proof.
  cbn zeta. destruct (InsertToJobUpdatesTable_result job_Id jobDetails w) as [Hrows Htrue].
  split; [exact Hrows|]. intros Hr. destruct (Htrue Hr) as (jobRow & Hfind & Hrec).
  unfold update_recorded in Hrec.
  destruct (truthy (Types.updated_at jobDetails)) eqn:Ti; cbn [negb] in Hrec;
    [|discriminate].
  apply truthy_true_iff in Ti as (incoming & Ei & Hne).
  exists jobRow, incoming. split; [exact Hfind|]. split; [exact Ei|]. split; [exact Hne|].
  intros stored Es Hs.
  assert (Ts : truthy (Types.updated_at (job jobRow)) = true)
    by (apply truthy_true_iff; exists stored; split; assumption).
  rewrite Ts in Hrec. cbn [negb] in Hrec. rewrite Ei, Es in Hrec.
  apply time_gt_iff in Hrec as (x & y & Hx & Hy & Hlt).
  exists x, y. split; [exact Hx|]. split; [exact Hy|exact Hlt].
Qed.

End UpdateFacts.

Lemma insertIntoJobTable_grows (jobDetails : AdapterJob) (w : World) :
  let r := insertIntoJobTable jobDetails w in
  grows 0 0 1 0 w (snd r)
  /\ match fst r with
     | Some i =>
         exists seen,
           In {| id := i; job := jobDetails; is_active := true; last_seen := seen |}
              (jobs (snd r))
     | None => grows 0 0 0 0 w (snd r) /\ jobs (snd r) = jobs w
     end.
Proof.
  cbn zeta. unfold insertIntoJobTable. rewrite bind_eq.
  pose proof (call_grows w) as Hc. pose proof (call_jobs w) as (Hj & _).
  destruct (fst (call w)); cbn [ret snd fst].
  - split; [eapply grows_weaken; [exact Hc|lia..]|split; [exact Hc|exact Hj]].
  - set (w1 := snd (call w)) in *.
    destruct (find_by_key jobDetails w1) as [r|] eqn:E; cbn [fst snd].
    + apply find_some_In in E as [Hin Hk]. split.
      * eapply grows_weaken;
          [eapply grows_trans;
             [exact Hc
             |eapply grows_trans;
                [apply (grows_row_replaced r
                          {| id := id r; job := jobDetails; is_active := true;
                             last_seen := last_seen r |} w1 Hin); [reflexivity|]
                |apply grows_logged]]
          |lia..].
        apply same_key_key_of in Hk. rewrite Hk. reflexivity.
      * exists (last_seen r). cbn. apply (replace_row_In r); [exact Hin|reflexivity].
    + split.
      * eapply grows_weaken;
          [eapply grows_trans; [exact Hc|apply (grows_job_inserted _ _ E)]|lia..].
      * exists None. cbn. apply in_or_app. right. left. reflexivity.
Qed.

Lemma InsertIntoJobFeaturesTable_grows (job_Id : JobId) (f : dbJobFeatures) (w : World) :
  grows 0 0 0 1 w (snd (InsertIntoJobFeaturesTable job_Id f w))
  /\ jobs (snd (InsertIntoJobFeaturesTable job_Id f w)) = jobs w.
Proof.
  unfold InsertIntoJobFeaturesTable. rewrite bind_eq.
  pose proof (call_grows w) as Hc. pose proof (call_jobs w) as (Hj & _).
  destruct (fst (call w)); cbn [ret snd].
  - split; [eapply grows_weaken; [exact Hc|lia..]|exact Hj].
  - split; [|exact Hj].
    eapply grows_weaken;
      [eapply grows_trans; [exact Hc|apply grows_features_upserted]|lia..].
Qed.

Lemma createJobSnapshot_grows (snapshot : dbJobSnapshot) (w : World) :
  grows 0 1 0 0 w (snd (createJobSnapshot snapshot w))
  /\ jobs (snd (createJobSnapshot snapshot w)) = jobs w.
Proof.
  unfold createJobSnapshot. rewrite bind_eq.
  pose proof (call_grows w) as Hc. pose proof (call_jobs w) as (Hj & _).
  destruct (fst (call w)); cbn [ret snd].
  - split; [eapply grows_weaken; [exact Hc|lia..]|exact Hj].
  - split; [|exact Hj].
    eapply grows_weaken;
      [eapply grows_trans; [exact Hc|apply (grows_snapshot_inserted snapshot)]|lia..].
Qed.

Lemma getLatestSnapshotForJob_grows (jobId : JobId) (w : World) :
  grows 0 0 0 0 w (snd (getLatestSnapshotForJob jobId w))
  /\ jobs (snd (getLatestSnapshotForJob jobId w)) = jobs w.
Proof.
  unfold getLatestSnapshotForJob. rewrite bind_eq.
  pose proof (call_grows w) as Hc. pose proof (call_jobs w) as (Hj & _).
  destruct (fst (call w)); cbn [ret snd]; split; assumption.
Qed.

(** What a read leaves behind: the store as it was, with the calls it made
    answered. *)
Lemma getJobByCompositeKey_quiet (jobDetails : AdapterJob) (w : World) :
  let r := getJobByCompositeKey jobDetails w in
  (snd r = w \/ exists rest, snd r = with_faults rest w)
  /\ grows 0 0 0 0 w (snd r)
  /\ match fst r with
     | Some (row, feats) =>
         find_by_key jobDetails w = Some row /\ feats = job_features w !! id row
     | None => True
     end.
Proof.
  cbn zeta. unfold getJobByCompositeKey. rewrite bind_eq.
  pose proof (call_grows w) as Hc.
  destruct (call_cases w) as [(E1 & E2 & _)|(rest & E1 & E2)]; rewrite E2 in *.
  - rewrite E1. cbn [snd fst]. split; [left; reflexivity|]. split; [exact Hc|].
    destruct (find_by_key jobDetails w); cbn; [split; reflexivity|exact I].
  - destruct (fst (call w)); cbn [ret snd fst].
    + split; [right; exists rest; reflexivity|]. split; [exact Hc|exact I].
    + split; [right; exists rest; reflexivity|]. split; [exact Hc|].
      change (find_by_key jobDetails (with_faults rest w))
        with (find_by_key jobDetails w).
      destruct (find_by_key jobDetails w); cbn; [split; reflexivity|exact I].
Qed.

Lemma snapshot_step_grows (existingJob : option (JobRow * option dbJobFeatures))
  (jobId : JobId) (adapterJob : AdapterJob) (w : World) :
  grows 0 1 0 0 w (snd (snapshot_step existingJob jobId adapterJob w))
  /\ jobs (snd (snapshot_step existingJob jobId adapterJob w)) = jobs w.
Proof.
  unfold snapshot_step. cbn zeta.
  pose proof (fun s w => proj1 (createJobSnapshot_grows s w)) as Hs.
  pose proof (fun s w => proj2 (createJobSnapshot_grows s w)) as Hsj.
  destruct existingJob as [e|].
  - rewrite bind_eq.
    pose proof (getLatestSnapshotForJob_grows jobId w) as [Hg Hgj].
    destruct (fst (getLatestSnapshotForJob jobId w)) as [latest|].
    + destruct (hasAtsUpdatedAtChanged _ _).
      * rewrite bind_eq. cbn [ret snd]. split; [|rewrite Hsj; exact Hgj].
        eapply grows_weaken; [eapply grows_trans; [exact Hg|apply Hs]|lia..].
      * cbn [ret snd]. split; [|exact Hgj]. eapply grows_weaken; [exact Hg|lia..].
    + rewrite bind_eq. cbn [ret snd]. split; [|rewrite Hsj; exact Hgj].
      eapply grows_weaken; [eapply grows_trans; [exact Hg|apply Hs]|lia..].
  - rewrite bind_eq. cbn [ret snd]. split; [apply Hs|apply Hsj].
Qed.

Section PersistFacts.

Variable Date_getTime : string -> option Z.
Variable analyzeAdapterJob : AdapterJob -> dbJobFeatures.

Lemma reingest_cases (existingJob : option (JobRow * option dbJobFeatures))
  (adapterJob : AdapterJob) (w : World) :
  let r := reingest Date_getTime analyzeAdapterJob existingJob adapterJob w in
  match fst r with
  | Saved i =>
      grows 1 1 1 1 w (snd r)
      /\ (exists seen,
            In {| id := i; job := adapterJob; is_active := true; last_seen := seen |}
               (jobs (snd r)))
      /\ exists w3, grows 1 0 1 1 w w3
           /\ snd r = snd (snapshot_step existingJob i adapterJob w3)
  | SaveFailed => grows 1 0 0 0 w (snd r)
  | _ => False
  end.
Proof.
  cbn zeta. unfold reingest, InsertStructuredJobFeatures. cbn zeta.
  destruct existingJob as [[r feats]|].
  - rewrite !bind_eq. cbn [ret fst snd].
    pose proof (InsertToJobUpdatesTable_grows Date_getTime (id r) adapterJob w) as H1.
    set (w1 := snd (InsertToJobUpdatesTable Date_getTime (id r) adapterJob w)) in *.
    pose proof (insertIntoJobTable_grows adapterJob w1) as [H2 H2'].
    destruct (fst (insertIntoJobTable adapterJob w1)) as [jobId|].
    + rewrite !bind_eq. cbn [ret fst snd].
      set (w2 := snd (insertIntoJobTable adapterJob w1)) in *.
      pose proof (InsertIntoJobFeaturesTable_grows jobId (analyzeAdapterJob adapterJob) w2)
        as [H3 H3'].
      set (w3 := snd (InsertIntoJobFeaturesTable jobId (analyzeAdapterJob adapterJob) w2))
        in *.
      pose proof (snapshot_step_grows (Some (r, feats)) jobId adapterJob w3) as [H4 H4'].
      split.
      * eapply grows_weaken;
          [eapply grows_trans;
             [exact H1
             |eapply grows_trans; [exact H2|eapply grows_trans; [exact H3|exact H4]]]
          |lia..].
      * split; [rewrite H4', H3'; exact H2'|]. exists w3. split; [|reflexivity].
        eapply grows_weaken;
          [eapply grows_trans; [exact H1|eapply grows_trans; [exact H2|exact H3]]
          |lia..].
    + cbn [ret fst snd]. destruct H2' as [H2' _].
      eapply grows_weaken; [eapply grows_trans; [exact H1|exact H2']|lia..].
  - rewrite !bind_eq. cbn [ret fst snd].
    pose proof (insertIntoJobTable_grows adapterJob w) as [H2 H2'].
    destruct (fst (insertIntoJobTable adapterJob w)) as [jobId|].
    + set (w2 := snd (insertIntoJobTable adapterJob w)) in *.
      assert (H1 : exists w2', grows 1 0 0 0 w2 w2' /\ jobs w2' = jobs w2
                /\ w2' = snd ((if truthy (Types.updated_at adapterJob)
                               then let! _ :=
                                      insert_job_update
                                        {| update_job_id := jobId;
                                           update_ats_updated_at :=
                                             default EmptyString
                                               (Types.updated_at adapterJob) |} in
                                    ret tt
                               else ret tt) w2)).
      { eexists. split; [|split; [|reflexivity]].
        - destruct (truthy (Types.updated_at adapterJob)).
          + rewrite bind_eq. cbn [ret snd]. apply insert_job_update_grows.
          + cbn [ret snd]. eapply grows_weaken; [apply grows_refl|lia..].
        - destruct (truthy (Types.updated_at adapterJob)).
          + rewrite bind_eq. cbn [ret snd]. apply insert_job_update_grows.
          + reflexivity. }
      destruct H1 as (w2' & H1 & H1' & E).
      rewrite !bind_eq. cbn [ret fst snd]. rewrite <- E.
      pose proof (InsertIntoJobFeaturesTable_grows jobId (analyzeAdapterJob adapterJob) w2')
        as [H3 H3'].
      set (w3 := snd (InsertIntoJobFeaturesTable jobId (analyzeAdapterJob adapterJob) w2'))
        in *.
      pose proof (snapshot_step_grows None jobId adapterJob w3) as [H4 H4'].
      split.
      * eapply grows_weaken;
          [eapply grows_trans;
             [exact H2
             |eapply grows_trans; [exact H1|eapply grows_trans; [exact H3|exact H4]]]
          |lia..].
      * split; [rewrite H4', H3', H1'; exact H2'|]. exists w3. split; [|reflexivity].
        eapply grows_weaken;
          [eapply grows_trans; [exact H2|eapply grows_trans; [exact H1|exact H3]]
          |lia..].
    + cbn [ret fst snd]. destruct H2' as [H2' _].
      eapply grows_weaken; [exact H2'|lia..].
Qed.

Lemma analyzeJob_cases (adapterJob : AdapterJob) (w : World) :
  let r := analyzeJob Date_getTime analyzeAdapterJob adapterJob w in
  grows 1 1 1 1 w (snd r)
  /\ match fst r with
     | Ephemeral =>
         ats_provider adapterJob <> "greenhouse"%string /\ same_tables w (snd r)
     | UsedCache i =>
         ats_provider adapterJob = "greenhouse"%string /\ same_tables w (snd r)
         /\ exists row, find_by_key adapterJob w = Some row /\ id row = i
              /\ isJobFresh (now w) row = true /\ is_Some (job_features w !! i)
     | SaveFailed =>
         ats_provider adapterJob = "greenhouse"%string /\ grows 1 0 0 0 w (snd r)
     | Saved i =>
         ats_provider adapterJob = "greenhouse"%string
         /\ (exists seen,
               In {| id := i; job := adapterJob; is_active := true;
                     last_seen := seen |}
                  (jobs (snd r)))
         /\ exists e w3, grows 1 0 1 1 w w3
              /\ snd r = snd (snapshot_step e i adapterJob w3)
     end.
Proof.
  cbn zeta. unfold analyzeJob. rewrite bind_eq.
  pose proof (getJobByCompositeKey_quiet adapterJob w) as (Hq & Hg & Hrow).
  set (existingJob := fst (getJobByCompositeKey adapterJob w)) in *.
  set (w1 := snd (getJobByCompositeKey adapterJob w)) in *.
  assert (Hsame : same_tables w w1).
  { destruct Hq as [->|(rest & ->)]; repeat split. }
  assert (Hg1 : grows 1 1 1 1 w w1) by (eapply grows_weaken; [exact Hg|lia..]).
  destruct (String.eqb (ats_provider adapterJob) "greenhouse") eqn:Egh.
  2:{ cbn [ret fst snd]. apply String.eqb_neq in Egh.
      split; [exact Hg1|split; [exact Egh|exact Hsame]]. }
  apply String.eqb_eq in Egh.
  pose proof (reingest_cases existingJob adapterJob w1) as Hre. cbn zeta in Hre.
  set (out := reingest Date_getTime analyzeAdapterJob existingJob adapterJob w1) in *.
  assert (Hout : grows 1 1 1 1 w (snd out)
                 /\ match fst out with
                    | Ephemeral =>
                        ats_provider adapterJob <> "greenhouse"%string
                        /\ same_tables w (snd out)
                    | UsedCache i =>
                        ats_provider adapterJob = "greenhouse"%string
                        /\ same_tables w (snd out)
                        /\ exists row, find_by_key adapterJob w = Some row /\ id row = i
                             /\ isJobFresh (now w) row = true
                             /\ is_Some (job_features w !! i)
                    | SaveFailed =>
                        ats_provider adapterJob = "greenhouse"%string
                        /\ grows 1 0 0 0 w (snd out)
                    | Saved i =>
                        ats_provider adapterJob = "greenhouse"%string
                        /\ (exists seen,
                              In {| id := i; job := adapterJob; is_active := true;
                                    last_seen := seen |}
                                 (jobs (snd out)))
                        /\ exists e w3, grows 1 0 1 1 w w3
                             /\ snd out = snd (snapshot_step e i adapterJob w3)
                    end).
  { destruct (fst out); try contradiction.
    - destruct Hre as (H & Hin & w3 & H3 & E3).
      split; [|split; [exact Egh|split; [exact Hin|]]].
      + eapply grows_weaken; [eapply grows_trans; [exact Hg|exact H]|lia..].
      + exists existingJob, w3. split; [|exact E3].
        eapply grows_weaken; [eapply grows_trans; [exact Hg|exact H3]|lia..].
    - split; [|split; [exact Egh|]].
      + eapply grows_weaken; [eapply grows_trans; [exact Hg|exact Hre]|lia..].
      + eapply grows_weaken; [eapply grows_trans; [exact Hg|exact Hre]|lia..]. }
  clearbody out.
  destruct existingJob as [[row [feats|]]|]; try exact Hout.
  destruct (isJobFresh (now w1) row) eqn:Ef; [|exact Hout].
  cbn [fst snd]. split; [exact Hg1|]. split; [exact Egh|]. split; [exact Hsame|].
  destruct Hrow as [Hfind Hfeat]. exists row. split; [exact Hfind|].
  split; [reflexivity|]. split.
  - destruct Hsame as (_ & _ & _ & _ & _ & _ & Hn & _). rewrite <- Hn. exact Ef.
  - rewrite <- Hfeat. eexists. reflexivity.
Qed.

(** Whatever calls the store refuses, the persistence part of [analyzeJob]
    only adds to the history: [job_updates] and [job_snapshots] keep their
    rows and gain one row each at most, at the end; the job ids are kept
    and one is added at most; no job loses its features; the lock table
    and the clock are not touched; and ids and composite keys that were
    unique stay unique. *)
Theorem analyzeJob_appends_only (adapterJob : AdapterJob) (w : World) :
  grows 1 1 1 1 w (snd (analyzeJob Date_getTime analyzeAdapterJob adapterJob w)).
Proof. apply (analyzeJob_cases adapterJob w). Qed.

(** How the persistence part of [analyzeJob] ends, whatever calls the store
    refuses.  A job that is not from Greenhouse, and no other, is left
    unstored, with every table as it was.  The cache is used only for a
    stored job with features that was seen less than 24 hours ago, and
    then no table changes.  When the upsert fails, no features and no
    snapshot are written and no job is added.  When the job is saved under
    an id, the [jobs] table holds the scraped job under that id, active. *)
Theorem analyzeJob_outcomes (adapterJob : AdapterJob) (w : World) :
  let r := analyzeJob Date_getTime analyzeAdapterJob adapterJob w in
  match fst r with
  | Ephemeral =>
      ats_provider adapterJob <> "greenhouse"%string /\ same_tables w (snd r)
  | UsedCache i =>
      ats_provider adapterJob = "greenhouse"%string /\ same_tables w (snd r)
      /\ exists row, find_by_key adapterJob w = Some row /\ id row = i
           /\ isJobFresh (now w) row = true /\ is_Some (job_features w !! i)
  | SaveFailed =>
      ats_provider adapterJob = "greenhouse"%string
      /\ job_features (snd r) = job_features w
      /\ job_snapshots (snd r) = job_snapshots w
      /\ map id (jobs (snd r)) = map id (jobs w)
  | Saved i =>
      ats_provider adapterJob = "greenhouse"%string
      /\ exists seen,
           In {| id := i; job := adapterJob; is_active := true; last_seen := seen |}
              (jobs (snd r))
  end.
Proof.
  cbn zeta. pose proof (analyzeJob_cases adapterJob w) as [_ H]. cbn zeta in H.
  destruct (fst (analyzeJob Date_getTime analyzeAdapterJob adapterJob w));
    try exact H.
  - destruct H as (Egh & Hin & _). split; [exact Egh|exact Hin].
  - destruct H as [Egh H]. split; [exact Egh|].
    split; [apply (grows_features_same _ _ _ _ _ H)|].
    split; [apply (grows_snapshots_same _ _ _ _ _ H)
           |apply (grows_ids_same _ _ _ _ _ H)].
Qed.

End PersistFacts.

Lemma same_key_row (adapterJob : AdapterJob) (i : JobId) (a : bool) (seen : option Z) :
  same_key adapterJob
    {| id := i; job := adapterJob; is_active := a; last_seen := seen |} = true.
Proof. unfold same_key. cbn. rewrite !String.eqb_refl. reflexivity. Qed.

Lemma store_ok_find_by_key (adapterJob : AdapterJob) (w : World) (seen : option Z)
  (i : JobId) :
  store_ok w ->
  In {| id := i; job := adapterJob; is_active := true; last_seen := seen |} (jobs w) ->
  find_by_key adapterJob w =
    Some {| id := i; job := adapterJob; is_active := true; last_seen := seen |}.
Proof.
  intros (_ & Hk & _) Hin. apply find_by_unique_key; [exact Hk|exact Hin|].
  apply same_key_row.
Qed.

(** The upsert and the lookup by composite key agree.  In a store whose ids
    and keys are unique and that answers, [insertIntoJobTable] returns the
    id of a row that [getJobByCompositeKey] then finds under the job's key,
    holding the job as given, active.  A job whose key is stored keeps its
    id and its [last_seen] and the table keeps its size; a new key gets the
    next id at the end of the table.  Rows of other keys are as they were,
    and ids and keys are still unique. *)
Theorem upsert_then_lookup (jobDetails : AdapterJob) (w : World) :
  store_ok w -> faults w = [] ->
  let r := insertIntoJobTable jobDetails w in
  exists row,
    fst r = Some (id row)
    /\ job row = jobDetails /\ is_active row = true
    /\ fst (getJobByCompositeKey jobDetails (snd r)) =
         Some (row, job_features w !! id row)
    /\ match find_by_key jobDetails w with
       | Some old =>
           id row = id old /\ last_seen row = last_seen old
           /\ length (jobs (snd r)) = length (jobs w)
       | None =>
           id row = next_id w /\ last_seen row = None
           /\ jobs (snd r) = jobs w ++ [row]
       end
    /\ List.filter (fun x => negb (same_key jobDetails x)) (jobs (snd r)) =
       List.filter (fun x => negb (same_key jobDetails x)) (jobs w)
    /\ store_ok (snd r).
Proof.
  intros Hok Hf. cbn zeta.
  pose proof (insertIntoJobTable_grows jobDetails w) as [Hg _]. cbn zeta in Hg.
  pose proof (grows_no_faults _ _ _ _ _ _ Hg Hf) as Hf'.
  assert (Hok' : store_ok (snd (insertIntoJobTable jobDetails w))) by (apply Hg, Hok).
  rewrite (getJobByCompositeKey_run _ _ Hf'). cbn [fst].
  revert Hok' Hf'. rewrite (insertIntoJobTable_run jobDetails w Hf).
  destruct (find_by_key jobDetails w) as [old|] eqn:E; cbn [fst snd]; intros Hok' Hf'.
  - apply find_some_In in E as [Hin Hk].
    exists {| id := id old; job := jobDetails; is_active := true;
              last_seen := last_seen old |}.
    split; [reflexivity|]. split; [reflexivity|]. split; [reflexivity|]. split.
    { rewrite (store_ok_find_by_key jobDetails _ (last_seen old) (id old) Hok').
      - reflexivity.
      - cbn. apply (replace_row_In old); [exact Hin|reflexivity]. }
    split; [repeat split; cbn; apply replace_row_length|].
    split; [|exact Hok'].
    cbn. apply replace_row_other.
    + intros x Hx Hid. cbn in Hid.
      rewrite (NoDup_ids_In (jobs w) x old (proj1 Hok) Hx Hin Hid), Hk. reflexivity.
    + rewrite same_key_row. reflexivity.
  - exists {| id := next_id w; job := jobDetails; is_active := true;
              last_seen := None |}.
    split; [reflexivity|]. split; [reflexivity|]. split; [reflexivity|]. split.
    { rewrite (store_ok_find_by_key jobDetails _ None (next_id w) Hok').
      - reflexivity.
      - cbn. apply in_or_app. right. left. reflexivity. }
    split; [repeat split|]. split; [|exact Hok'].
    cbn. rewrite List.filter_app. cbn [List.filter].
    rewrite same_key_row. apply app_nil_r.
Qed.

Lemma upsert_then_lookup_witness :
  exists row,
    fst (insertIntoJobTable posting_feb stale_world) = Some (id row)
    /\ job row = posting_feb /\ is_active row = true
    /\ fst (getJobByCompositeKey posting_feb
              (snd (insertIntoJobTable posting_feb stale_world))) =
         Some (row, job_features stale_world !! id row)
    /\ match find_by_key posting_feb stale_world with
       | Some old =>
           id row = id old /\ last_seen row = last_seen old
           /\ length (jobs (snd (insertIntoJobTable posting_feb stale_world))) =
              length (jobs stale_world)
       | None =>
           id row = next_id stale_world /\ last_seen row = None
           /\ jobs (snd (insertIntoJobTable posting_feb stale_world)) =
              jobs stale_world ++ [row]
       end
    /\ List.filter (fun x => negb (same_key posting_feb x))
         (jobs (snd (insertIntoJobTable posting_feb stale_world))) =
       List.filter (fun x => negb (same_key posting_feb x)) (jobs stale_world)
    /\ store_ok (snd (insertIntoJobTable posting_feb stale_world)).
Proof.
  apply (upsert_then_lookup posting_feb stale_world); [|reflexivity].
  unfold store_ok. cbn. split; [apply NoDup_singleton|].
  split; [apply NoDup_singleton|].
  apply List.Forall_cons; [vm_compute; lia|apply List.Forall_nil].
Defined.

Lemma filter_app_other {A : Type} (P : A -> bool) (l : list A) (x : A) :
  P x = false -> List.filter P (l ++ [x]) = List.filter P l.
Proof.
  intros H. rewrite List.filter_app. cbn [List.filter]. rewrite H. apply app_nil_r.
Qed.

(** A snapshot that was stored is the one read back.  In a store that
    answers and whose snapshots of the job were stamped before the time the
    clock shows, [createJobSnapshot] succeeds; [getLatestSnapshotForJob]
    for the snapshot's job then returns it, stamped with the time of the
    clock; [getAllSnapshotsForJob] returns the job's earlier snapshots
    followed by it; and what the two return for any other job is as
    before. *)
Theorem snapshot_round_trip (snapshot : dbJobSnapshot) (w : World) :
  faults w = [] ->
  Forall (fun s => stamped_before (snapshot_at s) (Some (now w)))
    (snapshots_of (job_id snapshot) w) ->
  let r := createJobSnapshot snapshot w in
  let stored := stamped (now w) snapshot in
  fst r = true
  /\ fst (getLatestSnapshotForJob (job_id snapshot) (snd r)) = Some stored
  /\ fst (getAllSnapshotsForJob (job_id snapshot) (snd r)) =
       fst (getAllSnapshotsForJob (job_id snapshot) w) ++ [stored]
  /\ forall other : JobId, other <> job_id snapshot ->
       fst (getLatestSnapshotForJob other (snd r)) =
         fst (getLatestSnapshotForJob other w)
       /\ fst (getAllSnapshotsForJob other (snd r)) =
            fst (getAllSnapshotsForJob other w).
Proof.
  intros Hf Hold. cbn zeta. rewrite (createJobSnapshot_run snapshot w Hf). cbn [fst snd].
  assert (Hf' : faults (snapshot_inserted snapshot w) = []) by exact Hf.
  assert (Hall : forall i w0, faults w0 = [] ->
            fst (getAllSnapshotsForJob i w0) =
            order_by_snapshot_at (snapshots_of i w0)).
  { intros i w0 H0. unfold getAllSnapshotsForJob.
    rewrite (bind_run _ _ _ _ _ (call_no_faults w0 H0)). reflexivity. }
  assert (Hlast : forall i w0, faults w0 = [] ->
            fst (getLatestSnapshotForJob i w0) =
            last (order_by_snapshot_at (snapshots_of i w0))).
  { intros i w0 H0. rewrite (getLatestSnapshotForJob_run _ _ H0). reflexivity. }
  assert (Hsame : snapshots_of (job_id snapshot) (snapshot_inserted snapshot w) =
                  snapshots_of (job_id snapshot) w ++ [stamped (now w) snapshot]).
  { unfold snapshots_of. cbn [job_snapshots snapshot_inserted logged with_job_snapshots].
    rewrite List.filter_app. cbn [List.filter]. cbn [job_id stamped].
    rewrite Nat.eqb_refl. reflexivity. }
  assert (Hsorted : order_by_snapshot_at
                      (snapshots_of (job_id snapshot) (snapshot_inserted snapshot w)) =
                    order_by_snapshot_at (snapshots_of (job_id snapshot) w)
                    ++ [stamped (now w) snapshot])
    by (rewrite Hsame; apply order_by_snapshot_at_snoc; exact Hold).
  split; [reflexivity|].
  split; [rewrite (Hlast _ _ Hf'), Hsorted; apply last_snoc|].
  split; [rewrite (Hall _ _ Hf'), (Hall _ _ Hf); exact Hsorted|].
  intros other Hne.
  assert (Hother : snapshots_of other (snapshot_inserted snapshot w) =
                   snapshots_of other w).
  { unfold snapshots_of. cbn [job_snapshots snapshot_inserted logged with_job_snapshots].
    apply filter_app_other. cbn. apply Nat.eqb_neq. congruence. }
  rewrite (Hlast _ _ Hf'), (Hlast _ _ Hf), (Hall _ _ Hf'), (Hall _ _ Hf), Hother.
  split; reflexivity.
Qed.

Lemma snapshot_round_trip_witness :
  fst (createJobSnapshot (createSnapshotData 0%nat posting_feb)
         (at_time 172800000 ingested_world)) = true
  /\ fst (getLatestSnapshotForJob 0%nat
            (snd (createJobSnapshot (createSnapshotData 0%nat posting_feb)
                    (at_time 172800000 ingested_world)))) =
       Some (stamped 172800000 (createSnapshotData 0%nat posting_feb))
  /\ length
       (fst (getAllSnapshotsForJob 0%nat
               (snd (createJobSnapshot (createSnapshotData 0%nat posting_feb)
                       (at_time 172800000 ingested_world))))) = 2%nat.
Proof.
  assert (Hold : Forall (fun s => stamped_before (snapshot_at s) (Some 172800000))
                   (snapshots_of 0%nat (at_time 172800000 ingested_world))).
  { apply List.Forall_cons; [vm_compute; reflexivity|apply List.Forall_nil]. }
  pose proof (snapshot_round_trip (createSnapshotData 0%nat posting_feb)
                (at_time 172800000 ingested_world) eq_refl Hold) as (H1 & H2 & H3 & _).
  split; [exact H1|]. split; [exact H2|].
  change (job_id (createSnapshotData 0%nat posting_feb)) with 0%nat in H3.
  rewrite H3, length_app. reflexivity.
Defined.

(** A lock that was taken cannot be taken again.  When [set_request_lock]
    grants the lock to a user, the user's row is closed with one token
    less; a second [set_request_lock] for that user is not granted,
    whatever the store answers, and leaves the lock table as it is; and the
    rows of other users are as they were before the first call. *)
Theorem lock_is_exclusive (userId : string) (w : World) :
  fst (set_request_lock userId w) = Returned true ->
  let held := snd (set_request_lock userId w) in
  (exists row, request_lock w !! userId = Some row
     /\ request_lock held !! userId =
        Some {| is_available := false; tokens_remaining := tokens_remaining row - 1 |})
  /\ fst (set_request_lock userId held) <> Returned true
  /\ request_lock (snd (set_request_lock userId held)) = request_lock held
  /\ forall other : string, other <> userId ->
       request_lock held !! other = request_lock w !! other.
Proof.
  intros Hgrant. cbn zeta.
  pose proof (set_request_lock_cases userId w) as H1. cbn zeta in H1.
  destruct (request_lock w !! userId) as [row|] eqn:E.
  2:{ destruct H1 as [[H|H] _]; congruence. }
  destruct (is_available row).
  2:{ destruct H1 as [[H|H] _]; congruence. }
  destruct H1 as [[H _]|[[H _]|[[H _]|(_ & Ht & _)]]]; try congruence.
  assert (Hrow : request_lock (snd (set_request_lock userId w)) !! userId =
                 Some {| is_available := false;
                         tokens_remaining := tokens_remaining row - 1 |})
    by (rewrite Ht; apply lookup_insert_eq).
  split; [exists row; split; [reflexivity|exact Hrow]|].
  pose proof (set_request_lock_cases userId (snd (set_request_lock userId w))) as H2.
  cbn zeta in H2. rewrite Hrow in H2. cbn [is_available] in H2.
  destruct H2 as [H2 H2'].
  split; [destruct H2 as [H2|H2]; rewrite H2; discriminate|].
  split; [exact H2'|].
  intros other Hne. rewrite Ht, !lookup_insert_ne by congruence. reflexivity.
Qed.

Lemma lock_is_exclusive_witness :
  fst (set_request_lock "u1" (snd (set_request_lock "u1" spent_world)))
    <> Returned true.
Proof.
  apply (lock_is_exclusive "u1" spent_world). reflexivity.
Defined.

Lemma update_recorded_same (Date_getTime : string -> option Z) (v : option string) :
  update_recorded Date_getTime v v = false.
Proof.
  unfold update_recorded. destruct (truthy v); cbn [negb]; [|reflexivity].
  apply time_gt_same.
Qed.

Lemma snapshot_step_settles (existingJob : option (JobRow * option dbJobFeatures))
  (jobId : JobId) (adapterJob : AdapterJob) (w : World) :
  faults w = [] -> stamps_before_now w ->
  snapshot_due jobId adapterJob (snd (snapshot_step existingJob jobId adapterJob w))
  = false.
Proof.
  intros Hf Hold. rewrite (snapshot_step_run existingJob jobId adapterJob w Hf). cbn [snd].
  destruct (createSnapshotData_fields jobId adapterJob) as [Hid Hat].
  assert (Hins : snapshot_due jobId adapterJob
                   (snapshot_inserted (createSnapshotData jobId adapterJob) w) = false).
  { unfold snapshot_due, latest_snapshot.
    cbn [job_snapshots snapshot_inserted logged with_job_snapshots].
    rewrite List.filter_app. cbn [List.filter]. cbn [job_id stamped].
    rewrite Hid, Nat.eqb_refl, order_by_snapshot_at_snoc, last_snoc.
    - apply hasAtsUpdatedAtChanged_same. exact Hat.
    - cbn [snapshot_at]. apply List.Forall_forall. intros s Hs.
      apply filter_In in Hs as [Hs _]. unfold stamps_before_now in Hold.
      rewrite List.Forall_forall in Hold. apply Hold, Hs. }
  destruct existingJob as [e|]; [|exact Hins].
  destruct (snapshot_due jobId adapterJob w) eqn:Ed; [exact Hins|exact Ed].
Qed.

Section Reanalysis.

Variable Date_getTime : string -> option Z.
Variable analyzeAdapterJob : AdapterJob -> dbJobFeatures.

(** Analysing the same posting again adds no history.  In a store whose
    ids and keys are unique, that answers, and whose snapshots were stamped
    before the time the clock shows, once [analyzeJob] has saved a posting
    under an id, a second [analyzeJob] of the same posting, at any time of
    the clock, ends with the same id (from the cache or saved again) and
    adds no row to [job_updates] and no snapshot. *)
Theorem reanalysis_adds_no_history (adapterJob : AdapterJob) (w : World)
  (i : JobId) (t : Z) :
  store_ok w -> faults w = [] -> stamps_before_now w ->
  fst (analyzeJob Date_getTime analyzeAdapterJob adapterJob w) = Saved i ->
  let w1 := at_time t (snd (analyzeJob Date_getTime analyzeAdapterJob adapterJob w)) in
  let r2 := analyzeJob Date_getTime analyzeAdapterJob adapterJob w1 in
  (fst r2 = UsedCache i \/ fst r2 = Saved i)
  /\ job_updates (snd r2) = job_updates w1
  /\ job_snapshots (snd r2) = job_snapshots w1.
Proof.
  intros Hok Hf Hold Hsaved. cbn zeta.
  pose proof (analyzeJob_cases Date_getTime analyzeAdapterJob adapterJob w) as [Hg Hc].
  cbn zeta in Hg, Hc. rewrite Hsaved in Hc.
  destruct Hc as (Egh & (seen & Hin) & e & w3 & Hg3 & Etail).
  set (w' := snd (analyzeJob Date_getTime analyzeAdapterJob adapterJob w)) in *.
  assert (Hok' : store_ok w') by (apply Hg, Hok).
  pose proof (grows_no_faults _ _ _ _ _ _ Hg Hf) as Hf'.
  pose proof (store_ok_find_by_key adapterJob w' seen i Hok' Hin) as Hfind.
  assert (Hdue : snapshot_due i adapterJob w' = false).
  { rewrite Etail. apply snapshot_step_settles.
    - apply (grows_no_faults _ _ _ _ _ _ Hg3 Hf).
    - unfold stamps_before_now.
      rewrite (grows_snapshots_same _ _ _ _ _ Hg3).
      destruct Hg3 as (_ & -> & _). exact Hold. }
  assert (Hf1 : faults (at_time t w') = []) by exact Hf'.
  assert (Hfind1 : find_by_key adapterJob (at_time t w') =
            Some {| id := i; job := adapterJob; is_active := true; last_seen := seen |})
    by exact Hfind.
  assert (Hdue1 : snapshot_due i adapterJob (at_time t w') = false) by exact Hdue.
  assert (Hnd1 : NoDup (map id (jobs (at_time t w')))) by (apply Hok').
  rewrite (analyzeJob_run Date_getTime analyzeAdapterJob adapterJob _ Hf1 Egh), Hfind1.
  destruct (cache_hit adapterJob (at_time t w')).
  - cbn [fst snd id]. split; [left; reflexivity|]. split; reflexivity.
  - pose proof (reingest_existing Date_getTime analyzeAdapterJob adapterJob
                  (at_time t w') _ (job_features (at_time t w') !! i)
                  Hf1 Hnd1 Hfind1) as (H1 & H2 & H3 & _).
    cbn [id job] in H1, H2, H3. cbn [id].
    rewrite update_recorded_same in H2. rewrite Hdue1 in H3.
    rewrite app_nil_r in H2, H3.
    split; [right; exact H1|]. split; [exact H2|exact H3].
Qed.

End Reanalysis.

Lemma reanalysis_adds_no_history_witness :
  job_snapshots
    (snd (analyzeJob Builtins.Date_getTime no_features posting_jan
            (at_time 172800000 ingested_world)))
  = job_snapshots ingested_world.
Proof.
  refine (proj2 (proj2 (reanalysis_adds_no_history Builtins.Date_getTime no_features
                          posting_jan empty_world 0%nat 172800000 _ eq_refl _ _))).
  - unfold store_ok. cbn. split; [apply NoDup_nil_2|].
    split; [apply NoDup_nil_2|apply List.Forall_nil].
  - apply List.Forall_nil.
  - vm_compute. reflexivity.
Defined.
